(** * The automaton engine of [automataC.c], embedded and verified

    The C functions of [src/sage/combinat/words/automataC.c] are translated
    function by function.  C [int]s are integers of [Z] (the indices handled
    here never leave the range of [int]; the one computation that does,
    [hash], has its 32 bits written out); an array is a [list] read and
    written by index, and an access outside the allocation, or through a
    pointer that was never assigned, is the result [OutOfBounds]; recursive
    traversals and [while] loops carry a budget and answer [OutOfFuel] when
    it is spent. *)

From Stdlib Require Import ZArith Lia.
From stdpp Require Import base tactics option list list_numbers numbers.

Local Open Scope Z_scope.

(** ** Results of a C call *)

Inductive Res (A : Type) : Type :=
| Ok (x : A)
| OutOfBounds
| OutOfFuel.
Arguments Ok {A} x.
Arguments OutOfBounds {A}.
Arguments OutOfFuel {A}.

#[global] Instance Res_ret : MRet Res := @Ok.
#[global] Instance Res_bind : MBind Res := λ A B k m,
  match m with
  | Ok x => k x
  | OutOfBounds => OutOfBounds
  | OutOfFuel => OutOfFuel
  end.

(** ** Arrays *)

(** [t[k]] as an rvalue. *)
Definition rd {A} (t : list A) (k : Z) : Res A :=
  if decide (0 ≤ k) then
    match t !! Z.to_nat k with Some x => Ok x | None => OutOfBounds end
  else OutOfBounds.

(** [t[k] = x]. *)
Definition wr {A} (t : list A) (k : Z) (x : A) : Res (list A) :=
  if decide (0 ≤ k < Z.of_nat (length t)) then Ok (<[Z.to_nat k := x]> t)
  else OutOfBounds.

(** [for (j = j0; j < j0 + len; j++) body], the loop state threaded through. *)
Fixpoint for_ {S} (js : list Z) (body : Z → S → Res S) (s : S) : Res S :=
  match js with
  | [] => Ok s
  | j :: js' => s' ← body j s; for_ js' body s'
  end.

(** The value of a C comparison used as an integer. *)
Definition b2z (b : bool) : Z := if b then 1 else 0.

(** ** Data model *)

(** What [malloc] leaves in a cell that was never written. *)
Definition UNINIT : Z := -559038737.

(** Modelled from the spec: [Automaton.h] (types [Etat] and [Automate]) is not
    among the sources.  Fields as the code uses them: a state has its row of
    [na] targets [f] ([-1] for an absent transition) and the integer field
    [final], whose bit 0 is the finality flag and whose bits 1 and 2 are the
    scratch marks of the traversals; an automaton has its states [e], the
    number [n] of states, the number [na] of letters and the initial state
    [i] ([-1] when there is none). *)
Record Etat : Type := mkEtat { e_f : list Z; e_final : Z }.
Record Automate : Type := mkAutomate
  { a_e : list Etat; a_n : Z; a_na : Z; a_i : Z }.
Abbreviation Automaton := Automate.

(** [struct Dict { int *e; int n; }]: [n] is the length of [e] throughout. *)
Abbreviation Dict := (list Z).
Definition d_n (d : Dict) : Z := Z.of_nat (length d).

#[global] Instance Etat_inhabited : Inhabited Etat := populate (mkEtat [] 0).

Definition set_f (s : Etat) (j : Z) (v : Z) : Res Etat :=
  r ← wr (e_f s) j v; Ok (mkEtat r (e_final s)).
Definition set_final (s : Etat) (v : Z) : Etat := mkEtat (e_f s) v.

(** [t[k].f[j] = v] and [t[k].final = v]. *)
Definition wr_f (t : list Etat) (k j v : Z) : Res (list Etat) :=
  s ← rd t k; s' ← set_f s j v; wr t k s'.
Definition wr_final (t : list Etat) (k v : Z) : Res (list Etat) :=
  s ← rd t k; wr t k (set_final s v).
(** [t[k].f[j]] and [t[k].final] as rvalues. *)
Definition rd_f (t : list Etat) (k j : Z) : Res Z :=
  s ← rd t k; rd (e_f s) j.
Definition rd_final (t : list Etat) (k : Z) : Res Z :=
  s ← rd t k; Ok (e_final s).

(** An automaton as the callers build it: [n] rows of [na] targets, each
    absent or a state, pure finality flags, initial state absent or a state. *)
Record wf (a : Automaton) : Prop := mkwf
  { wf_n : Z.of_nat (length (a_e a)) = a_n a;
    wf_na : 0 ≤ a_na a;
    wf_row : ∀ s, s ∈ a_e a → Z.of_nat (length (e_f s)) = a_na a;
    wf_tgt : ∀ s t, s ∈ a_e a → t ∈ e_f s → -1 ≤ t < a_n a;
    wf_fin : ∀ s, s ∈ a_e a → e_final s = 0 ∨ e_final s = 1;
    wf_i : -1 ≤ a_i a < a_n a }.

(** The same conditions, computed. *)
Definition wfb (a : Automaton) : bool :=
  bool_decide (Z.of_nat (length (a_e a)) = a_n a)
  && bool_decide (0 ≤ a_na a)
  && forallb (λ s, bool_decide (Z.of_nat (length (e_f s)) = a_na a)
                   && forallb (λ t, bool_decide (-1 ≤ t < a_n a)) (e_f s)
                   && bool_decide (e_final s = 0 ∨ e_final s = 1)) (a_e a)
  && bool_decide (-1 ≤ a_i a < a_n a).

Lemma wfb_wf a : wfb a = true → wf a.
Proof.
  unfold wfb. rewrite !andb_true_iff, forallb_forall.
  intros [[[Hn Hna] Hrows] Hi].
  rewrite bool_decide_eq_true in Hn. rewrite bool_decide_eq_true in Hna.
  rewrite bool_decide_eq_true in Hi.
  assert (∀ s, s ∈ a_e a →
            Z.of_nat (length (e_f s)) = a_na a
            ∧ (∀ t, t ∈ e_f s → -1 ≤ t < a_n a)
            ∧ (e_final s = 0 ∨ e_final s = 1)) as H.
  { intros s Hs%list_elem_of_In. specialize (Hrows s Hs).
    rewrite !andb_true_iff, forallb_forall in Hrows.
    destruct Hrows as [[H1 H2] H3]. rewrite bool_decide_eq_true in H1.
    rewrite bool_decide_eq_true in H3.
    split; [exact H1|]. split; [|exact H3].
    intros t Ht%list_elem_of_In. specialize (H2 t Ht).
    rewrite bool_decide_eq_true in H2. exact H2. }
  split; auto.
  - intros s Hs. apply H, Hs.
  - intros s t Hs. apply H, Hs.
  - intros s Hs. apply H, Hs.
Qed.

(** ** Allocation *)

Definition NewAutomaton (n na : Z) : Automaton :=
  if decide (n = 0) then mkAutomate [] n na (-1)
  else mkAutomate
         (replicate (Z.to_nat n) (mkEtat (replicate (Z.to_nat na) UNINIT) UNINIT))
         n na UNINIT.

Definition init (a : Automaton) : Res Automaton :=
  es ← for_ (seqZ 0 (a_n a)) (λ i es,
          es ← wr_final es i 0;
          for_ (seqZ 0 (a_na a)) (λ j es, wr_f es i j (-1)) es)
        (a_e a);
  Ok (mkAutomate es (a_n a) (a_na a) (-1)).

(** [realloc] to one more state, whose row is absent everywhere. *)
Definition AddEtat (a : Automaton) (final : bool) : Res Automaton :=
  let n := a_n a + 1 in
  let es := take (Z.to_nat (a_n a)) (a_e a)
            ++ [mkEtat (replicate (Z.to_nat (a_na a)) UNINIT) UNINIT] in
  es ← for_ (seqZ 0 (a_na a)) (λ i es, wr_f es (n - 1) i (-1)) es;
  es ← wr_final es (n - 1) (b2z final);
  Ok (mkAutomate es n (a_na a) (a_i a)).

(** ** Vertex deletion *)

Definition DeleteVertex (a : Automaton) (e : Z) : Res Automaton :=
  let r := NewAutomaton (a_n a - 1) (a_na a) in
  es ← for_ (seqZ 0 (a_n a - 1)) (λ i es,
          es ← for_ (seqZ 0 (a_na a)) (λ j es,
                  f ← rd_f (a_e a) (i + b2z (bool_decide (e ≤ i))) j;
                  if decide (f ≠ e)
                  then wr_f es i j (f - b2z (bool_decide (e ≤ f)))
                  else wr_f es i j (-1)) es;
          fin ← rd_final (a_e a) (i + b2z (bool_decide (e ≤ i)));
          wr_final es i fin)
        (a_e r);
  Ok (mkAutomate es (a_n r) (a_na r) (a_i a - b2z (bool_decide (e ≤ a_i a)))).

(** In place.  When the last state goes, the function returns before it has
    looked at the initial state. *)
Definition DeleteVertexOP (a : Automaton) (e : Z) : Res Automaton :=
  let n := a_n a - 1 in
  if decide (n = 0) then Ok (mkAutomate [] n (a_na a) (a_i a))
  else
    es ← for_ (seqZ 0 n) (λ i es,
            es ← for_ (seqZ 0 (a_na a)) (λ j es,
                    f ← rd_f es (i + b2z (bool_decide (e ≤ i))) j;
                    if decide (f ≠ e)
                    then wr_f es i j (f - b2z (bool_decide (e ≤ f)))
                    else wr_f es i j (-1)) es;
            fin ← rd_final es (i + b2z (bool_decide (e ≤ i)));
            wr_final es i fin)
          (a_e a);
    Ok (mkAutomate es n (a_na a)
          (if decide (e = a_i a) then -1
           else a_i a - b2z (bool_decide (e ≤ a_i a)))).

(** ** Reasoning about results, arrays and loops *)

Lemma bind_Ok {A B} (m : Res A) (k : A → Res B) y :
  m ≫= k = Ok y ↔ ∃ x, m = Ok x ∧ k x = Ok y.
Proof.
  destruct m; simpl; split; intros H; try discriminate.
  - eauto.
  - destruct H as (x' & [= ->] & H). exact H.
  - destruct H as (? & ? & _). discriminate.
  - destruct H as (? & ? & _). discriminate.
Qed.

Lemma Ok_bind {A B} (x : A) (k : A → Res B) : Ok x ≫= k = k x.
Proof. reflexivity. Qed.

(** One step of a computation whose first call has returned. *)
Ltac ok := rewrite ?Ok_bind; cbv beta.

Lemma rd_Ok {A} (t : list A) k x :
  rd t k = Ok x ↔ 0 ≤ k ∧ t !! Z.to_nat k = Some x.
Proof.
  unfold rd. case_decide.
  - destruct (t !! Z.to_nat k); split; intros H1; try discriminate.
    + injection H1 as ->. auto.
    + destruct H1 as [_ [= ->]]. reflexivity.
    + destruct H1 as [_ H1]. discriminate.
  - split; [discriminate | intros [? _]; lia].
Qed.

Lemma rd_lookup {A} (t : list A) k x :
  0 ≤ k → t !! Z.to_nat k = Some x → rd t k = Ok x.
Proof. intros. apply rd_Ok. auto. Qed.

Lemma rd_neg {A} (t : list A) k : ¬ 0 ≤ k → rd t k = OutOfBounds.
Proof. intros. unfold rd. rewrite decide_False by assumption. reflexivity. Qed.

Lemma rd_None {A} (t : list A) k : t !! Z.to_nat k = None → rd t k = OutOfBounds.
Proof. intros H. unfold rd. rewrite H. case_decide; reflexivity. Qed.

Lemma rd_in_range {A} (t : list A) k :
  0 ≤ k < Z.of_nat (length t) → ∃ x, rd t k = Ok x ∧ t !! Z.to_nat k = Some x.
Proof.
  intros H. destruct (lookup_lt_is_Some_2 t (Z.to_nat k)) as [x Hx]; [lia|].
  exists x. split; [apply rd_lookup; [lia | exact Hx] | exact Hx].
Qed.

Lemma wr_Ok {A} (t : list A) k x t' :
  wr t k x = Ok t' ↔ 0 ≤ k < Z.of_nat (length t) ∧ t' = <[Z.to_nat k := x]> t.
Proof.
  unfold wr. case_decide; split; intros H1; try discriminate.
  - injection H1 as <-. auto.
  - destruct H1 as [_ ->]. reflexivity.
  - destruct H1 as [? _]. lia.
Qed.

Lemma wr_in_range {A} (t : list A) k x :
  0 ≤ k < Z.of_nat (length t) → wr t k x = Ok (<[Z.to_nat k := x]> t).
Proof. intros. apply wr_Ok. auto. Qed.

(** A loop over [m, m + len) keeps an invariant indexed by the counter. *)
Lemma for_seqZ_inv {S} (P : Z → S → Prop) (body : Z → S → Res S) m len s :
  0 ≤ len → P m s →
  (∀ j s, m ≤ j < m + len → P j s → ∃ s', body j s = Ok s' ∧ P (j + 1) s') →
  ∃ s', for_ (seqZ m len) body s = Ok s' ∧ P (m + len) s'.
Proof.
  intros Hlen. remember (Z.to_nat len) as k eqn:Hk.
  revert m len s Hlen Hk. induction k as [|k IH]; intros m len s Hlen Hk HP Hstep.
  - assert (len = 0) as -> by lia. rewrite seqZ_nil by lia. simpl.
    exists s. split; [reflexivity|]. replace (m + 0) with m by lia. exact HP.
  - rewrite seqZ_cons by lia. simpl.
    destruct (Hstep m s) as (s1 & -> & HP1); [lia | exact HP |]. simpl.
    destruct (IH (Z.succ m) (Z.pred len) s1) as (s2 & Hs2 & HP2); try lia.
    + replace (Z.succ m) with (m + 1) by lia. exact HP1.
    + intros j s0 Hj. apply Hstep. lia.
    + exists s2. split; [exact Hs2|].
      replace (m + len) with (Z.succ m + Z.pred len) by lia. exact HP2.
Qed.

(** The same for a loop that may fail: what a successful run establishes. *)
Lemma for_seqZ_post {S} (P : Z → S → Prop) (body : Z → S → Res S) m len s s' :
  0 ≤ len → P m s →
  (∀ j s s', m ≤ j < m + len → P j s → body j s = Ok s' → P (j + 1) s') →
  for_ (seqZ m len) body s = Ok s' → P (m + len) s'.
Proof.
  intros Hlen. remember (Z.to_nat len) as k eqn:Hk.
  revert m len s Hlen Hk. induction k as [|k IH]; intros m len s Hlen Hk HP Hstep.
  - assert (len = 0) as -> by lia. rewrite seqZ_nil by lia. simpl.
    intros [= <-]. replace (m + 0) with m by lia. exact HP.
  - rewrite seqZ_cons by lia. simpl. intros H.
    apply bind_Ok in H as (s1 & Hb & H).
    replace (m + len) with (Z.succ m + Z.pred len) by lia.
    apply (IH _ _ s1); try lia; try exact H.
    + replace (Z.succ m) with (m + 1) by lia. eapply Hstep; eauto. lia.
    + intros j s0 s0' Hj. apply Hstep. lia.
Qed.

Lemma wf_row_lookup a k s :
  wf a → a_e a !! k = Some s → Z.of_nat (length (e_f s)) = a_na a.
Proof. intros Hwf Hk. eapply wf_row; [exact Hwf|]. eapply list_elem_of_lookup_2, Hk. Qed.

Lemma rd_f_Ok t k j v :
  rd_f t k j = Ok v ↔ ∃ s, rd t k = Ok s ∧ rd (e_f s) j = Ok v.
Proof. unfold rd_f. apply bind_Ok. Qed.

Lemma rd_final_Ok t k v :
  rd_final t k = Ok v ↔ ∃ s, rd t k = Ok s ∧ e_final s = v.
Proof.
  unfold rd_final. rewrite bind_Ok. split; intros (s & ? & H); exists s; split; auto; congruence.
Qed.

Lemma rd_final_lookup t k s :
  0 ≤ k → t !! Z.to_nat k = Some s → rd_final t k = Ok (e_final s).
Proof. intros. unfold rd_final. rewrite (rd_lookup t k s) by assumption. reflexivity. Qed.

Lemma wr_f_Ok t k j v t' :
  wr_f t k j v = Ok t' ↔
  ∃ s, t !! Z.to_nat k = Some s ∧ 0 ≤ k ∧ 0 ≤ j < Z.of_nat (length (e_f s)) ∧
       t' = <[Z.to_nat k := mkEtat (<[Z.to_nat j := v]> (e_f s)) (e_final s)]> t.
Proof.
  unfold wr_f, set_f. rewrite bind_Ok. split.
  - intros (s & Hs & H). apply bind_Ok in H as (s' & H & Hw).
    apply bind_Ok in H as (r & Hr & [= <-]).
    apply rd_Ok in Hs as [? Hs]. apply wr_Ok in Hr as [? ->]. apply wr_Ok in Hw as [? ->].
    exists s. auto.
  - intros (s & Hs & ? & ? & ->). exists s. split; [apply rd_lookup; auto|].
    rewrite wr_in_range by auto. simpl. apply wr_in_range.
    split; [auto|]. apply lookup_lt_Some in Hs. lia.
Qed.

Lemma wr_final_Ok t k v t' :
  wr_final t k v = Ok t' ↔
  ∃ s, t !! Z.to_nat k = Some s ∧ 0 ≤ k ∧
       t' = <[Z.to_nat k := mkEtat (e_f s) v]> t.
Proof.
  unfold wr_final, set_final. rewrite bind_Ok. split.
  - intros (s & Hs & Hw). apply rd_Ok in Hs as [? Hs]. apply wr_Ok in Hw as [? ->].
    exists s. auto.
  - intros (s & Hs & ? & ->). exists s. split; [apply rd_lookup; auto|].
    apply wr_in_range. split; [auto|]. apply lookup_lt_Some in Hs. lia.
Qed.

Lemma insert_take_drop {A} (X Y : list A) (j : nat) v :
  X !! j = Some v → (j < length Y)%nat →
  <[j := v]> (take j X ++ drop j Y) = take (S j) X ++ drop (S j) Y.
Proof.
  intros HX HY. pose proof (lookup_lt_Some _ _ _ HX) as HjX.
  destruct (lookup_lt_is_Some_2 Y j HY) as [y Hy].
  rewrite (take_S_r _ _ _ HX), (drop_S _ _ _ Hy).
  rewrite insert_app_r_alt by (rewrite length_take; lia).
  rewrite length_take. replace (j - j `min` length X)%nat with 0%nat by lia.
  simpl. rewrite <- app_assoc. reflexivity.
Qed.

(** ** Vertex deletion: what the copy contains *)

(** The state of [a] that becomes state [k] once [e] is gone. *)
Definition survivor (e k : Z) : Z := k + b2z (bool_decide (e ≤ k)).
(** The new name of target [t]. *)
Definition retarget (e t : Z) : Z :=
  if decide (t ≠ e) then t - b2z (bool_decide (e ≤ t)) else -1.

Lemma DeleteVertex_row (src : Etat) e i (es0 : list Etat) row0 :
  es0 !! Z.to_nat i = Some row0 → 0 ≤ i →
  length (e_f row0) = length (e_f src) →
  ∀ t k, t !! Z.to_nat k = Some src → 0 ≤ k →
  ∃ es, for_ (seqZ 0 (Z.of_nat (length (e_f src)))) (λ j es,
            f ← rd_f t k j;
            if decide (f ≠ e)
            then wr_f es i j (f - b2z (bool_decide (e ≤ f)))
            else wr_f es i j (-1)) es0 = Ok es
        ∧ es = <[Z.to_nat i := mkEtat (retarget e <$> e_f src) (e_final row0)]> es0.
Proof.
  intros Hrow Hi Hlen t k Hsrc Hk.
  set (na := Z.of_nat (length (e_f src))).
  destruct (for_seqZ_inv
    (λ j es, es = <[Z.to_nat i :=
                     mkEtat (take (Z.to_nat j) (retarget e <$> e_f src)
                             ++ drop (Z.to_nat j) (e_f row0)) (e_final row0)]> es0)
    (λ j es, f ← rd_f t k j;
             if decide (f ≠ e)
             then wr_f es i j (f - b2z (bool_decide (e ≤ f)))
             else wr_f es i j (-1)) 0 na es0) as (es & Hes & HP).
  - lia.
  - simpl. rewrite drop_0. destruct row0. symmetry. apply list_insert_id. exact Hrow.
  - intros j es Hj ->.
    destruct (rd_in_range (e_f src) j) as (v & Hv & Hv'); [lia|].
    assert (rd_f t k j = Ok v) as ->.
    { apply rd_f_Ok. exists src. split; [apply rd_lookup; auto | exact Hv]. }
    simpl.
    assert (∀ w, w = retarget e v →
      wr_f (<[Z.to_nat i := mkEtat (take (Z.to_nat j) (retarget e <$> e_f src)
                             ++ drop (Z.to_nat j) (e_f row0)) (e_final row0)]> es0) i j w
      = Ok (<[Z.to_nat i := mkEtat (take (Z.to_nat (j + 1)) (retarget e <$> e_f src)
                             ++ drop (Z.to_nat (j + 1)) (e_f row0)) (e_final row0)]> es0)) as Hw.
    { intros w ->. apply wr_f_Ok. eexists. split.
      - apply list_lookup_insert_eq. eapply lookup_lt_Some, Hrow.
      - split; [lia|]. simpl. split.
        + rewrite length_app, length_take, length_drop, length_fmap. lia.
        + rewrite list_insert_insert_eq. f_equal. f_equal.
          replace (Z.to_nat (j + 1)) with (S (Z.to_nat j)) by lia.
          symmetry. apply insert_take_drop.
          * rewrite list_lookup_fmap, Hv'. reflexivity.
          * lia. }
    unfold retarget in Hw. case_decide; eexists; (split; [apply Hw; reflexivity | reflexivity]).
  - exists es. split; [exact Hes|]. rewrite HP.
    replace (Z.to_nat (0 + na)) with (length (retarget e <$> e_f src))
      by (rewrite length_fmap; lia).
    rewrite take_ge by lia. rewrite drop_ge by (rewrite length_fmap; lia).
    rewrite app_nil_r. reflexivity.
Qed.

Definition DeleteVertex_rows (a : Automaton) (e : Z) : list Etat :=
  (λ k, let src := a_e a !!! Z.to_nat (survivor e k) in
        mkEtat (retarget e <$> e_f src) (e_final src)) <$> seqZ 0 (a_n a - 1).

Lemma survivor_range e k n : 0 ≤ e → 0 ≤ k < n - 1 → 0 ≤ survivor e k < n.
Proof. unfold survivor, b2z. intros. case_bool_decide; lia. Qed.

Lemma DeleteVertex_eq a e :
  wf a → 0 ≤ e < a_n a →
  DeleteVertex a e
  = Ok (mkAutomate (DeleteVertex_rows a e) (a_n a - 1) (a_na a)
          (a_i a - b2z (bool_decide (e ≤ a_i a)))).
Proof.
  intros Hwf He. unfold DeleteVertex.
  set (es0 := a_e (NewAutomaton (a_n a - 1) (a_na a))).
  assert (length es0 = Z.to_nat (a_n a - 1)) as Hes0.
  { unfold es0, NewAutomaton. case_decide as Hn; simpl.
    - rewrite Hn. reflexivity.
    - apply length_replicate. }
  assert (∀ k row, es0 !! k = Some row → length (e_f row) = Z.to_nat (a_na a)) as Hrow0.
  { unfold es0, NewAutomaton. intros k row. case_decide; simpl.
    - rewrite lookup_nil. discriminate.
    - intros [-> _]%lookup_replicate. simpl. apply length_replicate. }
  assert (length (DeleteVertex_rows a e) = Z.to_nat (a_n a - 1)) as HlenT.
  { unfold DeleteVertex_rows. rewrite length_fmap, length_seqZ. reflexivity. }
  match goal with |- context [for_ _ ?b _] => set (body := b) end.
  destruct (for_seqZ_inv
    (λ i es, es = take (Z.to_nat i) (DeleteVertex_rows a e) ++ drop (Z.to_nat i) es0)
    body 0 (a_n a - 1) es0) as (es & Hes & HP).
  - lia.
  - simpl. rewrite drop_0. reflexivity.
  - intros i es Hi ->.
    pose proof (survivor_range e i (a_n a) ltac:(lia) ltac:(lia)) as Hsv.
    destruct (rd_in_range (a_e a) (survivor e i)) as (src & Hsrc & Hsrc');
      [rewrite (wf_n a Hwf); lia|].
    pose proof (wf_row_lookup _ _ _ Hwf Hsrc') as Hsrclen.
    destruct (lookup_lt_is_Some_2 es0 (Z.to_nat i)) as [row0 Hrow0']; [lia|].
    assert ((take (Z.to_nat i) (DeleteVertex_rows a e) ++ drop (Z.to_nat i) es0)
              !! Z.to_nat i = Some row0) as Hcur.
    { rewrite lookup_app_r by (rewrite length_take; lia).
      rewrite length_take, lookup_drop.
      replace (Z.to_nat i + (Z.to_nat i - Z.to_nat i `min` length (DeleteVertex_rows a e)))%nat
        with (Z.to_nat i) by lia. exact Hrow0'. }
    unfold body at 1. fold (survivor e i). rewrite <- Hsrclen.
    edestruct (DeleteVertex_row src e i) as (es1 & -> & ->);
      [exact Hcur | lia | | exact Hsrc' | lia |].
    { rewrite (Hrow0 _ _ Hrow0'). lia. }
    simpl. assert (rd_final (a_e a) (survivor e i) = Ok (e_final src)) as ->.
    { apply rd_final_Ok. eauto. }
    simpl. eexists. split.
    + apply wr_final_Ok. eexists. split; [|split; [lia|reflexivity]].
      apply list_lookup_insert_eq. eapply lookup_lt_Some, Hcur.
    + simpl. rewrite list_insert_insert_eq.
      replace (Z.to_nat (i + 1)) with (S (Z.to_nat i)) by lia.
      apply insert_take_drop; [|lia].
      unfold DeleteVertex_rows. rewrite list_lookup_fmap, lookup_seqZ_lt by lia.
      simpl. replace (0 + Z.of_nat (Z.to_nat i)) with i by lia.
      rewrite (list_lookup_total_correct _ _ _ Hsrc'). reflexivity.
  - rewrite Hes. simpl. f_equal.
    assert (a_n (NewAutomaton (a_n a - 1) (a_na a)) = a_n a - 1) as ->
      by (unfold NewAutomaton; case_decide; reflexivity).
    assert (a_na (NewAutomaton (a_n a - 1) (a_na a)) = a_na a) as ->
      by (unfold NewAutomaton; case_decide; reflexivity).
    f_equal. rewrite HP. rewrite take_ge, drop_ge by lia. apply app_nil_r.
Qed.

(** C8.  Deleting state [e] of an [n]-state automaton, [0 <= e < n], gives an
    automaton of [n - 1] states over the same alphabet.  Its state [k] is the
    old state [k] when [k < e] and the old state [k + 1] otherwise; it keeps
    that state's finality, and each of its targets is the old target [t]
    minus one when [t > e], [t] itself when [t < e] (an absent target stays
    absent), and absent when [t = e]. *)
Theorem DeleteVertex_spec (a : Automaton) (e : Z) :
  wf a → 0 ≤ e < a_n a →
  ∃ r, DeleteVertex a e = Ok r
       ∧ a_n r = a_n a - 1 ∧ Z.of_nat (length (a_e r)) = a_n a - 1
       ∧ a_na r = a_na a
       ∧ ∀ k, 0 ≤ k < a_n a - 1 →
           let old := if decide (k < e) then k else k + 1 in
           rd_final (a_e r) k = rd_final (a_e a) old
           ∧ ∀ j, 0 ≤ j < a_na a →
               ∃ t, rd_f (a_e a) old j = Ok t
                    ∧ rd_f (a_e r) k j
                      = Ok (if decide (e < t) then t - 1
                            else if decide (t < e) then t else -1).
Proof.
  intros Hwf He. eexists. split; [apply DeleteVertex_eq; assumption|]. simpl.
  split; [reflexivity|]. split.
  { unfold DeleteVertex_rows. rewrite length_fmap, length_seqZ. lia. }
  split; [reflexivity|]. intros k Hk. cbv zeta.
  assert ((if decide (k < e) then k else k + 1) = survivor e k) as ->.
  { unfold survivor, b2z. case_decide; case_bool_decide; lia. }
  pose proof (survivor_range e k (a_n a) ltac:(lia) ltac:(lia)) as Hsv.
  destruct (rd_in_range (a_e a) (survivor e k)) as (src & Hsrc & Hsrc');
    [rewrite (wf_n a Hwf); lia|].
  assert (rd (DeleteVertex_rows a e) k
          = Ok (mkEtat (retarget e <$> e_f src) (e_final src))) as Hrow.
  { apply rd_lookup; [lia|]. unfold DeleteVertex_rows.
    rewrite list_lookup_fmap, lookup_seqZ_lt by lia. simpl.
    replace (0 + Z.of_nat (Z.to_nat k)) with k by lia.
    rewrite (list_lookup_total_correct _ _ _ Hsrc'). reflexivity. }
  split.
  - unfold rd_final. rewrite Hrow, Hsrc. reflexivity.
  - intros j Hj. pose proof (wf_row_lookup _ _ _ Hwf Hsrc') as Hlen.
    destruct (rd_in_range (e_f src) j) as (t & Ht & Ht'); [lia|].
    exists t. unfold rd_f. rewrite Hrow, Hsrc. simpl. split; [exact Ht|].
    apply rd_lookup; [lia|]. rewrite list_lookup_fmap, Ht'. simpl. f_equal.
    unfold retarget, b2z. repeat case_decide; try case_bool_decide; lia.
Qed.

(** The theorem at a three-state automaton whose middle state is deleted. *)
Definition three_states : Automaton :=
  mkAutomate [mkEtat [1; 2] 0; mkEtat [-1; 0] 1; mkEtat [2; 1] 1] 3 2 0.

Lemma three_states_wf : wf three_states.
Proof. apply wfb_wf. reflexivity. Qed.

Lemma DeleteVertex_spec_witness :
  wf three_states ∧ ∃ r, DeleteVertex three_states 1 = Ok r ∧ a_n r = 2.
Proof.
  split; [exact three_states_wf|].
  destruct (DeleteVertex_spec three_states 1 three_states_wf) as (r & Hr & Hn & _);
    [simpl; lia|].
  exists r. split; [exact Hr | exact Hn].
Defined.

(** ** Vertex deletion: the initial state *)

Definition two_states_initial_1 : Automaton :=
  mkAutomate [mkEtat [1] 0; mkEtat [0] 1] 2 1 1.
Definition one_state : Automaton := mkAutomate [mkEtat [0] 1] 1 1 0.

(** C9 fails on the code.  [DeleteVertex] computes the new initial state as
    [a.i - (a.i >= e)] without a test for [a.i == e]: deleting the initial
    state 1 of a two-state automaton leaves state 0 initial.  [DeleteVertexOP]
    has the test, but returns before it when the automaton becomes empty:
    deleting the only state, which is initial, leaves the initial state 0. *)
Theorem DeleteVertex_initial_state_survives :
  wf two_states_initial_1 ∧ wf one_state
  ∧ (∃ r, DeleteVertex two_states_initial_1 1 = Ok r ∧ a_n r = 1 ∧ a_i r = 0)
  ∧ (∃ r, DeleteVertexOP two_states_initial_1 1 = Ok r ∧ a_n r = 1 ∧ a_i r = -1)
  ∧ (∃ r, DeleteVertexOP one_state 0 = Ok r ∧ a_n r = 0 ∧ a_i r = 0).
Proof.
  split; [apply wfb_wf; reflexivity|]. split; [apply wfb_wf; reflexivity|].
  repeat split; eexists; (split; [vm_compute; reflexivity|]); split; reflexivity.
Qed.

(** ** Completion *)

(** The pair is the mutated automaton and the result ([true] iff a state was
    added). *)
Definition CompleteAutomaton (a : Automaton) : Res (bool * Automaton) :=
  let ne := a_n a in
  '(es, add_etat) ← for_ (seqZ 0 ne) (λ i st,
      for_ (seqZ 0 (a_na a)) (λ j '(es, add_etat),
        f ← rd_f es i j;
        if decide (f = -1)
        then es ← wr_f es i j ne; Ok (es, true)
        else Ok (es, add_etat)) st) (a_e a, false);
  let '(ai, add_etat) :=
    if decide (a_i a = -1) then (ne, true) else (a_i a, add_etat) in
  let a1 := mkAutomate es (a_n a) (a_na a) ai in
  if negb add_etat then Ok (false, a1)
  else
    a2 ← AddEtat a1 false;
    es ← for_ (seqZ 0 (a_na a2)) (λ j es, wr_f es ne j ne) (a_e a2);
    Ok (true, mkAutomate es (a_n a2) (a_na a2)
                (if decide (a_i a2 = -1) then ne else a_i a2)).

Definition lacks_0_0 : Automaton :=
  mkAutomate [mkEtat [-1; 1] 0; mkEtat [1; 1] 1] 2 2 0.

Example CompleteAutomaton_lacks_0_0 :
  CompleteAutomaton lacks_0_0
  = Ok (true, mkAutomate [mkEtat [2; 1] 0; mkEtat [1; 1] 1; mkEtat [2; 2] 0] 3 2 0).
Proof. reflexivity. Qed.

Example CompleteAutomaton_three_states :
  CompleteAutomaton three_states
  = Ok (true, mkAutomate [mkEtat [1; 2] 0; mkEtat [3; 0] 1; mkEtat [2; 1] 1;
                          mkEtat [3; 3] 0] 4 2 0).
Proof. reflexivity. Qed.

(** A loop that stores [v] in every cell of row [k]. *)
Lemma for_wr_f_const (es0 : list Etat) k v row0 na :
  es0 !! Z.to_nat k = Some row0 → 0 ≤ k → Z.of_nat (length (e_f row0)) = na →
  for_ (seqZ 0 na) (λ j es, wr_f es k j v) es0
  = Ok (<[Z.to_nat k := mkEtat (replicate (Z.to_nat na) v) (e_final row0)]> es0).
Proof.
  intros Hrow Hk Hlen.
  destruct (for_seqZ_inv
    (λ j es, es = <[Z.to_nat k :=
                     mkEtat (take (Z.to_nat j) (replicate (Z.to_nat na) v)
                             ++ drop (Z.to_nat j) (e_f row0)) (e_final row0)]> es0)
    (λ j es, wr_f es k j v) 0 na es0) as (es & Hes & HP).
  - lia.
  - simpl. rewrite drop_0. destruct row0. symmetry. apply list_insert_id. exact Hrow.
  - intros j es Hj ->. eexists. split; [|reflexivity].
    apply wr_f_Ok. eexists. split.
    + apply list_lookup_insert_eq. eapply lookup_lt_Some, Hrow.
    + split; [lia|]. simpl. split.
      * rewrite length_app, length_take, length_drop, length_replicate. lia.
      * rewrite list_insert_insert_eq. f_equal. f_equal.
        replace (Z.to_nat (j + 1)) with (S (Z.to_nat j)) by lia.
        symmetry. apply insert_take_drop; [|lia].
        apply lookup_replicate_2. lia.
  - rewrite Hes, HP. f_equal. f_equal. f_equal.
    rewrite take_ge by (rewrite length_replicate; lia).
    rewrite drop_ge by lia. apply app_nil_r.
Qed.

(** ** Completion: what the automaton becomes *)

(** The target [t] once the absent transitions lead to state [ne]. *)
Definition fill (ne t : Z) : Z := if decide (t = -1) then ne else t.
Definition fill_row (ne : Z) (s : Etat) : Etat :=
  mkEtat (fill ne <$> e_f s) (e_final s).
Definition row_lacks (s : Etat) : bool :=
  existsb (λ t, bool_decide (t = -1)) (e_f s).

Lemma existsb_take_S {A} (p : A → bool) (l : list A) (j : nat) x :
  l !! j = Some x → existsb p (take (S j) l) = existsb p (take j l) || p x.
Proof.
  intros H. rewrite (take_S_r _ _ _ H), existsb_app. simpl.
  rewrite orb_false_r. reflexivity.
Qed.

Lemma CompleteAutomaton_row ne i (es0 : list Etat) row0 add0 :
  es0 !! Z.to_nat i = Some row0 → 0 ≤ i →
  for_ (seqZ 0 (Z.of_nat (length (e_f row0)))) (λ j '(es, add_etat),
        f ← rd_f es i j;
        if decide (f = -1)
        then es ← wr_f es i j ne; Ok (es, true)
        else Ok (es, add_etat)) (es0, add0)
  = Ok (<[Z.to_nat i := fill_row ne row0]> es0, add0 || row_lacks row0).
Proof.
  intros Hrow Hi. set (na := Z.of_nat (length (e_f row0))).
  match goal with |- for_ _ ?b _ = _ => set (body := b) end.
  set (cur := λ j : Z, mkEtat (take (Z.to_nat j) (fill ne <$> e_f row0)
                               ++ drop (Z.to_nat j) (e_f row0)) (e_final row0)).
  destruct (for_seqZ_inv
    (λ j st, st = (<[Z.to_nat i := cur j]> es0,
                   add0 || existsb (λ t, bool_decide (t = -1))
                                   (take (Z.to_nat j) (e_f row0))))
    body 0 na (es0, add0)) as (st & Hst & HP).
  - lia.
  - unfold cur. simpl. rewrite drop_0, orb_false_r. destruct row0. simpl.
    f_equal. symmetry. apply list_insert_id. exact Hrow.
  - intros j st Hj ->. unfold body at 1.
    destruct (rd_in_range (e_f row0) j) as (v & Hv & Hv'); [lia|].
    assert (e_f (cur j) !! Z.to_nat j = Some v) as Hcurj.
    { unfold cur. simpl. rewrite lookup_app_r by (rewrite length_take; lia).
      rewrite length_take, length_fmap, lookup_drop.
      replace (Z.to_nat j + (Z.to_nat j - Z.to_nat j `min` length (e_f row0)))%nat
        with (Z.to_nat j) by lia. exact Hv'. }
    assert (<[Z.to_nat i := cur j]> es0 !! Z.to_nat i = Some (cur j)) as Hcur.
    { apply list_lookup_insert_eq. eapply lookup_lt_Some, Hrow. }
    assert (rd_f (<[Z.to_nat i := cur j]> es0) i j = Ok v) as ->.
    { apply rd_f_Ok. exists (cur j). split; apply rd_lookup; auto; lia. }
    simpl.
    assert (<[Z.to_nat j := fill ne v]> (e_f (cur j)) = e_f (cur (j + 1))) as Hnext.
    { unfold cur. simpl. replace (Z.to_nat (j + 1)) with (S (Z.to_nat j)) by lia.
      apply insert_take_drop; [|lia]. rewrite list_lookup_fmap, Hv'. reflexivity. }
    replace (Z.to_nat (j + 1)) with (S (Z.to_nat j)) by lia.
    rewrite (existsb_take_S _ _ _ _ Hv').
    replace (S (Z.to_nat j)) with (Z.to_nat (j + 1)) by lia.
    case_decide as Hv1.
    + assert (wr_f (<[Z.to_nat i := cur j]> es0) i j ne
              = Ok (<[Z.to_nat i := cur (j + 1)]> es0)) as ->.
      { apply wr_f_Ok. exists (cur j). split; [exact Hcur|]. split; [lia|]. split.
        - apply lookup_lt_Some in Hcurj. lia.
        - rewrite list_insert_insert_eq. f_equal.
          unfold fill in Hnext. rewrite decide_True in Hnext by exact Hv1.
          rewrite Hnext. reflexivity. }
      simpl. eexists. split; [reflexivity|]. f_equal.
      rewrite bool_decide_eq_true_2 by exact Hv1. rewrite !orb_true_r. reflexivity.
    + eexists. split; [reflexivity|]. f_equal.
      * f_equal. unfold fill in Hnext. rewrite decide_False in Hnext by exact Hv1.
        rewrite list_insert_id in Hnext by exact Hcurj.
        unfold cur in *. simpl in *. rewrite Hnext. reflexivity.
      * rewrite (bool_decide_eq_false_2 _ Hv1), orb_false_r. reflexivity.
  - rewrite Hst, HP. f_equal. unfold cur, fill_row, row_lacks. f_equal.
    + f_equal. f_equal. rewrite take_ge by (rewrite length_fmap; lia).
      rewrite drop_ge by lia. apply app_nil_r.
    + rewrite take_ge by lia. reflexivity.
Qed.

Lemma AddEtat_eq a fin :
  Z.of_nat (length (a_e a)) = a_n a → 0 ≤ a_na a →
  AddEtat a fin
  = Ok (mkAutomate (a_e a ++ [mkEtat (replicate (Z.to_nat (a_na a)) (-1)) (b2z fin)])
          (a_n a + 1) (a_na a) (a_i a)).
Proof.
  intros Hn Hna. unfold AddEtat.
  rewrite take_ge by lia.
  replace (a_n a + 1 - 1) with (a_n a) by lia.
  set (fresh := mkEtat (replicate (Z.to_nat (a_na a)) UNINIT) UNINIT).
  assert ((a_e a ++ [fresh]) !! Z.to_nat (a_n a) = Some fresh) as Hfresh.
  { rewrite lookup_app_r by lia.
    replace (Z.to_nat (a_n a) - length (a_e a))%nat with 0%nat by lia. reflexivity. }
  rewrite (for_wr_f_const _ _ _ fresh) by
    (try exact Hfresh; try lia; unfold fresh; simpl; rewrite length_replicate; lia).
  simpl.
  assert (∀ x, <[Z.to_nat (a_n a) := x]> (a_e a ++ [fresh]) = a_e a ++ [x]) as Hins.
  { intros x. rewrite insert_app_r_alt by lia.
    replace (Z.to_nat (a_n a) - length (a_e a))%nat with 0%nat by lia. reflexivity. }
  rewrite Hins.
  assert (wr_final (a_e a ++ [mkEtat (replicate (Z.to_nat (a_na a)) (-1)) UNINIT])
            (a_n a) (b2z fin)
          = Ok (a_e a ++ [mkEtat (replicate (Z.to_nat (a_na a)) (-1)) (b2z fin)])) as ->.
  { apply wr_final_Ok. eexists. split.
    - rewrite lookup_app_r by lia.
      replace (Z.to_nat (a_n a) - length (a_e a))%nat with 0%nat by lia. reflexivity.
    - split; [lia|]. simpl. rewrite insert_app_r_alt by lia.
      replace (Z.to_nat (a_n a) - length (a_e a))%nat with 0%nat by lia. reflexivity. }
  reflexivity.
Qed.

Lemma fill_id ne (f : list Z) :
  existsb (λ t, bool_decide (t = -1)) f = false → fill ne <$> f = f.
Proof.
  induction f as [|t f IH]; [reflexivity|].
  rewrite fmap_cons. cbn [existsb]. intros [Ht Hf]%orb_false_iff.
  rewrite (IH Hf). f_equal.
  unfold fill. apply bool_decide_eq_false in Ht. rewrite decide_False; auto.
Qed.

Lemma fill_row_id ne (l : list Etat) :
  existsb row_lacks l = false → fill_row ne <$> l = l.
Proof.
  induction l as [|s l IH]; [reflexivity|].
  rewrite fmap_cons. cbn [existsb]. intros [Hs Hl]%orb_false_iff.
  rewrite (IH Hl). f_equal.
  destruct s as [f fin]. unfold fill_row, row_lacks in *. cbn [e_f e_final] in *.
  rewrite (fill_id _ _ Hs). reflexivity.
Qed.

Lemma CompleteAutomaton_rows a :
  wf a →
  for_ (seqZ 0 (a_n a)) (λ i st,
      for_ (seqZ 0 (a_na a)) (λ j '(es, add_etat),
        f ← rd_f es i j;
        if decide (f = -1)
        then es ← wr_f es i j (a_n a); Ok (es, true)
        else Ok (es, add_etat)) st) (a_e a, false)
  = Ok (fill_row (a_n a) <$> a_e a, existsb row_lacks (a_e a)).
Proof.
  intros Hwf.
  match goal with |- for_ _ ?b _ = _ => set (body := b) end.
  destruct (for_seqZ_inv
    (λ i st, st = (take (Z.to_nat i) (fill_row (a_n a) <$> a_e a)
                   ++ drop (Z.to_nat i) (a_e a),
                   existsb row_lacks (take (Z.to_nat i) (a_e a))))
    body 0 (a_n a) (a_e a, false)) as (st & Hst & HP).
  - rewrite <- (wf_n a Hwf). lia.
  - simpl. rewrite drop_0. reflexivity.
  - intros i st Hi ->. unfold body at 1. pose proof (wf_n a Hwf) as Hn.
    destruct (rd_in_range (a_e a) i) as (row & _ & Hrow); [lia|].
    rewrite <- (wf_row_lookup _ _ _ Hwf Hrow).
    rewrite (CompleteAutomaton_row _ _ _ row).
    + eexists. split; [reflexivity|]. f_equal.
      * replace (Z.to_nat (i + 1)) with (S (Z.to_nat i)) by lia.
        apply insert_take_drop.
        -- rewrite list_lookup_fmap, Hrow. reflexivity.
        -- eapply lookup_lt_Some, Hrow.
      * replace (Z.to_nat (i + 1)) with (S (Z.to_nat i)) by lia.
        symmetry. apply existsb_take_S, Hrow.
    + rewrite lookup_app_r by (rewrite length_take; lia).
      rewrite length_take, length_fmap, lookup_drop.
      replace (Z.to_nat i + (Z.to_nat i - Z.to_nat i `min` length (a_e a)))%nat
        with (Z.to_nat i) by lia. exact Hrow.
    + lia.
  - rewrite Hst, HP. pose proof (wf_n a Hwf). f_equal. f_equal.
    + rewrite take_ge by (rewrite length_fmap; lia).
      rewrite drop_ge by lia. apply app_nil_r.
    + rewrite take_ge by lia. reflexivity.
Qed.

(** Some transition of [a] is absent, or its initial state is. *)
Definition incomplete (a : Automaton) : Prop :=
  a_i a = -1 ∨ ∃ s, s ∈ a_e a ∧ -1 ∈ e_f s.

Lemma existsb_row_lacks (l : list Etat) :
  existsb row_lacks l = true ↔ ∃ s, s ∈ l ∧ -1 ∈ e_f s.
Proof.
  rewrite existsb_exists. split.
  - intros (s & Hs%list_elem_of_In & H). exists s. split; [exact Hs|].
    unfold row_lacks in H. apply existsb_exists in H as (t & Ht%list_elem_of_In & H).
    apply bool_decide_eq_true in H as ->. exact Ht.
  - intros (s & Hs & H). exists s. split; [apply list_elem_of_In, Hs|].
    apply existsb_exists. exists (-1). split; [apply list_elem_of_In, H|].
    apply bool_decide_eq_true. reflexivity.
Qed.

(** C6.  [CompleteAutomaton] returns [true] exactly when a transition or the
    initial state of [a] is absent.  It then leaves [a] with one more state,
    the sink [n]: each absent transition of an old state leads to [n] and
    nothing else changes in the old states, the sink is not final and loops on
    every letter, and the sink is initial when [a] had no initial state.
    Otherwise it returns [false] and [a] is as it was. *)
Theorem CompleteAutomaton_spec (a : Automaton) :
  wf a →
  ∃ b a', CompleteAutomaton a = Ok (b, a')
    ∧ (b = true ↔ incomplete a)
    ∧ (b = false → a' = a)
    ∧ (b = true →
         a_n a' = a_n a + 1 ∧ a_na a' = a_na a
         ∧ a_i a' = (if decide (a_i a = -1) then a_n a else a_i a)
         ∧ a_e a' = (fill_row (a_n a) <$> a_e a)
                    ++ [mkEtat (replicate (Z.to_nat (a_na a)) (a_n a)) 0]).
Proof.
  intros Hwf. unfold CompleteAutomaton.
  rewrite (CompleteAutomaton_rows a Hwf). simpl.
  pose proof (wf_n a Hwf) as Hn. pose proof (wf_na a Hwf) as Hna.
  destruct (existsb row_lacks (a_e a)) eqn:Hlack; case_decide as Hi; simpl.
  4: { exists false, a. rewrite (fill_row_id _ _ Hlack). destruct a; simpl in *.
       split; [reflexivity|]. split; [|split; [reflexivity | discriminate]].
       split; [discriminate|]. intros [? | H]; [contradiction|].
       apply existsb_row_lacks in H. simpl in H. congruence. }
  all: rewrite AddEtat_eq by (simpl; try rewrite length_fmap; lia); simpl.
  all: rewrite (for_wr_f_const _ _ _ (mkEtat (replicate (Z.to_nat (a_na a)) (-1)) 0))
         by (simpl; try rewrite length_replicate; try lia;
             rewrite lookup_app_r by (rewrite length_fmap; lia);
             rewrite length_fmap;
             replace (Z.to_nat (a_n a) - length (a_e a))%nat with 0%nat by lia;
             reflexivity).
  all: simpl; rewrite insert_app_r_alt by (rewrite length_fmap; lia).
  all: rewrite length_fmap;
       replace (Z.to_nat (a_n a) - length (a_e a))%nat with 0%nat by lia; simpl.
  all: eexists true, _; split; [reflexivity|]; simpl.
  all: split; [|split; [discriminate|]].
  all: try (split; [reflexivity|]; intros _).
  all: try (split; [intros _ | reflexivity]).
  all: try (left; assumption).
  all: try (right; apply existsb_row_lacks; assumption).
  all: repeat split; try reflexivity.
  all: try (rewrite decide_True by lia; reflexivity).
  all: try (repeat case_decide; lia).
Qed.

Lemma CompleteAutomaton_spec_witness :
  wf lacks_0_0
  ∧ ∃ b a', CompleteAutomaton lacks_0_0 = Ok (b, a') ∧ (b = true ↔ incomplete lacks_0_0).
Proof.
  split; [apply wfb_wf; reflexivity|].
  destruct (CompleteAutomaton_spec lacks_0_0) as (b & a' & H & Hb & _);
    [apply wfb_wf; reflexivity|].
  exists b, a'. split; [exact H | exact Hb].
Defined.

(** ** Runs and languages *)

(** The transition of state [s] on letter [c], when it is present. *)
Definition step (a : Automaton) (s c : Z) : option Z :=
  match rd_f (a_e a) s c with
  | Ok t => if decide (t = -1) then None else Some t
  | _ => None
  end.

Fixpoint run (a : Automaton) (s : Z) (w : list Z) : option Z :=
  match w with
  | [] => Some s
  | c :: w' => match step a s c with Some t => run a t w' | None => None end
  end.

(** [a.e[s].final] read as a C condition. *)
Definition is_final (a : Automaton) (s : Z) : bool :=
  match rd_final (a_e a) s with Ok v => bool_decide (v ≠ 0) | _ => false end.

(** The language of [a] is rooted at its initial state; without one it is
    empty and no state is reachable. *)
Definition accepts (a : Automaton) (w : list Z) : bool :=
  if decide (a_i a = -1) then false
  else match run a (a_i a) w with Some s => is_final a s | None => false end.

Definition reachable_from (a : Automaton) (s t : Z) : Prop :=
  ∃ w, run a s w = Some t.
Definition reachable (a : Automaton) (t : Z) : Prop :=
  a_i a ≠ -1 ∧ reachable_from a (a_i a) t.

(** ** Product *)

Definition contract (i1 i2 n1 : Z) : Z := i1 + n1 * i2.
Definition geti1 (c n1 : Z) : Z := Z.rem c n1.
Definition geti2 (c n1 : Z) : Z := Z.quot c n1.

Fixpoint Product_rec (fuel : nat) (r : list Etat) (i1 i2 : Z)
    (a1 a2 : Automaton) (d : Dict) : Res (list Etat) :=
  match fuel with
  | O => OutOfFuel
  | S fuel =>
    let current := contract i1 i2 (a_n a1) in
    r ← wr_final r current 1;
    for_ (seqZ 0 (a_na a1)) (λ i r,
      e1 ← rd_f (a_e a1) i1 i;
      if decide (e1 < 0) then Ok r
      else
        for_ (seqZ 0 (a_na a2)) (λ j r,
          e2 ← rd_f (a_e a2) i2 j;
          a ← rd d (contract i j (a_na a1));
          if decide (a ≠ -1) then
            if decide (e2 < 0) then wr_f r current a (-1)
            else
              let next := contract e1 e2 (a_n a1) in
              r ← wr_f r current a next;
              fin ← rd_final r next;
              if decide (fin = 0) then Product_rec fuel r e1 e2 a1 a2 d
              else Ok r
          else Ok r) r) r
  end.

Definition Product (a1 a2 : Automaton) (d : Dict) : Res Automaton :=
  let na := foldl (λ na x, if decide (na ≤ x) then x + 1 else na) 0 d in
  r ← init (NewAutomaton (a_n a1 * a_n a2) na);
  if decide (a_i a1 = -1 ∨ a_i a2 = -1)
  then Ok (mkAutomate (a_e r) (a_n r) (a_na r) (-1))
  else
    let ri := contract (a_i a1) (a_i a2) (a_n a1) in
    es ← Product_rec (S (Z.to_nat (a_n r))) (a_e r) (a_i a1) (a_i a2) a1 a2 d;
    es ← for_ (seqZ 0 (a_n r)) (λ i es,
            f1 ← rd_final (a_e a1) (geti1 i (a_n a1));
            f2 ← rd_final (a_e a2) (geti2 i (a_n a1));
            wr_final es i (b2z (bool_decide (f1 ≠ 0) && bool_decide (f2 ≠ 0)))) es;
    Ok (mkAutomate es (a_n r) (a_na r) ri).

Lemma init_eq a :
  Z.of_nat (length (a_e a)) = a_n a → 0 ≤ a_na a →
  (∀ s, s ∈ a_e a → Z.of_nat (length (e_f s)) = a_na a) →
  init a = Ok (mkAutomate
                 (replicate (Z.to_nat (a_n a))
                            (mkEtat (replicate (Z.to_nat (a_na a)) (-1)) 0))
                 (a_n a) (a_na a) (-1)).
Proof.
  intros Hn Hna Hrows. unfold init.
  set (done := mkEtat (replicate (Z.to_nat (a_na a)) (-1)) 0).
  match goal with |- context [for_ _ ?b _] => set (body := b) end.
  destruct (for_seqZ_inv
    (λ i es, es = take (Z.to_nat i) (replicate (Z.to_nat (a_n a)) done)
                  ++ drop (Z.to_nat i) (a_e a))
    body 0 (a_n a) (a_e a)) as (es & Hes & HP).
  - lia.
  - simpl. rewrite drop_0. reflexivity.
  - intros i es Hi ->. unfold body at 1.
    destruct (rd_in_range (a_e a) i) as (row & _ & Hrow); [lia|].
    set (es := take _ _ ++ drop _ _).
    assert (es !! Z.to_nat i = Some row) as Hcur.
    { unfold es. rewrite lookup_app_r by (rewrite length_take; lia).
      rewrite length_take, length_replicate, lookup_drop.
      replace (Z.to_nat i + (Z.to_nat i - Z.to_nat i `min` Z.to_nat (a_n a)))%nat
        with (Z.to_nat i) by lia. exact Hrow. }
    assert (wr_final es i 0 = Ok (<[Z.to_nat i := mkEtat (e_f row) 0]> es)) as ->.
    { apply wr_final_Ok. exists row. split; [exact Hcur|]. split; [lia | reflexivity]. }
    simpl. rewrite (for_wr_f_const _ _ _ (mkEtat (e_f row) 0)).
    + eexists. split; [reflexivity|]. simpl. rewrite list_insert_insert_eq.
      replace (Z.to_nat (i + 1)) with (S (Z.to_nat i)) by lia.
      apply insert_take_drop; [|lia]. apply lookup_replicate_2. lia.
    + apply list_lookup_insert_eq. eapply lookup_lt_Some, Hcur.
    + lia.
    + simpl. apply Hrows. eapply list_elem_of_lookup_2, Hrow.
  - rewrite Hes. simpl. rewrite HP. f_equal. f_equal.
    rewrite take_ge by (rewrite length_replicate; lia).
    rewrite drop_ge by lia. apply app_nil_r.
Qed.

Lemma init_NewAutomaton n na :
  0 ≤ n → 0 ≤ na →
  init (NewAutomaton n na)
  = Ok (mkAutomate (replicate (Z.to_nat n) (mkEtat (replicate (Z.to_nat na) (-1)) 0))
          n na (-1)).
Proof.
  intros Hn Hna. unfold NewAutomaton. case_decide as H0.
  - subst n. reflexivity.
  - rewrite init_eq; simpl; try reflexivity; try lia.
    + rewrite length_replicate. lia.
    + intros s [-> _]%elem_of_replicate. simpl. rewrite length_replicate. lia.
Qed.

Lemma Product_alphabet_nonneg (d : Dict) na :
  0 ≤ na → 0 ≤ foldl (λ na x, if decide (na ≤ x) then x + 1 else na) na d.
Proof.
  revert na. induction d as [|x d IH]; simpl; intros na Hna; [exact Hna|].
  apply IH. case_decide; lia.
Qed.

(** C7.  When [a1] or [a2] has no initial state, [Product] returns the
    automaton of [a1.n * a2.n] states that [init] leaves: no initial state,
    no final state, no transition.  It accepts no word and none of its states
    is reachable. *)
Theorem Product_no_initial (a1 a2 : Automaton) (d : Dict) :
  wf a1 → wf a2 → a_i a1 = -1 ∨ a_i a2 = -1 →
  ∃ r, Product a1 a2 d = Ok r
       ∧ a_i r = -1
       ∧ a_n r = a_n a1 * a_n a2
       ∧ (∀ s, s ∈ a_e r → e_final s = 0 ∧ ∀ t, t ∈ e_f s → t = -1)
       ∧ (∀ w, accepts r w = false)
       ∧ (∀ s, ¬ reachable r s).
Proof.
  intros Hwf1 Hwf2 Hi. unfold Product.
  pose proof (wf_n a1 Hwf1). pose proof (wf_n a2 Hwf2).
  rewrite init_NewAutomaton by (try apply Product_alphabet_nonneg; nia).
  simpl. rewrite decide_True by exact Hi.
  eexists. split; [reflexivity|]. simpl.
  split; [reflexivity|]. split; [reflexivity|]. split; [|split].
  - intros s [-> _]%elem_of_replicate. simpl. split; [reflexivity|].
    intros t [-> _]%elem_of_replicate. reflexivity.
  - intros w. reflexivity.
  - intros s [Hne _]. simpl in Hne. lia.
Qed.

Definition no_initial : Automaton := mkAutomate [mkEtat [0; 0] 1] 1 2 (-1).

Lemma Product_no_initial_witness :
  wf three_states ∧ wf no_initial ∧ a_i no_initial = -1
  ∧ ∃ r, Product three_states no_initial [0; 1; 1; 0] = Ok r ∧ a_i r = -1.
Proof.
  split; [exact three_states_wf|]. split; [apply wfb_wf; reflexivity|].
  split; [reflexivity|].
  destruct (Product_no_initial three_states no_initial [0; 1; 1; 0])
    as (r & Hr & Hi & _);
    [exact three_states_wf | apply wfb_wf; reflexivity | right; reflexivity |].
  exists r. split; [exact Hr | exact Hi].
Defined.

(** ** Pruning of the states that the initial state does not reach *)

(** The memory of [a] once its states are [es]: a traversal receives the
    structure by value and writes through its pointer [e]. *)
Definition with_e (a : Automaton) (es : list Etat) : Automaton :=
  mkAutomate es (a_n a) (a_na a) (a_i a).

Fixpoint emondeI_rec (fuel : nat) (a : Automaton) (etat : Z) : Res Automaton :=
  match fuel with
  | O => OutOfFuel
  | S fuel =>
    fin ← rd_final (a_e a) etat;
    es ← wr_final (a_e a) etat (Z.lor fin 2);
    for_ (seqZ 0 (a_na a)) (λ i a,
      f ← rd_f (a_e a) etat i;
      if decide (f = -1) then Ok a
      else
        ff ← rd_final (a_e a) f;
        if decide (Z.land ff 2 = 0) then emondeI_rec fuel a f else Ok a)
      (with_e a es)
  end.

(** The pair is [a] as the call leaves it and the automaton returned. *)
Definition emondeI (a : Automaton) : Res (Automaton * Automaton) :=
  a ← (if decide (a_i a ≠ -1)
       then emondeI_rec (S (Z.to_nat (a_n a))) a (a_i a) else Ok a);
  '(l, cpt) ← for_ (seqZ 0 (a_n a)) (λ i '(l, cpt),
      fin ← rd_final (a_e a) i;
      if decide (Z.land fin 2 ≠ 0)
      then l ← wr l i cpt; Ok (l, cpt + 1)
      else l ← wr l i (-1); Ok (l, cpt))
    (replicate (Z.to_nat (a_n a)) UNINIT, 0);
  let r := NewAutomaton cpt (a_na a) in
  res ← for_ (seqZ 0 (a_n a)) (λ i res,
      li ← rd l i;
      if decide (li = -1) then Ok res
      else
        for_ (seqZ 0 (a_na a)) (λ j res,
          f ← rd_f (a_e a) i j;
          res ← wr_f res li j (-1);
          if decide (f = -1) then Ok res
          else
            lf ← rd l f;
            if decide (lf ≠ -1) then wr_f res li j lf else Ok res) res)
    (a_e r);
  '(es, res) ← for_ (seqZ 0 (a_n a)) (λ i '(es, res),
      fin ← rd_final es i;
      es ← wr_final es i (Z.land fin 1);
      li ← rd l i;
      fin ← rd_final es i;
      res ← wr_final res li fin;
      Ok (es, res))
    (a_e a, res);
  ri ← (if decide (a_i a ≠ -1) then rd l (a_i a) else Ok (-1));
  Ok (with_e a es, mkAutomate res (a_n r) (a_na r) ri).

(** State 1 is not reachable from the initial state 0. *)
Definition unreachable_state : Automaton :=
  mkAutomate [mkEtat [0] 1; mkEtat [0] 0] 2 1 0.
(** Every state is reachable. *)
Definition all_reachable : Automaton :=
  mkAutomate [mkEtat [1] 1; mkEtat [0] 0] 2 1 0.

(** C10 fails on the code.  The last loop of [emondeI] executes
    [r.e[l[i]].final = a.e[i].final] for every state [i] of [a], also when
    [l[i]] is [-1] because [i] was not reached: on the two-state automaton
    whose state 1 is unreachable the write goes to [r.e[-1]], outside the
    one-state result.  On an automaton whose states are all reachable the
    call succeeds. *)
Theorem emondeI_writes_out_of_bounds :
  wf unreachable_state ∧ emondeI unreachable_state = OutOfBounds
  ∧ wf all_reachable ∧ emondeI all_reachable = Ok (all_reachable, all_reachable).
Proof.
  split; [apply wfb_wf; reflexivity|]. split; [reflexivity|].
  split; [apply wfb_wf; reflexivity|]. reflexivity.
Qed.

(** ** Pruning of the states without an infinite path *)

(** The traversal state is the memory of [a] and the global [compteur]. *)
Fixpoint emonde_inf_rec (fuel : nat) (a : Automaton) (compteur : Z) (etat : Z)
    : Res (Automaton * Z * bool) :=
  match fuel with
  | O => OutOfFuel
  | S fuel =>
    es ← wr_final (a_e a) etat 1;
    '(a, compteur, cycle) ← for_ (S := Automaton * Z * bool) (seqZ 0 (a_na a))
      (λ i '(a, compteur, cycle),
        f ← rd_f (a_e a) etat i;
        if decide (f = -1) then Ok (a, compteur, cycle)
        else
          ff ← rd_final (a_e a) f;
          let cycle := if decide (ff = 1) then true else cycle in
          if decide (ff = 0) then
            '(a, compteur, sub) ← emonde_inf_rec fuel a compteur f;
            Ok (a, compteur, if sub : bool then true else cycle)
          else Ok (a, compteur, cycle))
      (with_e a es, compteur, false);
    if cycle : bool then Ok (a, compteur + 1, true)
    else es ← wr_final (a_e a) etat 2; Ok (with_e a es, compteur, false)
  end.

(** The pair is [a] as the call leaves it and the automaton returned. *)
Definition emonde_inf (a : Automaton) : Res (Automaton * Automaton) :=
  '(es, finaux) ← for_ (seqZ 0 (a_n a)) (λ i '(es, finaux),
      fin ← rd_final es i;
      finaux ← wr finaux i fin;
      es ← wr_final es i 0;
      Ok (es, finaux))
    (a_e a, replicate (Z.to_nat (a_n a)) UNINIT);
  let a := with_e a es in
  '(a, compteur) ← (if decide (a_i a ≠ -1)
                    then '(a, compteur, _) ←
                           emonde_inf_rec (S (Z.to_nat (a_n a))) a 0 (a_i a);
                         Ok (a, compteur)
                    else Ok (a, 0));
  '(l, cpt) ← for_ (seqZ 0 (a_n a)) (λ i '(l, cpt),
      fin ← rd_final (a_e a) i;
      if decide (Z.land fin 1 ≠ 0)
      then l ← wr l i cpt; Ok (l, cpt + 1)
      else l ← wr l i (-1); Ok (l, cpt))
    (replicate (Z.to_nat (a_n a)) UNINIT, 0);
  let r := NewAutomaton cpt (a_na a) in
  res ← for_ (seqZ 0 (a_n a)) (λ i res,
      li ← rd l i;
      if decide (li = -1) then Ok res
      else
        for_ (seqZ 0 (a_na a)) (λ j res,
          f ← rd_f (a_e a) i j;
          res ← wr_f res li j (-1);
          if decide (f = -1) then Ok res
          else
            lf ← rd l f;
            if decide (lf ≠ -1) then wr_f res li j lf else Ok res) res)
    (a_e r);
  '(es, res) ← for_ (seqZ 0 (a_n a)) (λ i '(es, res),
      fin ← rd finaux i;
      es ← wr_final es i fin;
      li ← rd l i;
      res ← (if decide (li ≠ -1) then wr_final res li fin else Ok res);
      Ok (es, res))
    (a_e a, res);
  ri ← (if decide (a_i a ≠ -1) then rd l (a_i a) else Ok (-1));
  Ok (with_e a es, mkAutomate res (a_n r) (a_na r) ri).

(** State 0 leads to the loop on state 1 and to the dead end 2; state 3 lies
    on a loop that the initial state does not reach. *)
Definition lasso : Automaton :=
  mkAutomate [mkEtat [1; 2] 0; mkEtat [1; -1] 1; mkEtat [-1; -1] 1; mkEtat [3; 0] 1]
             4 2 0.

Example emonde_inf_lasso :
  emonde_inf lasso
  = Ok (lasso, mkAutomate [mkEtat [1; -1] 0; mkEtat [1; -1] 1] 2 2 0).
Proof. reflexivity. Qed.

(** ** Hopcroft minimisation *)

(** The global variables of the minimisation. *)
Record Hopcroft : Type := mkHopcroft
  { partition : list Z;           (* state -> index *)
    partitioni : list Z;          (* index -> state *)
    class : list Z;               (* state -> class *)
    class_indices : list (Z * Z); (* class -> interval of indices *)
    nclass : Z;
    transitioni : list (list Dict); (* state, letter -> predecessors *)
    L : list Z;                   (* classes still to refine against *)
    nL : Z;
    pt_visited_class : list Z;    (* first index of the class not met yet *)
    visited_class : list Z;
    etats : list Z }.

Definition set_partitions (h : Hopcroft) (p pi : list Z) : Hopcroft :=
  mkHopcroft p pi (class h) (class_indices h) (nclass h) (transitioni h)
             (L h) (nL h) (pt_visited_class h) (visited_class h) (etats h).
Definition set_class (h : Hopcroft) (c : list Z) : Hopcroft :=
  mkHopcroft (partition h) (partitioni h) c (class_indices h) (nclass h)
             (transitioni h) (L h) (nL h) (pt_visited_class h) (visited_class h)
             (etats h).
Definition set_class_indices (h : Hopcroft) (ci : list (Z * Z)) : Hopcroft :=
  mkHopcroft (partition h) (partitioni h) (class h) ci (nclass h)
             (transitioni h) (L h) (nL h) (pt_visited_class h) (visited_class h)
             (etats h).
Definition set_nclass (h : Hopcroft) (k : Z) : Hopcroft :=
  mkHopcroft (partition h) (partitioni h) (class h) (class_indices h) k
             (transitioni h) (L h) (nL h) (pt_visited_class h) (visited_class h)
             (etats h).
Definition set_transitioni (h : Hopcroft) (t : list (list Dict)) : Hopcroft :=
  mkHopcroft (partition h) (partitioni h) (class h) (class_indices h) (nclass h)
             t (L h) (nL h) (pt_visited_class h) (visited_class h) (etats h).
Definition set_L (h : Hopcroft) (l : list Z) (k : Z) : Hopcroft :=
  mkHopcroft (partition h) (partitioni h) (class h) (class_indices h) (nclass h)
             (transitioni h) l k (pt_visited_class h) (visited_class h) (etats h).
Definition set_pt_visited_class (h : Hopcroft) (p : list Z) : Hopcroft :=
  mkHopcroft (partition h) (partitioni h) (class h) (class_indices h) (nclass h)
             (transitioni h) (L h) (nL h) p (visited_class h) (etats h).
Definition set_visited_class (h : Hopcroft) (v : list Z) : Hopcroft :=
  mkHopcroft (partition h) (partitioni h) (class h) (class_indices h) (nclass h)
             (transitioni h) (L h) (nL h) (pt_visited_class h) v (etats h).
Definition set_etats (h : Hopcroft) (e : list Z) : Hopcroft :=
  mkHopcroft (partition h) (partitioni h) (class h) (class_indices h) (nclass h)
             (transitioni h) (L h) (nL h) (pt_visited_class h) (visited_class h) e.

(** [dictAdd]: the dictionary grows by one cell, which receives [e]. *)
Definition dictAdd (d : Dict) (e : Z) : Dict := d ++ [e].

(** Exchanges the indices of the states [i] and [j]. *)
Definition swap (h : Hopcroft) (i j : Z) : Res Hopcroft :=
  if decide (i = j) then Ok h
  else
    k ← rd (partition h) i;
    pj ← rd (partition h) j;
    p ← wr (partition h) i pj;
    p ← wr p j k;
    pi ← wr (partitioni h) k j;
    pi' ← rd p i;
    pi ← wr pi pi' i;
    Ok (set_partitions h p pi).

Definition split (h : Hopcroft) (C a : Z) : Res Hopcroft :=
  '(l, hi) ← rd (class_indices h) C;
  (* the states of C are copied: the class may change during the traversal *)
  et ← for_ (seqZ l (hi - l)) (λ i et, e ← rd (partitioni h) i; wr et i e) (etats h);
  let h := set_etats h et in
  '(h, nrc) ← for_ (seqZ l (hi - l)) (λ i '(h, nrc),
      e ← rd (etats h) i;
      te ← rd (transitioni h) e;
      pre ← rd te a;
      for_ (seqZ 0 (d_n pre)) (λ j '(h, nrc),
        p ← rd pre j;
        cp ← rd (class h) p;
        pt ← rd (pt_visited_class h) cp;
        '(h, nrc) ← (if decide (pt = 0)
                     then
                       v ← wr (visited_class h) nrc cp;
                       '(lcp, _) ← rd (class_indices h) cp;
                       pv ← wr (pt_visited_class h) cp lcp;
                       Ok (set_pt_visited_class (set_visited_class h v) pv, nrc + 1)
                     else Ok (h, nrc));
        ep ← rd (pt_visited_class h) cp;
        pp ← rd (partition h) p;
        if decide (pp < ep) then Ok (h, nrc)
        else
          ep' ← rd (partitioni h) ep;
          h ← swap h ep' p;
          pt ← rd (pt_visited_class h) cp;
          pv ← wr (pt_visited_class h) cp (pt + 1);
          Ok (set_pt_visited_class h pv, nrc)) (h, nrc)) (h, 0);
  (* the new classes *)
  for_ (seqZ 0 nrc) (λ i h,
    cp ← rd (visited_class h) i;
    '(l, hi) ← rd (class_indices h) cp;
    j ← rd (pt_visited_class h) cp;
    h ← (if decide (j < hi)
         then
           ci ← (if decide (j - l < hi - j)
                 then ci ← wr (class_indices h) cp (j, hi);
                      wr ci (nclass h) (l, j)
                 else ci ← wr (class_indices h) cp (l, j);
                      wr ci (nclass h) (j, hi));
           let h := set_class_indices h ci in
           '(nl, nh) ← rd (class_indices h) (nclass h);
           c ← for_ (seqZ nl (nh - nl)) (λ j c,
                  e ← rd (partitioni h) j; wr c e (nclass h)) (class h);
           let h := set_class h c in
           lw ← wr (L h) (nL h) (nclass h);
           Ok (set_nclass (set_L h lw (nL h + 1)) (nclass h + 1))
         else Ok h);
    pv ← wr (pt_visited_class h) cp 0;
    Ok (set_pt_visited_class h pv)) h.

(** [while (nL) { nL--; C = L[nL]; for each letter j: split(C, j) }]. *)
Fixpoint Minimise_loop (fuel : nat) (na : Z) (h : Hopcroft) : Res Hopcroft :=
  match fuel with
  | O => OutOfFuel
  | S fuel =>
    if decide (nL h = 0) then Ok h
    else
      let h := set_L h (L h) (nL h - 1) in
      C ← rd (L h) (nL h);
      h ← for_ (seqZ 0 na) (λ j h, split h C j) h;
      Minimise_loop fuel na h
  end.

Definition Minimise (a : Automaton) : Res Automaton :=
  let n1 := a_n a + 1 in
  let id := seqZ 0 n1 in
  let raw := replicate (Z.to_nat n1) UNINIT in
  let h := mkHopcroft id id raw (replicate (Z.to_nat n1) (UNINIT, UNINIT)) 0
             (replicate (Z.to_nat n1) (replicate (Z.to_nat (a_na a)) []))
             raw 0 (replicate (Z.to_nat n1) 0) raw raw in
  (* the inverse of the transitions, the sink [a.n] included *)
  t ← for_ (seqZ 0 (a_n a)) (λ i t,
        for_ (seqZ 0 (a_na a)) (λ j t,
          f ← rd_f (a_e a) i j;
          let tgt := if decide (f ≠ -1) then f else a_n a in
          row ← rd t tgt;
          d ← rd row j;
          row ← wr row j (dictAdd d i);
          wr t tgt row) t) (transitioni h);
  t ← for_ (seqZ 0 (a_na a)) (λ j t,
        row ← rd t (a_n a);
        d ← rd row j;
        row ← wr row j (dictAdd d (a_n a));
        wr t (a_n a) row) t;
  let h := set_transitioni h t in
  (* final states first *)
  '(h, f) ← for_ (seqZ 0 (a_n a)) (λ i '(h, f),
      fin ← rd_final (a_e a) i;
      if decide (fin ≠ 0) then
        c ← wr (class h) i 0;
        let h := set_class h c in
        pf ← rd (partitioni h) f;
        h ← swap h pf i;
        Ok (h, f + 1)
      else
        c ← wr (class h) i 1;
        Ok (set_class h c, f)) (h, 0);
  c ← wr (class h) (a_n a) 1;
  let h := set_class h c in
  ci ← wr (class_indices h) 0 (0, f);
  ci ← wr ci 1 (f, a_n a + 1);
  let h := set_class_indices h ci in
  v ← wr (visited_class h) 0 0;
  v ← wr v 1 0;
  let h := set_nclass (set_visited_class h v) 2 in
  lw ← wr (L h) 0 (if decide (f ≤ Z.quot (a_n a + 1) 2) then 0 else 1);
  let h := set_L h lw 1 in
  h ← Minimise_loop (Z.to_nat (a_n a) + 3) (a_na a) h;
  (* the quotient automaton *)
  let r := NewAutomaton (nclass h) (a_na a) in
  es ← for_ (seqZ 0 (nclass h)) (λ i es,
        '(l, _) ← rd (class_indices h) i;
        e ← rd (partitioni h) l;
        if decide (a_n a ≤ e) then
          es ← for_ (seqZ 0 (a_na a)) (λ j es, wr_f es i j (-1)) es;
          wr_final es i 0
        else
          es ← for_ (seqZ 0 (a_na a)) (λ j es,
                  f ← rd_f (a_e a) e j;
                  if decide (f ≠ -1) then
                    cf ← rd (class h) f; wr_f es i j cf
                  else wr_f es i j (-1)) es;
          fin ← rd_final (a_e a) e;
          wr_final es i fin) (a_e r);
  ri ← (if decide (a_i a ≠ -1) then rd (class h) (a_i a) else Ok (-1));
  let r := mkAutomate es (a_n r) (a_na r) ri in
  (* the sink goes when it is alone in its class *)
  i ← rd (class h) (a_n a);
  '(l, hi) ← rd (class_indices h) i;
  if decide (hi = l + 1) then DeleteVertexOP r i else Ok r.

(** ** Equality of languages *)

(** The automata that the pointers of a call designate: a pointer is an index
    into the store, and two equal pointers designate the same automaton. *)
Abbreviation store := (list Automaton).

(** A loop whose body may [return]. *)
Inductive flow (S R : Type) : Type :=
| Next (s : S)
| Return (s : S) (r : R).
Arguments Next {S R} s.
Arguments Return {S R} s r.

Fixpoint for_flow {S R} (js : list Z) (body : Z → S → Res (flow S R)) (s : S)
    : Res (flow S R) :=
  match js with
  | [] => Ok (Next s)
  | j :: js' =>
    x ← body j s;
    match x with
    | Next s' => for_flow js' body s'
    | Return s' r => Ok (Return s' r)
    end
  end.

(** [p->e[k].final] and [p->e[k].f[j]] through a pointer, and the marking
    [p->e[k].final |= 2]. *)
Definition deref (st : store) (p : nat) : Res Automaton :=
  match st !! p with Some a => Ok a | None => OutOfBounds end.
Definition mark_seen (st : store) (p : nat) (k : Z) : Res store :=
  a ← deref st p;
  fin ← rd_final (a_e a) k;
  es ← wr_final (a_e a) k (Z.lor fin 2);
  Ok (<[p := with_e a es]> st).

(** The result of the recursive call is not looked at. *)
Fixpoint equalsLangages_rec (fuel : nat) (st : store) (p1 p2 : nat)
    (a1toa2 a2toa1 : Dict) (e1 e2 : Z) : Res (store * bool) :=
  match fuel with
  | O => OutOfFuel
  | S fuel =>
    a1 ← deref st p1;
    a2 ← deref st p2;
    fin1 ← rd_final (a_e a1) e1;
    seen ← (if decide (Z.land fin1 2 ≠ 0)
            then fin2 ← rd_final (a_e a2) e2; Ok (bool_decide (Z.land fin2 2 ≠ 0))
            else Ok false);
    if seen : bool then Ok (st, true)
    else
      st ← mark_seen st p1 e1;
      st ← mark_seen st p2 e2;
      (* the children of e1 in a1 *)
      x ← for_flow (seqZ 0 (a_na a1)) (λ i st,
            a1 ← deref st p1;
            f1 ← rd_f (a_e a1) e1 i;
            if decide (f1 ≠ -1) then
              l ← rd a1toa2 i;
              if decide (l ≠ -1) then
                a2 ← deref st p2;
                f2 ← rd_f (a_e a2) e2 l;
                if decide (f2 = -1) then Ok (Return st false)
                else
                  '(st, _) ← equalsLangages_rec fuel st p1 p2 a1toa2 a2toa1 f1 f2;
                  Ok (Next st)
              else Ok (Return st false)
            else Ok (Next st)) st;
      match x with
      | Return st r => Ok (st, r)
      | Next st =>
        (* the children of e2 in a2: no transition in excess *)
        x ← for_flow (seqZ 0 (a_na a2)) (λ i st,
              a2 ← deref st p2;
              f2 ← rd_f (a_e a2) e2 i;
              if decide (f2 ≠ -1) then
                l ← rd a2toa1 i;
                if decide (l ≠ -1) then
                  a1 ← deref st p1;
                  f1 ← rd_f (a_e a1) e1 l;
                  if decide (f1 = -1) then Ok (Return st false) else Ok (Next st)
                else Ok (Return st false)
              else Ok (Next st)) st;
        match x with
        | Return st r => Ok (st, r)
        | Next st => Ok (st, true)
        end
      end
  end.

(** [for (i = 0; i < p->n; i++) p->e[i].final &= 1]. *)
Definition restore_finals (st : store) (p : nat) : Res store :=
  a ← deref st p;
  es ← for_ (seqZ 0 (a_n a)) (λ i es,
          fin ← rd_final es i; wr_final es i (Z.land fin 1)) (a_e a);
  Ok (<[p := with_e a es]> st).

(** The automaton that [p] designates is replaced by its minimisation, the
    old states freed. *)
Definition minimise_in_place (st : store) (p : nat) : Res store :=
  a ← deref st p;
  a3 ← Minimise a;
  Ok (<[p := a3]> st).

Definition NewDict (n : Z) : Dict := replicate (Z.to_nat n) (-1).

(** The pair is the store as the call leaves it and the answer. *)
Definition equalsLangages (st : store) (p1 p2 : nat) (a1toa2 : Dict)
    (minimized : bool) : Res (store * bool) :=
  st ← (if minimized then Ok st
        else st ← minimise_in_place st p1; minimise_in_place st p2);
  a2 ← deref st p2;
  a2toa1 ← for_ (seqZ 0 (d_n a1toa2)) (λ i d, x ← rd a1toa2 i; wr d x i)
             (NewDict (a_na a2));
  a1 ← deref st p1;
  '(st, res) ← equalsLangages_rec (S (Z.to_nat (a_n a1) + Z.to_nat (a_n a2)))
                 st p1 p2 a1toa2 a2toa1 (a_i a1) (a_i a2);
  st ← restore_finals st p1;
  st ← restore_finals st p2;
  Ok (st, res).

(** ** Emptiness of the language *)

Fixpoint emptyLangage_rec (fuel : nat) (a : Automaton) (e : Z)
    : Res (Automaton * bool) :=
  match fuel with
  | O => OutOfFuel
  | S fuel =>
    fin ← rd_final (a_e a) e;
    if decide (fin ≠ 0) then Ok (a, false)
    else
      es ← wr_final (a_e a) e (Z.lor fin 2);
      x ← for_flow (seqZ 0 (a_na a)) (λ i a,
            f ← rd_f (a_e a) e i;
            if decide (f ≠ -1) then
              ff ← rd_final (a_e a) f;
              if decide (Z.land ff 2 ≠ 0) then Ok (Next a)
              else
                '(a, sub) ← emptyLangage_rec fuel a f;
                if sub : bool then Ok (Next a) else Ok (Return a false)
            else Ok (Next a)) (with_e a es);
      match x with
      | Return a r => Ok (a, r)
      | Next a => Ok (a, true)
      end
  end.

(** The pair is [a] as the call leaves it and the answer. *)
Definition emptyLangage (a : Automaton) : Res (Automaton * bool) :=
  if decide (a_i a = -1) then Ok (a, true)
  else
    '(a, res) ← emptyLangage_rec (S (Z.to_nat (a_n a))) a (a_i a);
    es ← for_ (seqZ 0 (a_n a)) (λ i es,
            fin ← rd_final es i; wr_final es i (Z.land fin 1)) (a_e a);
    Ok (with_e a es, res).

(** ** Strongly connected components (Tarjan) *)

(** The arrays and the two global counters of the traversal. *)
Record Tarjan : Type := mkTarjan
  { t_a : Automaton; t_pile : list Z; t_m : list Z; t_res : list Z;
    t_compteur : Z; t_compteur2 : Z }.

(** [do { compteur--; res[pile[compteur]] = compteur2; }
     while (pile[compteur] != etat);] *)
Fixpoint unstack (fuel : nat) (t : Tarjan) (etat : Z) : Res Tarjan :=
  match fuel with
  | O => OutOfFuel
  | S fuel =>
    let compteur := t_compteur t - 1 in
    top ← rd (t_pile t) compteur;
    res ← wr (t_res t) top (t_compteur2 t);
    let t := mkTarjan (t_a t) (t_pile t) (t_m t) res compteur (t_compteur2 t) in
    if decide (top ≠ etat) then unstack fuel t etat else Ok t
  end.

Fixpoint StronglyConnectedComponents_rec (fuel : nat) (t : Tarjan) (etat : Z)
    : Res Tarjan :=
  match fuel with
  | O => OutOfFuel
  | S fuel =>
    pile ← wr (t_pile t) (t_compteur t) etat;
    m ← wr (t_m t) etat (t_compteur t);
    let c := t_compteur t in
    fin ← rd_final (a_e (t_a t)) etat;
    es ← wr_final (a_e (t_a t)) etat (Z.lor fin 2);
    let t := mkTarjan (with_e (t_a t) es) pile m (t_res t) (t_compteur t + 1)
               (t_compteur2 t) in
    t ← for_ (seqZ 0 (a_na (t_a t))) (λ j t,
          f ← rd_f (a_e (t_a t)) etat j;
          if decide (f = -1) then Ok t
          else
            ff ← rd_final (a_e (t_a t)) f;
            if decide (Z.land ff 2 = 0) then
              t ← StronglyConnectedComponents_rec fuel t f;
              me ← rd (t_m t) etat;
              mf ← rd (t_m t) f;
              m ← wr (t_m t) etat (Z.min me mf);
              Ok (mkTarjan (t_a t) (t_pile t) m (t_res t) (t_compteur t)
                    (t_compteur2 t))
            else
              rf ← rd (t_res t) f;
              if decide (rf = -1) then
                me ← rd (t_m t) etat;
                mf ← rd (t_m t) f;
                m ← wr (t_m t) etat (Z.min me mf);
                Ok (mkTarjan (t_a t) (t_pile t) m (t_res t) (t_compteur t)
                      (t_compteur2 t))
              else Ok t) t;
    me ← rd (t_m t) etat;
    if decide (me = c) then
      t ← unstack (Z.to_nat (t_compteur t)) t etat;
      Ok (mkTarjan (t_a t) (t_pile t) (t_m t) (t_res t) (t_compteur t)
            (t_compteur2 t + 1))
    else Ok t
  end.

(** The triple is [a] as the call leaves it, the array [res] and the number
    of components. *)
Definition StronglyConnectedComponents (a : Automaton)
    : Res (Automaton * list Z * Z) :=
  let raw := replicate (Z.to_nat (a_n a)) UNINIT in
  res ← for_ (seqZ 0 (a_n a)) (λ i res, wr res i (-1)) raw;
  t ← for_ (seqZ 0 (a_n a)) (λ i t,
        ri ← rd (t_res t) i;
        if decide (ri = -1)
        then StronglyConnectedComponents_rec (S (Z.to_nat (a_n a))) t i
        else Ok t) (mkTarjan a raw raw res 0 0);
  es ← for_ (seqZ 0 (a_n a)) (λ i es,
          fin ← rd_final es i; wr_final es i (Z.land fin 1)) (a_e (t_a t));
  Ok (with_e a es, t_res t, t_compteur2 t).

(** ** Pruning of the states that are not accessible and co-accessible *)

(** [for (j = 0; j < d.n; j++) a.e[d.e[j]].final |= 4]. *)
Definition mark_component (es : list Etat) (d : Dict) : Res (list Etat) :=
  for_ (seqZ 0 (d_n d)) (λ j es,
    s ← rd d j; fin ← rd_final es s; wr_final es s (Z.lor fin 4)) es.

(** The dictionaries of [emonde] are made by [NewDict(0)], which returns
    before [r.e] is assigned: [None] is this dictionary, with [n = 0] and a
    pointer that holds no address; [Some d] is a dictionary whose block holds
    the entries [d]. *)
Abbreviation DictCell := (option Dict).
Definition entries (d : DictCell) : Dict := default [] d.

(** [dictAdd(&d, e)] is [d.n++; d.e = realloc(d.e, sizeof(int) * d.n);
    d.e[d.n - 1] = e]: [realloc] is given the pointer of the dictionary,
    and has no block to resize when the pointer was never assigned. *)
Definition dictAdd_cell (d : DictCell) (e : Z) : Res DictCell :=
  match d with
  | Some d => Ok (Some (dictAdd d e))
  | None => OutOfBounds
  end.

Fixpoint emonde_rec (fuel : nat) (a : Automaton) (l : list Z) (id : list DictCell)
    (etat : Z) : Res Automaton :=
  match fuel with
  | O => OutOfFuel
  | S fuel =>
    fin ← rd_final (a_e a) etat;
    es ← wr_final (a_e a) etat (Z.lor fin 2);
    for_ (seqZ 0 (a_na a)) (λ i a,
      f ← rd_f (a_e a) etat i;
      if decide (f = -1) then Ok a
      else
        ff ← rd_final (a_e a) f;
        a ← (if decide (Z.land ff 2 = 0) then emonde_rec fuel a l id f else Ok a);
        ff ← rd_final (a_e a) f;
        co ← (if decide (Z.land ff 4 ≠ 0)
              then fe ← rd_final (a_e a) etat; Ok (bool_decide (Z.land fe 4 = 0))
              else Ok false);
        if co : bool then
          c ← rd l etat;
          d ← rd id c;
          es ← mark_component (a_e a) (entries d);
          Ok (with_e a es)
        else Ok a)
      (with_e a es)
  end.

(** The pair is [a] as the call leaves it and the automaton returned.
    [id.d[i] = NewDict(0)] for each of the [ncc] components, then
    [dictAdd(&id.d[l[i]], i)] for each state. *)
Definition emonde (a : Automaton) : Res (Automaton * Automaton) :=
  '(a, l, ncc) ← StronglyConnectedComponents a;
  '(es, id) ← for_ (seqZ 0 (a_n a)) (λ i '(es, id),
      fin ← rd_final es i;
      es ← (if decide (fin ≠ 0) then wr_final es i 1 else Ok es);
      c ← rd l i;
      d ← rd id c;
      d ← dictAdd_cell d i;
      id ← wr id c d;
      Ok (es, id))
    (a_e a, replicate (Z.to_nat ncc) (None : DictCell));
  (* the final states make their components co-accessible *)
  es ← for_ (seqZ 0 (a_n a)) (λ i es,
      fin ← rd_final es i;
      if decide (Z.land fin 1 ≠ 0) then
        c ← rd l i; d ← rd id c; mark_component es (entries d)
      else Ok es) es;
  let a := with_e a es in
  a ← (if decide (a_i a ≠ -1)
       then emonde_rec (S (Z.to_nat (a_n a))) a l id (a_i a) else Ok a);
  '(l, cpt) ← for_ (seqZ 0 (a_n a)) (λ i '(l, cpt),
      fin ← rd_final (a_e a) i;
      if decide (Z.land fin 2 ≠ 0 ∧ Z.land fin 4 ≠ 0)
      then l ← wr l i cpt; Ok (l, cpt + 1)
      else l ← wr l i (-1); Ok (l, cpt))
    (l, 0);
  let r := NewAutomaton cpt (a_na a) in
  res ← for_ (seqZ 0 (a_n a)) (λ i res,
      li ← rd l i;
      if decide (li = -1) then Ok res
      else
        for_ (seqZ 0 (a_na a)) (λ j res,
          f ← rd_f (a_e a) i j;
          res ← wr_f res li j (-1);
          if decide (f = -1) then Ok res
          else
            lf ← rd l f;
            if decide (lf ≠ -1) then wr_f res li j lf else Ok res) res)
    (a_e r);
  '(es, res) ← for_ (seqZ 0 (a_n a)) (λ i '(es, res),
      fin ← rd_final es i;
      es ← wr_final es i (Z.land fin 1);
      li ← rd l i;
      res ← (if decide (li ≠ -1)
             then fin ← rd_final es i; wr_final res li fin else Ok res);
      Ok (es, res))
    (a_e a, res);
  ri ← (if decide (a_i a ≠ -1) then rd l (a_i a) else Ok (-1));
  Ok (with_e a es, mkAutomate res (a_n r) (a_na r) ri).

(** The first [dictAdd] of [emonde] meets a dictionary of [NewDict(0)]. *)
Example emonde_unreachable_state : emonde unreachable_state = OutOfBounds.
Proof. reflexivity. Qed.

Example emonde_lasso : emonde lasso = OutOfBounds.
Proof. reflexivity. Qed.

Example emonde_no_state :
  emonde (mkAutomate [] 0 2 (-1))
  = Ok (mkAutomate [] 0 2 (-1), mkAutomate [] 0 2 (-1)).
Proof. reflexivity. Qed.

Example StronglyConnectedComponents_lasso :
  StronglyConnectedComponents lasso = Ok (lasso, [2; 0; 1; 3], 4).
Proof. reflexivity. Qed.

(** ** Determinisation *)

(** [struct Etats { int *e; int n; }]: the [n] states listed in [e]. *)
Abbreviation Etats := (list Z).

(** The hash table [lhash]: [nhash] buckets, all empty after [AllocHash];
    only the buckets that were written are listed. *)
Definition nhash : Z := 10000019.
Abbreviation Hash := (list (Z * Dict)).
Definition bucket (lhash : Hash) (h : Z) : Dict :=
  match list_find (λ kv, kv.1 = h) lhash with
  | Some (_, (_, d)) => d
  | None => []
  end.
Definition set_bucket (lhash : Hash) (h : Z) (d : Dict) : Hash :=
  (h, d) :: filter (λ kv, kv.1 ≠ h) lhash.

(** The value of an [int] computation kept on 32 bits, in two's complement. *)
Definition wrap32 (z : Z) : Z := (z + 2147483648) mod 4294967296 - 2147483648.

(** [h] is an [int]: [h *= 2] and [h += e.e[i]] are computed on 32 bits, and
    [%] rounds towards zero, so that its result has the sign of [h]. *)
Definition hash (e : Etats) : Z :=
  foldl (λ h x, Z.rem (wrap32 (wrap32 (h * 2) + x)) nhash) 1 e.

Definition equals (e1 e2 : Etats) : bool := bool_decide (e1 = e2).

(** Adds the set to the hash table unless it is there; the pair is the
    result and [*nf].  The bucket is [lhash[h]], one of the [nhash] cells
    of the table. *)
Definition add (lhash : Hash) (l : list Etats) (e : Etats) (nf : Z)
    : Res (Hash * bool * Z) :=
  let h := hash e in
  if decide (0 ≤ h < nhash) then
    x ← for_flow (seqZ 0 (d_n (bucket lhash h))) (λ i nf,
          v ← rd (bucket lhash h) i;
          if decide (v < 0) then Ok (Return v false)
          else
            lv ← rd l v;
            if equals lv e then Ok (Return v false) else Ok (Next v)) nf;
    match x with
    | Return nf r => Ok (lhash, r, nf)
    | Next _ =>
      let n := Z.of_nat (length l) in
      Ok (set_bucket lhash h (dictAdd (bucket lhash h) n), true, n)
    end
  else OutOfBounds.

Definition invertDict (d : Dict) : Res (list Dict) :=
  let nv := foldl (λ nv x, if decide (nv ≤ x) then x + 1 else nv) 0 d in
  for_ (seqZ 0 (d_n d)) (λ i r,
    x ← rd d i;
    if decide (x ≠ -1) then dx ← rd r x; wr r x (dictAdd dx i) else Ok r)
    (replicate (Z.to_nat nv) ([] : Dict)).

(** [f] has room for [cap] states. *)
Definition putEtat (cap : Z) (f : Etats) (ef : Z) : Res Etats :=
  if bool_decide (ef ∈ f) then Ok f
  else if decide (Z.of_nat (length f) < cap) then Ok (f ++ [ef])
  else OutOfBounds.

(** The state is the result [r], the list [l] of the sets met and the hash
    table. *)
Fixpoint Determinise_rec (fuel : nat) (a : Automaton) (id : list Dict)
    (st : Automaton * list Etats * Hash) (onlyfinals nof : bool)
    : Res (Automaton * list Etats * Hash) :=
  match fuel with
  | O => OutOfFuel
  | S fuel =>
    let current := Z.of_nat (length st.1.2) - 1 in
    c ← rd st.1.2 current;
    for_ (seqZ 0 (Z.of_nat (length id))) (λ i '(r, l, lhash),
      di ← rd id i;
      '(f, final) ← for_ (seqZ 0 (d_n c)) (λ j '(f, final),
          cj ← rd c j;
          e ← rd (a_e a) cj;
          for_ (seqZ 0 (d_n di)) (λ k '(f, final),
            dk ← rd di k;
            ef ← rd (e_f e) dk;
            if decide (ef ≠ -1) then
              f ← putEtat (a_n a) f ef;
              fin ← rd_final (a_e a) ef;
              Ok (f, if decide (fin ≠ 0) then true else final)
            else Ok (f, final)) (f, final)) ([], false);
      if onlyfinals && negb final then Ok (r, l, lhash)
      else if nof && final then Ok (r, l, lhash)
      else
        '(lhash, isnew, nf) ← add lhash l f UNINIT;
        '(r, l, lhash) ← (if isnew : bool then
            let l := l ++ [f] in
            r ← AddEtat r (if nof then true else final);
            Determinise_rec fuel a id (r, l, lhash) onlyfinals nof
          else Ok (r, l, lhash));
        if decide (nf ≠ -1) then
          es ← wr_f (a_e r) current i nf; Ok (with_e r es, l, lhash)
        else Ok (r, l, lhash)) st
  end.

Definition Determinise (fuel : nat) (a : Automaton) (d : Dict)
    (noempty onlyfinals nof : bool) : Res Automaton :=
  id ← invertDict d;
  let idn := Z.of_nat (length id) in
  let lhash : Hash :=
    if noempty then set_bucket [] (hash []) (dictAdd [] (-1)) else [] in
  if decide (a_i a = -1) then
    if nof then
      let r := NewAutomaton 1 idn in
      es ← wr_final (a_e r) 0 1;
      es ← for_ (seqZ 0 idn) (λ i es, wr_f es 0 i 0) es;
      Ok (mkAutomate es (a_n r) (a_na r) 0)
    else Ok (NewAutomaton 0 idn)
  else
    fin ← (if nof then Ok 1 else rd_final (a_e a) (a_i a));
    let r := mkAutomate [mkEtat (replicate (Z.to_nat idn) (-1)) fin] 1 idn 0 in
    let e : Etats := [a_i a] in
    '(lhash, _, _) ← add lhash [] e UNINIT;
    let l := [e] in
    l0 ← rd l 0;
    '(lhash, _, _) ← add lhash l l0 UNINIT;
    '(r, _, _) ← Determinise_rec fuel a id (r, l, lhash) onlyfinals nof;
    Ok r.

(** Two letters merged into one: from state 0 the letter leads to 1 or 2.
    The sets are compared as lists, so [0; 2; 1] and [1; 2; 0] are two states. *)
Example Determinise_merge :
  Determinise 8 three_states [0; 0] false false false
  = Ok (mkAutomate [mkEtat [1] 0; mkEtat [2] 1; mkEtat [3] 1; mkEtat [2] 1] 4 1 0).
Proof. reflexivity. Qed.

(** ** Two runs side by side *)

(** Two calls end the same way, with related values when they return. *)
Definition Res_rel {A B} (R : A → B → Prop) (m : Res A) (m' : Res B) : Prop :=
  match m, m' with
  | Ok x, Ok y => R x y
  | OutOfBounds, OutOfBounds => True
  | OutOfFuel, OutOfFuel => True
  | _, _ => False
  end.

Lemma Res_rel_bind {A B A' B'} (R : A → A' → Prop) (Q : B → B' → Prop)
    m m' (k : A → Res B) (k' : A' → Res B') :
  Res_rel R m m' → (∀ x x', R x x' → Res_rel Q (k x) (k' x')) →
  Res_rel Q (m ≫= k) (m' ≫= k').
Proof. destruct m, m'; simpl; intros H Hk; try contradiction; auto. Qed.

Lemma Res_rel_eq {A} (m : Res A) : Res_rel eq m m.
Proof. destruct m; simpl; auto. Qed.

Lemma Res_rel_mono {A B} (R Q : A → B → Prop) m m' :
  (∀ x y, R x y → Q x y) → Res_rel R m m' → Res_rel Q m m'.
Proof. destruct m, m'; simpl; auto. Qed.

Definition flow_rel {S S' R} (P : S → S' → Prop) (x : flow S R) (y : flow S' R)
    : Prop :=
  match x, y with
  | Next s, Next s' => P s s'
  | Return s r, Return s' r' => P s s' ∧ r = r'
  | _, _ => False
  end.

Lemma for_flow_rel {S S' R} (P : S → S' → Prop) js
    (body : Z → S → Res (flow S R)) (body' : Z → S' → Res (flow S' R)) s s' :
  P s s' →
  (∀ j s s', P s s' → Res_rel (flow_rel P) (body j s) (body' j s')) →
  Res_rel (flow_rel P) (for_flow js body s) (for_flow js body' s').
Proof.
  intros HP Hbody. revert s s' HP. induction js as [|j js IH]; intros s s' HP.
  - exact HP.
  - simpl. eapply Res_rel_bind; [apply Hbody, HP|].
    intros [s1|s1 r1] [s1'|s1' r1']; simpl; try contradiction; auto.
Qed.

Lemma for_rel {S S'} (P : S → S' → Prop) js
    (body : Z → S → Res S) (body' : Z → S' → Res S') s s' :
  P s s' →
  (∀ j s s', P s s' → Res_rel P (body j s) (body' j s')) →
  Res_rel P (for_ js body s) (for_ js body' s').
Proof.
  intros HP Hbody. revert s s' HP. induction js as [|j js IH]; intros s s' HP.
  - exact HP.
  - simpl. eapply Res_rel_bind; [apply Hbody, HP|]. auto.
Qed.

(** ** The co-walk does not look at the finality flags *)

(** Same transitions, and the same mark in bit 1 of every [final] field. *)
Definition same_walk_state (s s' : Etat) : Prop :=
  e_f s = e_f s' ∧ Z.land (e_final s) 2 = Z.land (e_final s') 2.
Definition same_walk (a a' : Automaton) : Prop :=
  a_n a = a_n a' ∧ a_na a = a_na a' ∧ a_i a = a_i a'
  ∧ Forall2 same_walk_state (a_e a) (a_e a').

Lemma rd_rel {A B} (R : A → B → Prop) (t : list A) (t' : list B) k :
  Forall2 R t t' → Res_rel R (rd t k) (rd t' k).
Proof.
  intros H. unfold rd. case_decide; [|exact I].
  destruct (t !! Z.to_nat k) as [x|] eqn:Hx.
  - destruct (Forall2_lookup_l _ _ _ _ _ H Hx) as (y & -> & Hxy). exact Hxy.
  - apply lookup_ge_None in Hx. rewrite (Forall2_length H) in Hx.
    apply lookup_ge_None in Hx. rewrite Hx. exact I.
Qed.

Lemma wr_rel {A B} (R : A → B → Prop) (t : list A) (t' : list B) k x y :
  Forall2 R t t' → R x y → Res_rel (Forall2 R) (wr t k x) (wr t' k y).
Proof.
  intros H Hxy. unfold wr. rewrite (Forall2_length H).
  case_decide; [|exact I]. simpl. apply Forall2_insert; assumption.
Qed.

Lemma deref_rel (st st' : store) p :
  Forall2 same_walk st st' → Res_rel same_walk (deref st p) (deref st' p).
Proof.
  intros H. unfold deref. destruct (st !! p) as [a|] eqn:Ha.
  - destruct (Forall2_lookup_l _ _ _ _ _ H Ha) as (a' & -> & Haa). exact Haa.
  - apply lookup_ge_None in Ha. rewrite (Forall2_length H) in Ha.
    apply lookup_ge_None in Ha. rewrite Ha. exact I.
Qed.

Lemma rd_f_rel es es' k j :
  Forall2 same_walk_state es es' → Res_rel eq (rd_f es k j) (rd_f es' k j).
Proof.
  intros H. unfold rd_f. eapply Res_rel_bind; [apply rd_rel, H|].
  intros s s' [-> _]. apply Res_rel_eq.
Qed.

Lemma mark_seen_rel st st' p k :
  Forall2 same_walk st st' →
  Res_rel (Forall2 same_walk) (mark_seen st p k) (mark_seen st' p k).
Proof.
  intros H. unfold mark_seen.
  eapply Res_rel_bind; [apply deref_rel, H|]. intros a a' (Hn & Hna & Hi & Hes).
  unfold rd_final, wr_final.
  eapply (Res_rel_bind (λ fin fin', Z.land fin 2 = Z.land fin' 2)).
  { eapply Res_rel_bind; [apply rd_rel, Hes|]. intros s s' [_ Hs]. exact Hs. }
  intros fin fin' Hfin. cbn beta.
  eapply Res_rel_bind.
  { eapply Res_rel_bind; [apply rd_rel, Hes|]. intros s s' [Hf Hs].
    apply wr_rel; [exact Hes|]. split; [exact Hf|]. simpl.
    rewrite !Z.land_lor_distr_l, Hfin. reflexivity. }
  intros es es' Hes'. simpl. apply Forall2_insert; [exact H|].
  repeat split; assumption.
Qed.

Lemma rd_final_rel es es' k :
  Forall2 same_walk_state es es' →
  Res_rel (λ fin fin', Z.land fin 2 = Z.land fin' 2) (rd_final es k) (rd_final es' k).
Proof.
  intros H. unfold rd_final. eapply Res_rel_bind; [apply rd_rel, H|].
  intros s s' [_ Hs]. exact Hs.
Qed.

Definition same_walk_answer (x y : store * bool) : Prop :=
  Forall2 same_walk x.1 y.1 ∧ x.2 = y.2.

Lemma equalsLangages_rec_rel fuel p1 p2 a1toa2 a2toa1 :
  ∀ st st' e1 e2, Forall2 same_walk st st' →
  Res_rel same_walk_answer
    (equalsLangages_rec fuel st p1 p2 a1toa2 a2toa1 e1 e2)
    (equalsLangages_rec fuel st' p1 p2 a1toa2 a2toa1 e1 e2).
Proof.
  induction fuel as [|fuel IH]; intros st st' e1 e2 H; [exact I|]. simpl.
  eapply Res_rel_bind; [apply deref_rel, H|]. intros a1 a1' (_ & Hna1 & _ & Hes1).
  eapply Res_rel_bind; [apply deref_rel, H|]. intros a2 a2' (_ & Hna2 & _ & Hes2).
  eapply Res_rel_bind; [apply rd_final_rel, Hes1|]. intros fin1 fin1' Hfin1.
  rewrite Hfin1, Hna1, Hna2.
  eapply (Res_rel_bind eq).
  { case_decide; [|reflexivity].
    eapply Res_rel_bind; [apply rd_final_rel, Hes2|]. intros fin2 fin2' Hfin2.
    simpl. rewrite Hfin2. reflexivity. }
  intros seen ? <-. destruct seen; [split; [exact H | reflexivity]|].
  eapply Res_rel_bind; [apply mark_seen_rel, H|]. clear dependent st st'.
  intros st st' H.
  eapply Res_rel_bind; [apply mark_seen_rel, H|]. clear dependent st st'.
  intros st st' H.
  eapply Res_rel_bind.
  { apply (for_flow_rel (Forall2 same_walk)); [exact H|].
    clear dependent st st'. intros i st st' H.
    eapply Res_rel_bind; [apply deref_rel, H|]. intros b1 b1' (_ & _ & _ & Hb1).
    eapply Res_rel_bind; [apply rd_f_rel, Hb1|]. intros f1 ? <-.
    case_decide; [|exact H].
    eapply Res_rel_bind; [apply Res_rel_eq|]. intros l ? <-.
    case_decide; [|split; [exact H | reflexivity]].
    eapply Res_rel_bind; [apply deref_rel, H|]. intros b2 b2' (_ & _ & _ & Hb2).
    eapply Res_rel_bind; [apply rd_f_rel, Hb2|]. intros f2 ? <-.
    case_decide; [split; [exact H | reflexivity]|].
    eapply Res_rel_bind; [apply IH, H|]. intros [s1 r1] [s1' r1'] [Hs _].
    exact Hs. }
  clear dependent st st'.
  intros [st|st r] [st'|st' r']; simpl; try contradiction.
  2: { intros [H <-]. split; [exact H | reflexivity]. }
  intros H. eapply Res_rel_bind.
  { apply (for_flow_rel (Forall2 same_walk)); [exact H|].
    clear dependent st st'. intros i st st' H.
    eapply Res_rel_bind; [apply deref_rel, H|]. intros b2 b2' (_ & _ & _ & Hb2).
    eapply Res_rel_bind; [apply rd_f_rel, Hb2|]. intros f2 ? <-.
    case_decide; [|exact H].
    eapply Res_rel_bind; [apply Res_rel_eq|]. intros l ? <-.
    case_decide; [|split; [exact H | reflexivity]].
    eapply Res_rel_bind; [apply deref_rel, H|]. intros b1 b1' (_ & _ & _ & Hb1).
    eapply Res_rel_bind; [apply rd_f_rel, Hb1|]. intros f1 ? <-.
    case_decide; [split; [exact H | reflexivity] | exact H]. }
  clear dependent st st'.
  intros [st|st r] [st'|st' r']; simpl; try contradiction.
  - intros H. split; [exact H | reflexivity].
  - intros [H <-]. split; [exact H | reflexivity].
Qed.

Lemma restore_finals_rel st st' p :
  Forall2 same_walk st st' →
  Res_rel (Forall2 same_walk) (restore_finals st p) (restore_finals st' p).
Proof.
  intros H. unfold restore_finals.
  eapply Res_rel_bind; [apply deref_rel, H|]. intros a a' (Hn & Hna & Hi & Hes).
  rewrite Hn. eapply Res_rel_bind.
  { apply (for_rel (Forall2 same_walk_state)); [exact Hes|].
    intros i es es' Hes'.
    eapply Res_rel_bind; [apply rd_final_rel, Hes'|]. intros fin fin' Hfin.
    unfold wr_final. eapply Res_rel_bind; [apply rd_rel, Hes'|].
    intros s s' [Hf _]. apply wr_rel; [exact Hes'|]. split; [exact Hf|]. simpl.
    rewrite <- !Z.land_assoc. change (Z.land 1 2) with 0.
    rewrite !Z.land_0_r. reflexivity. }
  intros es es' Hes'. simpl. apply Forall2_insert; [exact H|].
  repeat split; assumption.
Qed.

(** What a call answers, the memory left aside. *)
Definition answer {A B} (m : Res (A * B)) : Res B :=
  match m with
  | Ok (_, b) => Ok b
  | OutOfBounds => OutOfBounds
  | OutOfFuel => OutOfFuel
  end.

(** [a'] is [a] with other finality flags. *)
Definition flags_changed (a a' : Automaton) : Prop :=
  a_n a = a_n a' ∧ a_na a = a_na a' ∧ a_i a = a_i a'
  ∧ Forall2 (λ s s', e_f s = e_f s'
                     ∧ (e_final s = 0 ∨ e_final s = 1)
                     ∧ (e_final s' = 0 ∨ e_final s' = 1)) (a_e a) (a_e a').

(** C3.  With [minimized = true], the answer of [equalsLangages] is the same
    for two stores whose automata differ only by their finality flags: the
    two calls return the same boolean, or fail in the same way. *)
Theorem equalsLangages_ignores_finality (st st' : store) (p1 p2 : nat) (d : Dict) :
  Forall2 flags_changed st st' →
  answer (equalsLangages st p1 p2 d true) = answer (equalsLangages st' p1 p2 d true).
Proof.
  intros Hflags.
  assert (Forall2 same_walk st st') as H.
  { eapply Forall2_impl; [|exact Hflags]. intros a a' (Hn & Hna & Hi & Hes).
    repeat split; try assumption. eapply Forall2_impl; [|exact Hes].
    intros s s' (Hf & Hs & Hs'). split; [exact Hf|].
    destruct Hs as [-> | ->], Hs' as [-> | ->]; reflexivity. }
  assert (Res_rel same_walk_answer (equalsLangages st p1 p2 d true)
                                   (equalsLangages st' p1 p2 d true)) as Hrel.
  { unfold equalsLangages. rewrite !Ok_bind.
    eapply Res_rel_bind; [apply deref_rel, H|]. intros a2 a2' (Hn2 & Hna2 & Hi2 & _).
    rewrite Hna2. eapply Res_rel_bind; [apply Res_rel_eq|]. intros a2toa1 ? <-.
    eapply Res_rel_bind; [apply deref_rel, H|]. intros a1 a1' (Hn1 & Hna1 & Hi1 & _).
    rewrite Hn1, Hn2, Hi1, Hi2.
    eapply Res_rel_bind; [apply equalsLangages_rec_rel, H|].
    intros [s r] [s' r'] [Hs Hr]. simpl in Hs, Hr. subst r'.
    eapply Res_rel_bind; [apply restore_finals_rel, Hs|]. intros s1 s1' Hs1.
    eapply Res_rel_bind; [apply restore_finals_rel, Hs1|]. intros s2 s2' Hs2.
    split; [exact Hs2 | reflexivity]. }
  destruct (equalsLangages st p1 p2 d true) as [[s r]| |],
           (equalsLangages st' p1 p2 d true) as [[s' r']| |];
    simpl in *; try contradiction; try reflexivity.
  destruct Hrel as [_ Hr]. simpl in Hr. congruence.
Qed.

(** The "contains a 1" automaton of the specification, and the same
    automaton with the finality of both states flipped. *)
Definition contains_1 : Automaton :=
  mkAutomate [mkEtat [0; 1] 0; mkEtat [1; 1] 1] 2 2 0.
Definition contains_1_flipped : Automaton :=
  mkAutomate [mkEtat [0; 1] 1; mkEtat [1; 1] 0] 2 2 0.

Lemma equalsLangages_ignores_finality_witness :
  Forall2 flags_changed [contains_1; lacks_0_0] [contains_1_flipped; lacks_0_0]
  ∧ answer (equalsLangages [contains_1; lacks_0_0] 0 1 [0; 1] true) = Ok false
  ∧ answer (equalsLangages [contains_1_flipped; lacks_0_0] 0 1 [0; 1] true) = Ok false.
Proof.
  assert (Forall2 flags_changed [contains_1; lacks_0_0]
                                [contains_1_flipped; lacks_0_0]) as H.
  { repeat (apply Forall2_cons; [|try apply Forall2_nil]);
      (split; [reflexivity|]); (split; [reflexivity|]); (split; [reflexivity|]);
      simpl; repeat (apply Forall2_cons; [|try apply Forall2_nil]);
      simpl; auto. }
  split; [exact H|].
  rewrite <- (equalsLangages_ignores_finality _ _ 0%nat 1%nat [0; 1] H).
  split; reflexivity.
Defined.


(** ** Arrays read and written in range *)

Definition sel `{Inhabited T} (l : list T) (k : Z) : T := l !!! Z.to_nat k.
Definition upd {T} (l : list T) (k : Z) (x : T) : list T := <[Z.to_nat k := x]> l.
Abbreviation len l := (Z.of_nat (length l)).

Lemma rd_sel `{Inhabited T} (l : list T) k :
  0 ≤ k < len l → rd l k = Ok (sel l k).
Proof.
  intros Hk. apply rd_lookup; [lia|]. apply list_lookup_lookup_total_lt. lia.
Qed.

Lemma wr_upd {T} (l : list T) k x : 0 ≤ k < len l → wr l k x = Ok (upd l k x).
Proof. intros Hk. unfold wr. rewrite decide_True by exact Hk. reflexivity. Qed.

Lemma rd_Ok_sel `{Inhabited T} (l : list T) k x :
  rd l k = Ok x → 0 ≤ k < len l ∧ x = sel l k.
Proof.
  intros [Hk Hx]%rd_Ok. pose proof (lookup_lt_Some _ _ _ Hx).
  split; [lia|]. unfold sel. rewrite (list_lookup_total_correct _ _ _ Hx). reflexivity.
Qed.

Lemma length_upd {T} (l : list T) k x : length (upd l k x) = length l.
Proof. apply length_insert. Qed.

Lemma sel_upd_eq `{Inhabited T} (l : list T) k x :
  0 ≤ k < len l → sel (upd l k x) k = x.
Proof.
  intros Hk. unfold sel, upd. apply list_lookup_total_correct.
  apply list_lookup_insert_eq. lia.
Qed.

Lemma sel_upd_ne `{Inhabited T} (l : list T) k k' x :
  0 ≤ k → 0 ≤ k' → k ≠ k' → sel (upd l k x) k' = sel l k'.
Proof.
  intros Hk Hk' Hne. unfold sel, upd. rewrite list_lookup_total_insert_ne by lia.
  reflexivity.
Qed.

Lemma sel_upd `{Inhabited T} (l : list T) k k' x :
  0 ≤ k < len l → 0 ≤ k' →
  sel (upd l k x) k' = if decide (k' = k) then x else sel l k'.
Proof.
  intros Hk Hk'. case_decide as Hd.
  - subst. apply sel_upd_eq, Hk.
  - apply sel_upd_ne; lia.
Qed.

Lemma sel_lookup `{Inhabited T} (l : list T) k :
  0 ≤ k < len l → l !! Z.to_nat k = Some (sel l k).
Proof. intros Hk. apply list_lookup_lookup_total_lt. lia. Qed.

Lemma sel_elem_of `{Inhabited T} (l : list T) x :
  x ∈ l ↔ ∃ k, 0 ≤ k < len l ∧ sel l k = x.
Proof.
  rewrite list_elem_of_lookup. split.
  - intros [i Hi]. exists (Z.of_nat i). pose proof (lookup_lt_Some _ _ _ Hi).
    split; [lia|]. unfold sel. rewrite Nat2Z.id.
    apply list_lookup_total_correct, Hi.
  - intros (k & Hk & <-). exists (Z.to_nat k). apply sel_lookup, Hk.
Qed.

Lemma sel_seqZ m n k : 0 ≤ k < n → sel (seqZ m n) k = m + k.
Proof.
  intros Hk. unfold sel. apply list_lookup_total_correct.
  rewrite lookup_seqZ_lt by lia. f_equal. lia.
Qed.

Lemma sel_replicate `{Inhabited T} (x : T) n k :
  0 ≤ k < Z.of_nat n → sel (replicate n x) k = x.
Proof.
  intros Hk. unfold sel. apply list_lookup_total_correct.
  apply lookup_replicate_2. lia.
Qed.

Lemma sel_app_l `{Inhabited T} (l1 l2 : list T) k :
  0 ≤ k < len l1 → sel (l1 ++ l2) k = sel l1 k.
Proof. intros Hk. unfold sel. apply lookup_total_app_l. lia. Qed.

(** A function that is injective on [0, k) with values in [0, N). *)
Lemma injection_bound (f : Z → Z) (k N : Z) :
  0 ≤ k → 0 ≤ N →
  (∀ c, 0 ≤ c < k → 0 ≤ f c < N) →
  (∀ c c', 0 ≤ c < k → 0 ≤ c' < k → f c = f c' → c = c') →
  k ≤ N.
Proof.
  intros Hk HN Hr Hinj.
  assert (NoDup (f <$> seqZ 0 k)) as Hnd.
  { apply NoDup_fmap_2_strong; [|apply NoDup_seqZ].
    intros x y Hx%elem_of_seqZ Hy%elem_of_seqZ Hxy. apply Hinj; [lia..|exact Hxy]. }
  assert (f <$> seqZ 0 k ⊆+ seqZ 0 N) as Hsub.
  { apply NoDup_submseteq; [exact Hnd|].
    intros x (c & -> & Hc%elem_of_seqZ)%list_elem_of_fmap. apply elem_of_seqZ.
    specialize (Hr c). lia. }
  apply submseteq_length in Hsub. rewrite length_fmap, !length_seqZ in Hsub. lia.
Qed.

(** A read or a write in range, followed by the rest of the code. *)
Lemma bind_rd `{Inhabited T} {B} (l : list T) k (f : T → Res B) :
  0 ≤ k < len l → rd l k ≫= f = f (sel l k).
Proof. intros Hk. rewrite rd_sel by exact Hk. reflexivity. Qed.

Lemma bind_wr {T B} (l : list T) k x (f : list T → Res B) :
  0 ≤ k < len l → wr l k x ≫= f = f (upd l k x).
Proof. intros Hk. rewrite wr_upd by exact Hk. reflexivity. Qed.

#[global] Arguments sel : simpl never.
#[global] Arguments upd : simpl never.


(** ** The automaton completed by a sink *)

(** An automaton in memory: the block [e] holds at least [n] states, and a
    deletion in place leaves the block as long as it was. *)
Record wf_alloc (a : Automaton) : Prop := mkwf_alloc
  { wa_n : 0 ≤ a_n a ≤ len (a_e a);
    wa_na : 0 ≤ a_na a;
    wa_row : ∀ k, 0 ≤ k < a_n a → len (e_f (sel (a_e a) k)) = a_na a;
    wa_tgt : ∀ k c, 0 ≤ k < a_n a → 0 ≤ c < a_na a →
                    -1 ≤ sel (e_f (sel (a_e a) k)) c < a_n a;
    wa_fin : ∀ k, 0 ≤ k < a_n a →
                  e_final (sel (a_e a) k) = 0 ∨ e_final (sel (a_e a) k) = 1;
    wa_i : -1 ≤ a_i a < a_n a }.

(** The state [a.n] stands for the sink ("état puits"): absent transitions
    lead to it, it loops on every letter and is not final. *)
Definition delta (a : Automaton) (s c : Z) : Z :=
  if decide (0 ≤ s < a_n a ∧ 0 ≤ c < a_na a) then
    let t := sel (e_f (sel (a_e a) s)) c in
    if decide (t = -1) then a_n a else t
  else a_n a.
Definition final_state (a : Automaton) (s : Z) : bool :=
  bool_decide (0 ≤ s < a_n a ∧ e_final (sel (a_e a) s) ≠ 0).
Definition run_sink (a : Automaton) (s : Z) (w : list Z) : Z :=
  fold_left (delta a) w s.
Definition accepts_sink (a : Automaton) (s : Z) (w : list Z) : bool :=
  final_state a (run_sink a s w).

(** The language of a state. *)
Definition accepts_from (a : Automaton) (s : Z) (w : list Z) : bool :=
  match run a s w with Some t => is_final a t | None => false end.

Lemma accepts_accepts_from a w :
  accepts a w = if decide (a_i a = -1) then false else accepts_from a (a_i a) w.
Proof. reflexivity. Qed.

Section sink.
Context (a : Automaton) (Ha : wf_alloc a).

Lemma wf_alloc_rd_f s c :
  0 ≤ s < a_n a → 0 ≤ c < a_na a →
  rd_f (a_e a) s c = Ok (sel (e_f (sel (a_e a) s)) c).
Proof.
  intros Hs Hc. unfold rd_f. pose proof (wa_n a Ha).
  rewrite rd_sel by lia. rewrite Ok_bind. apply rd_sel.
  rewrite (wa_row a Ha) by lia. lia.
Qed.

Lemma wf_alloc_rd_final s :
  0 ≤ s < a_n a → rd_final (a_e a) s = Ok (e_final (sel (a_e a) s)).
Proof.
  intros Hs. unfold rd_final. pose proof (wa_n a Ha).
  rewrite rd_sel by lia. reflexivity.
Qed.

Lemma delta_range s c : 0 ≤ delta a s c ≤ a_n a.
Proof.
  unfold delta. pose proof (wa_n a Ha). case_decide as Hd; [|lia].
  cbv zeta. case_decide; [lia|].
  pose proof (wa_tgt a Ha s c ltac:(tauto) ltac:(tauto)). lia.
Qed.

Lemma delta_sink c : delta a (a_n a) c = a_n a.
Proof. unfold delta. rewrite decide_False by lia. reflexivity. Qed.

Lemma run_sink_sink w : run_sink a (a_n a) w = a_n a.
Proof.
  unfold run_sink. induction w as [|c w IH]; simpl; [reflexivity|].
  rewrite delta_sink. exact IH.
Qed.

Lemma final_state_sink : final_state a (a_n a) = false.
Proof. unfold final_state. apply bool_decide_eq_false. lia. Qed.

Lemma accepts_sink_sink w : accepts_sink a (a_n a) w = false.
Proof. unfold accepts_sink. rewrite run_sink_sink. apply final_state_sink. Qed.

Lemma step_delta s c :
  0 ≤ s < a_n a →
  step a s c = if decide (delta a s c = a_n a) then None else Some (delta a s c).
Proof.
  intros Hs. unfold step, delta. pose proof (wa_n a Ha).
  destruct (decide (0 ≤ c < a_na a)) as [Hc|Hc].
  - rewrite wf_alloc_rd_f by assumption.
    rewrite (decide_True (P := _ ∧ _)) by tauto. cbv zeta.
    pose proof (wa_tgt a Ha s c Hs Hc).
    destruct (decide (sel (e_f (sel (a_e a) s)) c = -1)).
    + rewrite decide_True by reflexivity. reflexivity.
    + rewrite decide_False by lia. reflexivity.
  - rewrite (decide_False (P := _ ∧ _)) by tauto.
    rewrite decide_True by reflexivity.
    unfold rd_f. rewrite rd_sel by lia. rewrite Ok_bind.
    destruct (rd (e_f (sel (a_e a) s)) c) as [x| |] eqn:Hx; try reflexivity.
    apply rd_Ok_sel in Hx as [Hx _]. rewrite (wa_row a Ha) in Hx by lia. lia.
Qed.

Lemma is_final_state s : 0 ≤ s < a_n a → is_final a s = final_state a s.
Proof.
  intros Hs. unfold is_final, final_state. rewrite wf_alloc_rd_final by exact Hs.
  apply bool_decide_ext. tauto.
Qed.

Lemma accepts_from_sink w :
  ∀ s, 0 ≤ s < a_n a → accepts_from a s w = accepts_sink a s w.
Proof.
  unfold accepts_from, accepts_sink, run_sink.
  induction w as [|c w IH]; intros s Hs; simpl.
  - apply is_final_state, Hs.
  - rewrite step_delta by exact Hs. pose proof (delta_range s c).
    case_decide as Hd.
    + rewrite Hd. symmetry. apply accepts_sink_sink.
    + apply IH. lia.
Qed.
End sink.

Lemma wf_wf_alloc a : wf a → wf_alloc a.
Proof.
  intros Ha. pose proof (wf_n a Ha) as Hn.
  assert (∀ k, 0 ≤ k < a_n a → sel (a_e a) k ∈ a_e a) as Hin.
  { intros k Hk. apply sel_elem_of. exists k. split; [lia | reflexivity]. }
  split.
  - lia.
  - apply (wf_na a Ha).
  - intros k Hk. apply (wf_row a Ha), Hin, Hk.
  - intros k c Hk Hc. apply (wf_tgt a Ha (sel (a_e a) k)); [apply Hin, Hk|].
    apply sel_elem_of. exists c. split; [|reflexivity].
    rewrite (wf_row a Ha) by apply Hin, Hk. exact Hc.
  - intros k Hk. apply (wf_fin a Ha), Hin, Hk.
  - apply (wf_i a Ha).
Qed.

(** ** Counting the states that a traversal has not marked *)

Lemma insert_middle {A} (l : list A) (k : nat) x y :
  l !! k = Some x → <[k := y]> l = take k l ++ y :: drop (S k) l.
Proof.
  intros H. pose proof (lookup_lt_Some _ _ _ H).
  rewrite <- (take_drop k l) at 1.
  rewrite insert_app_r_alt by (rewrite length_take; lia).
  rewrite length_take. replace (k - k `min` length l)%nat with 0%nat by lia.
  rewrite (drop_S _ _ _ H). reflexivity.
Qed.

Section count.
Context {A : Type} (P : A → Prop) {Pdec : ∀ x, Decision (P x)}.

Definition count (l : list A) : nat := length (filter P l).

Lemma count_insert (l : list A) (k : nat) x y :
  l !! k = Some x →
  (count (<[k := y]> l) + (if decide (P x) then 1 else 0)
   = count l + (if decide (P y) then 1 else 0))%nat.
Proof.
  intros H. unfold count. rewrite (insert_middle _ _ _ _ H).
  rewrite <- (take_drop_middle _ _ _ H) at 3.
  rewrite !list.filter_app, !list.filter_cons, !length_app.
  destruct (decide (P x)), (decide (P y)); simpl; lia.
Qed.

Lemma count_le_length (l : list A) : (count l ≤ length l)%nat.
Proof. apply length_filter. Qed.
End count.

(** ** Equality of languages: an automaton against itself *)

Definition unseen (s : Etat) : Prop := Z.land (e_final s) 2 = 0.
#[global] Instance unseen_dec s : Decision (unseen s) := _.

(** [a] is [A] where some states carry the mark of [equalsLangages_rec]. *)
Definition marked_state (s0 s : Etat) : Prop :=
  e_f s = e_f s0 ∧ (e_final s = e_final s0 ∨ e_final s = Z.lor (e_final s0) 2).
Definition marked_of (A a : Automaton) : Prop :=
  a_n a = a_n A ∧ a_na a = a_na A ∧ a_i a = a_i A
  ∧ Forall2 marked_state (a_e A) (a_e a).

(** The states in use, the first [n] of the block, that carry no mark. *)
Definition unseen_count (st : store) (p : nat) : nat :=
  match st !! p with
  | Some a => count unseen (take (Z.to_nat (a_n a)) (a_e a))
  | None => 0%nat
  end.
Definition seen_at (st : store) (p : nat) (k : Z) : Prop :=
  ∃ a s, st !! p = Some a ∧ a_e a !! Z.to_nat k = Some s ∧ ¬ unseen s.

Lemma marked_of_refl A : marked_of A A.
Proof.
  repeat split. apply Forall2_same_length_lookup_2; [reflexivity|].
  intros k s s' H1 H2. rewrite H1 in H2. injection H2 as <-. split; auto.
Qed.

Lemma lor_2_seen fin : Z.land (Z.lor fin 2) 2 ≠ 0.
Proof.
  rewrite Z.land_lor_distr_l. change (Z.land 2 2) with 2. intros H.
  apply Z.lor_eq_0_iff in H as [_ H]. discriminate.
Qed.

Lemma lor_2_idem s0 fin :
  fin = s0 ∨ fin = Z.lor s0 2 → Z.lor fin 2 = Z.lor s0 2.
Proof.
  intros [-> | ->]; [reflexivity|]. rewrite <- Z.lor_assoc. reflexivity.
Qed.

Section self.
Context (A : Automaton) (HA : wf_alloc A) (p1 p2 : nat).

Definition self_inv (st : store) : Prop :=
  (∃ a, st !! p1 = Some a ∧ marked_of A a)
  ∧ (∃ a, st !! p2 = Some a ∧ marked_of A a).

Lemma mark_seen_self st p e :
  self_inv st → p = p1 ∨ p = p2 → 0 ≤ e < a_n A →
  ∃ st', mark_seen st p e = Ok st' ∧ self_inv st'
    ∧ (∀ q, unseen_count st' q ≤ unseen_count st q)%nat
    ∧ (¬ seen_at st p e → unseen_count st' p < unseen_count st p)%nat
    ∧ (∀ q, q ≠ p → st' !! q = st !! q).
Proof.
  intros Hinv Hp He.
  assert (∃ a, st !! p = Some a ∧ marked_of A a) as (a & Ha & Hm).
  { destruct Hp as [-> | ->]; apply Hinv. }
  destruct Hm as (Hn & Hna & Hi & Hes).
  pose proof (wa_n A HA) as HnA. pose proof (Forall2_length Hes) as Hlen.
  destruct (rd_in_range (a_e a) e) as (s & Hs & Hs'); [lia|].
  destruct (Forall2_lookup_r _ _ _ _ _ Hes Hs') as (s0 & Hs0 & Hf & Hfin).
  set (s' := mkEtat (e_f s) (Z.lor (e_final s) 2)).
  set (a' := with_e a (<[Z.to_nat e := s']> (a_e a))).
  assert (marked_of A a') as Hm'.
  { repeat split; try assumption. simpl.
    rewrite <- (list_insert_id _ _ _ Hs0). apply Forall2_insert; [exact Hes|].
    split; [exact Hf|]. right. simpl. apply lor_2_idem, Hfin. }
  exists (<[p := a']> st). split.
  { unfold mark_seen, deref. rewrite Ha. simpl.
    unfold rd_final. rewrite Hs. simpl.
    assert (wr_final (a_e a) e (Z.lor (e_final s) 2)
            = Ok (<[Z.to_nat e := s']> (a_e a))) as ->.
    { apply wr_final_Ok. exists s. split; [exact Hs'|]. split; [lia | reflexivity]. }
    reflexivity. }
  pose proof (lookup_lt_Some _ _ _ Ha) as Hplt.
  assert (take (Z.to_nat (a_n a)) (a_e a) !! Z.to_nat e = Some s) as Hs''.
  { rewrite lookup_take_lt by lia. exact Hs'. }
  pose proof (count_insert unseen _ (Z.to_nat e) s s' Hs'') as Hc.
  rewrite <- take_insert_lt in Hc by lia.
  rewrite (decide_False (P := unseen s')) in Hc by apply lor_2_seen.
  split; [|split; [|split]].
  - split.
    + destruct (decide (p = p1)) as [-> | Hne].
      * exists a'. split; [apply list_lookup_insert_eq, Hplt | exact Hm'].
      * rewrite list_lookup_insert_ne by exact Hne. apply Hinv.
    + destruct (decide (p = p2)) as [-> | Hne].
      * exists a'. split; [apply list_lookup_insert_eq, Hplt | exact Hm'].
      * rewrite list_lookup_insert_ne by exact Hne. apply Hinv.
  - intros q. unfold unseen_count. destruct (decide (p = q)) as [<- | Hne].
    + rewrite list_lookup_insert_eq by exact Hplt. rewrite Ha. simpl. lia.
    + rewrite list_lookup_insert_ne by exact Hne. lia.
  - intros Hunseen. unfold unseen_count.
    rewrite list_lookup_insert_eq by exact Hplt. rewrite Ha. simpl.
    rewrite decide_True in Hc; [lia|].
    destruct (decide (unseen s)) as [|Hseen]; [assumption|].
    exfalso. apply Hunseen. exists a, s. auto.
  - intros q Hq. apply list_lookup_insert_ne. auto.
Qed.
End self.

Lemma for_flow_seqZ_next {S R} (P : Z → S → Prop)
    (body : Z → S → Res (flow S R)) m len s :
  0 ≤ len → P m s →
  (∀ j s, m ≤ j < m + len → P j s → ∃ s', body j s = Ok (Next s') ∧ P (j + 1) s') →
  ∃ s', for_flow (seqZ m len) body s = Ok (Next s') ∧ P (m + len) s'.
Proof.
  intros Hlen. remember (Z.to_nat len) as k eqn:Hk.
  revert m len s Hlen Hk. induction k as [|k IH]; intros m len s Hlen Hk HP Hstep.
  - assert (len = 0) as -> by lia. rewrite seqZ_nil by lia. simpl.
    exists s. split; [reflexivity|]. replace (m + 0) with m by lia. exact HP.
  - rewrite seqZ_cons by lia. simpl.
    destruct (Hstep m s) as (s1 & -> & HP1); [lia | exact HP |]. simpl.
    destruct (IH (Z.succ m) (Z.pred len) s1) as (s2 & Hs2 & HP2); try lia.
    + replace (Z.succ m) with (m + 1) by lia. exact HP1.
    + intros j s0 Hj. apply Hstep. lia.
    + exists s2. split; [exact Hs2|].
      replace (m + len) with (Z.succ m + Z.pred len) by lia. exact HP2.
Qed.

Lemma rd_seqZ m len k : 0 ≤ k < len → rd (seqZ m len) k = Ok (m + k).
Proof.
  intros H. apply rd_lookup; [lia|]. rewrite lookup_seqZ_lt by lia. f_equal. lia.
Qed.

Lemma wf_rd_f A e j :
  wf A → 0 ≤ e < a_n A → 0 ≤ j < a_na A →
  ∃ t, rd_f (a_e A) e j = Ok t ∧ -1 ≤ t < a_n A.
Proof.
  intros HA He Hj. pose proof (wf_n A HA).
  destruct (rd_in_range (a_e A) e) as (s & Hs & Hs'); [lia|].
  pose proof (wf_row_lookup _ _ _ HA Hs').
  destruct (rd_in_range (e_f s) j) as (t & Ht & Ht'); [lia|].
  exists t. split; [apply rd_f_Ok; eauto|].
  eapply (wf_tgt A HA s t); eapply list_elem_of_lookup_2; eassumption.
Qed.

Lemma wf_alloc_rd_f_range A e j :
  wf_alloc A → 0 ≤ e < a_n A → 0 ≤ j < a_na A →
  ∃ t, rd_f (a_e A) e j = Ok t ∧ -1 ≤ t < a_n A.
Proof.
  intros HA He Hj. eexists. split; [apply wf_alloc_rd_f; assumption|].
  apply (wa_tgt A HA); assumption.
Qed.

Lemma marked_rd_f A a e j : marked_of A a → rd_f (a_e a) e j = rd_f (a_e A) e j.
Proof.
  intros (_ & _ & _ & Hes). unfold rd_f.
  pose proof (rd_rel marked_state (a_e A) (a_e a) e Hes) as H.
  destruct (rd (a_e A) e), (rd (a_e a) e); simpl in *; try contradiction;
    try reflexivity.
  destruct H as [-> _]. reflexivity.
Qed.

Section self_walk.
Context (A : Automaton) (HA : wf_alloc A) (p1 p2 : nat).
Let ident : Dict := seqZ 0 (a_na A).

Lemma self_inv_deref st :
  self_inv A p1 p2 st →
  ∃ a1 a2, deref st p1 = Ok a1 ∧ deref st p2 = Ok a2
           ∧ marked_of A a1 ∧ marked_of A a2.
Proof.
  intros [(a1 & H1 & Hm1) (a2 & H2 & Hm2)]. exists a1, a2.
  unfold deref. rewrite H1, H2. auto.
Qed.

Lemma equalsLangages_rec_self fuel :
  ∀ st e, self_inv A p1 p2 st → 0 ≤ e < a_n A →
    (unseen_count st p1 + unseen_count st p2 < fuel)%nat →
    ∃ st', equalsLangages_rec fuel st p1 p2 ident ident e e = Ok (st', true)
           ∧ self_inv A p1 p2 st'
           ∧ ∀ q, (unseen_count st' q ≤ unseen_count st q)%nat.
Proof.
  unfold ident. induction fuel as [|fuel IH]; intros st e Hinv He Hfuel; [lia|].
  cbn [equalsLangages_rec].
  destruct (self_inv_deref st Hinv) as (a1 & a2 & Hd1 & Hd2 & Hm1 & Hm2).
  rewrite Hd1, Hd2; ok.
  pose proof (wa_n A HA) as HnA. pose proof (wa_na A HA) as HnaA.
  destruct Hm1 as (Hn1 & Hna1 & Hi1 & Hes1). destruct Hm2 as (Hn2 & Hna2 & Hi2 & Hes2).
  pose proof (Forall2_length Hes1) as Hlen1. pose proof (Forall2_length Hes2) as Hlen2.
  destruct (rd_in_range (a_e a1) e) as (s1 & Hs1 & Hs1'); [lia|].
  destruct (rd_in_range (a_e a2) e) as (s2 & Hs2 & Hs2'); [lia|].
  rewrite (rd_final_lookup _ e _ ltac:(lia) Hs1'); ok.
  unfold deref in Hd1, Hd2.
  destruct (st !! p1) as [b1|] eqn:Hp1; [injection Hd1 as ->|discriminate].
  destruct (st !! p2) as [b2|] eqn:Hp2; [injection Hd2 as ->|discriminate].
  match goal with |- context [mbind _ ?m] =>
    match m with (if _ then _ else _) =>
      assert (∃ seen : bool, m = Ok seen
                ∧ (seen = false → ¬ seen_at st p1 e ∨ ¬ seen_at st p2 e))
        as (seen & -> & Hseen)
    end
  end.
  { case_decide as Hf1.
    - rewrite (rd_final_lookup _ e _ ltac:(lia) Hs2'); ok. eexists. split; [reflexivity|].
      intros Hb%bool_decide_eq_false. right. intros (a & s & Ha & Hs & Hu).
      rewrite Hp2 in Ha. injection Ha as <-. rewrite Hs2' in Hs. injection Hs as <-.
      apply Hu. unfold unseen. destruct (decide (Z.land (e_final s2) 2 = 0)); tauto.
    - exists false. split; [reflexivity|]. intros _. left.
      intros (a & s & Ha & Hs & Hu).
      rewrite Hp1 in Ha. injection Ha as <-. rewrite Hs1' in Hs. injection Hs as <-.
      apply Hu. unfold unseen. destruct (decide (Z.land (e_final s1) 2 = 0)); tauto. }
  ok. destruct seen.
  { exists st. split; [reflexivity|]. split; [exact Hinv|]. intros q. lia. }
  specialize (Hseen eq_refl).
  destruct (mark_seen_self A HA p1 p2 st p1 e Hinv ltac:(auto) He)
    as (st1 & -> & Hinv1 & Hle1 & Hlt1 & Hoth1).
  ok.
  destruct (mark_seen_self A HA p1 p2 st1 p2 e Hinv1 ltac:(auto) He)
    as (st2 & -> & Hinv2 & Hle2 & Hlt2 & Hoth2).
  ok.
  assert (unseen_count st2 p1 + unseen_count st2 p2 < fuel)%nat as Hfuel2.
  { pose proof (Hle1 p1). pose proof (Hle1 p2). pose proof (Hle2 p1). pose proof (Hle2 p2).
    destruct Hseen as [Hs | Hns2]; [specialize (Hlt1 Hs); lia|].
    destruct (decide (p2 = p1)) as [Heq | Hne].
    - rewrite Heq in Hns2. specialize (Hlt1 Hns2). lia.
    - assert (¬ seen_at st1 p2 e) as Hns.
      { intros (a & s & Ha & H'). rewrite Hoth1 in Ha by exact Hne.
        apply Hns2. exists a, s. auto. }
      specialize (Hlt2 Hns). lia. }
  clear Hseen Hlt1 Hlt2 Hoth1 Hoth2.
  set (P := λ (_ : Z) (s : store),
         self_inv A p1 p2 s ∧ ∀ q, (unseen_count s q ≤ unseen_count st2 q)%nat).
  rewrite Hna1, Hna2.
  edestruct (for_flow_seqZ_next (R := bool) P) as (st3 & -> & Hinv3 & Hle3);
    [exact HnaA | split; [exact Hinv2 | intros q; lia] | |].
  { intros i s Hi [Hinvs Hles].
    destruct (self_inv_deref s Hinvs) as (c1 & c2 & -> & Hc2 & Hmc1 & Hmc2).
    ok. rewrite (marked_rd_f _ _ _ _ Hmc1).
    destruct (wf_alloc_rd_f_range A e i HA He ltac:(lia)) as (t & Ht & Htr).
    rewrite Ht; ok.
    case_decide as Ht1; [|exists s; split; [reflexivity | split; assumption]].
    rewrite rd_seqZ by lia. ok. rewrite decide_True by lia.
    rewrite Hc2; ok. replace (0 + i) with i by lia.
    rewrite (marked_rd_f _ _ _ _ Hmc2), Ht; ok. rewrite decide_False by tauto.
    destruct (IH s t Hinvs ltac:(lia)) as (s' & -> & Hinvs' & Hles').
    { pose proof (Hles p1). pose proof (Hles p2). lia. }
    ok. exists s'. split; [reflexivity|]. split; [exact Hinvs'|].
    intros q. specialize (Hles q). specialize (Hles' q). lia. }
  ok.
  edestruct (for_flow_seqZ_next (R := bool) (λ (_ : Z) (s : store), s = st3))
    as (st4 & -> & ->); [exact HnaA | reflexivity | |].
  { intros i s Hi ->.
    destruct (self_inv_deref st3 Hinv3) as (c1 & c2 & Hc1 & -> & Hmc1 & Hmc2).
    ok. rewrite (marked_rd_f _ _ _ _ Hmc2).
    destruct (wf_alloc_rd_f_range A e i HA He ltac:(lia)) as (t & Ht & Htr).
    rewrite Ht; ok.
    case_decide as Ht1; [|exists st3; split; reflexivity].
    rewrite rd_seqZ by lia. ok. rewrite decide_True by lia.
    rewrite Hc1; ok. replace (0 + i) with i by lia.
    rewrite (marked_rd_f _ _ _ _ Hmc1), Ht; ok. rewrite decide_False by tauto.
    exists st3. split; reflexivity. }
  ok. exists st3. split; [reflexivity|]. split; [exact Hinv3|].
  intros q. specialize (Hle3 q). specialize (Hle1 q). specialize (Hle2 q). lia.
Qed.
End self_walk.

(** ** Equality of languages: what the call leaves in memory *)

Definition state_of {S R} (x : flow S R) : S :=
  match x with Next s => s | Return s _ => s end.

Lemma for_flow_post {S R} (P : S → Prop) js
    (body : Z → S → Res (flow S R)) s x :
  P s → (∀ j s y, P s → body j s = Ok y → P (state_of y)) →
  for_flow js body s = Ok x → P (state_of x).
Proof.
  intros HP Hbody. revert s HP. induction js as [|j js IH]; intros s HP; simpl.
  - intros [= <-]. exact HP.
  - intros H. apply bind_Ok in H as (y & Hy & H).
    pose proof (Hbody _ _ _ HP Hy) as HPy. destruct y as [s1|s1 r1]; simpl in *.
    + eapply IH; eassumption.
    + injection H as <-. exact HPy.
Qed.

Lemma for_post {S} (P : S → Prop) js (body : Z → S → Res S) s s' :
  P s → (∀ j s s', P s → body j s = Ok s' → P s') →
  for_ js body s = Ok s' → P s'.
Proof.
  intros HP Hbody. revert s HP. induction js as [|j js IH]; intros s HP; simpl.
  - intros [= <-]. exact HP.
  - intros H. apply bind_Ok in H as (y & Hy & H). eapply IH; [|exact H]. eauto.
Qed.

Lemma deref_Ok (st : store) p a : deref st p = Ok a ↔ st !! p = Some a.
Proof.
  unfold deref. destruct (st !! p); split; intros H; try discriminate; congruence.
Qed.

Lemma marked_state_mark s0 s :
  marked_state s0 s → marked_state s0 (mkEtat (e_f s) (Z.lor (e_final s) 2)).
Proof. intros [Hf Hfin]. split; [exact Hf|]. right. simpl. apply lor_2_idem, Hfin. Qed.

Section frame.
Context (p1 p2 : nat) (st0 : store).

(** The automata of the store are those of [st0] with marks, and only the
    two that the call designates may carry marks. *)
Definition frame_inv (st : store) : Prop :=
  Forall2 marked_of st0 st ∧ ∀ q, q ≠ p1 → q ≠ p2 → st !! q = st0 !! q.

Lemma mark_seen_frame st p k st' :
  frame_inv st → p = p1 ∨ p = p2 → mark_seen st p k = Ok st' → frame_inv st'.
Proof.
  intros [Hm Hoth] Hp H. unfold mark_seen in H.
  apply bind_Ok in H as (a & Ha%deref_Ok & H).
  apply bind_Ok in H as (fin & Hfin & H).
  apply bind_Ok in H as (es & Hes & [= <-]).
  apply rd_final_Ok in Hfin as (s & Hs & <-).
  apply wr_final_Ok in Hes as (s' & Hs' & Hk & ->).
  apply rd_Ok in Hs as [_ Hs]. rewrite Hs in Hs'. injection Hs' as <-.
  destruct (Forall2_lookup_r _ _ _ _ _ Hm Ha) as (a0 & Ha0 & Hn & Hna & Hi & Hrows).
  destruct (Forall2_lookup_r _ _ _ _ _ Hrows Hs) as (s0 & Hs0 & Hms).
  split.
  - rewrite <- (list_insert_id _ _ _ Ha0). apply Forall2_insert; [exact Hm|].
    repeat split; try assumption. simpl.
    rewrite <- (list_insert_id _ _ _ Hs0). apply Forall2_insert; [exact Hrows|].
    apply marked_state_mark, Hms.
  - intros q Hq1 Hq2. rewrite list_lookup_insert_ne by (destruct Hp; congruence).
    apply Hoth; assumption.
Qed.

Lemma equalsLangages_rec_frame fuel a1toa2 a2toa1 :
  ∀ st e1 e2 st' b, frame_inv st →
    equalsLangages_rec fuel st p1 p2 a1toa2 a2toa1 e1 e2 = Ok (st', b) →
    frame_inv st'.
Proof.
  induction fuel as [|fuel IH]; intros st e1 e2 st' b Hinv H; [discriminate|].
  cbn [equalsLangages_rec] in H.
  apply bind_Ok in H as (a1 & _ & H). apply bind_Ok in H as (a2 & _ & H).
  apply bind_Ok in H as (fin1 & _ & H). apply bind_Ok in H as (seen & _ & H).
  destruct seen; [injection H as <- <-; exact Hinv|].
  apply bind_Ok in H as (st1 & Hst1 & H).
  apply mark_seen_frame in Hst1; [|exact Hinv|auto].
  apply bind_Ok in H as (st2 & Hst2 & H).
  apply mark_seen_frame in Hst2; [|exact Hst1|auto].
  apply bind_Ok in H as (x & Hx & H).
  apply (for_flow_post frame_inv) in Hx; [|exact Hst2|].
  2: { intros i s y Hs Hy.
       apply bind_Ok in Hy as (b1 & _ & Hy). apply bind_Ok in Hy as (f1 & _ & Hy).
       case_decide; [|injection Hy as <-; exact Hs].
       apply bind_Ok in Hy as (l & _ & Hy).
       case_decide; [|injection Hy as <-; exact Hs].
       apply bind_Ok in Hy as (b2 & _ & Hy). apply bind_Ok in Hy as (f2 & _ & Hy).
       case_decide; [injection Hy as <-; exact Hs|].
       apply bind_Ok in Hy as ([s1 r1] & Hrec & [= <-]). simpl.
       eapply IH; eassumption. }
  destruct x as [st3|st3 r3]; simpl in Hx; [|injection H as <- <-; exact Hx].
  apply bind_Ok in H as (y & Hy & H).
  apply (for_flow_post frame_inv) in Hy; [|exact Hx|].
  2: { intros i s z Hs Hz.
       apply bind_Ok in Hz as (b2 & _ & Hz). apply bind_Ok in Hz as (f2 & _ & Hz).
       case_decide; [|injection Hz as <-; exact Hs].
       apply bind_Ok in Hz as (l & _ & Hz).
       case_decide; [|injection Hz as <-; exact Hs].
       apply bind_Ok in Hz as (b1 & _ & Hz). apply bind_Ok in Hz as (f1 & _ & Hz).
       case_decide; injection Hz as <-; exact Hs. }
  destruct y as [st4|st4 r4]; simpl in Hy; injection H as <- <-; exact Hy.
Qed.
End frame.

(** The loop [final &= 1] over all the states. *)
Definition flag_only (s : Etat) : Etat := mkEtat (e_f s) (Z.land (e_final s) 1).

Lemma restore_loop (es0 : list Etat) n :
  Z.of_nat (length es0) = n →
  for_ (seqZ 0 n) (λ i es, fin ← rd_final es i; wr_final es i (Z.land fin 1)) es0
  = Ok (flag_only <$> es0).
Proof.
  intros Hn.
  destruct (for_seqZ_inv
    (λ i es, es = take (Z.to_nat i) (flag_only <$> es0) ++ drop (Z.to_nat i) es0)
    (λ i es, fin ← rd_final es i; wr_final es i (Z.land fin 1)) 0 n es0)
    as (es & Hes & HP).
  - lia.
  - simpl. rewrite drop_0. reflexivity.
  - intros i es Hi ->.
    destruct (rd_in_range es0 i) as (s & _ & Hs); [lia|].
    set (es := take _ _ ++ drop _ _).
    assert (es !! Z.to_nat i = Some s) as Hcur.
    { unfold es. rewrite lookup_app_r by (rewrite length_take; lia).
      rewrite length_take, length_fmap, lookup_drop.
      replace (Z.to_nat i + (Z.to_nat i - Z.to_nat i `min` length es0))%nat
        with (Z.to_nat i) by lia. exact Hs. }
    rewrite (rd_final_lookup _ i _ ltac:(lia) Hcur); ok.
    eexists. split.
    + apply wr_final_Ok. exists s. split; [exact Hcur|]. split; [lia | reflexivity].
    + replace (Z.to_nat (i + 1)) with (S (Z.to_nat i)) by lia.
      apply insert_take_drop; [|lia]. rewrite list_lookup_fmap, Hs. reflexivity.
  - rewrite Hes, HP. f_equal.
    rewrite take_ge by (rewrite length_fmap; lia).
    rewrite drop_ge by lia. apply app_nil_r.
Qed.

Lemma flag_only_marked A a :
  wf A → marked_of A a → flag_only <$> a_e a = a_e A.
Proof.
  intros HA (_ & _ & _ & Hes). apply list_eq. intros k.
  rewrite list_lookup_fmap.
  destruct (a_e A !! k) as [s0|] eqn:Hs0.
  - destruct (Forall2_lookup_l _ _ _ _ _ Hes Hs0) as (s & -> & Hf & Hfin).
    simpl. f_equal. destruct s0 as [f0 fin0], s as [f fin]. unfold flag_only.
    simpl in *. subst f.
    assert (fin0 = 0 ∨ fin0 = 1) as Hpure.
    { apply (wf_fin A HA (mkEtat f0 fin0)). eapply list_elem_of_lookup_2, Hs0. }
    f_equal. destruct Hpure as [-> | ->], Hfin as [-> | ->]; reflexivity.
  - apply lookup_ge_None in Hs0. rewrite (Forall2_length Hes) in Hs0.
    apply lookup_ge_None in Hs0. rewrite Hs0. reflexivity.
Qed.

Lemma restore_finals_marked st p A a :
  wf A → st !! p = Some a → marked_of A a →
  restore_finals st p = Ok (<[p := A]> st).
Proof.
  intros HA Hp Hm. unfold restore_finals, deref. rewrite Hp; ok.
  destruct Hm as (Hn & Hna & Hi & Hes).
  rewrite restore_loop
    by (rewrite <- (Forall2_length Hes), Hn; apply (wf_n A HA)).
  ok. rewrite (flag_only_marked A a HA) by (repeat split; assumption).
  unfold with_e. rewrite Hn, Hna, Hi. destruct A; reflexivity.
Qed.

(** With [minimized = true], a call that returns leaves the store as it
    found it, whatever the two automata and the dictionary. *)
Lemma equalsLangages_frame st p1 p2 d st' b :
  (∀ a, st !! p1 = Some a → wf a) → (∀ a, st !! p2 = Some a → wf a) →
  equalsLangages st p1 p2 d true = Ok (st', b) → st' = st.
Proof.
  intros Hwf1 Hwf2 H. unfold equalsLangages in H. rewrite Ok_bind in H.
  apply bind_Ok in H as (a2 & Ha2%deref_Ok & H).
  apply bind_Ok in H as (a2toa1 & _ & H).
  apply bind_Ok in H as (a1 & Ha1%deref_Ok & H).
  apply bind_Ok in H as ([s r] & Hrec & H).
  apply (equalsLangages_rec_frame p1 p2 st) in Hrec as [Hm Hoth].
  2: { split; [|reflexivity]. apply Forall2_same_length_lookup_2; [reflexivity|].
       intros k x y Hx Hy. rewrite Hx in Hy. injection Hy as <-. apply marked_of_refl. }
  destruct (Forall2_lookup_l _ _ _ _ _ Hm Ha1) as (b1 & Hb1 & Hmb1).
  rewrite (restore_finals_marked s p1 a1 b1 (Hwf1 _ Ha1) Hb1 Hmb1) in H.
  rewrite Ok_bind in H.
  assert (∃ b2, <[p1 := a1]> s !! p2 = Some b2 ∧ marked_of a2 b2) as (b2 & Hb2 & Hmb2).
  { destruct (decide (p1 = p2)) as [<- | Hne].
    - exists a1. rewrite list_lookup_insert_eq by (eapply lookup_lt_Some, Hb1).
      split; [reflexivity|]. replace a2 with a1 by congruence. apply marked_of_refl.
    - rewrite list_lookup_insert_ne by exact Hne.
      destruct (Forall2_lookup_l _ _ _ _ _ Hm Ha2) as (b2 & ? & ?). eauto. }
  rewrite (restore_finals_marked _ p2 a2 b2 (Hwf2 _ Ha2) Hb2 Hmb2) in H.
  rewrite Ok_bind in H. injection H as <- <-.
  apply list_eq. intros q.
  destruct (decide (q = p2)) as [-> | Hq2].
  { rewrite list_lookup_insert_eq by (eapply lookup_lt_Some, Hb2). congruence. }
  rewrite list_lookup_insert_ne by congruence.
  destruct (decide (q = p1)) as [-> | Hq1].
  { rewrite list_lookup_insert_eq by (eapply lookup_lt_Some, Hb1). congruence. }
  rewrite list_lookup_insert_ne by congruence. apply Hoth; assumption.
Qed.

(** The inverse of the identity dictionary is the identity dictionary. *)
Lemma invert_identity na :
  0 ≤ na →
  for_ (seqZ 0 (d_n (seqZ 0 na))) (λ i d, x ← rd (seqZ 0 na) i; wr d x i) (NewDict na)
  = Ok (seqZ 0 na).
Proof.
  intros Hna. unfold d_n. rewrite length_seqZ, Z2Nat.id by lia.
  destruct (for_seqZ_inv
    (λ i d, d = take (Z.to_nat i) (seqZ 0 na) ++ drop (Z.to_nat i) (NewDict na))
    (λ i d, x ← rd (seqZ 0 na) i; wr d x i) 0 na (NewDict na)) as (d & Hd & HP).
  - lia.
  - simpl. rewrite drop_0. reflexivity.
  - intros i d Hi ->. rewrite rd_seqZ by lia. ok. eexists. split.
    + apply wr_in_range.
      rewrite length_app, length_take, length_drop, length_seqZ.
      unfold NewDict. rewrite length_replicate. lia.
    + replace (0 + i) with i by lia.
      replace (Z.to_nat (i + 1)) with (S (Z.to_nat i)) by lia.
      apply insert_take_drop.
      * rewrite lookup_seqZ_lt by lia. f_equal. lia.
      * unfold NewDict. rewrite length_replicate. lia.
  - rewrite Hd, HP. f_equal.
    rewrite take_ge by (rewrite length_seqZ; lia).
    rewrite drop_ge by (unfold NewDict; rewrite length_replicate; lia).
    apply app_nil_r.
Qed.

Lemma unseen_count_le (st : store) p a :
  st !! p = Some a → (unseen_count st p ≤ Z.to_nat (a_n a))%nat.
Proof.
  intros H. unfold unseen_count. rewrite H.
  etransitivity; [apply count_le_length|]. rewrite length_take. lia.
Qed.

(** The loop [final &= 1] runs over the [n] states in use of a block that
    may be longer. *)
Lemma restore_finals_Ok st p a :
  st !! p = Some a → 0 ≤ a_n a ≤ len (a_e a) →
  ∃ a', restore_finals st p = Ok (<[p := a']> st)
        ∧ a_n a' = a_n a ∧ length (a_e a') = length (a_e a).
Proof.
  intros Hp Hn. unfold restore_finals, deref. rewrite Hp; ok.
  destruct (for_seqZ_inv (λ (_ : Z) (es : list Etat), length es = length (a_e a))
    (λ i es, fin ← rd_final es i; wr_final es i (Z.land fin 1)) 0 (a_n a) (a_e a))
    as (es & Hes & HP).
  - lia.
  - reflexivity.
  - intros i es Hi Hlen.
    destruct (rd_in_range es i) as (s & _ & Hs); [lia|].
    rewrite (rd_final_lookup _ i _ ltac:(lia) Hs); ok.
    eexists. split.
    + apply wr_final_Ok. exists s. split; [exact Hs|]. split; [lia | reflexivity].
    + rewrite length_insert. exact Hlen.
  - rewrite Hes; ok. exists (with_e a es). split; [reflexivity|].
    split; [reflexivity | exact HP].
Qed.

(** An automaton in memory is equal to itself, whether the two pointers are
    equal or designate two copies. *)
Lemma equalsLangages_self (st : store) (p1 p2 : nat) (A : Automaton) :
  wf_alloc A → a_i A ≠ -1 → st !! p1 = Some A → st !! p2 = Some A →
  ∃ st', equalsLangages st p1 p2 (seqZ 0 (a_na A)) true = Ok (st', true).
Proof.
  intros HA Hi H1 H2.
  unfold equalsLangages. rewrite Ok_bind.
  rewrite (proj2 (deref_Ok st p2 A) H2); ok.
  rewrite invert_identity by apply (wa_na A HA). ok.
  rewrite (proj2 (deref_Ok st p1 A) H1); ok.
  pose proof (wa_n A HA) as Hn. pose proof (wa_i A HA) as HiA.
  destruct (equalsLangages_rec_self A HA p1 p2
              (S (Z.to_nat (a_n A) + Z.to_nat (a_n A))) st (a_i A))
    as (s & -> & [(b1 & Hb1 & Hm1) (b2' & Hb2' & Hm2')] & _).
  { split; exists A; (split; [assumption | apply marked_of_refl]). }
  { lia. }
  { pose proof (unseen_count_le st p1 A H1). pose proof (unseen_count_le st p2 A H2).
    lia. }
  ok.
  assert (∀ b, marked_of A b → 0 ≤ a_n b ≤ len (a_e b)) as Hblock.
  { intros b (Hnb & _ & _ & Hes). rewrite Hnb, <- (Forall2_length Hes). exact Hn. }
  destruct (restore_finals_Ok s p1 b1 Hb1 (Hblock _ Hm1)) as (c1 & -> & Hc1 & Hc1').
  ok.
  assert (∃ b2, <[p1 := c1]> s !! p2 = Some b2 ∧ 0 ≤ a_n b2 ≤ len (a_e b2))
    as (b2 & Hb2 & Hn2).
  { destruct (decide (p1 = p2)) as [<- | Hne].
    - exists c1. rewrite list_lookup_insert_eq by (eapply lookup_lt_Some, Hb1).
      split; [reflexivity|]. rewrite Hc1, Hc1'. apply (Hblock _ Hm1).
    - rewrite list_lookup_insert_ne by exact Hne. eauto. }
  destruct (restore_finals_Ok _ p2 b2 Hb2 Hn2) as (c2 & -> & _). ok. eauto.
Qed.

(** ** Paths and cycles of the transition graph *)

Section paths.
Context (A : Automaton).

Lemma run_app s w1 w2 t u :
  run A s w1 = Some t → run A t w2 = Some u → run A s (w1 ++ w2) = Some u.
Proof.
  revert s. induction w1 as [|c w1 IH]; simpl; intros s.
  - intros [= ->]. auto.
  - destruct (step A s c); [apply IH | discriminate].
Qed.

Lemma reachable_from_refl s : reachable_from A s s.
Proof. exists []. reflexivity. Qed.

Lemma reachable_from_trans s t u :
  reachable_from A s t → reachable_from A t u → reachable_from A s u.
Proof. intros [w1 H1] [w2 H2]. exists (w1 ++ w2). eapply run_app; eassumption. Qed.

Lemma reachable_from_step s c t : step A s c = Some t → reachable_from A s t.
Proof. intros H. exists [c]. simpl. rewrite H. reflexivity. Qed.

(** [t] lies on a cycle: a non-empty path leads from [t] to [t]. *)
Definition on_cycle (t : Z) : Prop := ∃ w, w ≠ [] ∧ run A t w = Some t.
(** [s] lies on a cycle or can reach one: an infinite run starts at [s]. *)
Definition reaches_cycle (s : Z) : Prop :=
  ∃ t, reachable_from A s t ∧ on_cycle t.

Lemma reaches_cycle_step s c t :
  step A s c = Some t → reaches_cycle t → reaches_cycle s.
Proof.
  intros Hst (u & Htu & Hu). exists u. split; [|exact Hu].
  eapply reachable_from_trans; [eapply reachable_from_step|]; eassumption.
Qed.

Lemma reaches_cycle_back s c t :
  step A s c = Some t → reachable_from A t s → reaches_cycle s.
Proof.
  intros Hst [w Hw]. exists s. split; [apply reachable_from_refl|].
  exists (c :: w). split; [discriminate|]. simpl. rewrite Hst. exact Hw.
Qed.

Lemma reaches_cycle_next s :
  reaches_cycle s → ∃ c t, step A s c = Some t ∧ reaches_cycle t.
Proof.
  intros (u & [w Hw] & (w' & Hne & Hw')). destruct w as [|c w].
  - injection Hw as <-. destruct w' as [|c w']; [contradiction|].
    simpl in Hw'. destruct (step A s c) as [t|] eqn:Hst; [|discriminate].
    exists c, t. split; [exact Hst|]. exists s. split; [exists w'; exact Hw'|].
    exists (c :: w'). split; [discriminate|]. simpl. rewrite Hst. exact Hw'.
  - simpl in Hw. destruct (step A s c) as [t|] eqn:Hst; [|discriminate].
    exists c, t. split; [exact Hst|]. exists u. split; [exists w; exact Hw|].
    exists w'. auto.
Qed.

Lemma step_Some s c t :
  step A s c = Some t ↔ rd_f (a_e A) s c = Ok t ∧ t ≠ -1.
Proof.
  unfold step. destruct (rd_f (a_e A) s c) as [x| |]; [|split; [discriminate|intros [? _]; discriminate]..].
  case_decide; split.
  - discriminate.
  - intros [[= ->] ?]. contradiction.
  - intros [= ->]. auto.
  - intros [[= ->] _]. reflexivity.
Qed.

Lemma step_range s c t :
  wf A → step A s c = Some t → 0 ≤ s < a_n A ∧ 0 ≤ c < a_na A ∧ 0 ≤ t < a_n A.
Proof.
  intros HA [H Hne]%step_Some. apply rd_f_Ok in H as (row & Hrow & Ht).
  apply rd_Ok in Hrow as [Hs Hrow]. apply rd_Ok in Ht as [Hc Ht].
  pose proof (lookup_lt_Some _ _ _ Hrow) as Hslt.
  pose proof (lookup_lt_Some _ _ _ Ht) as Hclt.
  pose proof (wf_row_lookup _ _ _ HA Hrow). pose proof (wf_n A HA).
  assert (-1 ≤ t < a_n A).
  { eapply (wf_tgt A HA row t); eapply list_elem_of_lookup_2; eassumption. }
  lia.
Qed.
End paths.

(** ** The traversal of [emonde_inf] *)

Definition white (s : Etat) : Prop := e_final s = 0.
#[global] Instance white_dec s : Decision (white s) := _.

(** The mark of state [k]: 0 not seen, 1 under study or kept, 2 discarded. *)
Definition mark (a : Automaton) (k : Z) : Z :=
  match a_e a !! Z.to_nat k with Some s => e_final s | None => 0 end.

Section traversal.
Context (A : Automaton) (HA : wf A).

(** [a] is [A] with the [final] fields used as marks. *)
Definition traversal_of (a : Automaton) : Prop :=
  a_n a = a_n A ∧ a_na a = a_na A ∧ a_i a = a_i A
  ∧ e_f <$> a_e a = e_f <$> a_e A.

Lemma traversal_length a : traversal_of a → Z.of_nat (length (a_e a)) = a_n A.
Proof.
  intros (_ & _ & _ & H). rewrite <- (wf_n A HA).
  rewrite <- (length_fmap e_f (a_e a)), H, length_fmap. reflexivity.
Qed.

Lemma traversal_rd_f a s c :
  traversal_of a → rd_f (a_e a) s c = rd_f (a_e A) s c.
Proof.
  intros (_ & _ & _ & H). unfold rd_f.
  destruct (decide (0 ≤ s)) as [Hs|Hs]; [|rewrite !rd_neg by exact Hs; reflexivity].
  assert (e_f <$> (a_e a !! Z.to_nat s) = e_f <$> (a_e A !! Z.to_nat s)) as Hk
    by (rewrite <- !list_lookup_fmap, H; reflexivity).
  destruct (a_e a !! Z.to_nat s) as [x|] eqn:Hx,
           (a_e A !! Z.to_nat s) as [y|] eqn:Hy; simpl in Hk; try discriminate.
  - rewrite (rd_lookup _ _ _ Hs Hx), (rd_lookup _ _ _ Hs Hy). ok.
    injection Hk as ->. reflexivity.
  - rewrite !rd_None by assumption. reflexivity.
Qed.

Lemma traversal_rd_final a k :
  traversal_of a → 0 ≤ k < a_n A → rd_final (a_e a) k = Ok (mark a k).
Proof.
  intros Ht Hk. pose proof (traversal_length a Ht).
  destruct (rd_in_range (a_e a) k) as (s & _ & Hs); [lia|].
  unfold mark. rewrite Hs. apply rd_final_lookup; [lia | exact Hs].
Qed.

Lemma traversal_wr_final a k v :
  traversal_of a → 0 ≤ k < a_n A →
  ∃ es, wr_final (a_e a) k v = Ok es
    ∧ traversal_of (with_e a es)
    ∧ (∀ t, 0 ≤ t → mark (with_e a es) t = if decide (t = k) then v else mark a t)
    ∧ (count white es + (if decide (mark a k = 0%Z) then 1 else 0)
       = count white (a_e a) + (if decide (v = 0%Z) then 1 else 0))%nat.
Proof.
  intros Ht Hk. pose proof (traversal_length a Ht) as Hlen.
  destruct (rd_in_range (a_e a) k) as (s & _ & Hs); [lia|].
  exists (<[Z.to_nat k := mkEtat (e_f s) v]> (a_e a)). split; [|split; [|split]].
  - apply wr_final_Ok. exists s. split; [exact Hs|]. split; [lia | reflexivity].
  - destruct Ht as (Hn & Hna & Hi & Hrows). repeat split; try assumption. simpl.
    rewrite list_fmap_insert. simpl. rewrite <- Hrows. apply list_insert_id.
    rewrite list_lookup_fmap, Hs. reflexivity.
  - intros t Ht0. unfold mark. simpl. case_decide as Htk.
    + subst t. rewrite list_lookup_insert_eq by (eapply lookup_lt_Some, Hs).
      reflexivity.
    + rewrite list_lookup_insert_ne by lia. reflexivity.
  - pose proof (count_insert white (a_e a) (Z.to_nat k) s (mkEtat (e_f s) v) Hs) as Hc.
    unfold mark. rewrite Hs. unfold white in *. simpl in *.
    destruct (decide (e_final s = 0)), (decide (v = 0)); lia.
Qed.

Lemma wf_step s c :
  0 ≤ s < a_n A → 0 ≤ c < a_na A →
  ∃ t, rd_f (a_e A) s c = Ok t
       ∧ (t = -1 ∧ step A s c = None ∨ 0 ≤ t < a_n A ∧ step A s c = Some t).
Proof.
  intros Hs Hc. destruct (wf_rd_f A s c HA Hs Hc) as (t & Ht & Hr).
  exists t. split; [exact Ht|]. unfold step. rewrite Ht. case_decide; [left|right]; auto.
  split; [lia | reflexivity].
Qed.

(** What the marks say while the states of [grey] are under study. *)
Record Inv (a : Automaton) (grey : Z → Prop) : Prop := mkInv
  { inv_012 : ∀ t, 0 ≤ t < a_n A → mark a t = 0 ∨ mark a t = 1 ∨ mark a t = 2;
    inv_no : ∀ t, 0 ≤ t < a_n A → mark a t = 2 → ¬ reaches_cycle A t;
    inv_yes : ∀ t, 0 ≤ t < a_n A → mark a t = 1 → grey t ∨ reaches_cycle A t;
    inv_closed : ∀ t c u, 0 ≤ t < a_n A → mark a t ≠ 0 → ¬ grey t →
                   step A t c = Some u → mark a u ≠ 0 }.

Definition rec_pre (a : Automaton) (s : Z) (grey : Z → Prop) : Prop :=
  traversal_of a ∧ Inv a grey ∧ 0 ≤ s < a_n A ∧ mark a s = 0
  ∧ ∀ t, grey t → 0 ≤ t < a_n A ∧ mark a t = 1 ∧ reachable_from A t s.

Record rec_post (a : Automaton) (s : Z) (grey : Z → Prop)
    (a' : Automaton) (b : bool) : Prop := mkPost
  { post_trav : traversal_of a';
    post_inv : Inv a' grey;
    post_s : mark a' s = if b then 1 else 2;
    post_keep : ∀ t, 0 ≤ t < a_n A → mark a t ≠ 0 → mark a' t = mark a t;
    post_new : ∀ t, 0 ≤ t < a_n A → mark a t = 0 → mark a' t ≠ 0 →
                 reachable_from A s t;
    post_white : (count white (a_e a') ≤ count white (a_e a))%nat }.

(** The loop over the letters of state [s], at letter [i]. *)
Record LoopInv (a0 : Automaton) (s : Z) (grey : Z → Prop) (i : Z)
    (st : Automaton * Z * bool) : Prop := mkLoopInv
  { li_trav : traversal_of st.1.1;
    li_inv : Inv st.1.1 (λ t, grey t ∨ t = s);
    li_s : mark st.1.1 s = 1;
    li_keep : ∀ t, 0 ≤ t < a_n A → t ≠ s → mark a0 t ≠ 0 →
                mark st.1.1 t = mark a0 t;
    li_new : ∀ t, 0 ≤ t < a_n A → mark a0 t = 0 → mark st.1.1 t ≠ 0 →
               reachable_from A s t;
    li_white : (count white (a_e st.1.1) < count white (a_e a0))%nat;
    li_children : ∀ c u, 0 ≤ c < i → step A s c = Some u → mark st.1.1 u ≠ 0;
    li_cycle : st.2 = true → reaches_cycle A s;
    li_dead : st.2 = false → ∀ c u, 0 ≤ c < i → step A s c = Some u →
                mark st.1.1 u = 2 }.

Lemma LoopInv_next a0 s grey i st :
  LoopInv a0 s grey i st → step A s i = None → LoopInv a0 s grey (i + 1) st.
Proof.
  intros [] Hnone. split; try assumption.
  - intros c u Hc Hstep. destruct (decide (c = i)) as [-> | Hne]; [congruence|].
    eapply li_children0; [|exact Hstep]. lia.
  - intros Hcyc c u Hc Hstep. destruct (decide (c = i)) as [-> | Hne]; [congruence|].
    eapply li_dead0; [exact Hcyc| |exact Hstep]. lia.
Qed.

Lemma Inv_start a s grey :
  traversal_of a → Inv a grey → 0 ≤ s < a_n A → mark a s = 0 →
  ∀ a1, (∀ t, 0 ≤ t → mark a1 t = if decide (t = s) then 1 else mark a t) →
  Inv a1 (λ t, grey t ∨ t = s).
Proof.
  intros Ht [] Hs Hms a1 Hm1. split.
  - intros t Htr. rewrite Hm1 by lia. case_decide; auto.
  - intros t Htr. rewrite Hm1 by lia. case_decide; [lia|]. auto.
  - intros t Htr. rewrite Hm1 by lia. case_decide; [auto|].
    intros H1. destruct (inv_yes0 t Htr H1); auto.
  - intros t c u Htr. rewrite Hm1 by lia. case_decide as Hts; [tauto|].
    intros Hmt Hg Hstep. pose proof (step_range A t c u HA Hstep) as (_ & _ & Hu).
    rewrite Hm1 by lia. case_decide; [lia|].
    apply (inv_closed0 t c u); auto.
Qed.

Lemma emonde_inf_rec_spec fuel :
  ∀ a cpt s grey, rec_pre a s grey → (count white (a_e a) < fuel)%nat →
  ∃ a' cpt' b, emonde_inf_rec fuel a cpt s = Ok (a', cpt', b)
               ∧ rec_post a s grey a' b.
Proof.
  induction fuel as [|fuel IH];
    intros a cpt s grey (Ht & HI & Hs & Hms & Hgrey) Hfuel; [lia|].
  cbn [emonde_inf_rec].
  destruct (traversal_wr_final a s 1 Ht Hs) as (es1 & -> & Ht1 & Hm1 & Hc1). ok.
  rewrite decide_True in Hc1 by exact Hms. rewrite decide_False in Hc1 by lia.
  assert (a_na a = a_na A) as -> by apply Ht.
  match goal with |- context [for_ _ ?b _] => set (body := b) end.
  destruct (for_seqZ_inv (LoopInv a s grey) body 0 (a_na A) (with_e a es1, cpt, false))
    as ([[a2 cpt2] cyc] & -> & HL).
  { apply (wf_na A HA). }
  { split; simpl; try assumption; try discriminate; try lia.
    - exact (Inv_start a s grey Ht HI Hs Hms (with_e a es1) Hm1).
    - rewrite Hm1 by lia. rewrite decide_True; reflexivity.
    - intros t Htr Hne _. rewrite Hm1 by lia. rewrite decide_False; auto.
    - intros t Htr H0. rewrite Hm1 by lia. case_decide as Hts; [|congruence].
      intros _. subst t. apply reachable_from_refl. }
  { clear cpt. intros i [[a2 cpt2] cyc] Hi HL. unfold body.
    destruct (wf_step s i Hs ltac:(lia)) as (t & Hrd & Htcase).
    pose proof HL as [HLt HLinv HLs HLkeep HLnew HLwhite HLch HLcyc HLdead].
    simpl in HLt, HLinv, HLs, HLkeep, HLnew, HLwhite, HLch, HLcyc, HLdead.
    rewrite (traversal_rd_f a2 s i HLt), Hrd. ok.
    destruct Htcase as [[-> Hnone] | [Htr Hsome]].
    { rewrite decide_True by reflexivity. eexists. split; [reflexivity|].
      apply LoopInv_next; assumption. }
    rewrite decide_False by lia.
    rewrite (traversal_rd_final a2 t HLt Htr). ok. cbv zeta.
    destruct (inv_012 _ _ HLinv t Htr) as [H0 | [H1 | H2]].
    - (* the child was never seen *)
      rewrite H0. rewrite (decide_False (P := 0 = 1)) by lia.
      rewrite (decide_True (P := 0 = 0)) by reflexivity.
      destruct (IH a2 cpt2 t (λ u, grey u ∨ u = s)) as (a3 & cpt3 & sub & -> & Hpost).
      { split; [exact HLt|]. split; [exact HLinv|]. split; [exact Htr|].
        split; [exact H0|]. intros u [Hu | ->].
        - destruct (Hgrey u Hu) as (Hur & Hmu & Hreach).
          split; [exact Hur|]. split.
          + rewrite HLkeep; [exact Hmu | exact Hur | congruence | lia].
          + eapply reachable_from_trans; [exact Hreach|].
            eapply reachable_from_step, Hsome.
        - split; [exact Hs|]. split; [exact HLs|].
          eapply reachable_from_step, Hsome. }
      { lia. }
      ok. destruct Hpost as [Pt Pinv Ps Pkeep Pnew Pwhite].
      eexists. split; [reflexivity|]. split; simpl.
      + exact Pt.
      + exact Pinv.
      + rewrite Pkeep; [exact HLs | exact Hs | lia].
      + intros u Hur Hne Hmu. rewrite Pkeep; [|exact Hur|rewrite HLkeep; auto].
        apply HLkeep; auto.
      + intros u Hur Hmu Hmu3. destruct (decide (mark a2 u = 0)) as [Hz | Hnz].
        * eapply reachable_from_trans; [eapply reachable_from_step, Hsome|].
          apply Pnew; auto.
        * apply HLnew; auto.
      + lia.
      + intros c u Hc Hstep. destruct (decide (c = i)) as [-> | Hne].
        * rewrite Hsome in Hstep. injection Hstep as <-. rewrite Ps.
          destruct sub; lia.
        * assert (mark a2 u ≠ 0) as Hnz by (eapply HLch; [|exact Hstep]; lia).
          pose proof (step_range A s c u HA Hstep) as (_ & _ & Hur).
          rewrite (Pkeep u Hur Hnz). exact Hnz.
      + destruct sub; [intros _ | exact HLcyc].
        destruct (inv_yes _ _ Pinv t Htr Ps) as [[Hg | ->] | Hrc].
        * destruct (Hgrey t Hg) as (_ & Hmt & _).
          rewrite HLkeep in H0; [lia | exact Htr | congruence | lia].
        * lia.
        * eapply reaches_cycle_step; eassumption.
      + destruct sub; [discriminate|]. intros Hcyc c u Hc Hstep.
        destruct (decide (c = i)) as [-> | Hne].
        * rewrite Hsome in Hstep. injection Hstep as <-. exact Ps.
        * assert (mark a2 u = 2) as H2 by (eapply HLdead; [exact Hcyc| |exact Hstep]; lia).
          pose proof (step_range A s c u HA Hstep) as (_ & _ & Hur).
          rewrite (Pkeep u Hur); lia.
    - (* the child is under study or kept *)
      rewrite H1. rewrite (decide_True (P := 1 = 1)) by reflexivity.
      rewrite (decide_False (P := 1 = 0)) by lia.
      eexists. split; [reflexivity|]. split; simpl; try assumption.
      + intros c u Hc Hstep. destruct (decide (c = i)) as [-> | Hne].
        * rewrite Hsome in Hstep. injection Hstep as <-. lia.
        * eapply HLch; [|exact Hstep]. lia.
      + intros _. destruct (inv_yes _ _ HLinv t Htr H1) as [[Hg | ->] | Hrc].
        * eapply reaches_cycle_back; [exact Hsome|]. apply Hgrey, Hg.
        * eapply reaches_cycle_back; [exact Hsome|]. apply reachable_from_refl.
        * eapply reaches_cycle_step; eassumption.
      + discriminate.
    - (* the child was discarded *)
      rewrite H2. rewrite (decide_False (P := 2 = 1)) by lia.
      rewrite (decide_False (P := 2 = 0)) by lia.
      eexists. split; [reflexivity|]. split; simpl; try assumption.
      + intros c u Hc Hstep. destruct (decide (c = i)) as [-> | Hne].
        * rewrite Hsome in Hstep. injection Hstep as <-. lia.
        * eapply HLch; [|exact Hstep]. lia.
      + intros Hcyc c u Hc Hstep. destruct (decide (c = i)) as [-> | Hne].
        * rewrite Hsome in Hstep. injection Hstep as <-. exact H2.
        * eapply HLdead; [exact Hcyc| |exact Hstep]. lia. }
  ok. destruct HL as [HLt HLinv HLs HLkeep HLnew HLwhite HLch HLcyc HLdead].
  simpl in HLt, HLinv, HLs, HLkeep, HLnew, HLwhite, HLch, HLcyc, HLdead.
  replace (0 + a_na A) with (a_na A) in * by lia.
  assert (∀ c u, step A s c = Some u → 0 ≤ c < a_na A) as Hletter.
  { intros c u Hstep. apply (step_range A s c u HA Hstep). }
  destruct cyc.
  - eexists _, _, true. split; [reflexivity|]. split; try assumption.
    + destruct HLinv. split; try assumption.
      * intros t Htr H1. destruct (inv_yes0 t Htr H1) as [[Hg | ->] | Hrc]; auto.
      * intros t c u Htr Hmt Hg Hstep. destruct (decide (t = s)) as [-> | Hne].
        -- eapply HLch; [|exact Hstep]. eapply Hletter, Hstep.
        -- apply (inv_closed0 t c u); auto. tauto.
    + intros t Htr Hmt. apply HLkeep; auto. congruence.
    + lia.
  - destruct (traversal_wr_final a2 s 2 HLt Hs) as (es3 & -> & Ht3 & Hm3 & Hc3). ok.
    rewrite decide_False in Hc3 by lia. rewrite decide_False in Hc3 by lia.
    eexists _, _, false. split; [reflexivity|]. destruct HLinv. split.
    + exact Ht3.
    + split.
      * intros t Htr. rewrite Hm3 by lia. case_decide; auto.
      * intros t Htr. rewrite Hm3 by lia. case_decide as Hts; [|auto].
        subst t. intros _ Hrc.
        destruct (reaches_cycle_next A s Hrc) as (c & u & Hstep & Hrcu).
        pose proof (step_range A s c u HA Hstep) as (_ & Hc & Hur).
        eapply (inv_no0 u Hur); [|exact Hrcu].
        eapply HLdead; [reflexivity|exact Hc|exact Hstep].
      * intros t Htr. rewrite Hm3 by lia. case_decide as Hts; [lia|].
        intros H1. destruct (inv_yes0 t Htr H1) as [[Hg | ->] | Hrc]; tauto.
      * intros t c u Htr Hmt Hg Hstep.
        pose proof (step_range A t c u HA Hstep) as (_ & Hc & Hur).
        rewrite Hm3 by lia. rewrite Hm3 in Hmt by lia.
        destruct (decide (u = s)) as [-> | Hus]; [lia|].
        destruct (decide (t = s)) as [-> | Hne].
        -- eapply HLch; [exact Hc|exact Hstep].
        -- apply (inv_closed0 t c u); auto. tauto.
    + rewrite Hm3 by lia. rewrite decide_True; reflexivity.
    + intros t Htr Hmt. rewrite Hm3 by lia. case_decide as Hts; [congruence|].
      apply HLkeep; auto.
    + intros t Htr Hmt. rewrite Hm3 by lia. case_decide as Hts.
      * subst t. intros _. apply reachable_from_refl.
      * apply HLnew; auto.
    + simpl. lia.
Qed.
End traversal.

(** ** The phases of [emonde_inf] around the traversal *)

Lemma lookup_take_drop_mid {A} (X Y : list A) (i : nat) :
  (i ≤ length X)%nat → (take i X ++ drop i Y) !! i = Y !! i.
Proof.
  intros H. rewrite lookup_app_r by (rewrite length_take; lia).
  rewrite length_take, lookup_drop. f_equal. lia.
Qed.

(** The finality flags are saved in [finaux] and the marks are all 0. *)
Lemma save_and_clear (es0 : list Etat) n :
  Z.of_nat (length es0) = n →
  for_ (seqZ 0 n) (λ i '(es, finaux),
      fin ← rd_final es i;
      finaux ← wr finaux i fin;
      es ← wr_final es i 0;
      Ok (es, finaux))
    (es0, replicate (Z.to_nat n) UNINIT)
  = Ok ((λ s, mkEtat (e_f s) 0) <$> es0, e_final <$> es0).
Proof.
  intros Hn. set (raw := replicate (Z.to_nat n) UNINIT).
  match goal with |- for_ _ ?b _ = _ => set (body := b) end.
  destruct (for_seqZ_inv
    (λ i st, st = (take (Z.to_nat i) ((λ s, mkEtat (e_f s) 0) <$> es0)
                   ++ drop (Z.to_nat i) es0,
                   take (Z.to_nat i) (e_final <$> es0) ++ drop (Z.to_nat i) raw))
    body 0 n (es0, raw)) as (st & Hst & HP).
  - lia.
  - simpl. rewrite !drop_0. reflexivity.
  - intros i st Hi ->. unfold body.
    destruct (rd_in_range es0 i) as (s & _ & Hs); [lia|].
    assert (length raw = Z.to_nat n) as Hraw by apply length_replicate.
    set (es := take _ _ ++ drop _ es0). set (fx := take _ _ ++ drop _ raw).
    assert (es !! Z.to_nat i = Some s) as Hcur.
    { unfold es. rewrite lookup_take_drop_mid by (rewrite length_fmap; lia). exact Hs. }
    rewrite (rd_final_lookup _ i _ ltac:(lia) Hcur). ok.
    rewrite wr_in_range
      by (unfold fx; rewrite length_app, length_take, length_drop, length_fmap; lia).
    ok.
    assert (wr_final es i 0 = Ok (<[Z.to_nat i := mkEtat (e_f s) 0]> es)) as ->.
    { apply wr_final_Ok. exists s. split; [exact Hcur|]. split; [lia | reflexivity]. }
    ok. eexists. split; [reflexivity|].
    replace (Z.to_nat (i + 1)) with (S (Z.to_nat i)) by lia. f_equal.
    + apply insert_take_drop; [|lia]. rewrite list_lookup_fmap, Hs. reflexivity.
    + apply insert_take_drop; [|lia]. rewrite list_lookup_fmap, Hs. reflexivity.
  - rewrite Hst, HP. f_equal. f_equal.
    + rewrite take_ge by (rewrite length_fmap; lia).
      rewrite drop_ge by lia. apply app_nil_r.
    + rewrite take_ge by (rewrite length_fmap; lia).
      rewrite drop_ge by (unfold raw; rewrite length_replicate; lia). apply app_nil_r.
Qed.

(** The new names of the states: the kept states are numbered from [c] in
    increasing order, the others receive [-1]. *)
Fixpoint number_from (c : Z) (ks : list bool) : list Z :=
  match ks with
  | [] => []
  | k :: ks => (if k then c else -1) :: number_from (if k then c + 1 else c) ks
  end.
Definition kept_count (ks : list bool) : Z := Z.of_nat (length (filter Is_true ks)).

Lemma kept_count_nonneg ks : 0 ≤ kept_count ks.
Proof. unfold kept_count. lia. Qed.

Lemma kept_count_cons k ks :
  kept_count (k :: ks) = (if k then 1 else 0) + kept_count ks.
Proof.
  unfold kept_count. destruct k.
  - rewrite list.filter_cons_True by exact I. simpl length. lia.
  - rewrite list.filter_cons_False by (simpl; tauto). lia.
Qed.

Lemma kept_count_app ks1 ks2 :
  kept_count (ks1 ++ ks2) = kept_count ks1 + kept_count ks2.
Proof. unfold kept_count. rewrite list.filter_app, length_app. lia. Qed.

Lemma length_number_from c ks : length (number_from c ks) = length ks.
Proof. revert c. induction ks as [|k ks IH]; simpl; intros c; [|rewrite IH]; reflexivity. Qed.

Lemma number_from_app c ks1 ks2 :
  number_from c (ks1 ++ ks2)
  = number_from c ks1 ++ number_from (c + kept_count ks1) ks2.
Proof.
  revert c. induction ks1 as [|k ks1 IH]; intros c.
  - simpl. f_equal. unfold kept_count. simpl. lia.
  - cbn [app number_from]. rewrite IH, kept_count_cons. f_equal. f_equal. f_equal.
    destruct k; lia.
Qed.

Lemma number_from_lookup c ks (i : nat) :
  number_from c ks !! i
  = (λ k : bool, if k then c + kept_count (take i ks) else -1) <$> ks !! i.
Proof.
  destruct (ks !! i) as [k|] eqn:Hk.
  - rewrite <- (take_drop_middle _ _ _ Hk) at 1.
    rewrite number_from_app. pose proof (lookup_lt_Some _ _ _ Hk).
    rewrite lookup_app_r by (rewrite length_number_from, length_take; lia).
    rewrite length_number_from, length_take.
    replace (i - i `min` length ks)%nat with 0%nat by lia. reflexivity.
  - apply lookup_ge_None. rewrite length_number_from. apply lookup_ge_None, Hk.
Qed.

Lemma kept_count_take_lt ks (i j : nat) :
  (i < j)%nat → ks !! i = Some true →
  kept_count (take i ks) < kept_count (take j ks).
Proof.
  intros Hij Hi. pose proof (lookup_lt_Some _ _ _ Hi).
  replace j with (S i + (j - S i))%nat by lia.
  rewrite <- take_take_drop, kept_count_app, (take_S_r _ _ _ Hi), kept_count_app, kept_count_cons.
  pose proof (kept_count_nonneg (take (j - S i) (drop (S i) ks))).
  pose proof (kept_count_nonneg []). lia.
Qed.

Lemma kept_count_take_le ks (i : nat) : kept_count (take i ks) ≤ kept_count ks.
Proof.
  rewrite <- (take_drop i ks) at 2. rewrite kept_count_app.
  pose proof (kept_count_nonneg (drop i ks)). lia.
Qed.

(** The loop that numbers the states to keep, for any test on [final]. *)
Lemma numbering_loop (P : Z → Prop) (dec : ∀ fin, Decision (P fin))
    (es : list Etat) (l0 : list Z) n :
  Z.of_nat (length es) = n → Z.of_nat (length l0) = n →
  let ks := (λ s, bool_decide (P (e_final s))) <$> es in
  for_ (seqZ 0 n) (λ i '(l, cpt),
      fin ← rd_final es i;
      if dec fin
      then l ← wr l i cpt; Ok (l, cpt + 1)
      else l ← wr l i (-1); Ok (l, cpt))
    (l0, 0)
  = Ok (number_from 0 ks, kept_count ks).
Proof.
  intros Hn Hl0 ks.
  match goal with |- for_ _ ?b _ = _ => set (body := b) end.
  assert (length ks = length es) as Hks by apply length_fmap.
  destruct (for_seqZ_inv
    (λ i st, st = (number_from 0 (take (Z.to_nat i) ks) ++ drop (Z.to_nat i) l0,
                   kept_count (take (Z.to_nat i) ks)))
    body 0 n (l0, 0)) as (st & Hst & HP).
  - lia.
  - simpl. rewrite drop_0. reflexivity.
  - intros i st Hi ->. unfold body.
    destruct (rd_in_range es i) as (s & _ & Hs); [lia|].
    rewrite (rd_final_lookup _ i _ ltac:(lia) Hs). ok.
    assert (ks !! Z.to_nat i = Some (bool_decide (P (e_final s)))) as Hk
      by (unfold ks; rewrite list_lookup_fmap, Hs; reflexivity).
    set (X := number_from 0 (take (Z.to_nat i) ks)).
    assert (length X = Z.to_nat i) as HX
      by (unfold X; rewrite length_number_from, length_take; lia).
    assert (∀ v, wr (X ++ drop (Z.to_nat i) l0) i v
                 = Ok (X ++ [v] ++ drop (Z.to_nat (i + 1)) l0)) as Hwr.
    { intros v. rewrite wr_in_range by (rewrite length_app, length_drop; lia).
      f_equal. rewrite insert_app_r_alt by lia.
      replace (Z.to_nat i - length X)%nat with 0%nat by lia.
      destruct (lookup_lt_is_Some_2 l0 (Z.to_nat i)) as [y Hy]; [lia|].
      rewrite (drop_S _ _ _ Hy). simpl.
      replace (Z.to_nat (i + 1)) with (S (Z.to_nat i)) by lia. reflexivity. }
    set (b := bool_decide (P (e_final s))) in *.
    set (c := kept_count (take (Z.to_nat i) ks)).
    assert (number_from 0 (take (Z.to_nat (i + 1)) ks) = X ++ [if b then c else -1]
            ∧ kept_count (take (Z.to_nat (i + 1)) ks) = c + (if b then 1 else 0))
      as [-> ->].
    { replace (Z.to_nat (i + 1)) with (S (Z.to_nat i)) by lia.
      rewrite (take_S_r _ _ _ Hk), number_from_app, kept_count_app, kept_count_cons.
      fold X c. replace (kept_count []) with 0 by reflexivity. simpl.
      split; [f_equal; destruct b; f_equal; lia | lia]. }
    rewrite <- app_assoc.
    destruct (dec (e_final s)) as [HP|HP]; rewrite Hwr; ok; eexists;
      (split; [reflexivity|]).
    + unfold b. rewrite bool_decide_eq_true_2 by exact HP. reflexivity.
    + unfold b. rewrite bool_decide_eq_false_2 by exact HP. f_equal. lia.
  - rewrite Hst, HP. f_equal. f_equal.
    + rewrite take_ge by lia. rewrite drop_ge by lia. apply app_nil_r.
    + rewrite take_ge by lia. reflexivity.
Qed.

Section renumber.
Context (A : Automaton) (HA : wf A).
(** The numbering [l] of the states of [A], into [0, cpt). *)
Context (l : list Z) (cpt : Z).
Context (Hlen : Z.of_nat (length l) = a_n A).
Context (Hval : ∀ i v, l !! i = Some v → v = -1 ∨ 0 ≤ v < cpt).
Context (Hinj : ∀ i j v, l !! i = Some v → l !! j = Some v → v ≠ -1 → i = j).

(** The new name of a target: an absent transition stays absent, and a
    transition into a discarded state becomes absent. *)
Definition rename (t : Z) : Z :=
  if decide (t = -1) then -1 else default (-1) (l !! Z.to_nat t).

Lemma build_row (es : list Etat) (i li : Z) (src row0 : Etat) (res : list Etat) :
  es !! Z.to_nat i = Some src → 0 ≤ i →
  (∀ t, t ∈ e_f src → -1 ≤ t < a_n A) →
  res !! Z.to_nat li = Some row0 → 0 ≤ li → length (e_f row0) = length (e_f src) →
  for_ (seqZ 0 (Z.of_nat (length (e_f src)))) (λ j res,
      f ← rd_f es i j;
      res ← wr_f res li j (-1);
      if decide (f = -1) then Ok res
      else
        lf ← rd l f;
        if decide (lf ≠ -1) then wr_f res li j lf else Ok res) res
  = Ok (<[Z.to_nat li := mkEtat (rename <$> e_f src) (e_final row0)]> res).
Proof.
  intros Hsrc Hi Htgt Hrow Hli Hrowlen.
  set (cur := λ j : Z, mkEtat (take (Z.to_nat j) (rename <$> e_f src)
                               ++ drop (Z.to_nat j) (e_f row0)) (e_final row0)).
  match goal with |- for_ _ ?b _ = _ => set (body := b) end.
  destruct (for_seqZ_inv (λ j r, r = <[Z.to_nat li := cur j]> res)
              body 0 (Z.of_nat (length (e_f src))) res) as (r & Hr & HP).
  - lia.
  - unfold cur. simpl. rewrite drop_0. destruct row0. symmetry.
    apply list_insert_id. exact Hrow.
  - intros j r Hj ->. unfold body.
    destruct (rd_in_range (e_f src) j) as (t & Ht & Ht'); [lia|].
    assert (rd_f es i j = Ok t) as ->.
    { apply rd_f_Ok. exists src. split; [apply rd_lookup; auto | exact Ht]. }
    ok.
    assert (∀ v row, length (e_f row) = length (e_f src) →
              wr_f (<[Z.to_nat li := row]> res) li j v
              = Ok (<[Z.to_nat li := mkEtat (<[Z.to_nat j := v]> (e_f row))
                                            (e_final row)]> res)) as Hwr.
    { intros v row Hrl. apply wr_f_Ok. exists row. split.
      - apply list_lookup_insert_eq. eapply lookup_lt_Some, Hrow.
      - split; [lia|]. split; [lia|]. rewrite list_insert_insert_eq. reflexivity. }
    assert (length (e_f (cur j)) = length (e_f src)) as Hcl.
    { unfold cur. simpl. rewrite length_app, length_take, length_drop, length_fmap. lia. }
    assert (∀ v, v = rename t →
              mkEtat (<[Z.to_nat j := v]> (e_f (cur j))) (e_final (cur j))
              = cur (j + 1)) as Hnext.
    { intros v ->. unfold cur. simpl. f_equal.
      replace (Z.to_nat (j + 1)) with (S (Z.to_nat j)) by lia.
      apply insert_take_drop; [|lia]. rewrite list_lookup_fmap, Ht'. reflexivity. }
    rewrite Hwr by exact Hcl. ok. case_decide as Ht1.
    + eexists. split; [reflexivity|]. rewrite Hnext; [reflexivity|].
      unfold rename. rewrite decide_True; auto.
    + assert (-1 ≤ t < a_n A) as Htr
        by (apply Htgt; eapply list_elem_of_lookup_2, Ht').
      destruct (rd_in_range l t) as (lf & -> & Hlf); [lia|]. ok.
      assert (rename t = lf) as Hren
        by (unfold rename; rewrite decide_False by exact Ht1; rewrite Hlf; reflexivity).
      case_decide as Hlf1.
      * rewrite Hwr by (simpl; rewrite length_insert; exact Hcl).
        eexists. split; [reflexivity|]. simpl. rewrite list_insert_insert_eq.
        rewrite <- (Hnext lf) by auto. reflexivity.
      * eexists. split; [reflexivity|]. rewrite Hnext; [reflexivity|].
        destruct (decide (lf = -1)); [congruence | tauto].
  - rewrite Hr, HP. f_equal. f_equal. unfold cur. f_equal.
    rewrite take_ge by (rewrite length_fmap; lia).
    rewrite drop_ge by lia. apply app_nil_r.
Qed.

(** The rows of the result once the states below [i] are copied. *)
Definition built (es : list Etat) (i : Z) (res : list Etat) : Prop :=
  Z.of_nat (length res) = cpt
  ∧ (∀ m row, res !! m = Some row → Z.of_nat (length (e_f row)) = a_na A)
  ∧ ∀ j v src, (Z.of_nat j < i) → l !! j = Some v → v ≠ -1 → es !! j = Some src →
      ∃ row, res !! Z.to_nat v = Some row ∧ e_f row = rename <$> e_f src.

Lemma build_loop (a : Automaton) (res0 : list Etat) :
  traversal_of A a →
  Z.of_nat (length res0) = cpt →
  (∀ m row, res0 !! m = Some row → Z.of_nat (length (e_f row)) = a_na A) →
  ∃ res,
    for_ (seqZ 0 (a_n a)) (λ i res,
      li ← rd l i;
      if decide (li = -1) then Ok res
      else
        for_ (seqZ 0 (a_na a)) (λ j res,
          f ← rd_f (a_e a) i j;
          res ← wr_f res li j (-1);
          if decide (f = -1) then Ok res
          else
            lf ← rd l f;
            if decide (lf ≠ -1) then wr_f res li j lf else Ok res) res) res0
    = Ok res
    ∧ built (a_e a) (a_n A) res.
Proof.
  intros Ht Hres0 Hrows0. pose proof (traversal_length A HA a Ht) as Hla.
  destruct Ht as (Hn & Hna & _ & Hrows).
  rewrite Hn, Hna.
  match goal with |- context [for_ _ ?b _] => set (body := b) end.
  destruct (for_seqZ_inv (built (a_e a)) body 0 (a_n A) res0) as (res & Hres & HP).
  - lia.
  - split; [exact Hres0|]. split; [exact Hrows0|]. intros j v src Hj. lia.
  - intros i res Hi (Hrl & Hrrows & Hdone). unfold body.
    destruct (rd_in_range l i) as (li & -> & Hli); [lia|]. ok.
    assert (∀ res', Z.of_nat (length res') = cpt →
              (∀ m row, res' !! m = Some row → Z.of_nat (length (e_f row)) = a_na A) →
              (∀ j v src, Z.of_nat j < i → l !! j = Some v → v ≠ -1 →
                 a_e a !! j = Some src →
                 ∃ row, res' !! Z.to_nat v = Some row ∧ e_f row = rename <$> e_f src) →
              (li ≠ -1 → ∀ src, a_e a !! Z.to_nat i = Some src →
                 ∃ row, res' !! Z.to_nat li = Some row ∧ e_f row = rename <$> e_f src) →
              built (a_e a) (i + 1) res') as Hnext.
    { intros res' H1 H2 H3 H4. split; [exact H1|]. split; [exact H2|].
      intros j v src Hj Hv Hv1 Hsrc.
      destruct (decide (j = Z.to_nat i)) as [-> | Hne].
      - rewrite Hli in Hv. injection Hv as <-. apply H4; assumption.
      - eapply H3; eauto. lia. }
    case_decide as Hli1.
    { exists res. split; [reflexivity|]. apply Hnext; auto. tauto. }
    destruct (rd_in_range (a_e a) i) as (src & _ & Hsrc); [lia|].
    assert (Z.of_nat (length (e_f src)) = a_na A) as Hsl.
    { assert ((e_f <$> a_e A) !! Z.to_nat i = Some (e_f src)) as H
        by (rewrite <- Hrows, list_lookup_fmap, Hsrc; reflexivity).
      rewrite list_lookup_fmap in H.
      destruct (a_e A !! Z.to_nat i) as [s0|] eqn:Hs0; [|discriminate].
      injection H as <-. eapply wf_row_lookup; eassumption. }
    assert (∀ t, t ∈ e_f src → -1 ≤ t < a_n A) as Htgt.
    { assert ((e_f <$> a_e A) !! Z.to_nat i = Some (e_f src)) as H
        by (rewrite <- Hrows, list_lookup_fmap, Hsrc; reflexivity).
      rewrite list_lookup_fmap in H.
      destruct (a_e A !! Z.to_nat i) as [s0|] eqn:Hs0; [|discriminate].
      injection H as <-. intros t. apply (wf_tgt A HA s0).
      eapply list_elem_of_lookup_2, Hs0. }
    destruct (Hval _ _ Hli) as [? | Hlir]; [contradiction|].
    destruct (rd_in_range res li) as (row0 & _ & Hrow0); [lia|].
    rewrite <- Hsl.
    rewrite (build_row (a_e a) i li src row0 res Hsrc ltac:(lia) Htgt Hrow0 ltac:(lia))
      by (pose proof (Hrrows _ _ Hrow0); lia).
    eexists. split; [reflexivity|]. apply Hnext.
    + rewrite length_insert. exact Hrl.
    + intros m row Hm. destruct (decide (m = Z.to_nat li)) as [-> | Hne].
      * rewrite list_lookup_insert_eq in Hm by (eapply lookup_lt_Some, Hrow0).
        injection Hm as <-. simpl. rewrite length_fmap. exact Hsl.
      * rewrite list_lookup_insert_ne in Hm by auto. eapply Hrrows, Hm.
    + intros j v src' Hj Hv Hv1 Hsrc'.
      assert (v ≠ li) as Hvli.
      { intros ->. assert (j = Z.to_nat i) by (eapply Hinj; eauto). lia. }
      destruct (Hval _ _ Hv) as [? | Hvr]; [contradiction|].
      rewrite list_lookup_insert_ne by lia. eapply Hdone; eauto.
    + intros _ src' Hsrc'. rewrite Hsrc in Hsrc'. injection Hsrc' as <-.
      eexists. split; [apply list_lookup_insert_eq; eapply lookup_lt_Some, Hrow0|].
      reflexivity.
  - exists res. split; [exact Hres|]. replace (0 + a_n A) with (a_n A) in HP by lia.
    exact HP.
Qed.
End renumber.

Section renumber_finals.
Context (A : Automaton) (HA : wf A).
Context (l : list Z) (cpt : Z).
Context (Hlen : Z.of_nat (length l) = a_n A).
Context (Hval : ∀ i v, l !! i = Some v → v = -1 ∨ 0 ≤ v < cpt).
Context (Hinj : ∀ i j v, l !! i = Some v → l !! j = Some v → v ≠ -1 → i = j).

(** The flags of [a] are put back and copied into the result. *)
Lemma finals_loop (a : Automaton) (res0 : list Etat) :
  traversal_of A a → Z.of_nat (length res0) = cpt →
  ∃ res,
    for_ (seqZ 0 (a_n a)) (λ i '(es, res),
      fin ← rd (e_final <$> a_e A) i;
      es ← wr_final es i fin;
      li ← rd l i;
      res ← (if decide (li ≠ -1) then wr_final res li fin else Ok res);
      Ok (es, res)) (a_e a, res0)
    = Ok (a_e A, res)
    ∧ e_f <$> res = e_f <$> res0
    ∧ ∀ j v s0, l !! j = Some v → v ≠ -1 → a_e A !! j = Some s0 →
        ∃ row, res !! Z.to_nat v = Some row ∧ e_final row = e_final s0.
Proof.
  intros Ht Hres0. pose proof (traversal_length A HA a Ht) as Hla.
  pose proof (wf_n A HA) as HnA.
  destruct Ht as (Hn & Hna & _ & Hrows). rewrite Hn.
  match goal with |- context [for_ _ ?b _] => set (body := b) end.
  destruct (for_seqZ_inv
    (λ i st, st.1 = take (Z.to_nat i) (a_e A) ++ drop (Z.to_nat i) (a_e a)
             ∧ e_f <$> st.2 = e_f <$> res0
             ∧ ∀ j v s0, Z.of_nat j < i → l !! j = Some v → v ≠ -1 →
                 a_e A !! j = Some s0 →
                 ∃ row, st.2 !! Z.to_nat v = Some row ∧ e_final row = e_final s0)
    body 0 (a_n A) (a_e a, res0)) as ([es res] & Hres & HP1 & HP2 & HP3).
  - lia.
  - simpl. rewrite drop_0. split; [reflexivity|]. split; [reflexivity|].
    intros j v s0 Hj. lia.
  - intros i [es res] Hi (Hes & Hef & Hdone). simpl in Hes, Hef, Hdone. subst es.
    unfold body.
    destruct (rd_in_range (a_e A) i) as (s0 & _ & Hs0); [lia|].
    destruct (rd_in_range (a_e a) i) as (s & _ & Hs); [lia|].
    assert (e_f s = e_f s0) as Hfs.
    { assert ((e_f <$> a_e a) !! Z.to_nat i = Some (e_f s0)) as H
        by (rewrite Hrows, list_lookup_fmap, Hs0; reflexivity).
      rewrite list_lookup_fmap, Hs in H. injection H as H. exact H. }
    assert (rd (e_final <$> a_e A) i = Ok (e_final s0)) as ->.
    { apply rd_lookup; [lia|]. rewrite list_lookup_fmap, Hs0. reflexivity. }
    ok. set (es := take _ _ ++ drop _ _).
    assert (es !! Z.to_nat i = Some s) as Hcur
      by (unfold es; rewrite lookup_take_drop_mid by lia; exact Hs).
    assert (wr_final es i (e_final s0)
            = Ok (take (Z.to_nat (i + 1)) (a_e A) ++ drop (Z.to_nat (i + 1)) (a_e a)))
      as ->.
    { apply wr_final_Ok. exists s. split; [exact Hcur|]. split; [lia|].
      replace (Z.to_nat (i + 1)) with (S (Z.to_nat i)) by lia.
      symmetry. rewrite Hfs. destruct s0. apply insert_take_drop; [exact Hs0 | lia]. }
    ok. destruct (rd_in_range l i) as (li & -> & Hli); [lia|]. ok.
    assert (length res = length res0) as Hrl
      by (rewrite <- (length_fmap e_f res), Hef, length_fmap; reflexivity).
    case_decide as Hli1.
    + destruct (Hval _ _ Hli) as [? | Hlir]; [contradiction|].
      destruct (rd_in_range res li) as (row & _ & Hrow); [lia|].
      assert (wr_final res li (e_final s0)
              = Ok (<[Z.to_nat li := mkEtat (e_f row) (e_final s0)]> res)) as ->.
      { apply wr_final_Ok. exists row. split; [exact Hrow|]. split; [lia|reflexivity]. }
      ok. eexists. split; [reflexivity|]. simpl. split; [reflexivity|]. split.
      * rewrite list_fmap_insert. simpl. rewrite <- Hef. apply list_insert_id.
        rewrite list_lookup_fmap, Hrow. reflexivity.
      * intros j v s0' Hj Hv Hv1 Hs0'.
        destruct (decide (j = Z.to_nat i)) as [-> | Hne].
        -- rewrite Hli in Hv. injection Hv as <-.
           rewrite Hs0 in Hs0'. injection Hs0' as <-.
           eexists. split; [apply list_lookup_insert_eq; eapply lookup_lt_Some, Hrow|].
           reflexivity.
        -- assert (v ≠ li) as Hvli.
           { intros ->. apply Hne. eapply Hinj; eauto. }
           destruct (Hval _ _ Hv) as [? | Hvr]; [contradiction|].
           rewrite list_lookup_insert_ne by lia. eapply Hdone; eauto. lia.
    + ok. eexists. split; [reflexivity|]. simpl. split; [reflexivity|].
      split; [exact Hef|].
      intros j v s0' Hj Hv Hv1 Hs0'.
      destruct (decide (j = Z.to_nat i)) as [-> | Hne].
      * rewrite Hli in Hv. injection Hv as <-. tauto.
      * eapply Hdone; eauto. lia.
  - simpl in HP1, HP2, HP3. exists res. rewrite Hres. split.
    + f_equal. f_equal. rewrite HP1.
      rewrite take_ge by lia. rewrite drop_ge by lia. apply app_nil_r.
    + split; [exact HP2|]. intros j v s0 Hv Hv1 Hs0.
      eapply HP3; eauto. apply lookup_lt_Some in Hs0. lia.
Qed.
End renumber_finals.

(** ** [emonde_inf]: which states are kept *)

Section emonde_inf_marks.
Context (A : Automaton) (HA : wf A).

Lemma marked_closed a w :
  Inv A a (λ _, False) →
  ∀ u t, 0 ≤ u < a_n A → mark a u ≠ 0 → run A u w = Some t → mark a t ≠ 0.
Proof.
  intros HI. induction w as [|c w IH]; simpl; intros u t Hu Hmu.
  - intros [= <-]. exact Hmu.
  - destruct (step A u c) as [v|] eqn:Hstep; [|discriminate].
    apply IH.
    + apply (step_range A u c v HA Hstep).
    + eapply (inv_closed A a _ HI u c v); auto.
Qed.

Lemma run_range s w t :
  0 ≤ s < a_n A → run A s w = Some t → 0 ≤ t < a_n A.
Proof.
  revert s. induction w as [|c w IH]; simpl; intros s Hs.
  - intros [= <-]. exact Hs.
  - destruct (step A s c) as [v|] eqn:Hstep; [|discriminate].
    apply IH. apply (step_range A s c v HA Hstep).
Qed.

Definition cleared : Automaton :=
  with_e A ((λ s, mkEtat (e_f s) 0) <$> a_e A).

Lemma cleared_traversal : traversal_of A cleared.
Proof.
  repeat split. simpl. rewrite <- list_fmap_compose. reflexivity.
Qed.

Lemma cleared_mark k : mark cleared k = 0.
Proof.
  unfold mark, cleared. simpl. rewrite list_lookup_fmap.
  destruct (a_e A !! Z.to_nat k); reflexivity.
Qed.

(** After the traversal from the initial state, the mark 1 is on the states
    that the initial state reaches and that reach a cycle. *)
Lemma emonde_inf_marks :
  ∃ a cpt,
    (if decide (a_i cleared ≠ -1)
     then '(a, compteur, _) ←
            emonde_inf_rec (S (Z.to_nat (a_n cleared))) cleared 0 (a_i cleared);
          Ok (a, compteur)
     else Ok (cleared, 0)) = Ok (a, cpt)
    ∧ traversal_of A a
    ∧ ∀ s, 0 ≤ s < a_n A →
        (mark a s = 0 ∨ mark a s = 1 ∨ mark a s = 2)
        ∧ (mark a s = 1 ↔ reachable A s ∧ reaches_cycle A s).
Proof.
  pose proof (wf_i A HA) as Hi. pose proof (wf_n A HA) as Hn.
  assert (Inv A cleared (λ _, False)) as HI0.
  { split; intros t; rewrite ?cleared_mark; try lia; auto. }
  change (a_i cleared) with (a_i A). change (a_n cleared) with (a_n A).
  case_decide as Hi1.
  - destruct (emonde_inf_rec_spec A HA (S (Z.to_nat (a_n A))) cleared 0 (a_i A)
                (λ _, False)) as (a & cpt & b & -> & [Pt Pinv Ps Pkeep Pnew Pw]).
    { split; [apply cleared_traversal|]. split; [exact HI0|].
      split; [lia|]. split; [apply cleared_mark|]. tauto. }
    { pose proof (count_le_length white (a_e cleared)) as H.
      assert (length (a_e cleared) = length (a_e A)) as Hl
        by (unfold cleared; simpl; apply length_fmap).
      lia. }
    ok. exists a, cpt. split; [reflexivity|]. split; [exact Pt|].
    intros s Hs. split; [apply (inv_012 A a _ Pinv s Hs)|]. split.
    + intros H1. split.
      * split; [exact Hi1|]. apply Pnew; [exact Hs | apply cleared_mark | lia].
      * destruct (inv_yes A a _ Pinv s Hs H1); tauto.
    + intros [[_ [w Hw]] Hrc].
      assert (mark a s ≠ 0) as Hnz.
      { eapply (marked_closed a w Pinv (a_i A) s); [lia| |exact Hw].
        rewrite Ps. destruct b; lia. }
      destruct (inv_012 A a _ Pinv s Hs) as [? | [? | H2]]; [lia | assumption |].
      exfalso. eapply (inv_no A a _ Pinv s Hs H2), Hrc.
  - exists cleared, 0. split; [reflexivity|]. split; [apply cleared_traversal|].
    intros s Hs. rewrite cleared_mark. split; [auto|]. split; [lia|].
    intros [[Hne _] _]. tauto.
Qed.
End emonde_inf_marks.

Lemma number_from_Some ks (i : nat) v :
  number_from 0 ks !! i = Some v →
  ∃ k : bool, ks !! i = Some k ∧ v = if k then kept_count (take i ks) else -1.
Proof.
  rewrite number_from_lookup. destruct (ks !! i) as [k|]; [|discriminate].
  simpl. intros [= <-]. exists k. split; [reflexivity|]. destruct k; [lia | reflexivity].
Qed.

Lemma number_from_val ks (i : nat) v :
  number_from 0 ks !! i = Some v → v = -1 ∨ 0 ≤ v < kept_count ks.
Proof.
  intros (k & Hk & ->)%number_from_Some. destruct (k : bool); [right | left; reflexivity].
  pose proof (kept_count_nonneg (take i ks)).
  pose proof (lookup_lt_Some _ _ _ Hk).
  pose proof (kept_count_take_lt ks i (length ks) ltac:(lia) Hk) as H1.
  rewrite firstn_all in H1. lia.
Qed.

Lemma number_from_mono ks (i j : nat) vi vj :
  (i < j)%nat → number_from 0 ks !! i = Some vi → number_from 0 ks !! j = Some vj →
  vi ≠ -1 → vj ≠ -1 → vi < vj.
Proof.
  intros Hij (ki & Hki & ->)%number_from_Some (kj & Hkj & ->)%number_from_Some.
  destruct ki, kj; try congruence. intros _ _. apply kept_count_take_lt; assumption.
Qed.

Lemma number_from_inj ks (i j : nat) v :
  number_from 0 ks !! i = Some v → number_from 0 ks !! j = Some v → v ≠ -1 → i = j.
Proof.
  intros Hi Hj Hv. destruct (lt_eq_lt_dec i j) as [[Hlt | ->] | Hlt]; [|reflexivity|].
  - pose proof (number_from_mono ks i j v v Hlt Hi Hj Hv Hv). lia.
  - pose proof (number_from_mono ks j i v v Hlt Hj Hi Hv Hv). lia.
Qed.

Lemma number_from_count ks c :
  0 ≤ c → Z.of_nat (length (filter (λ v, v ≠ -1) (number_from c ks))) = kept_count ks.
Proof.
  revert c. induction ks as [|k ks IH]; intros c Hc; [reflexivity|].
  cbn [number_from]. rewrite kept_count_cons. destruct k; cbv iota.
  - rewrite list.filter_cons_True by (simpl; lia). cbn [length].
    rewrite Nat2Z.inj_succ. rewrite (IH (c + 1)) by lia. lia.
  - rewrite list.filter_cons_False by (simpl; lia). rewrite (IH c) by lia. lia.
Qed.

(** The new name of state [s], [-1] when it is discarded. *)
Definition new_name (l : list Z) (s : Z) : Z := default (-1) (l !! Z.to_nat s).

Lemma land_1_mark m : m = 0 ∨ m = 1 ∨ m = 2 → (Z.land m 1 ≠ 0 ↔ m = 1).
Proof.
  intros [-> | [-> | ->]];
    [change (Z.land 0 1) with 0 | change (Z.land 1 1) with 1
     | change (Z.land 2 1) with 0]; lia.
Qed.

(** C5, as the code has it.  [emonde_inf] keeps a state if and only if the
    initial state reaches it and it lies on a cycle or can reach one (a state
    on a cycle that the initial state does not reach is discarded).  The kept
    states are renumbered in increasing order from 0, the result has one
    state for each of them, with its finality, and a transition of a kept
    state stays when its target is kept and is removed otherwise.  The
    argument is left as it was. *)
Theorem emonde_inf_spec (A : Automaton) :
  wf A →
  ∃ r l, emonde_inf A = Ok (A, r)
    ∧ Z.of_nat (length l) = a_n A
    ∧ (∀ s, 0 ≤ s < a_n A →
         (new_name l s ≠ -1 ↔ reachable A s ∧ reaches_cycle A s))
    ∧ a_n r = Z.of_nat (length (filter (λ v, v ≠ -1) l))
    ∧ a_na r = a_na A
    ∧ (∀ s, 0 ≤ s < a_n A → new_name l s ≠ -1 → 0 ≤ new_name l s < a_n r)
    ∧ (∀ s t, 0 ≤ s < t → t < a_n A → new_name l s ≠ -1 → new_name l t ≠ -1 →
         new_name l s < new_name l t)
    ∧ (∀ s c, 0 ≤ s < a_n A → 0 ≤ c < a_na A → new_name l s ≠ -1 →
         ∃ t, rd_f (a_e A) s c = Ok t
              ∧ rd_f (a_e r) (new_name l s) c
                = Ok (if decide (t = -1) then -1 else new_name l t))
    ∧ (∀ s, 0 ≤ s < a_n A → new_name l s ≠ -1 →
         rd_final (a_e r) (new_name l s) = rd_final (a_e A) s)
    ∧ a_i r = (if decide (a_i A = -1) then -1 else new_name l (a_i A)).
Proof.
  intros HA. pose proof (wf_n A HA) as Hn. pose proof (wf_na A HA) as Hna.
  pose proof (wf_i A HA) as Hi.
  unfold emonde_inf. rewrite (save_and_clear (a_e A) (a_n A) Hn). ok.
  cbv zeta. fold (cleared A).
  destruct (emonde_inf_marks A HA) as (a & compteur & -> & Ht & Hmarks). ok.
  pose proof (traversal_length A HA a Ht) as Hla.
  pose proof Ht as (Hna_ & Hnaa & Hia & Hrows). rewrite Hna_, Hnaa, Hia.
  rewrite (numbering_loop (λ fin, Z.land fin 1 ≠ 0) (λ fin, decide (Z.land fin 1 ≠ 0)))
    by (try rewrite length_replicate; lia).
  ok. set (ks := (λ s, bool_decide (Z.land (e_final s) 1 ≠ 0)) <$> a_e a).
  set (l := number_from 0 ks). set (cpt := kept_count ks).
  assert (Z.of_nat (length l) = a_n A) as Hll
    by (unfold l, ks; rewrite length_number_from, length_fmap; exact Hla).
  assert (∀ s, 0 ≤ s < a_n A →
            ks !! Z.to_nat s = Some (bool_decide (mark a s = 1))) as Hks.
  { intros s Hs. unfold ks, mark. rewrite list_lookup_fmap.
    destruct (rd_in_range (a_e a) s) as (x & _ & Hx); [lia|]. rewrite Hx. simpl.
    f_equal. apply bool_decide_ext, land_1_mark.
    destruct (Hmarks s Hs) as [H _]. unfold mark in H. rewrite Hx in H. exact H. }
  assert (∀ s, 0 ≤ s < a_n A → (new_name l s ≠ -1 ↔ mark a s = 1)) as Hkept.
  { intros s Hs. unfold new_name, l. rewrite number_from_lookup, (Hks s Hs). simpl.
    pose proof (kept_count_nonneg (take (Z.to_nat s) ks)).
    case_bool_decide; split; intros; try lia; tauto. }
  assert (a_n (NewAutomaton cpt (a_na A)) = cpt ∧ a_na (NewAutomaton cpt (a_na A)) = a_na A)
    as [Hrn Hrna] by (unfold NewAutomaton; case_decide; auto).
  destruct (build_loop A HA l cpt Hll (number_from_val ks) (number_from_inj ks)
              a (a_e (NewAutomaton cpt (a_na A))) Ht)
    as (res & Hres & Hrl & Hrrows & Hbuilt).
  { unfold NewAutomaton. pose proof (kept_count_nonneg ks). fold cpt in H.
    case_decide as Hc; simpl; [lia | rewrite length_replicate; lia]. }
  { unfold NewAutomaton. intros m row. case_decide; simpl.
    - rewrite lookup_nil. discriminate.
    - intros [-> _]%lookup_replicate. simpl. rewrite length_replicate. lia. }
  rewrite Hna_, Hnaa in Hres. rewrite Hres. ok.
  destruct (finals_loop A HA l cpt Hll (number_from_val ks) (number_from_inj ks)
              a res Ht Hrl) as (res' & Hres' & Hef & Hfin).
  rewrite Hna_ in Hres'. rewrite Hres'. ok.
  assert (∃ ri, (if decide (a_i A ≠ -1) then rd l (a_i A) else Ok (-1)) = Ok ri
                ∧ ri = if decide (a_i A = -1) then -1 else new_name l (a_i A))
    as (ri & -> & Hri).
  { case_decide as Hi1.
    - destruct (rd_in_range l (a_i A)) as (v & -> & Hv); [lia|].
      exists v. split; [reflexivity|]. rewrite decide_False by exact Hi1.
      unfold new_name. rewrite Hv. reflexivity.
    - exists (-1). split; [reflexivity|]. rewrite decide_True; [reflexivity|lia]. }
  ok. exists (mkAutomate res' cpt (a_na A) ri), l. rewrite Hrn, Hrna.
  split; [unfold with_e; rewrite Hna_, Hnaa, Hia; destruct A; reflexivity|].
  split; [exact Hll|]. simpl.
  assert (∀ s, 0 ≤ s < a_n A → new_name l s ≠ -1 →
            l !! Z.to_nat s = Some (new_name l s)) as Hname.
  { intros s Hs _. unfold new_name.
    destruct (rd_in_range l s) as (v & _ & ->); [lia|]. reflexivity. }
  split; [|split; [|split; [|split; [|split; [|split; [|split]]]]]].
  - intros s Hs. rewrite (Hkept s Hs). apply Hmarks, Hs.
  - unfold l. rewrite number_from_count by lia. reflexivity.
  - reflexivity.
  - intros s Hs Hk. destruct (number_from_val ks _ _ (Hname s Hs Hk)); [contradiction|].
    exact H.
  - intros s t Hst Ht' Hks' Hkt.
    apply (number_from_mono ks (Z.to_nat s) (Z.to_nat t)); auto; try lia;
      apply Hname; auto; lia.
  - intros s c Hs Hc Hk.
    destruct (rd_in_range (a_e a) s) as (src & _ & Hsrc); [lia|].
    destruct (Hbuilt (Z.to_nat s) (new_name l s) src ltac:(lia) (Hname s Hs Hk) Hk Hsrc)
      as (row & Hrow & Hrowf).
    destruct (wf_rd_f A s c HA Hs Hc) as (t & Hrd & Htr).
    exists t. split; [exact Hrd|].
    assert (rd_f (a_e a) s c = Ok t) as Hrda
      by (rewrite (traversal_rd_f A a s c Ht); exact Hrd).
    apply rd_f_Ok in Hrda as (src' & Hsrc' & Hsc).
    apply rd_Ok in Hsrc' as [_ Hsrc']. rewrite Hsrc in Hsrc'. injection Hsrc' as <-.
    apply rd_Ok in Hsc as [_ Hsc].
    assert (e_f <$> res' !! Z.to_nat (new_name l s) = Some (e_f row)) as Hrow'
      by (rewrite <- list_lookup_fmap, Hef, list_lookup_fmap, Hrow; reflexivity).
    destruct (res' !! Z.to_nat (new_name l s)) as [row'|] eqn:Hrr; [|discriminate].
    injection Hrow' as Hrow'.
    destruct (number_from_val ks _ _ (Hname s Hs Hk)) as [? | Hrange]; [contradiction|].
    apply rd_f_Ok. exists row'. split; [apply rd_lookup; [lia | exact Hrr]|].
    apply rd_lookup; [lia|]. rewrite Hrow', Hrowf, list_lookup_fmap, Hsc. reflexivity.
  - intros s Hs Hk.
    destruct (rd_in_range (a_e A) s) as (s0 & _ & Hs0); [lia|].
    destruct (Hfin (Z.to_nat s) (new_name l s) s0 (Hname s Hs Hk) Hk Hs0)
      as (row & Hrow & Hrowfin).
    destruct (number_from_val ks _ _ (Hname s Hs Hk)) as [? | Hrange]; [contradiction|].
    rewrite (rd_final_lookup _ (new_name l s) row) by (try lia; exact Hrow).
    rewrite (rd_final_lookup _ s s0) by (try lia; exact Hs0).
    rewrite Hrowfin. reflexivity.
  - exact Hri.
Qed.

Lemma emonde_inf_spec_witness :
  wf lasso ∧ ∃ r l, emonde_inf lasso = Ok (lasso, r)
                    ∧ Z.of_nat (length l) = a_n lasso
                    ∧ (∀ s, 0 ≤ s < a_n lasso →
                         (new_name l s ≠ -1 ↔ reachable lasso s ∧ reaches_cycle lasso s)).
Proof.
  split; [apply wfb_wf; reflexivity|].
  destruct (emonde_inf_spec lasso) as (r & l & H1 & H2 & H3 & _);
    [apply wfb_wf; reflexivity|].
  exists r, l. auto.
Defined.

(** The claim as it is stated: the kept states are exactly those from which
    an infinite run starts, and the result has one state for each of them. *)
Definition keeps_all_infinite_runs (A : Automaton) : Prop :=
  ∃ r l, emonde_inf A = Ok (A, r)
    ∧ Z.of_nat (length l) = a_n A
    ∧ (∀ s, 0 ≤ s < a_n A → (new_name l s ≠ -1 ↔ reaches_cycle A s))
    ∧ a_n r = Z.of_nat (length (filter (λ v, v ≠ -1) l)).

(** C5 as it is stated fails: the states 0, 1 and 3 of [lasso] lie on a cycle
    or reach one (state 3 has a loop on letter 0), but the initial state does
    not reach state 3, and the result has the two states 0 and 1 only. *)
Lemma emonde_inf_discards_unreachable_cycle :
  wf lasso ∧ reaches_cycle lasso 3 ∧ ¬ reachable lasso 3
  ∧ emonde_inf lasso = Ok (lasso, mkAutomate [mkEtat [1; -1] 0; mkEtat [1; -1] 1] 2 2 0)
  ∧ ¬ keeps_all_infinite_runs lasso.
Proof.
  assert (wf lasso) as Hwf by (apply wfb_wf; reflexivity).
  assert (reaches_cycle lasso 3) as H3.
  { exists 3. split; [exists []; reflexivity|]. exists [0]. split; [discriminate | reflexivity]. }
  assert (reaches_cycle lasso 1) as H1.
  { exists 1. split; [exists []; reflexivity|]. exists [0]. split; [discriminate | reflexivity]. }
  assert (reaches_cycle lasso 0) as H0.
  { eapply (reaches_cycle_step lasso 0 0 1); [reflexivity | exact H1]. }
  split; [exact Hwf|]. split; [exact H3|]. split; [|split; [reflexivity|]].
  - intros [_ [w Hw]].
    assert (∀ w s, (s = 0 ∨ s = 1 ∨ s = 2) → run lasso s w ≠ Some 3) as Hno.
    { clear -Hwf. intros w. induction w as [|c w IH]; intros s Hs; simpl.
      - intros [= ->]. lia.
      - destruct (step lasso s c) as [t|] eqn:Hstep; [|discriminate].
        apply IH. pose proof (step_range lasso s c t Hwf Hstep) as (_ & Hc & _).
        simpl in Hc. assert (c = 0 ∨ c = 1) as [-> | ->] by lia;
          destruct Hs as [-> | [-> | ->]]; vm_compute in Hstep;
          try discriminate; injection Hstep as <-; lia. }
    apply (Hno w 0); [auto | exact Hw].
  - intros (r & l & Hr & Hlen & Hk & Hn).
    assert (emonde_inf lasso
            = Ok (lasso, mkAutomate [mkEtat [1; -1] 0; mkEtat [1; -1] 1] 2 2 0)) as Hc
      by reflexivity.
    rewrite Hc in Hr. injection Hr as <-. simpl in Hn, Hlen.
    destruct l as [|l0 [|l1 [|l2 [|l3 [|]]]]]; simpl in Hlen; try lia.
    assert (l0 ≠ -1) as Hl0 by (apply (Hk 0); [simpl; lia | exact H0]).
    assert (l1 ≠ -1) as Hl1 by (apply (Hk 1); [simpl; lia | exact H1]).
    assert (l3 ≠ -1) as Hl3 by (apply (Hk 3); [simpl; lia | exact H3]).
    rewrite (list.filter_cons_True _ l0), (list.filter_cons_True _ l1) in Hn
      by assumption.
    rewrite (list.filter_cons _ l2), (list.filter_cons_True _ l3) in Hn by assumption.
    destruct (decide (l2 ≠ -1)); simpl in Hn; lia.
Qed.

(** ** The scratch bits do not outlive a call *)

(** [a] is [A] where the bits above bit 0 of the [final] fields may be set. *)
Definition scratch_state (s0 s : Etat) : Prop :=
  e_f s = e_f s0 ∧ Z.land (e_final s) 1 = e_final s0.
Definition scratch_of (A a : Automaton) : Prop :=
  a_n a = a_n A ∧ a_na a = a_na A ∧ a_i a = a_i A
  ∧ Forall2 scratch_state (a_e A) (a_e a).

Lemma scratch_of_refl A : wf A → scratch_of A A.
Proof.
  intros HA. repeat split. apply Forall2_same_length_lookup_2; [reflexivity|].
  intros k s s' H1 H2. rewrite H1 in H2. injection H2 as <-. split; [reflexivity|].
  destruct (wf_fin A HA s) as [-> | ->]; [eapply list_elem_of_lookup_2, H1|..];
    reflexivity.
Qed.

Lemma scratch_restored A a :
  wf A → scratch_of A a → with_e a (flag_only <$> a_e a) = A.
Proof.
  intros HA (Hn & Hna & Hi & Hes). unfold with_e. rewrite Hn, Hna, Hi.
  assert (flag_only <$> a_e a = a_e A) as ->; [|destruct A; reflexivity].
  apply list_eq. intros k. rewrite list_lookup_fmap.
  destruct (a_e A !! k) as [s0|] eqn:Hs0.
  - destruct (Forall2_lookup_l _ _ _ _ _ Hes Hs0) as (s & -> & Hf & Hfin).
    simpl. f_equal. unfold flag_only. rewrite Hf, Hfin. destruct s0; reflexivity.
  - apply lookup_ge_None in Hs0. rewrite (Forall2_length Hes) in Hs0.
    apply lookup_ge_None in Hs0. rewrite Hs0. reflexivity.
Qed.

Lemma scratch_length A a :
  wf A → scratch_of A a → Z.of_nat (length (a_e a)) = a_n a.
Proof.
  intros HA (Hn & _ & _ & Hes). rewrite Hn, <- (Forall2_length Hes). apply (wf_n A HA).
Qed.

(** A write to [final] that keeps bit 0. *)
Lemma scratch_wr_final A a k fin v es :
  scratch_of A a → rd_final (a_e a) k = Ok fin → Z.land v 1 = Z.land fin 1 →
  wr_final (a_e a) k v = Ok es → scratch_of A (with_e a es).
Proof.
  intros (Hn & Hna & Hi & Hes) Hfin Hv Hw.
  apply rd_final_Ok in Hfin as (s & Hs & <-). apply rd_Ok in Hs as [_ Hs].
  apply wr_final_Ok in Hw as (s' & Hs' & _ & ->).
  rewrite Hs in Hs'. injection Hs' as <-.
  destruct (Forall2_lookup_r _ _ _ _ _ Hes Hs) as (s0 & Hs0 & Hf & Hb).
  repeat split; try assumption. simpl.
  rewrite <- (list_insert_id _ _ _ Hs0). apply Forall2_insert; [exact Hes|].
  split; [exact Hf|]. simpl. rewrite Hv. exact Hb.
Qed.

Lemma land_lor_bit fin b : Z.land b 1 = 0 → Z.land (Z.lor fin b) 1 = Z.land fin 1.
Proof. intros H. rewrite Z.land_lor_distr_l, H, Z.lor_0_r. reflexivity. Qed.

Section scratch.
Context (A : Automaton) (HA : wf A).

Lemma scratch_mark a k b es fin :
  scratch_of A a → rd_final (a_e a) k = Ok fin → Z.land b 1 = 0 →
  wr_final (a_e a) k (Z.lor fin b) = Ok es → scratch_of A (with_e a es).
Proof.
  intros Hs Hfin Hb Hw.
  exact (scratch_wr_final A a k fin _ es Hs Hfin (land_lor_bit fin b Hb) Hw).
Qed.

Lemma emptyLangage_rec_frame fuel :
  ∀ a e a' b, scratch_of A a → emptyLangage_rec fuel a e = Ok (a', b) →
              scratch_of A a'.
Proof.
  induction fuel as [|fuel IH]; intros a e a' b Hs H; [discriminate|].
  cbn [emptyLangage_rec] in H.
  apply bind_Ok in H as (fin & Hfin & H).
  case_decide; [injection H as <- <-; exact Hs|].
  apply bind_Ok in H as (es & Hes & H).
  apply (scratch_mark a e 2 es fin Hs Hfin eq_refl) in Hes.
  apply bind_Ok in H as (x & Hx & H).
  assert (a_na (with_e a es) = a_na a) as Hna by reflexivity.
  apply (for_flow_post (scratch_of A)) in Hx; [|exact Hes|].
  - destruct x; injection H as <- <-; exact Hx.
  - intros i s y Hsc Hy. apply bind_Ok in Hy as (f & _ & Hy).
    case_decide; [|injection Hy as <-; exact Hsc].
    apply bind_Ok in Hy as (ff & _ & Hy).
    case_decide; [injection Hy as <-; exact Hsc|].
    apply bind_Ok in Hy as ([a1 sub] & Hrec & Hy).
    apply IH in Hrec; [|exact Hsc].
    destruct sub; injection Hy as <-; exact Hrec.
Qed.

Lemma emptyLangage_frame a' b : emptyLangage A = Ok (a', b) → a' = A.
Proof.
  unfold emptyLangage. case_decide as Hi; [intros [= <- _]; reflexivity|].
  intros H. apply bind_Ok in H as ([a1 res] & Hrec & H).
  apply emptyLangage_rec_frame in Hrec; [|apply scratch_of_refl, HA].
  rewrite restore_loop in H by (apply (scratch_length A); assumption).
  rewrite Ok_bind in H. injection H as <- _. apply scratch_restored; assumption.
Qed.

Lemma emondeI_rec_frame fuel :
  ∀ a e a', scratch_of A a → emondeI_rec fuel a e = Ok a' → scratch_of A a'.
Proof.
  induction fuel as [|fuel IH]; intros a e a' Hs H; [discriminate|].
  cbn [emondeI_rec] in H.
  apply bind_Ok in H as (fin & Hfin & H).
  apply bind_Ok in H as (es & Hes & H).
  apply (scratch_mark a e 2 es fin Hs Hfin eq_refl) in Hes.
  apply (for_post (scratch_of A)) in H; [exact H | exact Hes|].
  intros i s s' Hsc Hy. apply bind_Ok in Hy as (f & _ & Hy).
  case_decide; [injection Hy as <-; exact Hsc|].
  apply bind_Ok in Hy as (ff & _ & Hy).
  case_decide; [|injection Hy as <-; exact Hsc].
  eapply IH; eassumption.
Qed.

(** The last loop of [emondeI] and of [emonde], as far as [a] goes. *)
Lemma restore_and_copy_post (es0 : list Etat) n
    (body : Z → list Etat * list Etat → Res (list Etat * list Etat)) st :
  Z.of_nat (length es0) = n →
  (∀ i es res st', body i (es, res) = Ok st' →
     ∃ fin es', rd_final es i = Ok fin
                ∧ wr_final es i (Z.land fin 1) = Ok es' ∧ st'.1 = es') →
  ∀ res0, for_ (seqZ 0 n) body (es0, res0) = Ok st → st.1 = flag_only <$> es0.
Proof.
  intros Hn Hbody res0 H.
  apply (for_seqZ_post
           (λ i st, st.1 = take (Z.to_nat i) (flag_only <$> es0)
                           ++ drop (Z.to_nat i) es0)) in H.
  - rewrite H. rewrite take_ge by (rewrite length_fmap; lia).
    rewrite drop_ge by lia. apply app_nil_r.
  - lia.
  - simpl. rewrite drop_0. reflexivity.
  - intros i [es res] st' Hi Hes Hb. simpl in Hes. subst es.
    destruct (Hbody _ _ _ _ Hb) as (fin & es' & Hfin & Hw & ->).
    apply rd_final_Ok in Hfin as (s & Hs & <-). apply rd_Ok in Hs as [_ Hs].
    apply wr_final_Ok in Hw as (s' & Hs' & _ & ->).
    rewrite Hs in Hs'. injection Hs' as <-.
    rewrite lookup_take_drop_mid in Hs by (rewrite length_fmap; lia).
    replace (Z.to_nat (i + 1)) with (S (Z.to_nat i)) by lia.
    apply insert_take_drop; [|lia]. rewrite list_lookup_fmap, Hs. reflexivity.
Qed.

Lemma emondeI_frame a' r : emondeI A = Ok (a', r) → a' = A.
Proof.
  unfold emondeI. intros H.
  apply bind_Ok in H as (a1 & Ha1 & H).
  assert (scratch_of A a1) as Hs.
  { destruct (decide (a_i A ≠ -1)).
    - eapply emondeI_rec_frame; [|exact Ha1]. apply scratch_of_refl, HA.
    - injection Ha1 as <-. apply scratch_of_refl, HA. }
  apply bind_Ok in H as ([l cpt] & _ & H).
  apply bind_Ok in H as (res & _ & H).
  apply bind_Ok in H as ([es res'] & Hloop & H).
  apply bind_Ok in H as (ri & _ & [= <- _]).
  apply restore_and_copy_post with (es0 := a_e a1) in Hloop.
  - simpl in Hloop. subst es. apply scratch_restored; assumption.
  - apply (scratch_length A); assumption.
  - intros i es0 res0 st' Hb.
    apply bind_Ok in Hb as (fin & Hfin & Hb). apply bind_Ok in Hb as (es' & Hes' & Hb).
    apply bind_Ok in Hb as (li & _ & Hb). apply bind_Ok in Hb as (fin' & _ & Hb).
    apply bind_Ok in Hb as (res1 & _ & [= <-]). eauto.
Qed.




End scratch.




(** ** Minimisation: the inverse of the transitions *)

(** [t[e][c]] lists the states [p] among those that [D] selects with
    [delta p c = e]. *)
Definition trans_upto (a : Automaton) (D : Z → Z → Prop) (t : list (list Dict))
    : Prop :=
  len t = a_n a + 1
  ∧ ∀ e, 0 ≤ e ≤ a_n a →
      len (sel t e) = a_na a
      ∧ ∀ c, 0 ≤ c < a_na a →
          ∀ p, p ∈ sel (sel t e) c ↔ D p c ∧ delta a p c = e.

Definition trans_ok (a : Automaton) (t : list (list Dict)) : Prop :=
  trans_upto a (λ p _, 0 ≤ p ≤ a_n a) t.

Lemma trans_upto_ext a (D D' : Z → Z → Prop) t :
  (∀ p c, 0 ≤ c < a_na a → D p c ↔ D' p c) → trans_upto a D t → trans_upto a D' t.
Proof.
  intros HD [Hl Ht]. split; [exact Hl|]. intros e He.
  destruct (Ht e He) as [Hrow Hin]. split; [exact Hrow|].
  intros c Hc p. rewrite (Hin c Hc p), (HD p c Hc). reflexivity.
Qed.

Section transitioni.
Context (a : Automaton) (Ha : wf_alloc a).

(** [dictAdd(&transitioni[delta i j][j], i)]. *)
Lemma trans_add D t i j :
  trans_upto a D t → 0 ≤ j < a_na a →
  ∃ t', (row ← rd t (delta a i j);
         d ← rd row j;
         row ← wr row j (dictAdd d i);
         wr t (delta a i j) row) = Ok t'
        ∧ trans_upto a (λ p c, D p c ∨ (p = i ∧ c = j)) t'.
Proof.
  intros [Hl Ht] Hj. pose proof (delta_range a Ha i j) as Hd.
  destruct (Ht _ Hd) as [Hrow Hin].
  rewrite rd_sel by lia. rewrite Ok_bind.
  rewrite rd_sel by lia. rewrite Ok_bind.
  rewrite wr_upd by lia. rewrite Ok_bind.
  rewrite wr_upd by lia. eexists. split; [reflexivity|].
  split; [rewrite length_upd; exact Hl|].
  intros e He. destruct (Ht e He) as [Hrow' Hin'].
  rewrite sel_upd by lia. case_decide as Hde.
  - subst e. split; [rewrite length_upd; exact Hrow|].
    intros c Hc p. rewrite sel_upd by lia. case_decide as Hcj.
    + subst c. unfold dictAdd. rewrite elem_of_app, list_elem_of_singleton.
      rewrite (Hin j Hj p). split.
      * intros [[H1 H2] | ->]; auto.
      * intros [[H1 | [-> _]] H2]; auto.
    + rewrite (Hin c Hc p). split.
      * intros [H1 H2]; auto.
      * intros [[H1 | [_ H1]] H2]; [auto | contradiction].
  - split; [exact Hrow'|]. intros c Hc p. rewrite (Hin' c Hc p). split.
    + intros [H1 H2]; auto.
    + intros [[H1 | [-> ->]] H2]; [auto | congruence].
Qed.

Lemma transitioni_init :
  ∃ t1 t,
    for_ (seqZ 0 (a_n a)) (λ i t,
      for_ (seqZ 0 (a_na a)) (λ j t,
        f ← rd_f (a_e a) i j;
        let tgt := if decide (f ≠ -1) then f else a_n a in
        row ← rd t tgt;
        d ← rd row j;
        row ← wr row j (dictAdd d i);
        wr t tgt row) t)
      (replicate (Z.to_nat (a_n a + 1)) (replicate (Z.to_nat (a_na a)) []))
    = Ok t1
    ∧ for_ (seqZ 0 (a_na a)) (λ j t,
        row ← rd t (a_n a);
        d ← rd row j;
        row ← wr row j (dictAdd d (a_n a));
        wr t (a_n a) row) t1
      = Ok t
    ∧ trans_ok a t.
Proof.
  pose proof (wa_n a Ha) as Hn. pose proof (wa_na a Ha) as Hna.
  edestruct (for_seqZ_inv (λ i t, trans_upto a (λ p _, 0 ≤ p < i) t))
    as (t1 & Ht1 & HP1); [| |intros i t Hi HP|].
  4: { exists t1. rewrite Ht1.
       edestruct (for_seqZ_inv
                    (λ j t, trans_upto a (λ p c, 0 ≤ p < a_n a ∨ (p = a_n a ∧ c < j)) t))
         as (t2 & Ht2 & HP2); [| |intros j t Hj HP|].
       4: { exists t2. split; [reflexivity|]. split; [exact Ht2|].
            eapply trans_upto_ext; [|exact HP2]. simpl. intros p c Hc. lia. }
       - exact Hna.
       - eapply trans_upto_ext; [|exact HP1]. simpl. intros p c Hc. lia.
       - pose proof (trans_add _ t (a_n a) j HP ltac:(lia)) as (t' & Ht' & HP').
         rewrite (delta_sink a) in Ht'. exists t'. split; [exact Ht'|].
         eapply trans_upto_ext; [|exact HP']. simpl. intros p c Hc. lia. }
  - lia.
  - split; [rewrite length_replicate; lia|]. intros e He.
    rewrite sel_replicate by lia. split; [rewrite length_replicate; lia|].
    intros c Hc p. rewrite sel_replicate by lia. rewrite elem_of_nil. lia.
  - edestruct (for_seqZ_inv
                 (λ j t, trans_upto a (λ p c, 0 ≤ p < i ∨ (p = i ∧ c < j)) t))
      as (t2 & Ht2 & HP2); [| |intros j t' Hj HP'|].
    4: { exists t2. split; [exact Ht2|].
         eapply trans_upto_ext; [|exact HP2]. simpl. intros p c Hc. lia. }
    + exact Hna.
    + eapply trans_upto_ext; [|exact HP]. simpl. intros p c Hc. lia.
    + cbv beta. rewrite (wf_alloc_rd_f a Ha) by lia. rewrite Ok_bind. cbv zeta.
      assert ((if decide (sel (e_f (sel (a_e a) i)) j ≠ -1)
               then sel (e_f (sel (a_e a) i)) j else a_n a) = delta a i j) as ->.
      { unfold delta. rewrite (decide_True (P := _ ∧ _)) by lia. cbv zeta.
        destruct (decide (sel (e_f (sel (a_e a) i)) j = -1)) as [Heq|Hne].
        - rewrite decide_False by lia. reflexivity.
        - rewrite decide_True by exact Hne. reflexivity. }
      pose proof (trans_add _ t' i j HP' ltac:(lia)) as (t'' & Ht'' & HP'').
      exists t''. split; [exact Ht''|].
      eapply trans_upto_ext; [|exact HP'']. simpl. intros p c Hc. lia.
Qed.
End transitioni.


(** ** Minimisation: the partition of the states *)

(** [partition] and [partitioni] are permutations of [0, N), each the
    inverse of the other. *)
Record perm_ok (N : Z) (p pi : list Z) : Prop := mkperm_ok
  { pm_len_p : len p = N;
    pm_len_pi : len pi = N;
    pm_p : ∀ s, 0 ≤ s < N → 0 ≤ sel p s < N ∧ sel pi (sel p s) = s;
    pm_pi : ∀ i, 0 ≤ i < N → 0 ≤ sel pi i < N ∧ sel p (sel pi i) = i }.

Lemma perm_ok_inj N p pi s s' :
  perm_ok N p pi → 0 ≤ s < N → 0 ≤ s' < N → sel p s = sel p s' → s = s'.
Proof.
  intros Hp Hs Hs' Heq.
  destruct (pm_p N p pi Hp s Hs) as [_ <-].
  destruct (pm_p N p pi Hp s' Hs') as [_ <-]. rewrite Heq. reflexivity.
Qed.

Lemma set_partitions_id h : set_partitions h (partition h) (partitioni h) = h.
Proof. destruct h; reflexivity. Qed.

(** The states [i] and [j] exchange their places. *)
Lemma swap_Ok N h i j :
  perm_ok N (partition h) (partitioni h) → 0 ≤ i < N → 0 ≤ j < N →
  ∃ p' pi',
    swap h i j = Ok (set_partitions h p' pi')
    ∧ perm_ok N p' pi'
    ∧ (∀ s, 0 ≤ s < N →
         sel p' s = if decide (s = i) then sel (partition h) j
                    else if decide (s = j) then sel (partition h) i
                    else sel (partition h) s).
Proof.
  intros Hp Hi Hj. unfold swap.
  pose proof (pm_len_p _ _ _ Hp) as Hlp. pose proof (pm_len_pi _ _ _ Hp) as Hlpi.
  destruct (decide (i = j)) as [<- | Hne].
  { exists (partition h), (partitioni h). rewrite set_partitions_id.
    split; [reflexivity|]. split; [exact Hp|].
    intros s Hs. case_decide; [subst|]; reflexivity. }
  set (p := partition h) in *. set (pi := partitioni h) in *.
  destruct (pm_p _ _ _ Hp i Hi) as [Hki Hpki]. destruct (pm_p _ _ _ Hp j Hj) as [Hkj Hpkj].
  assert (sel p i ≠ sel p j) as Hk
    by (intros Heq; apply Hne; eapply perm_ok_inj; eauto).
  rewrite bind_rd by lia. rewrite bind_rd by lia.
  rewrite bind_wr by lia. rewrite bind_wr by (rewrite length_upd; lia).
  rewrite bind_wr by lia. rewrite bind_rd by (rewrite !length_upd; lia).
  assert (sel (upd (upd p i (sel p j)) j (sel p i)) i = sel p j) as ->.
  { rewrite sel_upd_ne by lia. apply sel_upd_eq. lia. }
  rewrite bind_wr by (rewrite length_upd; lia).
  eexists _, _. split; [reflexivity|].
  assert (∀ s, 0 ≤ s < N →
            sel (upd (upd p i (sel p j)) j (sel p i)) s
            = if decide (s = i) then sel p j
              else if decide (s = j) then sel p i else sel p s) as Hp'.
  { intros s Hs. rewrite sel_upd by (rewrite ?length_upd; lia).
    destruct (decide (s = j)) as [-> | Hsj].
    - rewrite decide_False by lia. reflexivity.
    - rewrite sel_upd by lia. reflexivity. }
  assert (∀ x, 0 ≤ x < N →
            sel (upd (upd pi (sel p i) j) (sel p j) i) x
            = if decide (x = sel p j) then i
              else if decide (x = sel p i) then j else sel pi x) as Hpi'.
  { intros x Hx. rewrite sel_upd by (rewrite ?length_upd; lia).
    case_decide; [reflexivity|]. rewrite sel_upd by lia. reflexivity. }
  split; [|exact Hp'].
  split.
  - rewrite !length_upd. exact Hlp.
  - rewrite !length_upd. exact Hlpi.
  - intros s Hs. rewrite (Hp' s Hs).
    destruct (pm_p _ _ _ Hp s Hs) as [Hr Hs'].
    destruct (decide (s = i)) as [-> | Hsi].
    { split; [lia|]. rewrite Hpi' by lia. rewrite decide_True by reflexivity.
      reflexivity. }
    destruct (decide (s = j)) as [-> | Hsj].
    { split; [lia|]. rewrite Hpi' by lia. rewrite decide_False by lia.
      rewrite decide_True by reflexivity. reflexivity. }
    split; [lia|]. rewrite Hpi' by lia.
    rewrite decide_False by (intros Heq; apply Hsj; eapply perm_ok_inj; eauto).
    rewrite decide_False by (intros Heq; apply Hsi; eapply perm_ok_inj; eauto).
    exact Hs'.
  - intros x Hx. rewrite (Hpi' x Hx).
    destruct (pm_pi _ _ _ Hp x Hx) as [Hr Hx'].
    destruct (decide (x = sel p j)) as [-> | Hxj].
    { split; [lia|]. rewrite Hp' by lia. rewrite decide_True by reflexivity.
      reflexivity. }
    destruct (decide (x = sel p i)) as [-> | Hxi].
    { split; [lia|]. rewrite Hp' by lia. rewrite decide_False by lia.
      rewrite decide_True by reflexivity. reflexivity. }
    split; [lia|]. rewrite Hp' by lia.
    rewrite decide_False by (intros Heq; rewrite Heq in Hx'; congruence).
    rewrite decide_False by (intros Heq; rewrite Heq in Hx'; congruence).
    exact Hx'.
Qed.

(** The class of a state, the interval of indices of a class, the index of a
    state and the state at an index. *)
Definition cls (h : Hopcroft) (s : Z) : Z := sel (class h) s.
Definition lo (h : Hopcroft) (c : Z) : Z := (sel (class_indices h) c).1.
Definition hi (h : Hopcroft) (c : Z) : Z := (sel (class_indices h) c).2.
Definition pos (h : Hopcroft) (s : Z) : Z := sel (partition h) s.
Definition at_pos (h : Hopcroft) (i : Z) : Z := sel (partitioni h) i.

(** The classes are disjoint intervals of indices, and each state lies in
    the interval of its class. *)
Record part_ok (N : Z) (h : Hopcroft) : Prop := mkpart_ok
  { po_perm : perm_ok N (partition h) (partitioni h);
    po_len_c : len (class h) = N;
    po_len_ci : len (class_indices h) = N;
    po_nclass : 0 ≤ nclass h ≤ N;
    po_ci : ∀ c, 0 ≤ c < nclass h → 0 ≤ lo h c ≤ hi h c ∧ hi h c ≤ N ∧ lo h c < N;
    po_in : ∀ s, 0 ≤ s < N →
              0 ≤ cls h s < nclass h ∧ lo h (cls h s) ≤ pos h s < hi h (cls h s);
    po_disj : ∀ c c', 0 ≤ c < nclass h → 0 ≤ c' < nclass h → c ≠ c' →
                hi h c ≤ lo h c' ∨ hi h c' ≤ lo h c }.

Definition nonempty (h : Hopcroft) : Prop :=
  ∀ c, 0 ≤ c < nclass h → lo h c < hi h c.

Lemma class_at_pos N h c i :
  part_ok N h → 0 ≤ c < nclass h → lo h c ≤ i < hi h c →
  0 ≤ at_pos h i < N ∧ cls h (at_pos h i) = c ∧ pos h (at_pos h i) = i.
Proof.
  intros Hp Hc Hi. destruct (po_ci N h Hp c Hc) as (Hl & Hh & _).
  destruct (pm_pi _ _ _ (po_perm N h Hp) i ltac:(lia)) as [Hr Hpi].
  fold (at_pos h i) in Hr, Hpi. fold (pos h (at_pos h i)) in Hpi.
  split; [exact Hr|]. split; [|exact Hpi].
  destruct (po_in N h Hp _ Hr) as [Hc' Hin]. rewrite Hpi in Hin.
  destruct (decide (cls h (at_pos h i) = c)) as [|Hne]; [assumption|].
  destruct (po_disj N h Hp _ _ Hc' Hc Hne); lia.
Qed.

Lemma class_members N h s c :
  part_ok N h → 0 ≤ s < N → 0 ≤ c < nclass h →
  (cls h s = c ↔ lo h c ≤ pos h s < hi h c).
Proof.
  intros Hp Hs Hc. destruct (po_in N h Hp s Hs) as [Hc' Hin]. split.
  - intros <-. exact Hin.
  - intros Hi. destruct (decide (cls h s = c)) as [|Hne]; [assumption|].
    destruct (po_disj N h Hp _ _ Hc' Hc Hne); lia.
Qed.

(** There are at most [N] classes, and fewer when one of them has two
    states. *)
Lemma nclass_bound N h cp j :
  part_ok N h → nonempty h → 0 ≤ cp < nclass h → lo h cp < j < hi h cp →
  nclass h < N.
Proof.
  intros Hp Hne Hcp Hj. pose proof (po_nclass N h Hp) as Hn.
  enough (nclass h + 1 ≤ N) by lia.
  apply (injection_bound (λ c, if decide (c = nclass h) then j else lo h c));
    [lia | lia | |].
  - intros c Hc. case_decide.
    + destruct (po_ci N h Hp cp Hcp). lia.
    + destruct (po_ci N h Hp c ltac:(lia)). lia.
  - assert (∀ c, 0 ≤ c < nclass h → lo h c ≠ j) as Hfresh.
    { intros c Hc Heq. destruct (decide (c = cp)) as [-> | Hd]; [lia|].
      pose proof (Hne c Hc). pose proof (Hne cp Hcp).
      destruct (po_disj N h Hp c cp Hc Hcp Hd); lia. }
    intros c c' Hc Hc'. repeat case_decide; subst; try lia.
    + intros Heq. symmetry in Heq. apply Hfresh in Heq; [contradiction | lia].
    + intros Heq. apply Hfresh in Heq; [contradiction | lia].
    + intros Heq. destruct (decide (c = c')) as [|Hd]; [assumption|].
      pose proof (Hne c ltac:(lia)). pose proof (Hne c' ltac:(lia)).
      destruct (po_disj N h Hp c c' ltac:(lia) ltac:(lia) Hd); lia.
Qed.

(** The fields of a state of the minimisation after an assignment. *)
Ltac hsimpl :=
  cbn [partition partitioni class class_indices nclass transitioni L nL
       pt_visited_class visited_class etats set_partitions set_class
       set_class_indices set_nclass set_transitioni set_L set_pt_visited_class
       set_visited_class set_etats fst snd] in *.


(** ** Minimisation: the states of the inverse image move to the front *)

(** What the first half of [split] leaves alone. *)
Definition same_classes (h0 h : Hopcroft) : Prop :=
  class h = class h0 ∧ class_indices h = class_indices h0
  ∧ nclass h = nclass h0 ∧ L h = L h0 ∧ nL h = nL h0
  ∧ transitioni h = transitioni h0 ∧ etats h = etats h0.

(** In the middle of the first half of [split]: [D] holds of the states met
    so far, which are those in front of [pt_visited_class] in their class;
    the classes met are the first [nrc] cells of [visited_class]. *)
Record moving (N : Z) (h0 : Hopcroft) (D : Z → Prop) (h : Hopcroft) (nrc : Z)
    : Prop := mkmoving
  { mv_same : same_classes h0 h;
    mv_part : part_ok N h;
    mv_len_pt : len (pt_visited_class h) = N;
    mv_len_v : len (visited_class h) = N;
    mv_nrc : 0 ≤ nrc;
    mv_vis : ∀ m, 0 ≤ m < nrc → 0 ≤ sel (visited_class h) m < nclass h;
    mv_inj : ∀ m m', 0 ≤ m < nrc → 0 ≤ m' < nrc →
               sel (visited_class h) m = sel (visited_class h) m' → m = m';
    mv_pt : ∀ c, 0 ≤ c < nclass h →
              (sel (pt_visited_class h) c = 0
               ∧ ∀ m, 0 ≤ m < nrc → sel (visited_class h) m ≠ c)
              ∨ (lo h c ≤ sel (pt_visited_class h) c ≤ hi h c
                 ∧ ∃ m, 0 ≤ m < nrc ∧ sel (visited_class h) m = c);
    mv_pt_hi : ∀ c, nclass h ≤ c < N → sel (pt_visited_class h) c = 0;
    mv_done : ∀ s, 0 ≤ s < N → (pos h s < sel (pt_visited_class h) (cls h s) ↔ D s) }.

(** A class that was met has a state in front. *)
Definition marked (h : Hopcroft) (nrc : Z) : Prop :=
  ∀ m, 0 ≤ m < nrc →
    lo h (sel (visited_class h) m)
    < sel (pt_visited_class h) (sel (visited_class h) m).

Lemma moving_ext N h0 (D D' : Z → Prop) h nrc :
  (∀ s, 0 ≤ s < N → D s ↔ D' s) → moving N h0 D h nrc → moving N h0 D' h nrc.
Proof.
  intros HD [].
  split; try assumption. intros s Hs. rewrite <- (HD s Hs). auto.
Qed.

Lemma moving_lo N h0 D h nrc c : moving N h0 D h nrc → lo h c = lo h0 c.
Proof. intros Hm. destruct (mv_same _ _ _ _ _ Hm) as (_ & Hci & _). unfold lo. rewrite Hci. reflexivity. Qed.

Section moving_steps.
Context (N : Z) (h0 : Hopcroft).

(** The class [cp] is met for the first time. *)
Lemma first_visit D h nrc cp :
  moving N h0 D h nrc → marked h nrc → 0 ≤ cp < nclass h →
  sel (pt_visited_class h) cp = 0 →
  nrc < N
  ∧ let h1 := set_pt_visited_class
                (set_visited_class h (upd (visited_class h) nrc cp))
                (upd (pt_visited_class h) cp (lo h cp)) in
    moving N h0 D h1 (nrc + 1)
    ∧ (∀ m, 0 ≤ m < nrc →
         lo h1 (sel (visited_class h1) m)
         < sel (pt_visited_class h1) (sel (visited_class h1) m))
    ∧ sel (visited_class h1) nrc = cp.
Proof.
  intros Hm Hmk Hcp Hpt. destruct Hm.
  pose proof (po_nclass N h mv_part0) as Hnc.
  assert (∀ m, 0 ≤ m < nrc → sel (visited_class h) m ≠ cp) as Hfresh.
  { intros m Hm Heq. specialize (Hmk m Hm). rewrite Heq, Hpt in Hmk.
    destruct (po_ci N h mv_part0 cp Hcp). lia. }
  assert (nrc + 1 ≤ nclass h) as Hnrc.
  { apply (injection_bound
             (λ m, if decide (m = nrc) then cp else sel (visited_class h) m));
      [lia | lia | |].
    - intros m Hm. case_decide; [lia|]. apply mv_vis0. lia.
    - intros m m' Hm Hm'. repeat case_decide; subst; try lia.
      + intros Heq. symmetry in Heq. apply Hfresh in Heq; [contradiction | lia].
      + intros Heq. apply Hfresh in Heq; [contradiction | lia].
      + apply mv_inj0; lia. }
  split; [lia|]. cbv zeta.
  destruct (po_ci N h mv_part0 cp Hcp) as (Hlo & Hhi & _).
  assert (∀ m, 0 ≤ m < nrc + 1 →
            sel (upd (visited_class h) nrc cp) m
            = if decide (m = nrc) then cp else sel (visited_class h) m) as Hv.
  { intros m Hm. apply sel_upd; lia. }
  assert (∀ c, 0 ≤ c < N →
            sel (upd (pt_visited_class h) cp (lo h cp)) c
            = if decide (c = cp) then lo h cp else sel (pt_visited_class h) c) as Hp.
  { intros c Hc. apply sel_upd; lia. }
  split; [split|split]; hsimpl.
  - exact mv_same0.
  - destruct mv_part0. split; assumption.
  - rewrite length_upd. exact mv_len_pt0.
  - rewrite length_upd. exact mv_len_v0.
  - lia.
  - intros m Hm. rewrite Hv by lia. case_decide; [lia|]. apply mv_vis0. lia.
  - intros m m' Hm Hm'. rewrite !Hv by lia. repeat case_decide; subst; try lia.
    + intros Heq. symmetry in Heq. apply Hfresh in Heq; [contradiction | lia].
    + intros Heq. apply Hfresh in Heq; [contradiction | lia].
    + apply mv_inj0; lia.
  - intros c Hc. rewrite Hp by lia. unfold lo, hi in *. hsimpl.
    destruct (decide (c = cp)) as [-> | Hne].
    + right. split; [lia|]. exists nrc. split; [lia|]. rewrite Hv by lia.
      rewrite decide_True by reflexivity. reflexivity.
    + destruct (mv_pt0 c Hc) as [[H0 Hnv] | [Hr (m & Hm & Hvm)]].
      * left. split; [exact H0|]. intros m Hm. rewrite Hv by lia.
        case_decide; [congruence|]. apply Hnv. lia.
      * right. split; [exact Hr|]. exists m. split; [lia|]. rewrite Hv by lia.
        rewrite decide_False by lia. exact Hvm.
  - intros c Hc. rewrite Hp by lia. rewrite decide_False by lia. apply mv_pt_hi0, Hc.
  - intros s Hs. unfold pos, cls in *. hsimpl.
    destruct (po_in N h mv_part0 s Hs) as [Hcs Hin]. unfold cls, pos, lo in *.
    rewrite Hp by lia. rewrite <- (mv_done0 s Hs).
    destruct (decide (sel (class h) s = cp)) as [Heq | Hne]; [|reflexivity].
    rewrite Heq in *. rewrite Hpt. lia.
  - intros m Hm. rewrite Hv by lia. rewrite decide_False by lia.
    rewrite Hp by (specialize (mv_vis0 m Hm); lia).
    rewrite decide_False by (apply Hfresh; lia). apply (Hmk m Hm).
  - rewrite Hv by lia. rewrite decide_True by reflexivity. reflexivity.
Qed.

(** The state [p] goes to the first place of its class that is not taken. *)
Lemma move_front D h nrc p :
  moving N h0 D h nrc → 0 ≤ p < N →
  (∃ m, 0 ≤ m < nrc ∧ sel (visited_class h) m = cls h p) →
  sel (pt_visited_class h) (cls h p) ≤ pos h p →
  ∃ h2,
    swap h (at_pos h (sel (pt_visited_class h) (cls h p))) p = Ok h2
    ∧ pt_visited_class h2 = pt_visited_class h
    ∧ visited_class h2 = visited_class h
    ∧ moving N h0 (λ s, D s ∨ s = p)
        (set_pt_visited_class h2
           (upd (pt_visited_class h) (cls h p)
              (sel (pt_visited_class h) (cls h p) + 1))) nrc.
Proof.
  intros Hm Hp Hvis Hle. destruct Hm.
  set (cp := cls h p) in *. set (ep := sel (pt_visited_class h) cp) in *.
  destruct (po_in N h mv_part0 p Hp) as [Hcp Hin]. fold cp in Hcp, Hin.
  destruct (po_ci N h mv_part0 cp Hcp) as (Hlo & Hhi & _).
  assert (lo h cp ≤ ep ≤ hi h cp) as Hep.
  { destruct (mv_pt0 cp Hcp) as [[_ Hnv] | [Hr _]]; [|exact Hr].
    destruct Hvis as (m & Hm & Hvm). exfalso. exact (Hnv m Hm Hvm). }
  destruct (class_at_pos N h cp ep mv_part0 Hcp ltac:(lia)) as (Hq & Hqc & Hqp).
  set (q := at_pos h ep) in *.
  destruct (swap_Ok N h q p (po_perm N h mv_part0) Hq Hp) as (p' & pi' & Hsw & Hperm & Hp').
  exists (set_partitions h p' pi'). split; [exact Hsw|]. split; [reflexivity|].
  split; [reflexivity|].
  pose proof (po_nclass N h mv_part0) as Hnc.
  assert (∀ c, 0 ≤ c < N →
            sel (upd (pt_visited_class h) cp (ep + 1)) c
            = if decide (c = cp) then ep + 1 else sel (pt_visited_class h) c) as Hpt.
  { intros c Hc. apply sel_upd; lia. }
  assert (∀ s, 0 ≤ s < N →
            sel p' s = if decide (s = p) then ep
                       else if decide (s = q) then pos h p else pos h s) as Hpos.
  { intros s Hs. rewrite (Hp' s Hs).
    change (sel (partition h) q) with (pos h q). rewrite Hqp.
    change (sel (partition h) p) with (pos h p).
    change (sel (partition h) s) with (pos h s).
    destruct (decide (s = q)) as [Hsq | Hsq], (decide (s = p)) as [Hsp | Hsp];
      try reflexivity.
    rewrite <- Hsp, Hsq. exact Hqp. }
  split; hsimpl.
  - exact mv_same0.
  - pose proof mv_part0 as [Hpm Hlc Hlci Hncl Hci Hin' Hdisj].
    split; hsimpl; try assumption.
    intros s Hs. destruct (Hin' s Hs) as [Hcs Hins]. split; [exact Hcs|].
    unfold pos, cls, lo, hi in *. hsimpl. rewrite (Hpos s Hs).
    destruct (decide (s = p)) as [-> | Hsp]; [fold cp; lia|].
    destruct (decide (s = q)) as [-> | Hsq]; [|exact Hins].
    rewrite Hqc. lia.
  - rewrite length_upd. exact mv_len_pt0.
  - exact mv_len_v0.
  - exact mv_nrc0.
  - exact mv_vis0.
  - exact mv_inj0.
  - intros c Hc. rewrite Hpt by lia. unfold lo, hi in *. hsimpl.
    destruct (decide (c = cp)) as [-> | Hne].
    + right. split; [lia|]. exact Hvis.
    + apply mv_pt0, Hc.
  - intros c Hc. rewrite Hpt by lia. rewrite decide_False by lia. apply mv_pt_hi0, Hc.
  - intros s Hs. unfold pos, cls. hsimpl. rewrite (Hpos s Hs).
    destruct (po_in N h mv_part0 s Hs) as [Hcs Hins]. fold (cls h s).
    rewrite Hpt by lia. pose proof (mv_done0 s Hs) as Hd.
    pose proof (mv_done0 p Hp) as Hdp. fold cp ep in Hdp.
    destruct (decide (s = p)) as [-> | Hsp].
    { fold cp. rewrite decide_True by reflexivity. split; [auto | lia]. }
    destruct (decide (s = q)) as [-> | Hsq].
    { rewrite Hqc, decide_True by reflexivity. rewrite Hqc, Hqp in Hd. fold ep in Hd.
      assert (pos h p ≠ ep).
      { intros Heq'. apply Hsp. rewrite <- Hqp in Heq'. unfold pos in Heq'. symmetry.
        eapply (perm_ok_inj N); [apply (po_perm N h mv_part0) | lia | lia | exact Heq']. }
      split; [lia|]. intros [HD | ?]; [apply Hd in HD; lia | contradiction]. }
    destruct (decide (cls h s = cp)) as [Heq | Hne].
    + rewrite Heq in Hd. fold ep in Hd.
      assert (pos h s ≠ ep).
      { intros Heq'. apply Hsq. rewrite <- Hqp in Heq'. unfold pos in Heq'.
        eapply (perm_ok_inj N); [apply (po_perm N h mv_part0) | lia | lia | exact Heq']. }
      split; [intros; left; apply Hd; lia|]. intros [HD | ?]; [|contradiction].
      apply Hd in HD. lia.
    + rewrite Hd. split; [auto|]. intros [HD | ?]; [exact HD | contradiction].
Qed.

(** One predecessor [p] of a state of the class against which [split]
    refines. *)
Lemma move_step D h nrc p :
  moving N h0 D h nrc → marked h nrc → 0 ≤ p < N →
  ∃ h' nrc',
    (cp ← rd (class h) p;
     pt ← rd (pt_visited_class h) cp;
     '(h, nrc) ← (if decide (pt = 0)
                  then
                    v ← wr (visited_class h) nrc cp;
                    '(lcp, _) ← rd (class_indices h) cp;
                    pv ← wr (pt_visited_class h) cp lcp;
                    Ok (set_pt_visited_class (set_visited_class h v) pv, nrc + 1)
                  else Ok (h, nrc));
     ep ← rd (pt_visited_class h) cp;
     pp ← rd (partition h) p;
     if decide (pp < ep) then Ok (h, nrc)
     else
       ep' ← rd (partitioni h) ep;
       h ← swap h ep' p;
       pt ← rd (pt_visited_class h) cp;
       pv ← wr (pt_visited_class h) cp (pt + 1);
       Ok (set_pt_visited_class h pv, nrc))
    = Ok (h', nrc')
    ∧ moving N h0 (λ s, D s ∨ s = p) h' nrc' ∧ marked h' nrc'.
Proof.
  intros Hm Hmk Hp. pose proof Hm as [].
  pose proof mv_part0 as [Hpm Hlc Hlci Hncl Hci Hin' Hdisj].
  pose proof (pm_len_p _ _ _ Hpm) as Hlp. pose proof (pm_len_pi _ _ _ Hpm) as Hlpi.
  destruct (Hin' p Hp) as [Hcp Hin]. destruct (Hci _ Hcp) as (Hlo & Hhi & HloN).
  rewrite bind_rd by lia. fold (cls h p). set (cp := cls h p) in *.
  rewrite bind_rd by lia.
  destruct (decide (sel (pt_visited_class h) cp = 0)) as [H0 | Hn0].
  - destruct (first_visit D h nrc cp Hm Hmk Hcp H0) as (Hnrc & Hm1 & Hmk1 & Hv1).
    cbv zeta in Hm1, Hmk1, Hv1.
    rewrite bind_wr by lia. rewrite bind_rd by lia.
    assert (lo h cp = (sel (class_indices h) cp).1) as Hlcp by reflexivity.
    destruct (sel (class_indices h) cp) as [lcp hcp]. hsimpl.
    rewrite Hlcp in *.
    rewrite bind_wr by lia. rewrite Ok_bind. cbv beta iota.
    set (h1 := set_pt_visited_class
                 (set_visited_class h (upd (visited_class h) nrc cp))
                 (upd (pt_visited_class h) cp lcp)) in *.
    assert (sel (pt_visited_class h1) cp = lcp) as Hep
      by (unfold h1; hsimpl; apply sel_upd_eq; lia).
    rewrite bind_rd by (unfold h1; hsimpl; rewrite length_upd; lia).
    rewrite Hep. rewrite bind_rd by (unfold h1; hsimpl; lia).
    change (sel (partition h1) p) with (pos h p).
    rewrite decide_False by lia.
    rewrite bind_rd by (unfold h1; hsimpl; lia).
    destruct (move_front D h1 (nrc + 1) p Hm1 Hp) as (h2 & Hsw & Hpt2 & Hv2 & Hm2).
    { exists nrc. split; [lia | exact Hv1]. }
    { change (cls h1 p) with cp. rewrite Hep. change (pos h1 p) with (pos h p). lia. }
    change (cls h1 p) with cp in Hsw, Hm2. rewrite Hep in Hsw, Hm2.
    change (sel (partitioni h1) lcp) with (at_pos h1 lcp). rewrite Hsw, Ok_bind.
    rewrite Hpt2.
    rewrite bind_rd by (unfold h1; hsimpl; rewrite length_upd; lia).
    rewrite Hep. rewrite bind_wr by (unfold h1; hsimpl; rewrite length_upd; lia).
    eexists _, _. split; [reflexivity|]. split; [exact Hm2|].
    intros m Hm'. rewrite (moving_lo _ _ _ _ _ _ Hm2), <- (moving_lo _ _ _ _ _ _ Hm1).
    hsimpl. rewrite Hv2.
    pose proof (mv_vis _ _ _ _ _ Hm1 m Hm') as Hvm.
    pose proof (mv_len_pt _ _ _ _ _ Hm1) as Hl1.
    pose proof (po_nclass _ _ (mv_part _ _ _ _ _ Hm1)) as Hn1.
    rewrite sel_upd by lia. case_decide as Hvc.
    { rewrite Hvc. change (lo h1 cp) with (lo h cp). rewrite Hlcp. lia. }
    destruct (decide (m = nrc)) as [-> | Hmn]; [exfalso; apply Hvc; exact Hv1|].
    apply Hmk1. lia.
  - rewrite Ok_bind. cbv beta iota. rewrite bind_rd by lia. rewrite bind_rd by lia.
    change (sel (partition h) p) with (pos h p).
    set (ep := sel (pt_visited_class h) cp) in *.
    destruct (mv_pt0 cp Hcp) as [[H0 _] | [Hep Hvis]]; [contradiction|].
    destruct (decide (pos h p < ep)) as [Hlt | Hge].
    + exists h, nrc. split; [reflexivity|]. split; [|exact Hmk].
      eapply moving_ext; [|exact Hm]. intros s Hs. split; [auto|].
      intros [HD | ->]; [exact HD|]. apply mv_done0; [exact Hp|]. exact Hlt.
    + rewrite bind_rd by lia.
      destruct (move_front D h nrc p Hm Hp Hvis) as (h2 & Hsw & Hpt2 & Hv2 & Hm2).
      { fold cp ep. lia. }
      fold cp ep in Hsw, Hm2.
      change (sel (partitioni h) ep) with (at_pos h ep). rewrite Hsw, Ok_bind.
      rewrite Hpt2. rewrite bind_rd by lia. fold ep.
      rewrite bind_wr by lia.
      eexists _, _. split; [reflexivity|]. split; [exact Hm2|].
      intros m Hm'. rewrite (moving_lo _ _ _ _ _ _ Hm2), <- (moving_lo _ _ _ _ _ _ Hm).
      hsimpl. rewrite Hv2.
      pose proof (mv_vis0 m Hm') as Hvm.
      rewrite sel_upd by lia. case_decide as Hvc; [|apply Hmk, Hm'].
      rewrite Hvc. lia.
Qed.
End moving_steps.


(** The states of the class are copied into [etats]. *)
Lemma copy_class (pi et : list Z) (l hi : Z) :
  0 ≤ l ≤ hi → hi ≤ len pi → len et = len pi →
  ∃ et',
    for_ (seqZ l (hi - l)) (λ i et, e ← rd pi i; wr et i e) et = Ok et'
    ∧ len et' = len et
    ∧ ∀ i, l ≤ i < hi → sel et' i = sel pi i.
Proof.
  intros Hl Hhi Hlen.
  edestruct (for_seqZ_inv
               (λ i et', len et' = len et ∧ ∀ i', l ≤ i' < i → sel et' i' = sel pi i'))
    as (et' & Het' & Hle & HP); [| |intros i et' Hi [Hle HP]|].
  4: { exists et'. split; [exact Het'|]. split; [exact Hle|].
       intros i Hi. apply HP. lia. }
  - lia.
  - split; [reflexivity|]. intros i' Hi'. lia.
  - cbv beta. rewrite bind_rd by lia. rewrite wr_upd by lia.
    eexists. split; [reflexivity|]. split; [rewrite length_upd; exact Hle|].
    intros i' Hi'. rewrite sel_upd by lia. case_decide; [congruence|].
    apply HP. lia.
Qed.

Section move_loops.
Context (a : Automaton) (Ha : wf_alloc a).
Local Abbreviation N := (a_n a + 1).
Context (h0 : Hopcroft) (c0 : Z) (Hc0 : 0 ≤ c0 < a_na a).
Context (Htr : trans_ok a (transitioni h0)).

(** The predecessors on letter [c0] of one state [e]. *)
Lemma move_predecessors (D : Z → Prop) h nrc e :
  moving N h0 D h nrc → marked h nrc → 0 ≤ e < N →
  ∃ h' nrc',
    (te ← rd (transitioni h) e;
     pre ← rd te c0;
     for_ (seqZ 0 (d_n pre)) (λ j '(h, nrc),
       p ← rd pre j;
       cp ← rd (class h) p;
       pt ← rd (pt_visited_class h) cp;
       '(h, nrc) ← (if decide (pt = 0)
                    then
                      v ← wr (visited_class h) nrc cp;
                      '(lcp, _) ← rd (class_indices h) cp;
                      pv ← wr (pt_visited_class h) cp lcp;
                      Ok (set_pt_visited_class (set_visited_class h v) pv, nrc + 1)
                    else Ok (h, nrc));
       ep ← rd (pt_visited_class h) cp;
       pp ← rd (partition h) p;
       if decide (pp < ep) then Ok (h, nrc)
       else
         ep' ← rd (partitioni h) ep;
         h ← swap h ep' p;
         pt ← rd (pt_visited_class h) cp;
         pv ← wr (pt_visited_class h) cp (pt + 1);
         Ok (set_pt_visited_class h pv, nrc)) (h, nrc))
    = Ok (h', nrc')
    ∧ moving N h0 (λ s, D s ∨ delta a s c0 = e) h' nrc' ∧ marked h' nrc'.
Proof.
  intros Hm Hmk He.
  destruct (mv_same _ _ _ _ _ Hm) as (_ & _ & _ & _ & _ & Ht & _).
  destruct Htr as [Hlt Hrows]. destruct (Hrows e ltac:(lia)) as [Hrow Hpre].
  specialize (Hpre c0 Hc0). rewrite Ht.
  rewrite bind_rd by lia. rewrite bind_rd by lia.
  set (pre := sel (sel (transitioni h0) e) c0) in *.
  edestruct (for_seqZ_inv
               (λ j (st : Hopcroft * Z),
                  moving N h0 (λ s, D s ∨ ∃ j', 0 ≤ j' < j ∧ sel pre j' = s) st.1 st.2
                  ∧ marked st.1 st.2))
    as ([h' nrc'] & Hrun & Hm' & Hmk'); [| |intros j [h1 nrc1] Hj [Hm1 Hmk1]|].
  4: { exists h', nrc'. split; [exact Hrun|]. split; [|exact Hmk'].
       eapply moving_ext; [|exact Hm']. intros s Hs. simpl.
       assert ((∃ j', 0 ≤ j' < 0 + d_n pre ∧ sel pre j' = s) ↔ delta a s c0 = e)
         as ->; [|reflexivity].
       unfold d_n. split.
       - intros (j' & Hj' & Hs'). apply (Hpre s). apply sel_elem_of.
         exists j'. split; [lia | exact Hs'].
       - intros Hd. assert (s ∈ pre) as Hin by (apply Hpre; split; [lia | exact Hd]).
         apply sel_elem_of in Hin as (k & Hk & Hsk). exists k. split; [lia | exact Hsk]. }
  - unfold d_n. lia.
  - simpl. split; [|exact Hmk]. eapply moving_ext; [|exact Hm].
    intros s Hs. split; [auto|]. intros [HD | (j' & Hj' & _)]; [exact HD | lia].
  - cbv beta iota. simpl in Hm1, Hmk1. unfold d_n in Hj.
    rewrite bind_rd by lia.
    assert (0 ≤ sel pre j < N) as Hp.
    { assert (sel pre j ∈ pre) as Hin
        by (apply sel_elem_of; exists j; split; [lia | reflexivity]).
      apply Hpre in Hin. lia. }
    destruct (move_step N h0 _ h1 nrc1 (sel pre j) Hm1 Hmk1 Hp)
      as (h2 & nrc2 & Hrun & Hm2 & Hmk2).
    exists (h2, nrc2). split; [exact Hrun|]. simpl. split; [|exact Hmk2].
    eapply moving_ext; [|exact Hm2]. intros s Hs. simpl. split.
    + intros [[HD | (j' & Hj' & Hs')] | ->]; [auto | |].
      * right. exists j'. split; [lia | exact Hs'].
      * right. exists j. split; [lia | reflexivity].
    + intros [HD | (j' & Hj' & Hs')]; [auto|].
      destruct (decide (j' = j)) as [-> | Hne]; [right; auto|].
      left. right. exists j'. split; [lia | exact Hs'].
Qed.

(** The first half of [split]: the states whose transition on [c0] leads
    into the states listed in [etats] between [l] and [hi]. *)
Lemma move_class h nrc l hi :
  moving N h0 (λ _, False) h nrc → marked h nrc →
  0 ≤ l ≤ hi → hi ≤ N → len (etats h0) = N →
  (∀ i, l ≤ i < hi → 0 ≤ sel (etats h0) i < N) →
  ∃ h' nrc',
    for_ (seqZ l (hi - l)) (λ i '(h, nrc),
      e ← rd (etats h) i;
      te ← rd (transitioni h) e;
      pre ← rd te c0;
      for_ (seqZ 0 (d_n pre)) (λ j '(h, nrc),
        p ← rd pre j;
        cp ← rd (class h) p;
        pt ← rd (pt_visited_class h) cp;
        '(h, nrc) ← (if decide (pt = 0)
                     then
                       v ← wr (visited_class h) nrc cp;
                       '(lcp, _) ← rd (class_indices h) cp;
                       pv ← wr (pt_visited_class h) cp lcp;
                       Ok (set_pt_visited_class (set_visited_class h v) pv, nrc + 1)
                     else Ok (h, nrc));
        ep ← rd (pt_visited_class h) cp;
        pp ← rd (partition h) p;
        if decide (pp < ep) then Ok (h, nrc)
        else
          ep' ← rd (partitioni h) ep;
          h ← swap h ep' p;
          pt ← rd (pt_visited_class h) cp;
          pv ← wr (pt_visited_class h) cp (pt + 1);
          Ok (set_pt_visited_class h pv, nrc)) (h, nrc)) (h, nrc)
    = Ok (h', nrc')
    ∧ moving N h0 (λ s, ∃ i, l ≤ i < hi ∧ delta a s c0 = sel (etats h0) i) h' nrc'
    ∧ marked h' nrc'.
Proof.
  intros Hm Hmk Hl Hhi Hlet Het.
  edestruct (for_seqZ_inv
               (λ i (st : Hopcroft * Z),
                  moving N h0 (λ s, ∃ i', l ≤ i' < i ∧ delta a s c0 = sel (etats h0) i')
                    st.1 st.2
                  ∧ marked st.1 st.2))
    as ([h' nrc'] & Hrun & Hm' & Hmk'); [| |intros i [h1 nrc1] Hi [Hm1 Hmk1]|].
  4: { exists h', nrc'. split; [exact Hrun|]. split; [|exact Hmk'].
       eapply moving_ext; [|exact Hm']. intros s Hs. simpl. split.
       - intros (i & Hi & Hd). exists i. split; [lia | exact Hd].
       - intros (i & Hi & Hd). exists i. split; [lia | exact Hd]. }
  - lia.
  - simpl. split; [|exact Hmk]. eapply moving_ext; [|exact Hm].
    intros s Hs. split; [tauto|]. intros (i' & Hi' & _). lia.
  - cbv beta iota. simpl in Hm1, Hmk1.
    destruct (mv_same _ _ _ _ _ Hm1) as (_ & _ & _ & _ & _ & _ & Hetats).
    rewrite Hetats. rewrite bind_rd by lia.
    destruct (move_predecessors _ h1 nrc1 (sel (etats h0) i) Hm1 Hmk1)
      as (h2 & nrc2 & Hrun & Hm2 & Hmk2); [apply Het; lia|].
    exists (h2, nrc2). split; [exact Hrun|]. simpl. split; [|exact Hmk2].
    eapply moving_ext; [|exact Hm2]. intros s Hs. simpl. split.
    + intros [(i' & Hi' & Hd) | Hd].
      * exists i'. split; [lia | exact Hd].
      * exists i. split; [lia | exact Hd].
    + intros (i' & Hi' & Hd). destruct (decide (i' = i)) as [-> | Hne]; [auto|].
      left. exists i'. split; [lia | exact Hd].
Qed.
End move_loops.


(** ** Minimisation: the new classes *)

(** The states at the indices from [nl] to [nh] receive the class [nc]. *)
Lemma relabel N (p pi c : list Z) (nl nh nc : Z) :
  perm_ok N p pi → len c = N → 0 ≤ nl ≤ nh → nh ≤ N →
  ∃ c',
    for_ (seqZ nl (nh - nl)) (λ j c, e ← rd pi j; wr c e nc) c = Ok c'
    ∧ len c' = N
    ∧ ∀ s, 0 ≤ s < N →
        sel c' s = if decide (nl ≤ sel p s < nh) then nc else sel c s.
Proof.
  intros Hp Hlc Hnl Hnh.
  pose proof (pm_len_pi _ _ _ Hp) as Hlpi.
  edestruct (for_seqZ_inv
               (λ i c', len c' = N
                        ∧ ∀ s, 0 ≤ s < N →
                            sel c' s = if decide (nl ≤ sel p s < i) then nc else sel c s))
    as (c' & Hc' & Hl' & HP); [| |intros i c' Hi [Hl' HP]|].
  4: { exists c'. split; [exact Hc'|]. split; [exact Hl'|].
       intros s Hs. rewrite (HP s Hs). repeat case_decide; try reflexivity; lia. }
  - lia.
  - split; [exact Hlc|]. intros s Hs. rewrite decide_False by lia. reflexivity.
  - cbv beta. rewrite bind_rd by lia.
    destruct (pm_pi _ _ _ Hp i ltac:(lia)) as [Hr Hpi].
    rewrite wr_upd by lia. eexists. split; [reflexivity|].
    split; [rewrite length_upd; exact Hl'|].
    intros s Hs. rewrite sel_upd by lia. rewrite (HP s Hs).
    destruct (pm_p _ _ _ Hp s Hs) as [Hrs Hps].
    destruct (decide (s = sel pi i)) as [-> | Hne].
    + rewrite Hpi. rewrite decide_True by lia. reflexivity.
    + assert (sel p s ≠ i) by (intros Heq; rewrite Heq in Hps; congruence).
      repeat case_decide; try reflexivity; lia.
Qed.

Section splitting_steps.
Context (N : Z) (h2 : Hopcroft) (nrc : Z).
Context (Hpart2 : part_ok N h2).
Context (Hvis : ∀ m, 0 ≤ m < nrc → 0 ≤ sel (visited_class h2) m < nclass h2).
Context (Hinj : ∀ m m', 0 ≤ m < nrc → 0 ≤ m' < nrc →
                  sel (visited_class h2) m = sel (visited_class h2) m' → m = m').
Context (Hmk : marked h2 nrc).
Context (Hpt_le : ∀ m, 0 ≤ m < nrc →
                    sel (pt_visited_class h2) (sel (visited_class h2) m)
                    ≤ hi h2 (sel (visited_class h2) m)).
Context (HnL : 0 ≤ nL h2 < nclass h2).

(** The states that the first half of [split] has put in front. *)
Definition in_front (s : Z) : Prop :=
  pos h2 s < sel (pt_visited_class h2) (cls h2 s).

(** Before the [k]-th class met is looked at. *)
Record splitting (k : Z) (h : Hopcroft) : Prop := mksplitting
  { sp_p : partition h = partition h2;
    sp_pi : partitioni h = partitioni h2;
    sp_v : visited_class h = visited_class h2;
    sp_t : transitioni h = transitioni h2;
    sp_e : etats h = etats h2;
    sp_part : part_ok N h;
    sp_ne : nonempty h;
    sp_len_pt : len (pt_visited_class h) = N;
    sp_len_L : len (L h) = N;
    sp_nclass : nclass h2 ≤ nclass h;
    sp_nL : nL h - nL h2 = nclass h - nclass h2;
    sp_L_old : ∀ m, 0 ≤ m < nL h2 → sel (L h) m = sel (L h2) m;
    sp_L_new : ∀ m, nL h2 ≤ m < nL h → sel (L h) m = nclass h2 + (m - nL h2);
    sp_todo : ∀ m, k ≤ m < nrc →
                sel (pt_visited_class h) (sel (visited_class h2) m)
                = sel (pt_visited_class h2) (sel (visited_class h2) m)
                ∧ sel (class_indices h) (sel (visited_class h2) m)
                  = sel (class_indices h2) (sel (visited_class h2) m)
                ∧ ∀ s, 0 ≤ s < N → cls h2 s = sel (visited_class h2) m →
                    cls h s = sel (visited_class h2) m;
    sp_rest : ∀ c, 0 ≤ c < N → (∀ m, k ≤ m < nrc → sel (visited_class h2) m ≠ c) →
               sel (pt_visited_class h) c = 0;
    sp_old : ∀ s, 0 ≤ s < N → cls h s = cls h2 s ∨ nclass h2 ≤ cls h s;
    sp_eq : ∀ s t, 0 ≤ s < N → 0 ≤ t < N →
              (cls h s = cls h t
               ↔ cls h2 s = cls h2 t
                 ∧ ((∃ m, 0 ≤ m < k ∧ sel (visited_class h2) m = cls h2 s) →
                    (in_front s ↔ in_front t))) }.

(** The class [cp], the [k]-th met, is all in front: nothing changes. *)
Lemma keep_class k h :
  splitting k h → 0 ≤ k < nrc →
  sel (pt_visited_class h2) (sel (visited_class h2) k)
  = hi h2 (sel (visited_class h2) k) →
  splitting (k + 1)
    (set_pt_visited_class h (upd (pt_visited_class h) (sel (visited_class h2) k) 0)).
Proof.
  intros Hs Hk Hj.
  destruct Hs as [Hp_ Hpi_ Hv_ Ht_ He_ Hpart Hnonempty Hlpt HlL Hncl HnL' HLold HLnew
                  Htodo Hrest Hold Hsame].
  set (cp := sel (visited_class h2) k) in *.
  pose proof (Hvis k Hk) as Hcp. fold cp in Hcp.
  pose proof (po_nclass N h2 Hpart2) as Hn2.
  assert (∀ c, 0 ≤ c < N →
            sel (upd (pt_visited_class h) cp 0) c
            = if decide (c = cp) then 0 else sel (pt_visited_class h) c) as Hpt.
  { intros c Hc. apply sel_upd; lia. }
  split; hsimpl; try assumption.
  - destruct Hpart. split; hsimpl; assumption.
  - rewrite length_upd. exact Hlpt.
  - intros m Hm. rewrite Hpt by (specialize (Hvis m ltac:(lia)); lia).
    rewrite decide_False by (intros Heq; apply Hinj in Heq; lia).
    apply Htodo. lia.
  - intros c Hc Hnv. rewrite Hpt by lia. case_decide; [reflexivity|].
    apply Hrest; [lia|]. intros m Hm. destruct (decide (m = k)) as [-> | Hne].
    + fold cp. congruence.
    + apply Hnv. lia.
  - intros s t Hs Ht.
    change (cls (set_pt_visited_class h _) s) with (cls h s).
    change (cls (set_pt_visited_class h _) t) with (cls h t).
    rewrite (Hsame s t Hs Ht). split; intros [Hc Hx]; (split; [exact Hc|]).
    + intros (m & Hm & Hvm). destruct (decide (m = k)) as [-> | Hne].
      * fold cp in Hvm.
        destruct (po_in N h2 Hpart2 s Hs) as [_ Hins].
        destruct (po_in N h2 Hpart2 t Ht) as [_ Hint].
        rewrite <- Hc in Hint. rewrite <- Hvm in Hins, Hint.
        unfold in_front. rewrite <- Hc, <- Hvm, Hj. lia.
      * apply Hx. exists m. split; [lia | exact Hvm].
    + intros (m & Hm & Hvm). apply Hx. exists m. split; [lia | exact Hvm].
Qed.
(** The class [cp], the [k]-th met, is cut at [j]: the interval [A] stays
    [cp] and the interval [B] becomes the new class. *)
Lemma new_class k h (a1 a2 b1 b2 : Z) cl' :
  splitting k h → 0 ≤ k < nrc →
  let cp := sel (visited_class h2) k in
  let j := sel (pt_visited_class h2) cp in
  let nc := nclass h in
  lo h2 cp ≤ a1 < a2 → a2 ≤ hi h2 cp → lo h2 cp ≤ b1 < b2 → b2 ≤ hi h2 cp →
  a2 ≤ b1 ∨ b2 ≤ a1 →
  (∀ i, lo h2 cp ≤ i < hi h2 cp → a1 ≤ i < a2 ∨ b1 ≤ i < b2) →
  (∀ i, lo h2 cp ≤ i < hi h2 cp → (b1 ≤ i < b2 ↔ i < j))
  ∨ (∀ i, lo h2 cp ≤ i < hi h2 cp → (b1 ≤ i < b2 ↔ ¬ i < j)) →
  nc < N → len cl' = N →
  (∀ s, 0 ≤ s < N →
     sel cl' s = if decide (b1 ≤ pos h s < b2) then nc else cls h s) →
  splitting (k + 1)
    (set_pt_visited_class
       (set_nclass
          (set_L
             (set_class
                (set_class_indices h
                   (upd (upd (class_indices h) cp (a1, a2)) nc (b1, b2))) cl')
             (upd (L h) (nL h) nc) (nL h + 1))
          (nc + 1))
       (upd (pt_visited_class h) cp 0)).
Proof.
  intros Hs Hk cp j nc HA1 HA2 HB1 HB2 HAB Hcov HX Hnc Hlcl Hcl.
  destruct Hs as [Hp_ Hpi_ Hv_ Ht_ He_ Hpart Hnonempty Hlpt HlL Hncl HnL' HLold HLnew
                  Htodo Hrest Hold Hsame].
  pose proof (Hvis k Hk) as Hcp. fold cp in Hcp.
  pose proof (po_nclass N h2 Hpart2) as Hn2.
  pose proof Hpart as [Hpm Hlc Hlci Hncl' Hci Hin Hdisj].
  destruct (Htodo k ltac:(lia)) as (Hptk & Hcik & Hclsk). fold cp in Hptk, Hcik, Hclsk.
  assert (lo h cp = lo h2 cp ∧ hi h cp = hi h2 cp) as [Hlok Hhik]
    by (unfold lo, hi; rewrite Hcik; auto).
  set (h' := set_pt_visited_class _ _).
  assert (∀ s, cls h' s = sel cl' s) as Hcls' by reflexivity.
  assert (∀ s, pos h' s = pos h s) as Hpos' by reflexivity.
  assert (∀ s, pos h s = pos h2 s) as Hpos2 by (intros s; unfold pos; rewrite Hp_; reflexivity).
  assert (∀ c, 0 ≤ c < N →
            sel (pt_visited_class h') c
            = if decide (c = cp) then 0 else sel (pt_visited_class h) c) as Hpt'.
  { intros c Hc. unfold h'. hsimpl. apply sel_upd; lia. }
  assert (∀ c, 0 ≤ c < N →
            sel (class_indices h') c
            = if decide (c = nc) then (b1, b2)
              else if decide (c = cp) then (a1, a2) else sel (class_indices h) c)
    as Hci'.
  { intros c Hc. unfold h'. hsimpl. rewrite sel_upd by (rewrite ?length_upd; lia).
    case_decide; [reflexivity|]. apply sel_upd; lia. }
  assert (∀ c, 0 ≤ c < N →
            lo h' c = (if decide (c = nc) then b1
                       else if decide (c = cp) then a1 else lo h c)
            ∧ hi h' c = (if decide (c = nc) then b2
                         else if decide (c = cp) then a2 else hi h c)) as Hlh'.
  { intros c Hc. unfold lo, hi. rewrite (Hci' c Hc). repeat case_decide; auto. }
  assert (∀ s, 0 ≤ s < N → b1 ≤ pos h s < b2 → cls h s = cp) as HB.
  { intros s Hs HBs. apply (class_members N h s cp Hpart Hs); lia. }
  assert (∀ s, 0 ≤ s < N → cls h s = cp → cls h2 s = cp) as Hback.
  { intros s Hs Hc. destruct (Hold s Hs) as [Ho | Ho]; [congruence | lia]. }
  assert (∀ s, 0 ≤ s < N → cls h2 s = cp →
            cls h s = cp ∧ lo h2 cp ≤ pos h s < hi h2 cp
            ∧ (in_front s ↔ pos h s < j)) as Hmem.
  { intros s Hs Hc. pose proof (Hclsk s Hs Hc) as Hc'. split; [exact Hc'|].
    destruct (Hin s Hs) as [_ Hi]. rewrite Hc', Hlok, Hhik in Hi. split; [exact Hi|].
    unfold in_front. rewrite Hc, <- Hpos2. reflexivity. }
  split; try assumption.
  - (* the partition *)
    split.
    + exact Hpm.
    + exact Hlcl.
    + unfold h'. hsimpl. rewrite !length_upd. exact Hlci.
    + unfold h'. hsimpl. lia.
    + intros c Hc. change (nclass h') with (nc + 1) in Hc.
      destruct (Hlh' c ltac:(lia)) as [-> ->].
      destruct (Hci cp ltac:(lia)) as (? & ? & ?).
      repeat case_decide; [lia | lia |]. apply Hci. lia.
    + intros s Hs. rewrite Hcls', Hpos', (Hcl s Hs). change (nclass h') with (nc + 1).
      destruct (Hin s Hs) as [Hcs Hins].
      destruct (decide (b1 ≤ pos h s < b2)) as [HBs | HBs].
      * destruct (Hlh' nc ltac:(lia)) as [-> ->].
        rewrite !decide_True by reflexivity. lia.
      * destruct (Hlh' (cls h s) ltac:(lia)) as [-> ->].
        rewrite !(decide_False (P := cls h s = nc)) by lia.
        split; [lia|]. case_decide as Hc; [|exact Hins].
        rewrite Hc, Hlok, Hhik in Hins. specialize (Hcov _ Hins). lia.
    + intros c c' Hc Hc' Hne. change (nclass h') with (nc + 1) in Hc, Hc'.
      destruct (Hlh' c ltac:(lia)) as [-> ->]. destruct (Hlh' c' ltac:(lia)) as [-> ->].
      pose proof (Hnonempty cp ltac:(lia)) as Hnecp.
      assert (∀ c0, 0 ≤ c0 < nclass h → c0 ≠ cp →
                hi h c0 ≤ lo h cp ∨ hi h cp ≤ lo h c0) as Hd
        by (intros c0 H0 H1; apply Hdisj; lia).
      repeat case_decide;
        try (pose proof (Hd c ltac:(lia) ltac:(lia)));
        try (pose proof (Hd c' ltac:(lia) ltac:(lia)));
        try lia.
      apply Hdisj; lia.
  - (* no class is empty *)
    intros c Hc. change (nclass h') with (nc + 1) in Hc.
    destruct (Hlh' c ltac:(lia)) as [-> ->].
    repeat case_decide; [lia | lia |]. apply Hnonempty. lia.
  - unfold h'. hsimpl. rewrite length_upd. exact Hlpt.
  - unfold h'. hsimpl. rewrite length_upd. exact HlL.
  - unfold h'. hsimpl. lia.
  - unfold h'. hsimpl. lia.
  - intros m Hm. unfold h'. hsimpl. rewrite sel_upd_ne by lia. apply HLold, Hm.
  - intros m Hm. unfold h'. hsimpl. hsimpl. change (nL h') with (nL h + 1) in Hm.
    destruct (decide (m = nL h)) as [-> | Hne].
    + rewrite sel_upd_eq by lia. unfold nc. lia.
    + rewrite sel_upd_ne by lia. apply HLnew. lia.
  - (* the classes met that are still to be looked at *)
    intros m Hm. pose proof (Hvis m ltac:(lia)) as Hvm.
    assert (sel (visited_class h2) m ≠ cp) as Hne
      by (intros Heq; apply Hinj in Heq; lia).
    destruct (Htodo m ltac:(lia)) as (Hptm & Hcim & Hclsm).
    rewrite Hpt' by lia. rewrite decide_False by exact Hne.
    rewrite Hci' by lia. rewrite decide_False by lia. rewrite decide_False by exact Hne.
    split; [exact Hptm|]. split; [exact Hcim|].
    intros s Hs Hc. rewrite Hcls', (Hcl s Hs). rewrite decide_False; [auto|].
    intros HBs. apply (HB s Hs) in HBs. rewrite (Hclsm s Hs Hc) in HBs. contradiction.
  - intros c Hc Hnv. rewrite Hpt' by lia. case_decide as Hd; [reflexivity|].
    apply Hrest; [lia|]. intros m Hm. destruct (decide (m = k)) as [-> | Hmk'].
    + fold cp. congruence.
    + apply Hnv. lia.
  - intros s Hs. rewrite Hcls', (Hcl s Hs). case_decide; [right; lia|]. apply Hold, Hs.
  - (* the states that are in the same class *)
    intros s t Hs Ht. rewrite !Hcls', (Hcl s Hs), (Hcl t Ht).
    destruct (Hin s Hs) as [Hcs _]. destruct (Hin t Ht) as [Hct _].
    assert (¬ ∃ m, 0 ≤ m < k ∧ sel (visited_class h2) m = cp) as Hnot.
    { intros (m & Hm & Heq). apply Hinj in Heq; lia. }
    destruct (decide (cls h2 s = cp)) as [Hs2 | Hs2];
      destruct (decide (cls h2 t = cp)) as [Ht2 | Ht2].
    + destruct (Hmem s Hs Hs2) as (Hcs' & Hps & Hfs).
      destruct (Hmem t Ht Ht2) as (Hct' & Hpt & Hft).
      rewrite Hcs', Hct', Hs2, Ht2, Hfs, Hft.
      assert ((b1 ≤ pos h s < b2 ↔ b1 ≤ pos h t < b2)
              ↔ (pos h s < j ↔ pos h t < j)) as Hiff.
      { destruct HX as [HX | HX]; rewrite (HX _ Hps), (HX _ Hpt); lia. }
      split.
      * intros Heq. split; [reflexivity|]. intros _. apply Hiff.
        repeat case_decide; try tauto; lia.
      * intros [_ Hx]. apply Hiff in Hx; [|exists k; split; [lia | reflexivity]].
        repeat case_decide; try reflexivity; tauto.
    + destruct (Hmem s Hs Hs2) as (Hcs' & Hps & Hfs).
      assert (cls h t ≠ cp) as Hct' by (intros Hc; apply Ht2, Hback; auto).
      rewrite (decide_False (P := b1 ≤ pos h t < b2))
        by (intros HBt; apply Hct', HB; auto).
      rewrite Hcs'. split; [|intros [Hc _]; congruence].
      case_decide; [lia | congruence].
    + destruct (Hmem t Ht Ht2) as (Hct' & Hpt & Hft).
      assert (cls h s ≠ cp) as Hcs' by (intros Hc; apply Hs2, Hback; auto).
      rewrite (decide_False (P := b1 ≤ pos h s < b2))
        by (intros HBs; apply Hcs', HB; auto).
      rewrite Hct'. split; [|intros [Hc _]; congruence].
      case_decide; [lia | congruence].
    + assert (cls h s ≠ cp) as Hcs' by (intros Hc; apply Hs2, Hback; auto).
      assert (cls h t ≠ cp) as Hct' by (intros Hc; apply Ht2, Hback; auto).
      rewrite (decide_False (P := b1 ≤ pos h s < b2))
        by (intros HBs; apply Hcs', HB; auto).
      rewrite (decide_False (P := b1 ≤ pos h t < b2))
        by (intros HBt; apply Hct', HB; auto).
      rewrite (Hsame s t Hs Ht). split; intros [Hc Hx]; (split; [exact Hc|]).
      * intros (m & Hm & Hvm). destruct (decide (m = k)) as [-> | Hmk'].
        -- fold cp in Hvm. congruence.
        -- apply Hx. exists m. split; [lia | exact Hvm].
      * intros (m & Hm & Hvm). apply Hx. exists m. split; [lia | exact Hvm].
Qed.
Context (Hlenv : len (visited_class h2) = N) (Hnrc : nrc ≤ N).

(** The code that cuts the class [cp], once the two intervals are known. *)
Lemma cut_class k h (a1 a2 b1 b2 : Z) :
  splitting k h → 0 ≤ k < nrc →
  let cp := sel (visited_class h2) k in
  let j := sel (pt_visited_class h2) cp in
  lo h2 cp ≤ a1 < a2 → a2 ≤ hi h2 cp → lo h2 cp ≤ b1 < b2 → b2 ≤ hi h2 cp →
  a2 ≤ b1 ∨ b2 ≤ a1 →
  (∀ i, lo h2 cp ≤ i < hi h2 cp → a1 ≤ i < a2 ∨ b1 ≤ i < b2) →
  (∀ i, lo h2 cp ≤ i < hi h2 cp → (b1 ≤ i < b2 ↔ i < j))
  ∨ (∀ i, lo h2 cp ≤ i < hi h2 cp → (b1 ≤ i < b2 ↔ ¬ i < j)) →
  ∃ h',
    (h ← (let h := set_class_indices h
                     (upd (upd (class_indices h) cp (a1, a2)) (nclass h) (b1, b2)) in
          '(nl, nh) ← rd (class_indices h) (nclass h);
          c ← for_ (seqZ nl (nh - nl)) (λ j c,
                 e ← rd (partitioni h) j; wr c e (nclass h)) (class h);
          let h := set_class h c in
          lw ← wr (L h) (nL h) (nclass h);
          Ok (set_nclass (set_L h lw (nL h + 1)) (nclass h + 1)));
     pv ← wr (pt_visited_class h) cp 0;
     Ok (set_pt_visited_class h pv)) = Ok h'
    ∧ splitting (k + 1) h'.
Proof.
  intros Hs Hk cp j HA1 HA2 HB1 HB2 HAB Hcov HX.
  pose proof Hs as [Hp_ Hpi_ Hv_ Ht_ He_ Hpart Hnonempty Hlpt HlL Hncl HnL' HLold HLnew
                    Htodo Hrest Hold Hsame].
  pose proof (Hvis k Hk) as Hcp. fold cp in Hcp.
  pose proof (po_nclass N h2 Hpart2) as Hn2.
  pose proof Hpart as [Hpm Hlc Hlci Hncl' Hci Hin Hdisj].
  destruct (Htodo k ltac:(lia)) as (Hptk & Hcik & Hclsk). fold cp in Hptk, Hcik, Hclsk.
  assert (lo h cp = lo h2 cp ∧ hi h cp = hi h2 cp) as [Hlok Hhik]
    by (unfold lo, hi; rewrite Hcik; auto).
  assert (nclass h < N) as Hnc.
  { destruct HAB.
    - apply (nclass_bound N h cp a2 Hpart Hnonempty); [lia|]. rewrite Hlok, Hhik. lia.
    - apply (nclass_bound N h cp b2 Hpart Hnonempty); [lia|]. rewrite Hlok, Hhik. lia. }
  cbv zeta. hsimpl.
  rewrite bind_rd by (rewrite !length_upd; lia).
  rewrite sel_upd_eq by (rewrite length_upd; lia). cbv beta iota.
  destruct (relabel N (partition h) (partitioni h) (class h) b1 b2 (nclass h)
              Hpm Hlc) as (cl' & Hrun & Hlcl & Hcl); [| |].
  { destruct (po_ci N h2 Hpart2 cp Hcp). lia. }
  { destruct (po_ci N h2 Hpart2 cp Hcp). lia. }
  rewrite Hrun, Ok_bind. rewrite bind_wr by lia. rewrite Ok_bind. hsimpl.
  rewrite wr_upd by lia.
  eexists. split; [reflexivity|].
  apply (new_class k h a1 a2 b1 b2 cl' Hs Hk); assumption.
Qed.

(** One round of the second half of [split]. *)
Lemma split_step k h :
  splitting k h → 0 ≤ k < nrc →
  ∃ h',
    (cp ← rd (visited_class h) k;
     '(l, hi) ← rd (class_indices h) cp;
     j ← rd (pt_visited_class h) cp;
     h ← (if decide (j < hi)
          then
            ci ← (if decide (j - l < hi - j)
                  then ci ← wr (class_indices h) cp (j, hi);
                       wr ci (nclass h) (l, j)
                  else ci ← wr (class_indices h) cp (l, j);
                       wr ci (nclass h) (j, hi));
            let h := set_class_indices h ci in
            '(nl, nh) ← rd (class_indices h) (nclass h);
            c ← for_ (seqZ nl (nh - nl)) (λ j c,
                   e ← rd (partitioni h) j; wr c e (nclass h)) (class h);
            let h := set_class h c in
            lw ← wr (L h) (nL h) (nclass h);
            Ok (set_nclass (set_L h lw (nL h + 1)) (nclass h + 1))
          else Ok h);
     pv ← wr (pt_visited_class h) cp 0;
     Ok (set_pt_visited_class h pv)) = Ok h'
    ∧ splitting (k + 1) h'.
Proof.
  intros Hs Hk.
  pose proof Hs as [Hp_ Hpi_ Hv_ Ht_ He_ Hpart Hnonempty Hlpt HlL Hncl HnL' HLold HLnew
                    Htodo Hrest Hold Hsame].
  pose proof (Hvis k Hk) as Hcp. pose proof (po_nclass N h2 Hpart2) as Hn2.
  pose proof Hpart as [Hpm Hlc Hlci Hncl' Hci Hin Hdisj].
  destruct (Htodo k ltac:(lia)) as (Hptk & Hcik & Hclsk).
  pose proof (Hmk k Hk) as Hlt. pose proof (Hpt_le k Hk) as Hle.
  rewrite Hv_. rewrite bind_rd by lia.
  set (cp := sel (visited_class h2) k) in *.
  rewrite bind_rd by lia. rewrite Hcik.
  assert (lo h2 cp = (sel (class_indices h2) cp).1
          ∧ hi h2 cp = (sel (class_indices h2) cp).2) as [Hl Hh] by auto.
  destruct (sel (class_indices h2) cp) as [l hi']. hsimpl. cbv beta iota.
  rewrite bind_rd by lia. rewrite Hptk.
  set (j := sel (pt_visited_class h2) cp) in *.
  destruct (decide (j < hi')) as [Hj | Hj].
  - assert (nclass h < N) as Hnc.
    { apply (nclass_bound N h cp j Hpart Hnonempty); [lia|].
      unfold lo, hi. rewrite Hcik. hsimpl. lia. }
    destruct (decide (j - l < hi' - j)) as [Hsmall | Hsmall].
    + rewrite bind_wr by lia. cbv beta.
      rewrite bind_wr by (rewrite length_upd; lia).
      apply (cut_class k h j hi' l j Hs Hk); fold cp; fold j; try lia.
      left. intros i Hi. lia.
    + rewrite bind_wr by lia. cbv beta.
      rewrite bind_wr by (rewrite length_upd; lia).
      apply (cut_class k h l j j hi' Hs Hk); fold cp; fold j; try lia.
      right. intros i Hi. lia.
  - rewrite Ok_bind. rewrite wr_upd by lia.
    eexists. split; [reflexivity|].
    apply (keep_class k h Hs Hk). fold cp. fold j. lia.
Qed.

(** The second half of [split]. *)
Lemma split_classes h :
  splitting 0 h → 0 ≤ nrc →
  ∃ h',
    for_ (seqZ 0 nrc) (λ i h,
      cp ← rd (visited_class h) i;
      '(l, hi) ← rd (class_indices h) cp;
      j ← rd (pt_visited_class h) cp;
      h ← (if decide (j < hi)
           then
             ci ← (if decide (j - l < hi - j)
                   then ci ← wr (class_indices h) cp (j, hi);
                        wr ci (nclass h) (l, j)
                   else ci ← wr (class_indices h) cp (l, j);
                        wr ci (nclass h) (j, hi));
             let h := set_class_indices h ci in
             '(nl, nh) ← rd (class_indices h) (nclass h);
             c ← for_ (seqZ nl (nh - nl)) (λ j c,
                    e ← rd (partitioni h) j; wr c e (nclass h)) (class h);
             let h := set_class h c in
             lw ← wr (L h) (nL h) (nclass h);
             Ok (set_nclass (set_L h lw (nL h + 1)) (nclass h + 1))
           else Ok h);
      pv ← wr (pt_visited_class h) cp 0;
      Ok (set_pt_visited_class h pv)) h = Ok h'
    ∧ splitting nrc h'.
Proof.
  intros Hs Hn.
  edestruct (for_seqZ_inv (λ k h, splitting k h)) as (h' & Hrun & Hs');
    [| |intros k h1 Hk Hs1|].
  4: { exists h'. split; [exact Hrun | exact Hs']. }
  - exact Hn.
  - exact Hs.
  - cbv beta. apply split_step; [exact Hs1 | lia].
Qed.
End splitting_steps.


(** ** Minimisation: one call of [split] *)

(** The state of the minimisation between two calls of [split]. *)
Record hop_inv (a : Automaton) (h : Hopcroft) : Prop := mkhop_inv
  { hv_part : part_ok (a_n a + 1) h;
    hv_ne : nonempty h;
    hv_trans : trans_ok a (transitioni h);
    hv_len_L : len (L h) = a_n a + 1;
    hv_len_pt : len (pt_visited_class h) = a_n a + 1;
    hv_len_v : len (visited_class h) = a_n a + 1;
    hv_len_et : len (etats h) = a_n a + 1;
    hv_pt : ∀ c, 0 ≤ c < a_n a + 1 → sel (pt_visited_class h) c = 0;
    hv_nL : 0 ≤ nL h < nclass h }.

Section split_correct.
Context (a : Automaton) (Ha : wf_alloc a).
Local Abbreviation N := (a_n a + 1).

(** [split h C c0] refines every class by the states whose transition on
    the letter [c0] leads into the class [C]; the classes made are put on
    the list [L]. *)
Lemma split_spec h C c0 :
  hop_inv a h → 0 ≤ C < nclass h → 0 ≤ c0 < a_na a →
  ∃ h',
    split h C c0 = Ok h'
    ∧ hop_inv a h'
    ∧ nclass h ≤ nclass h'
    ∧ nL h' - nL h = nclass h' - nclass h
    ∧ (∀ m, 0 ≤ m < nL h → sel (L h') m = sel (L h) m)
    ∧ (∀ m, nL h ≤ m < nL h' → sel (L h') m = nclass h + (m - nL h))
    ∧ (∀ s, 0 ≤ s < N → cls h' s = cls h s ∨ nclass h ≤ cls h' s)
    ∧ (∀ s t, 0 ≤ s < N → 0 ≤ t < N →
         (cls h' s = cls h' t
          ↔ cls h s = cls h t
            ∧ (cls h (delta a s c0) = C ↔ cls h (delta a t c0) = C))).
Proof.
  intros Hinv HC Hc0.
  destruct Hinv as [Hpart Hne Htr HlL Hlpt Hlv Hlet Hpt0 HnL].
  pose proof Hpart as [Hpm Hlc Hlci Hncl Hci Hin Hdisj].
  pose proof (pm_len_p _ _ _ Hpm) as Hlp. pose proof (pm_len_pi _ _ _ Hpm) as Hlpi.
  unfold split. rewrite bind_rd by lia.
  assert (lo h C = (sel (class_indices h) C).1
          ∧ hi h C = (sel (class_indices h) C).2) as [Hl Hh] by auto.
  destruct (Hci C HC) as (HlC & HhC & _).
  destruct (sel (class_indices h) C) as [l hi']. hsimpl. cbv beta iota.
  (* the states of the class *)
  destruct (copy_class (partitioni h) (etats h) l hi') as (et & Hcopy & Hlet' & Het);
    [lia | lia | lia |].
  rewrite Hcopy, Ok_bind. cbv zeta.
  set (hE := set_etats h et).
  (* the first half *)
  assert (moving N hE (λ _, False) hE 0) as Hm0.
  { split; try assumption; try lia.
    - repeat split.
    - split; assumption.
    - intros c Hc. left. split; [apply Hpt0; unfold hE in Hc; hsimpl; lia|].
      intros m Hm. lia.
    - intros c Hc. apply Hpt0. unfold hE in Hc. hsimpl. lia.
    - intros s Hs. change (cls hE s) with (cls h s).
      change (pt_visited_class hE) with (pt_visited_class h).
      change (pos hE s) with (pos h s). destruct (Hin s Hs) as [Hcs Hins].
      rewrite Hpt0 by lia. destruct (Hci _ Hcs). lia. }
  assert (marked hE 0) as Hmk0 by (intros m Hm; lia).
  destruct (move_class a hE c0 Hc0 Htr hE 0 l hi' Hm0 Hmk0)
    as (h2 & nrc & Hmove & Hm2 & Hmk2); [lia | lia | unfold hE; hsimpl; lia | |].
  { intros i Hi. unfold hE. hsimpl. rewrite (Het i Hi).
    apply (pm_pi _ _ _ Hpm). lia. }
  rewrite Hmove, Ok_bind. cbv beta iota.
  (* the second half *)
  pose proof Hm2 as [Hsame2 Hpart2 Hlpt2 Hlv2 Hnrc0 Hvis2 Hinj2 Hpt2 Hpthi2 Hdone2].
  destruct Hsame2 as (Hcl2 & Hci2 & Hncl2 & HL2 & HnL2 & Htr2 & Het2).
  unfold hE in Hcl2, Hci2, Hncl2, HL2, HnL2, Htr2, Het2. hsimpl.
  assert (∀ m, 0 ≤ m < nrc →
            sel (pt_visited_class h2) (sel (visited_class h2) m)
            ≤ hi h2 (sel (visited_class h2) m)) as Hptle.
  { intros m Hm. destruct (Hpt2 _ (Hvis2 m Hm)) as [[_ Hnv] | [Hr _]]; [|lia].
    exfalso. exact (Hnv m Hm eq_refl). }
  assert (nrc ≤ N) as HnrcN.
  { pose proof (po_nclass _ _ Hpart2).
    enough (nrc ≤ nclass h2) by lia.
    apply (injection_bound (λ m, sel (visited_class h2) m)); [lia | lia | |].
    - exact Hvis2.
    - exact Hinj2. }
  assert (0 ≤ nL h2 < nclass h2) as HnL2' by (rewrite HnL2, Hncl2; exact HnL).
  assert (splitting N h2 nrc 0 h2) as Hs0.
  { split; try reflexivity; try assumption; try lia.
    - intros c Hc. unfold lo, hi. rewrite Hci2. apply Hne. rewrite <- Hncl2. exact Hc.
    - rewrite HL2. exact HlL.
    - intros m Hm. split; [reflexivity|]. split; [reflexivity|]. auto.
    - intros c Hc Hnv. destruct (decide (c < nclass h2)) as [Hlt | Hge].
      + destruct (Hpt2 c ltac:(lia)) as [[H0 _] | [_ (m & Hm & Hvm)]]; [exact H0|].
        exfalso. apply (Hnv m); [lia | exact Hvm].
      + apply Hpthi2. lia.
    - intros s t Hs Ht. split; [intros Heq; split; [exact Heq|]|tauto].
      intros (m & Hm & _). lia. }
  destruct (split_classes N h2 nrc Hpart2 Hvis2 Hinj2 Hmk2 Hptle HnL2' Hlv2 HnrcN h2 Hs0 Hnrc0)
    as (h' & Hrun & Hs').
  exists h'. split; [exact Hrun|].
  destruct Hs' as [Hp_ Hpi_ Hv_ Ht_ He_ Hpart' Hnonempty' Hlpt' HlL' Hncl' HnL' HLold HLnew
                   Htodo Hrest Hold Hsame].
  assert (∀ s, cls h2 s = cls h s) as Hcls2 by (intros s; unfold cls; rewrite Hcl2; reflexivity).
  split; [|split; [|split; [|split; [|split; [|split]]]]].
  - split; try assumption.
    + rewrite Ht_, Htr2. exact Htr.
    + rewrite Hv_. exact Hlv2.
    + rewrite He_, Het2. hsimpl. lia.
    + intros c Hc. apply Hrest; [exact Hc|]. intros m Hm. lia.
    + lia.
  - lia.
  - lia.
  - intros m Hm. rewrite HLold by lia. rewrite HL2. reflexivity.
  - intros m Hm. rewrite HLnew by lia. lia.
  - intros s Hs. rewrite <- Hcls2, <- Hncl2. apply Hold, Hs.
  - intros s t Hs Ht. rewrite (Hsame s t Hs Ht), !Hcls2.
    (* the states in front are those that lead into [C] *)
    assert (∀ u, 0 ≤ u < N → (in_front h2 u ↔ cls h (delta a u c0) = C)) as Hfront.
    { intros u Hu. unfold in_front. rewrite (Hdone2 u Hu).
      pose proof (delta_range a Ha u c0) as Hd. split.
      - intros (i & Hi & Heq). unfold hE in Heq. hsimpl.
        rewrite (Het i Hi) in Heq. rewrite Heq.
        apply (class_at_pos N h C i Hpart HC). lia.
      - intros HX. destruct (Hin (delta a u c0) ltac:(lia)) as [_ Hpos].
        rewrite HX in Hpos. exists (pos h (delta a u c0)). split; [lia|].
        unfold hE. hsimpl. rewrite Het by lia.
        symmetry. apply (pm_p _ _ _ Hpm). lia. }
    rewrite <- (Hfront s Hs), <- (Hfront t Ht).
    split; intros [Hc Hx]; (split; [exact Hc|]); [|tauto].
    destruct (Hin s Hs) as [Hcs _].
    destruct (Hpt2 (cls h s) ltac:(lia)) as [[H0 _] | [_ Hv]].
    + unfold in_front. rewrite !Hcls2, <- Hc, H0.
      destruct (pm_p _ _ _ (po_perm _ _ Hpart2) s Hs).
      destruct (pm_p _ _ _ (po_perm _ _ Hpart2) t Ht). unfold pos. lia.
    + apply Hx. exact Hv.
Qed.
End split_correct.


(** ** Minimisation: the refinement loop *)

(** The class [B] is on the list [L]. *)
Definition pending (h : Hopcroft) (B : Z) : Prop :=
  ∃ m, 0 ≤ m < nL h ∧ sel (L h) m = B.

(** While the class [C] is being used, for the letters from [j] on: the
    classes separate final states from the others, two states of different
    classes are told apart by a word, and two states of one class whose
    transitions on a letter lead to different classes will be separated,
    because one of these classes is still to be used for that letter. *)
Record refined (a : Automaton) (h : Hopcroft) (C j : Z) : Prop := mkrefined
  { rf_L : ∀ m, 0 ≤ m < nL h → 0 ≤ sel (L h) m < nclass h;
    rf_fin : ∀ s t, 0 ≤ s ≤ a_n a → 0 ≤ t ≤ a_n a →
               cls h s = cls h t → final_state a s = final_state a t;
    rf_dist : ∀ s t, 0 ≤ s ≤ a_n a → 0 ≤ t ≤ a_n a → cls h s ≠ cls h t →
                ∃ w, accepts_sink a s w ≠ accepts_sink a t w;
    rf_stab : ∀ s t b, 0 ≤ s ≤ a_n a → 0 ≤ t ≤ a_n a → 0 ≤ b < a_na a →
                cls h s = cls h t →
                cls h (delta a s b) ≠ cls h (delta a t b) →
                (pending h (cls h (delta a s b)) ∨ (cls h (delta a s b) = C ∧ j ≤ b))
                ∨ (pending h (cls h (delta a t b)) ∨ (cls h (delta a t b) = C ∧ j ≤ b)) }.

Section refine.
Context (a : Automaton) (Ha : wf_alloc a).
Local Abbreviation N := (a_n a + 1).

Lemma accepts_sink_cons s c w :
  accepts_sink a s (c :: w) = accepts_sink a (delta a s c) w.
Proof. reflexivity. Qed.

(** [split] for the letter [j]. *)
Lemma refine_letter h C j :
  hop_inv a h → refined a h C j → 0 ≤ C < nclass h → 0 ≤ j < a_na a →
  ∃ h',
    split h C j = Ok h'
    ∧ hop_inv a h' ∧ refined a h' C (j + 1)
    ∧ nclass h ≤ nclass h' ∧ nL h' - nL h = nclass h' - nclass h.
Proof.
  intros Hinv [HL Hfin Hdist Hstab] HC Hj.
  destruct (split_spec a Ha h C j Hinv HC Hj)
    as (h' & Hrun & Hinv' & Hncl & HnL & HLold & HLnew & Hold & Hsame).
  exists h'. split; [exact Hrun|]. split; [exact Hinv'|].
  split; [|split; [exact Hncl | exact HnL]].
  pose proof (hv_part a h' Hinv') as Hpart'. pose proof (hv_nL a h Hinv) as HnL0.
  assert (∀ B, pending h B → pending h' B) as Hpend.
  { intros B (m & Hm & HB). exists m. split; [lia|]. rewrite HLold by lia. exact HB. }
  assert (∀ u, 0 ≤ u < N → nclass h ≤ cls h' u → pending h' (cls h' u)) as Hnew.
  { intros u Hu Hge. destruct (po_in _ _ Hpart' u Hu) as [Hc _].
    exists (nL h + (cls h' u - nclass h)). split; [lia|].
    rewrite HLnew by lia. lia. }
  split.
  - intros m Hm. destruct (decide (m < nL h)) as [Hlt | Hge].
    + rewrite HLold by lia. specialize (HL m ltac:(lia)). lia.
    + rewrite HLnew by lia. lia.
  - intros s t Hs Ht Heq. apply Hfin; [lia | lia|].
    apply (Hsame s t ltac:(lia) ltac:(lia)) in Heq. tauto.
  - intros s t Hs Ht Hne.
    destruct (decide (cls h s = cls h t)) as [Heq | Hne']; [|apply Hdist; auto].
    pose proof (delta_range a Ha s j) as Hds. pose proof (delta_range a Ha t j) as Hdt.
    destruct (Hdist (delta a s j) (delta a t j) Hds Hdt) as (w & Hw).
    + intros Heq'. apply Hne. apply (Hsame s t); [lia | lia|].
      split; [exact Heq|]. rewrite Heq'. reflexivity.
    + exists (j :: w). rewrite !accepts_sink_cons. exact Hw.
  - intros s t b Hs Ht Hb Heq Hne.
    pose proof (delta_range a Ha s b) as Hds. pose proof (delta_range a Ha t b) as Hdt.
    apply (Hsame s t ltac:(lia) ltac:(lia)) in Heq as [Heq HX].
    destruct (Hold (delta a s b) ltac:(lia)) as [Hos | Hns];
      [|left; left; apply Hnew; [lia | exact Hns]].
    destruct (Hold (delta a t b) ltac:(lia)) as [Hot | Hnt];
      [|right; left; apply Hnew; [lia | exact Hnt]].
    rewrite Hos, Hot in *.
    destruct (Hstab s t b Hs Ht Hb Heq Hne) as [[Hp | [HC' Hjb]] | [Hp | [HC' Hjb]]].
    + left. left. apply Hpend, Hp.
    + destruct (decide (b = j)) as [-> | Hbj]; [|left; right; split; [exact HC' | lia]].
      exfalso. apply Hne. rewrite HC'. symmetry. apply HX, HC'.
    + right. left. apply Hpend, Hp.
    + destruct (decide (b = j)) as [-> | Hbj]; [|right; right; split; [exact HC' | lia]].
      exfalso. apply Hne. rewrite HC'. apply HX, HC'.
Qed.

(** [split] for every letter. *)
Lemma refine_class h C :
  hop_inv a h → refined a h C 0 → 0 ≤ C < nclass h →
  ∃ h',
    for_ (seqZ 0 (a_na a)) (λ j h, split h C j) h = Ok h'
    ∧ hop_inv a h' ∧ refined a h' C (a_na a)
    ∧ nclass h ≤ nclass h'
    ∧ nL h' - nL h = nclass h' - nclass h.
Proof.
  intros Hinv Href HC.
  edestruct (for_seqZ_inv
               (λ j h', hop_inv a h' ∧ refined a h' C j
                        ∧ nclass h ≤ nclass h'
                        ∧ nL h' - nL h = nclass h' - nclass h))
    as (h' & Hrun & Hinv' & Href' & Hn' & HnL); [| |intros j h1 Hj (Hinv1 & Href1 & Hn1 & HnL1)|].
  4: { exists h'. split; [exact Hrun|]. split; [exact Hinv'|]. split; [exact Href'|].
       split; [exact Hn' | exact HnL]. }
  - apply (wa_na a Ha).
  - split; [exact Hinv|]. split; [exact Href|]. lia.
  - cbv beta.
    destruct (refine_letter h1 C j Hinv1 Href1 ltac:(lia) ltac:(lia))
      as (h2 & Hrun & Hinv2 & Href2 & Hn2 & HnL2).
    exists h2. split; [exact Hrun|]. split; [exact Hinv2|]. split; [exact Href2|]. lia.
Qed.

(** The loop [while (nL)] ends, within [nL + N - nclass] rounds, with a
    partition that the transitions respect. *)
Lemma Minimise_loop_spec fuel :
  ∀ h, hop_inv a h → refined a h 0 (a_na a) →
       nL h + (N - nclass h) < Z.of_nat fuel →
       ∃ h', Minimise_loop fuel (a_na a) h = Ok h'
             ∧ hop_inv a h' ∧ refined a h' 0 (a_na a) ∧ nL h' = 0
             ∧ nclass h ≤ nclass h'.
Proof.
  induction fuel as [|fuel IH]; intros h Hinv Href Hfuel.
  { pose proof (hv_nL a h Hinv). pose proof (po_nclass _ _ (hv_part a h Hinv)). lia. }
  cbn [Minimise_loop]. destruct (decide (nL h = 0)) as [H0 | Hn0].
  { exists h. split; [reflexivity|]. split; [exact Hinv|]. split; [exact Href|].
    split; [exact H0 | lia]. }
  cbv zeta. hsimpl.
  pose proof Hinv as [Hpart Hnonempty Htr HlL Hlpt Hlv Hlet Hpt0 HnL].
  pose proof (po_nclass _ _ Hpart) as Hncl.
  rewrite bind_rd by lia.
  set (C := sel (L h) (nL h - 1)). set (h1 := set_L h (L h) (nL h - 1)).
  destruct Href as [HL Hfin Hdist Hstab].
  assert (hop_inv a h1) as Hinv1.
  { split; try assumption.
    - destruct Hpart. split; assumption.
    - unfold h1. hsimpl. lia. }
  assert (refined a h1 C 0) as Href1.
  { split; try assumption.
    - intros m Hm. unfold h1 in *. hsimpl. apply HL. lia.
    - intros s t b Hs Ht Hb Heq Hne.
      assert (∀ B, pending h B ∨ B = 0 ∧ a_na a ≤ b → pending h1 B ∨ B = C ∧ 0 ≤ b)
        as Hp.
      { intros B [(m & Hm & HB) | [_ ?]]; [|lia].
        destruct (decide (m = nL h - 1)) as [-> | Hm'].
        - right. split; [symmetry; exact HB | lia].
        - left. exists m. split; [unfold h1; hsimpl; lia | exact HB]. }
      destruct (Hstab s t b Hs Ht Hb Heq Hne) as [H | H]; [left | right]; apply Hp, H. }
  destruct (refine_class h1 C Hinv1 Href1) as (h2 & Hrun & Hinv2 & Href2 & Hn2 & HnL2).
  { apply HL. lia. }
  rewrite Hrun, Ok_bind.
  destruct (IH h2 Hinv2) as (h' & Hloop & Hinv' & Href' & HnL' & Hn').
  - destruct Href2 as [HL2 Hfin2 Hdist2 Hstab2]. split; try assumption.
    intros s t b Hs Ht Hb Heq Hne.
    destruct (Hstab2 s t b Hs Ht Hb Heq Hne) as [[H | [_ ?]] | [H | [_ ?]]]; try lia; auto.
  - unfold h1 in HnL2. hsimpl. lia.
  - exists h'. split; [exact Hloop|]. split; [exact Hinv'|]. split; [exact Href'|].
    split; [exact HnL'|]. unfold h1 in Hn2. hsimpl. lia.
Qed.

(** When the list [L] is empty, the transitions respect the classes. *)
Lemma refined_stable h s t b :
  refined a h 0 (a_na a) → nL h = 0 →
  0 ≤ s ≤ a_n a → 0 ≤ t ≤ a_n a → cls h s = cls h t →
  cls h (delta a s b) = cls h (delta a t b).
Proof.
  intros [HL Hfin Hdist Hstab] HnL Hs Ht Heq.
  destruct (decide (0 ≤ b < a_na a)) as [Hb | Hb].
  - destruct (decide (cls h (delta a s b) = cls h (delta a t b))) as [|Hne];
      [assumption|].
    destruct (Hstab s t b Hs Ht Hb Heq Hne)
      as [[(m & Hm & _) | [_ ?]] | [(m & Hm & _) | [_ ?]]]; lia.
  - unfold delta. rewrite !(decide_False (P := _ ∧ _)) by tauto. reflexivity.
Qed.
End refine.


(** ** Minimisation: the first partition *)

Section first_partition.
Context (a : Automaton) (Ha : wf_alloc a).
Local Abbreviation N := (a_n a + 1).

(** What the loop that puts the final states first leaves alone. *)
Definition same_tables (h0 h : Hopcroft) : Prop :=
  class_indices h = class_indices h0 ∧ nclass h = nclass h0
  ∧ transitioni h = transitioni h0 ∧ L h = L h0 ∧ nL h = nL h0
  ∧ pt_visited_class h = pt_visited_class h0
  ∧ visited_class h = visited_class h0 ∧ etats h = etats h0.

(** After the states below [i]: the [f] final ones are in front, in class 0,
    the others follow, in class 1, and the states from [i] on are in their
    places. *)
Record finals_first (h0 : Hopcroft) (i : Z) (h : Hopcroft) (f : Z) : Prop :=
  mkfinals_first
  { ff_same : same_tables h0 h;
    ff_perm : perm_ok N (partition h) (partitioni h);
    ff_len_c : len (class h) = N;
    ff_f : 0 ≤ f ≤ i;
    ff_rest : ∀ s, i ≤ s < N → pos h s = s;
    ff_done : ∀ s, 0 ≤ s < i →
                if final_state a s then cls h s = 0 ∧ pos h s < f
                else cls h s = 1 ∧ f ≤ pos h s < i }.

Lemma finals_first_step h0 i h f :
  finals_first h0 i h f → 0 ≤ i < a_n a →
  ∃ h' f',
    (fin ← rd_final (a_e a) i;
     if decide (fin ≠ 0) then
       c ← wr (class h) i 0;
       let h := set_class h c in
       pf ← rd (partitioni h) f;
       h ← swap h pf i;
       Ok (h, f + 1)
     else
       c ← wr (class h) i 1;
       Ok (set_class h c, f)) = Ok (h', f')
    ∧ finals_first h0 (i + 1) h' f'.
Proof.
  intros [Hsame Hperm Hlc Hf Hrest Hdone] Hi.
  pose proof (pm_len_p _ _ _ Hperm) as Hlp. pose proof (pm_len_pi _ _ _ Hperm) as Hlpi.
  rewrite (wf_alloc_rd_final a Ha) by lia. rewrite Ok_bind.
  assert (final_state a i = bool_decide (e_final (sel (a_e a) i) ≠ 0)) as Hfi.
  { unfold final_state. apply bool_decide_ext. tauto. }
  destruct (decide (e_final (sel (a_e a) i) ≠ 0)) as [Hfin | Hfin].
  - rewrite bool_decide_eq_true_2 in Hfi by exact Hfin.
    rewrite bind_wr by lia. cbv zeta. hsimpl. rewrite bind_rd by lia.
    set (h1 := set_class h (upd (class h) i 0)).
    set (q := sel (partitioni h) f).
    destruct (pm_pi _ _ _ Hperm f ltac:(lia)) as [Hq Hqf]. fold q in Hq, Hqf.
    destruct (swap_Ok N h1 q i Hperm Hq ltac:(lia)) as (p' & pi' & Hsw & Hperm' & Hp').
    rewrite Hsw, Ok_bind. eexists _, _. split; [reflexivity|].
    assert (pos h i = i) as Hpi by (apply Hrest; lia).
    assert (q = i ∨ (0 ≤ q < i ∧ final_state a q = false ∧ f < i)) as Hqcase.
    { destruct (decide (q < i)) as [Hlt | Hge].
      - right. split; [lia|]. specialize (Hdone q ltac:(lia)).
        destruct (final_state a q); unfold pos in Hdone; [lia|]. split; [reflexivity | lia].
      - left. pose proof (Hrest q ltac:(lia)) as Hpq. unfold pos in Hpq.
        rewrite Hqf in Hpq. specialize (Hrest q ltac:(lia)). lia. }
    assert (∀ s, 0 ≤ s < N →
              pos (set_partitions h1 p' pi') s
              = if decide (s = i) then f
                else if decide (s = q) then i else pos h s) as Hpos.
    { intros s Hs. unfold pos. hsimpl. rewrite (Hp' s Hs). unfold h1. hsimpl.
      fold (pos h i). rewrite Hqf, Hpi.
      destruct (decide (s = q)) as [Hsq | Hsq], (decide (s = i)) as [Hsi | Hsi];
        try reflexivity.
      assert (q = i) as Hqi by congruence. rewrite Hqi in Hqf.
      fold (pos h i) in Hqf. lia. }
    assert (∀ s, 0 ≤ s < N →
              cls (set_partitions h1 p' pi') s
              = if decide (s = i) then 0 else cls h s) as Hcls.
    { intros s Hs. unfold cls, h1. hsimpl. apply sel_upd; lia. }
    split; hsimpl.
    + exact Hsame.
    + exact Hperm'.
    + unfold h1. hsimpl. rewrite length_upd. exact Hlc.
    + lia.
    + intros s Hs. rewrite Hpos by lia. rewrite decide_False by lia.
      rewrite decide_False; [apply Hrest; lia|].
      destruct Hqcase as [-> | ?]; lia.
    + intros s Hs. rewrite Hpos, Hcls by lia.
      destruct (decide (s = i)) as [-> | Hsi].
      { rewrite Hfi. lia. }
      specialize (Hdone s ltac:(lia)).
      destruct (decide (s = q)) as [-> | Hsq].
      { destruct Hqcase as [-> | (_ & Hnf & Hlt)]; [lia|].
        rewrite Hnf in *. lia. }
      destruct (final_state a s); [lia|].
      assert (pos h s ≠ f).
      { intros Heq. apply Hsq. unfold pos in Heq. rewrite <- Hqf in Heq.
        eapply (perm_ok_inj N); [exact Hperm | lia | lia | exact Heq]. }
      lia.
  - rewrite bool_decide_eq_false_2 in Hfi by exact Hfin.
    rewrite bind_wr by lia. eexists _, _. split; [reflexivity|].
    assert (∀ s, 0 ≤ s < N →
              cls (set_class h (upd (class h) i 1)) s
              = if decide (s = i) then 1 else cls h s) as Hcls.
    { intros s Hs. unfold cls. hsimpl. apply sel_upd; lia. }
    split; hsimpl.
    + exact Hsame.
    + exact Hperm.
    + rewrite length_upd. exact Hlc.
    + lia.
    + intros s Hs. apply Hrest. lia.
    + intros s Hs. rewrite Hcls by lia. change (pos (set_class h _) s) with (pos h s).
      destruct (decide (s = i)) as [-> | Hsi].
      { rewrite Hfi. rewrite Hrest by lia. lia. }
      specialize (Hdone s ltac:(lia)). destruct (final_state a s); lia.
Qed.

Lemma finals_first_loop h0 :
  perm_ok N (partition h0) (partitioni h0) → len (class h0) = N →
  (∀ s, 0 ≤ s < N → pos h0 s = s) →
  ∃ h f,
    for_ (seqZ 0 (a_n a)) (λ i '(h, f),
      fin ← rd_final (a_e a) i;
      if decide (fin ≠ 0) then
        c ← wr (class h) i 0;
        let h := set_class h c in
        pf ← rd (partitioni h) f;
        h ← swap h pf i;
        Ok (h, f + 1)
      else
        c ← wr (class h) i 1;
        Ok (set_class h c, f)) (h0, 0) = Ok (h, f)
    ∧ finals_first h0 (a_n a) h f.
Proof.
  intros Hperm Hlc Hid. pose proof (wa_n a Ha) as Hn.
  edestruct (for_seqZ_inv
               (λ i (st : Hopcroft * Z), finals_first h0 i st.1 st.2))
    as ([h f] & Hrun & Hff); [| |intros i [h f] Hi Hff|].
  4: { exists h, f. split; [exact Hrun | exact Hff]. }
  - lia.
  - simpl. split; try assumption; try lia. repeat split.
  - cbv beta iota. simpl in Hff.
    destruct (finals_first_step h0 i h f Hff ltac:(lia)) as (h' & f' & Hrun & Hff').
    exists (h', f'). split; [exact Hrun | exact Hff'].
Qed.
End first_partition.


(** ** Rows written cell by cell *)

Lemma wr_f_upd (es : list Etat) k j v :
  0 ≤ k < len es → 0 ≤ j < len (e_f (sel es k)) →
  wr_f es k j v
  = Ok (upd es k (mkEtat (upd (e_f (sel es k)) j v) (e_final (sel es k)))).
Proof.
  intros Hk Hj. unfold wr_f, set_f. rewrite bind_rd by lia.
  rewrite bind_wr by lia. rewrite Ok_bind. apply wr_upd. lia.
Qed.

Lemma wr_final_upd (es : list Etat) k v :
  0 ≤ k < len es →
  wr_final es k v = Ok (upd es k (mkEtat (e_f (sel es k)) v)).
Proof.
  intros Hk. unfold wr_final, set_final. rewrite bind_rd by lia. apply wr_upd. lia.
Qed.

(** A loop that gives the cell [j] of the row [k] the value [val j]; its
    body may read the other rows and the cells of the row [k] from [j] on,
    which are as they were. *)
Lemma fill_row_cells (es : list Etat) k na
    (body : Z → list Etat → Res (list Etat)) (val : Z → Z) :
  0 ≤ k < len es → len (e_f (sel es k)) = na →
  (∀ j es', 0 ≤ j < na → len es' = len es → len (e_f (sel es' k)) = na →
     (∀ k', 0 ≤ k' → k' ≠ k → sel es' k' = sel es k') →
     (∀ j', j ≤ j' < na → sel (e_f (sel es' k)) j' = sel (e_f (sel es k)) j') →
     e_final (sel es' k) = e_final (sel es k) →
     body j es' = wr_f es' k j (val j)) →
  ∃ es',
    for_ (seqZ 0 na) body es = Ok es'
    ∧ len es' = len es
    ∧ (∀ k', 0 ≤ k' → k' ≠ k → sel es' k' = sel es k')
    ∧ len (e_f (sel es' k)) = na
    ∧ (∀ j, 0 ≤ j < na → sel (e_f (sel es' k)) j = val j)
    ∧ e_final (sel es' k) = e_final (sel es k).
Proof.
  intros Hk Hrow Hbody.
  edestruct (for_seqZ_inv
               (λ i es', len es' = len es
                         ∧ (∀ k', 0 ≤ k' → k' ≠ k → sel es' k' = sel es k')
                         ∧ len (e_f (sel es' k)) = na
                         ∧ (∀ j, 0 ≤ j < i → sel (e_f (sel es' k)) j = val j)
                         ∧ (∀ j, i ≤ j < na →
                              sel (e_f (sel es' k)) j = sel (e_f (sel es k)) j)
                         ∧ e_final (sel es' k) = e_final (sel es k)))
    as (es' & Hrun & Hl & Hoth & Hr & Hv & _ & Hfin);
    [| |intros i es1 Hi (Hl1 & Hoth1 & Hr1 & Hv1 & Hu1 & Hfin1)|].
  4: { exists es'. split; [exact Hrun|]. split; [exact Hl|]. split; [exact Hoth|].
       split; [exact Hr|]. split; [|exact Hfin]. intros j Hj. apply Hv. lia. }
  - pose proof (Zle_0_nat (length (e_f (sel es k)))). lia.
  - repeat split; auto. intros j Hj. lia.
  - rewrite (Hbody i es1) by (auto; lia). rewrite wr_f_upd by lia.
    eexists. split; [reflexivity|].
    split; [rewrite length_upd; exact Hl1|].
    split; [intros k' Hk' Hne; rewrite sel_upd_ne by lia; apply Hoth1; auto|].
    rewrite sel_upd_eq by lia. cbn [e_f e_final].
    split; [rewrite length_upd; exact Hr1|].
    split; [|split; [|exact Hfin1]].
    + intros j Hj. rewrite sel_upd by lia. case_decide; [congruence|]. apply Hv1. lia.
    + intros j Hj. rewrite sel_upd_ne by lia. apply Hu1. lia.
Qed.

(** ** Minimisation: the quotient automaton *)

(** The state of the class [c] that stands for it. *)
Definition rep (h : Hopcroft) (c : Z) : Z := at_pos h (lo h c).

(** The transition and the flag that the class [c] receives. *)
Definition qval (a : Automaton) (h : Hopcroft) (c j : Z) : Z :=
  if decide (a_n a ≤ rep h c) then -1
  else
    let f := sel (e_f (sel (a_e a) (rep h c))) j in
    if decide (f ≠ -1) then cls h f else -1.
Definition qfin (a : Automaton) (h : Hopcroft) (c : Z) : Z :=
  if decide (a_n a ≤ rep h c) then 0 else e_final (sel (a_e a) (rep h c)).

Record is_quotient (a : Automaton) (h : Hopcroft) (r : Automaton) : Prop :=
  mkis_quotient
  { iq_n : a_n r = nclass h;
    iq_na : a_na r = a_na a;
    iq_i : a_i r = if decide (a_i a ≠ -1) then cls h (a_i a) else -1;
    iq_len : len (a_e r) = nclass h;
    iq_row : ∀ c, 0 ≤ c < nclass h → len (e_f (sel (a_e r) c)) = a_na a;
    iq_val : ∀ c j, 0 ≤ c < nclass h → 0 ≤ j < a_na a →
               sel (e_f (sel (a_e r) c)) j = qval a h c j;
    iq_fin : ∀ c, 0 ≤ c < nclass h → e_final (sel (a_e r) c) = qfin a h c }.

Section quotient.
Context (a : Automaton) (Ha : wf_alloc a).
Local Abbreviation N := (a_n a + 1).
Context (h : Hopcroft) (Hpart : part_ok N h).

Lemma rep_range c : 0 ≤ c < nclass h → 0 ≤ rep h c < N.
Proof.
  intros Hc. destruct (po_ci N h Hpart c Hc) as (Hl & _ & HlN).
  apply (pm_pi _ _ _ (po_perm N h Hpart)). lia.
Qed.

Lemma quotient_row (es : list Etat) i :
  0 ≤ i < nclass h → len es = nclass h → len (e_f (sel es i)) = a_na a →
  ∃ es',
    ('(l, _) ← rd (class_indices h) i;
     e ← rd (partitioni h) l;
     if decide (a_n a ≤ e) then
       es ← for_ (seqZ 0 (a_na a)) (λ j es, wr_f es i j (-1)) es;
       wr_final es i 0
     else
       es ← for_ (seqZ 0 (a_na a)) (λ j es,
               f ← rd_f (a_e a) e j;
               if decide (f ≠ -1) then
                 cf ← rd (class h) f; wr_f es i j cf
               else wr_f es i j (-1)) es;
       fin ← rd_final (a_e a) e;
       wr_final es i fin) = Ok es'
    ∧ len es' = len es
    ∧ (∀ k', 0 ≤ k' → k' ≠ i → sel es' k' = sel es k')
    ∧ len (e_f (sel es' i)) = a_na a
    ∧ (∀ j, 0 ≤ j < a_na a → sel (e_f (sel es' i)) j = qval a h i j)
    ∧ e_final (sel es' i) = qfin a h i.
Proof.
  intros Hi Hl Hrow.
  pose proof Hpart as [Hpm Hlc Hlci Hncl Hci Hin Hdisj].
  pose proof (pm_len_pi _ _ _ Hpm) as Hlpi.
  destruct (Hci i Hi) as (Hlo & _ & HloN). pose proof (rep_range i Hi) as Hrep.
  rewrite bind_rd by lia.
  assert (lo h i = (sel (class_indices h) i).1) as Hlo' by reflexivity.
  unfold qval, qfin, rep, at_pos in *. rewrite Hlo' in *.
  destruct (sel (class_indices h) i) as [l hi0]. hsimpl. cbv beta iota.
  rewrite bind_rd by lia. set (e := sel (partitioni h) l) in *.
  destruct (decide (a_n a ≤ e)) as [He | He].
  - destruct (fill_row_cells es i (a_na a) (λ j es, wr_f es i j (-1)) (λ _, -1))
      as (es1 & Hrun & Hl1 & Hoth1 & Hr1 & Hv1 & Hfin1);
      [lia | exact Hrow | reflexivity |].
    rewrite Hrun, Ok_bind. rewrite wr_final_upd by lia.
    eexists. split; [reflexivity|].
    split; [rewrite length_upd; exact Hl1|].
    split; [intros k' Hk' Hne; rewrite sel_upd_ne by lia; apply Hoth1; auto|].
    rewrite sel_upd_eq by lia. cbn [e_f e_final]. auto.
  - destruct (fill_row_cells es i (a_na a)
                (λ j es,
                   f ← rd_f (a_e a) e j;
                   if decide (f ≠ -1) then cf ← rd (class h) f; wr_f es i j cf
                   else wr_f es i j (-1))
                (λ j, let f := sel (e_f (sel (a_e a) e)) j in
                      if decide (f ≠ -1) then cls h f else -1))
      as (es1 & Hrun & Hl1 & Hoth1 & Hr1 & Hv1 & Hfin1); [lia | exact Hrow | |].
    { intros j es' Hj _ _ _ _ _. cbv beta zeta.
      rewrite (wf_alloc_rd_f a Ha) by lia. rewrite Ok_bind.
      pose proof (wa_tgt a Ha e j ltac:(lia) Hj).
      case_decide; [|reflexivity]. rewrite bind_rd by lia. reflexivity. }
    rewrite Hrun, Ok_bind. rewrite (wf_alloc_rd_final a Ha) by lia. rewrite Ok_bind.
    rewrite wr_final_upd by lia.
    eexists. split; [reflexivity|].
    split; [rewrite length_upd; exact Hl1|].
    split; [intros k' Hk' Hne; rewrite sel_upd_ne by lia; apply Hoth1; auto|].
    rewrite sel_upd_eq by lia. cbn [e_f e_final]. auto.
Qed.

Lemma quotient_rows :
  1 ≤ nclass h →
  ∃ es,
    for_ (seqZ 0 (nclass h)) (λ i es,
      '(l, _) ← rd (class_indices h) i;
      e ← rd (partitioni h) l;
      if decide (a_n a ≤ e) then
        es ← for_ (seqZ 0 (a_na a)) (λ j es, wr_f es i j (-1)) es;
        wr_final es i 0
      else
        es ← for_ (seqZ 0 (a_na a)) (λ j es,
                f ← rd_f (a_e a) e j;
                if decide (f ≠ -1) then
                  cf ← rd (class h) f; wr_f es i j cf
                else wr_f es i j (-1)) es;
        fin ← rd_final (a_e a) e;
        wr_final es i fin) (a_e (NewAutomaton (nclass h) (a_na a))) = Ok es
    ∧ len es = nclass h
    ∧ (∀ c, 0 ≤ c < nclass h → len (e_f (sel es c)) = a_na a)
    ∧ (∀ c j, 0 ≤ c < nclass h → 0 ≤ j < a_na a →
         sel (e_f (sel es c)) j = qval a h c j)
    ∧ (∀ c, 0 ≤ c < nclass h → e_final (sel es c) = qfin a h c).
Proof.
  intros Hn. pose proof (wa_na a Ha) as Hna.
  edestruct (for_seqZ_inv
               (λ i es, len es = nclass h
                        ∧ (∀ c, 0 ≤ c < nclass h → len (e_f (sel es c)) = a_na a)
                        ∧ (∀ c j, 0 ≤ c < i → 0 ≤ j < a_na a →
                             sel (e_f (sel es c)) j = qval a h c j)
                        ∧ (∀ c, 0 ≤ c < i → e_final (sel es c) = qfin a h c)))
    as (es & Hrun & Hl & Hrow & Hval & Hfin);
    [| |intros i es1 Hi (Hl1 & Hrow1 & Hval1 & Hfin1)|].
  4: { exists es. split; [exact Hrun|]. split; [exact Hl|]. split; [exact Hrow|].
       split; [intros c j Hc; apply Hval; lia | intros c Hc; apply Hfin; lia]. }
  - lia.
  - unfold NewAutomaton. rewrite decide_False by lia. cbn [a_e].
    split; [rewrite length_replicate; lia|].
    split; [|split; intros; lia].
    intros c Hc. rewrite sel_replicate by lia. cbn [e_f]. rewrite length_replicate. lia.
  - cbv beta.
    destruct (quotient_row es1 i ltac:(lia) Hl1 (Hrow1 i ltac:(lia)))
      as (es2 & Hrun & Hl2 & Hoth2 & Hr2 & Hv2 & Hfin2).
    exists es2. split; [exact Hrun|]. split; [lia|].
    split; [|split].
    + intros c Hc. destruct (decide (c = i)) as [-> | Hne]; [exact Hr2|].
      rewrite Hoth2 by lia. apply Hrow1, Hc.
    + intros c j Hc Hj. destruct (decide (c = i)) as [-> | Hne]; [apply Hv2, Hj|].
      rewrite Hoth2 by lia. apply Hval1; lia.
    + intros c Hc. destruct (decide (c = i)) as [-> | Hne]; [exact Hfin2|].
      rewrite Hoth2 by lia. apply Hfin1. lia.
Qed.
End quotient.


(** ** Minimisation: the language of the quotient *)

Section quotient_wf.
Context (a : Automaton) (Ha : wf_alloc a).
Local Abbreviation N := (a_n a + 1).
Context (h : Hopcroft) (Hpart : part_ok N h).
Context (r : Automaton) (Hq : is_quotient a h r).

Lemma qval_range c j :
  0 ≤ c < nclass h → 0 ≤ j < a_na a → -1 ≤ qval a h c j < nclass h.
Proof.
  intros Hc Hj. unfold qval. pose proof (rep_range a h Hpart c Hc) as Hrep.
  case_decide; [lia|]. cbv zeta. case_decide; [|lia].
  pose proof (wa_tgt a Ha (rep h c) j ltac:(lia) Hj).
  assert (0 ≤ sel (e_f (sel (a_e a) (rep h c))) j < N) as Hf by lia.
  destruct (po_in N h Hpart _ Hf) as [Hr _]. lia.
Qed.

Lemma quotient_wf_alloc : wf_alloc r.
Proof.
  destruct Hq as [Hn Hna Hi Hlen Hrow Hval Hfin].
  pose proof (po_nclass N h Hpart) as Hncl.
  split.
  - lia.
  - rewrite Hna. apply (wa_na a Ha).
  - intros k Hk. rewrite Hna. apply Hrow. lia.
  - intros k c Hk Hc. rewrite Hval by lia. rewrite Hn. apply qval_range; lia.
  - intros k Hk. rewrite Hfin by lia. unfold qfin.
    pose proof (rep_range a h Hpart k ltac:(lia)).
    destruct (decide (a_n a ≤ rep h k)); [auto|]. apply (wa_fin a Ha). lia.
  - rewrite Hi, Hn. pose proof (wa_i a Ha) as Hia.
    destruct (decide (a_i a ≠ -1)); [|lia].
    assert (0 ≤ a_i a < N) as Hir by lia.
    destruct (po_in N h Hpart _ Hir). lia.
Qed.

Lemma quotient_delta c j :
  0 ≤ c < nclass h → 0 ≤ j < a_na a →
  delta r c j = if decide (qval a h c j = -1) then nclass h else qval a h c j.
Proof.
  intros Hc Hj. destruct Hq as [Hn Hna Hi Hlen Hrow Hval Hfin].
  unfold delta. rewrite Hn, Hna. rewrite decide_True by lia. cbv zeta.
  rewrite Hval by lia. reflexivity.
Qed.

Lemma quotient_final c :
  0 ≤ c < nclass h → final_state r c = bool_decide (qfin a h c ≠ 0).
Proof.
  intros Hc. destruct Hq as [Hn Hna Hi Hlen Hrow Hval Hfin].
  unfold final_state. apply bool_decide_ext. rewrite Hn, (Hfin c Hc). tauto.
Qed.
End quotient_wf.

Section quotient_language.
Context (a : Automaton) (Ha : wf_alloc a).
Local Abbreviation N := (a_n a + 1).
Context (h : Hopcroft) (Hinv : hop_inv a h).
Context (Href : refined a h 0 (a_na a)) (HnL : nL h = 0).
Context (r : Automaton) (Hq : is_quotient a h r).

Lemma rep_class c : 0 ≤ c < nclass h → 0 ≤ rep h c ≤ a_n a ∧ cls h (rep h c) = c.
Proof.
  intros Hc. pose proof (hv_part a h Hinv) as Hpart.
  pose proof (hv_ne a h Hinv c Hc) as Hne.
  destruct (class_at_pos N h c (lo h c) Hpart Hc ltac:(lia)) as (Hr & Hcl & _).
  unfold rep. split; [lia | exact Hcl].
Qed.

(** A state in the class of the sink accepts nothing. *)
Lemma sink_class_dead w :
  ∀ u, 0 ≤ u ≤ a_n a → cls h u = cls h (a_n a) → accepts_sink a u w = false.
Proof.
  pose proof (wa_n a Ha) as Hn.
  induction w as [|c w IH]; intros u Hu Hcl.
  - unfold accepts_sink, run_sink. simpl.
    rewrite (rf_fin a h _ _ Href u (a_n a) Hu ltac:(lia) Hcl).
    apply final_state_sink.
  - rewrite accepts_sink_cons. apply IH; [apply (delta_range a Ha)|].
    rewrite (refined_stable a h u (a_n a) c Href HnL Hu ltac:(lia) Hcl).
    rewrite delta_sink. reflexivity.
Qed.

Lemma quotient_sink_dead w : accepts_sink r (nclass h) w = false.
Proof. rewrite <- (iq_n a h r Hq). apply accepts_sink_sink. Qed.

(** The class of a state accepts, in the quotient, the words that the state
    accepts. *)
Lemma quotient_accepts w :
  ∀ s, 0 ≤ s ≤ a_n a → accepts_sink r (cls h s) w = accepts_sink a s w.
Proof.
  pose proof (hv_part a h Hinv) as Hpart. pose proof (wa_n a Ha) as Hn.
  induction w as [|c w IH]; intros s Hs.
  - unfold accepts_sink, run_sink. simpl.
    destruct (po_in N h Hpart s ltac:(lia)) as [Hc _].
    destruct (rep_class _ Hc) as [Hrep Hrc].
    rewrite (quotient_final a h r Hq _ Hc).
    rewrite <- (rf_fin a h _ _ Href (rep h (cls h s)) s Hrep Hs Hrc).
    unfold qfin, final_state. case_decide as Hd.
    + rewrite bool_decide_eq_false_2 by tauto.
      symmetry. apply bool_decide_eq_false_2. lia.
    + apply bool_decide_ext. split; [intros H; split; [lia | exact H] | tauto].
  - rewrite !accepts_sink_cons.
    destruct (po_in N h Hpart s ltac:(lia)) as [Hc _].
    destruct (rep_class _ Hc) as [Hrep Hrc].
    pose proof (refined_stable a h (rep h (cls h s)) s c Href HnL Hrep Hs Hrc) as Hst.
    destruct (decide (0 ≤ c < a_na a)) as [Hcr | Hcr].
    2: { unfold delta. rewrite (iq_n a h r Hq), (iq_na a h r Hq).
         rewrite !(decide_False (P := _ ∧ _)) by tauto.
         rewrite quotient_sink_dead. symmetry. apply accepts_sink_sink. }
    rewrite (quotient_delta a h r Hq _ _ Hc Hcr).
    pose proof (delta_range a Ha s c) as Hds.
    unfold qval. unfold delta at 1 in Hst.
    destruct (decide (a_n a ≤ rep h (cls h s))) as [Hsink | Hstate].
    + rewrite decide_True by reflexivity.
      rewrite (decide_False (P := _ ∧ _)) in Hst by lia.
      rewrite quotient_sink_dead. symmetry. apply sink_class_dead; [exact Hds|].
      symmetry. exact Hst.
    + rewrite (decide_True (P := _ ∧ _)) in Hst by lia. cbv zeta in Hst |- *.
      pose proof (wa_tgt a Ha (rep h (cls h s)) c ltac:(lia) Hcr) as Htgt.
      destruct (decide (sel (e_f (sel (a_e a) (rep h (cls h s)))) c ≠ -1)) as [Hf | Hf].
      * rewrite decide_False in Hst by exact Hf.
        assert (0 ≤ sel (e_f (sel (a_e a) (rep h (cls h s)))) c < N) as Hfr by lia.
        destruct (po_in N h Hpart _ Hfr) as [Hcf _].
        rewrite decide_False by lia. rewrite Hst. apply IH, Hds.
      * rewrite decide_True in Hst by lia. rewrite decide_True by reflexivity.
        rewrite quotient_sink_dead. symmetry. apply sink_class_dead; [exact Hds|].
        symmetry. exact Hst.
Qed.

(** Two states of the quotient do not accept the same words. *)
Lemma quotient_distinct c1 c2 :
  0 ≤ c1 < nclass h → 0 ≤ c2 < nclass h → c1 ≠ c2 →
  ∃ w, accepts_sink r c1 w ≠ accepts_sink r c2 w.
Proof.
  intros H1 H2 Hne.
  destruct (rep_class _ H1) as [Hr1 Hc1]. destruct (rep_class _ H2) as [Hr2 Hc2].
  destruct (rf_dist a h _ _ Href (rep h c1) (rep h c2) Hr1 Hr2) as (w & Hw);
    [congruence|].
  exists w. rewrite <- Hc1, <- Hc2. rewrite !quotient_accepts by assumption. exact Hw.
Qed.
End quotient_language.


(** ** Deletion of a state in place *)

(** The target [f] once the state [e] is gone. *)
Definition shift (e f : Z) : Z :=
  if decide (f ≠ e) then f - b2z (bool_decide (e ≤ f)) else -1.

(** [r] is [a] without its state [e]: the rows above [e] moved down by one. *)
Record deleted (a : Automaton) (e : Z) (r : Automaton) : Prop := mkdeleted
  { dl_n : a_n r = a_n a - 1;
    dl_na : a_na r = a_na a;
    dl_i : a_i r = if decide (e = a_i a) then -1
                   else a_i a - b2z (bool_decide (e ≤ a_i a));
    dl_len : len (a_e r) = len (a_e a);
    dl_row : ∀ k, 0 ≤ k < a_n a - 1 → len (e_f (sel (a_e r) k)) = a_na a;
    dl_val : ∀ k j, 0 ≤ k < a_n a - 1 → 0 ≤ j < a_na a →
               sel (e_f (sel (a_e r) k)) j
               = shift e (sel (e_f (sel (a_e a) (k + b2z (bool_decide (e ≤ k))))) j);
    dl_fin : ∀ k, 0 ≤ k < a_n a - 1 →
               e_final (sel (a_e r) k)
               = e_final (sel (a_e a) (k + b2z (bool_decide (e ≤ k)))) }.

Section delete_vertex.
Context (a : Automaton) (Ha : wf_alloc a) (e : Z).

Lemma DeleteVertexOP_row (es : list Etat) i :
  0 ≤ i < a_n a - 1 → len es = len (a_e a) →
  (∀ k, i ≤ k < a_n a → sel es k = sel (a_e a) k) →
  let src := i + b2z (bool_decide (e ≤ i)) in
  ∃ es',
    (es ← for_ (seqZ 0 (a_na a)) (λ j es,
             f ← rd_f es src j;
             if decide (f ≠ e)
             then wr_f es i j (f - b2z (bool_decide (e ≤ f)))
             else wr_f es i j (-1)) es;
     fin ← rd_final es src;
     wr_final es i fin) = Ok es'
    ∧ len es' = len es
    ∧ (∀ k', 0 ≤ k' → k' ≠ i → sel es' k' = sel es k')
    ∧ len (e_f (sel es' i)) = a_na a
    ∧ (∀ j, 0 ≤ j < a_na a →
         sel (e_f (sel es' i)) j = shift e (sel (e_f (sel (a_e a) src)) j))
    ∧ e_final (sel es' i) = e_final (sel (a_e a) src).
Proof.
  intros Hi Hl Hrest src. pose proof (wa_n a Ha) as Hn.
  assert (i ≤ src < a_n a) as Hsrc by (unfold src, b2z; case_bool_decide; lia).
  assert (len (e_f (sel es i)) = a_na a) as Hrow
    by (rewrite Hrest by lia; apply (wa_row a Ha); lia).
  destruct (fill_row_cells es i (a_na a)
              (λ j es,
                 f ← rd_f es src j;
                 if decide (f ≠ e)
                 then wr_f es i j (f - b2z (bool_decide (e ≤ f)))
                 else wr_f es i j (-1))
              (λ j, shift e (sel (e_f (sel (a_e a) src)) j)))
    as (es1 & Hrun & Hl1 & Hoth1 & Hr1 & Hv1 & Hfin1); [lia | exact Hrow | |].
  { intros j es' Hj Hl' Hr' Hoth' Hcells' _. cbv beta.
    assert (rd_f es' src j = Ok (sel (e_f (sel (a_e a) src)) j)) as ->.
    { unfold rd_f. rewrite bind_rd by lia.
      destruct (decide (src = i)) as [Heq | Hne].
      - rewrite Heq in *. rewrite rd_sel by lia. rewrite Hcells' by lia.
        rewrite Hrest by lia. reflexivity.
      - rewrite Hoth' by lia. rewrite Hrest by lia. apply rd_sel.
        rewrite (wa_row a Ha) by lia. exact Hj. }
    rewrite Ok_bind. unfold shift. case_decide; reflexivity. }
  rewrite Hrun, Ok_bind.
  assert (rd_final es1 src = Ok (e_final (sel (a_e a) src))) as ->.
  { unfold rd_final. rewrite bind_rd by lia.
    destruct (decide (src = i)) as [Heq | Hne].
    - rewrite Heq in *. rewrite Hfin1, Hrest by lia. reflexivity.
    - rewrite Hoth1 by lia. rewrite Hrest by lia. reflexivity. }
  rewrite Ok_bind. rewrite wr_final_upd by lia.
  eexists. split; [reflexivity|].
  split; [rewrite length_upd; exact Hl1|].
  split; [intros k' Hk' Hne; rewrite sel_upd_ne by lia; apply Hoth1; auto|].
  rewrite sel_upd_eq by lia. cbn [e_f e_final]. auto.
Qed.

Lemma DeleteVertexOP_deleted :
  2 ≤ a_n a → ∃ r, DeleteVertexOP a e = Ok r ∧ deleted a e r.
Proof.
  intros Hn2. pose proof (wa_n a Ha) as Hn. unfold DeleteVertexOP. cbv zeta.
  rewrite decide_False by lia.
  edestruct (for_seqZ_inv
               (λ i es,
                  len es = len (a_e a)
                  ∧ (∀ k, i ≤ k < a_n a → sel es k = sel (a_e a) k)
                  ∧ (∀ k, 0 ≤ k < i → len (e_f (sel es k)) = a_na a)
                  ∧ (∀ k j, 0 ≤ k < i → 0 ≤ j < a_na a →
                       sel (e_f (sel es k)) j
                       = shift e (sel (e_f (sel (a_e a)
                                                (k + b2z (bool_decide (e ≤ k))))) j))
                  ∧ (∀ k, 0 ≤ k < i →
                       e_final (sel es k)
                       = e_final (sel (a_e a) (k + b2z (bool_decide (e ≤ k)))))))
    as (es & Hrun & Hl & _ & Hrow & Hval & Hfin);
    [| |intros i es1 Hi (Hl1 & Hrest1 & Hrow1 & Hval1 & Hfin1)|].
  4: { rewrite Hrun, Ok_bind. eexists. split; [reflexivity|].
       split; cbn [a_e a_n a_na a_i]; auto. }
  - lia.
  - split; [reflexivity|]. split; [reflexivity|]. repeat split; intros; lia.
  - cbv beta.
    destruct (DeleteVertexOP_row es1 i ltac:(lia) Hl1 Hrest1)
      as (es2 & Hrun & Hl2 & Hoth2 & Hr2 & Hv2 & Hfin2).
    exists es2. split; [exact Hrun|]. split; [lia|].
    split; [intros k Hk; rewrite Hoth2 by lia; apply Hrest1; lia|].
    split; [|split].
    + intros k Hk. destruct (decide (k = i)) as [-> | Hne]; [exact Hr2|].
      rewrite Hoth2 by lia. apply Hrow1. lia.
    + intros k j Hk Hj. destruct (decide (k = i)) as [-> | Hne]; [apply Hv2, Hj|].
      rewrite Hoth2 by lia. apply Hval1; lia.
    + intros k Hk. destruct (decide (k = i)) as [-> | Hne]; [exact Hfin2|].
      rewrite Hoth2 by lia. apply Hfin1. lia.
Qed.
End delete_vertex.

(** ** The language after the deletion of a state that no transition enters *)

Section deleted_language.
Context (a : Automaton) (Ha : wf_alloc a) (e : Z) (He : 0 ≤ e < a_n a).
Context (Hn2 : 2 ≤ a_n a).
Context (Hisolated : ∀ k j, 0 ≤ k < a_n a → 0 ≤ j < a_na a →
                       sel (e_f (sel (a_e a) k)) j ≠ e).
Context (r : Automaton) (Hr : deleted a e r).

(** The number of a state after the deletion. *)
Definition renumber (c : Z) : Z := c - b2z (bool_decide (e < c)).

Lemma renumber_source c :
  0 ≤ c < a_n a → c ≠ e →
  0 ≤ renumber c < a_n a - 1
  ∧ renumber c + b2z (bool_decide (e ≤ renumber c)) = c.
Proof.
  intros Hc Hne. unfold renumber, b2z.
  destruct (bool_decide_reflect (e < c)).
  - rewrite bool_decide_eq_true_2 by lia. lia.
  - rewrite bool_decide_eq_false_2 by lia. lia.
Qed.

Lemma deleted_wf_alloc : wf_alloc r.
Proof.
  destruct Hr as [Hn Hna Hi Hlen Hrow Hval Hfin]. pose proof (wa_n a Ha) as Hna'.
  assert (∀ k, 0 ≤ k < a_n a - 1 →
            0 ≤ k + b2z (bool_decide (e ≤ k)) < a_n a) as Hsrc
    by (intros k Hk; unfold b2z; destruct (bool_decide (e ≤ k)); lia).
  split.
  - lia.
  - rewrite Hna. apply (wa_na a Ha).
  - intros k Hk. rewrite Hna. apply Hrow. lia.
  - intros k c Hk Hc. rewrite Hval by lia. rewrite Hn.
    pose proof (wa_tgt a Ha _ c (Hsrc k ltac:(lia)) ltac:(lia)) as Ht.
    set (f := sel (e_f (sel (a_e a) (k + b2z (bool_decide (e ≤ k))))) c) in *.
    unfold shift. destruct (decide (f ≠ e)); [|lia].
    unfold b2z. destruct (bool_decide_reflect (e ≤ f)); lia.
  - intros k Hk. rewrite Hfin by lia. apply (wa_fin a Ha), Hsrc. lia.
  - rewrite Hi, Hn. pose proof (wa_i a Ha). unfold b2z.
    destruct (decide (e = a_i a)); [lia|].
    destruct (bool_decide_reflect (e ≤ a_i a)); lia.
Qed.

Lemma deleted_delta c j :
  0 ≤ c ≤ a_n a → c ≠ e →
  delta a c j ≠ e ∧ delta r (renumber c) j = renumber (delta a c j).
Proof.
  intros Hc Hne. destruct Hr as [Hn Hna Hi Hlen Hrow Hval Hfin].
  assert (renumber (a_n a) = a_n a - 1) as Hsink
    by (unfold renumber, b2z; rewrite bool_decide_eq_true_2 by lia; reflexivity).
  unfold delta. rewrite Hn, Hna.
  destruct (decide (c = a_n a)) as [-> | Hcn].
  { rewrite Hsink. rewrite !(decide_False (P := _ ∧ _)) by lia.
    split; [lia | symmetry; exact Hsink]. }
  destruct (renumber_source c ltac:(lia) Hne) as [Hrc Hsrc].
  destruct (decide (0 ≤ j < a_na a)) as [Hj | Hj].
  2: { rewrite !(decide_False (P := _ ∧ _)) by tauto.
       split; [lia | symmetry; exact Hsink]. }
  rewrite !(decide_True (P := _ ∧ _)) by lia. cbv zeta.
  rewrite Hval by lia. rewrite Hsrc.
  pose proof (Hisolated c j ltac:(lia) Hj) as Hiso.
  pose proof (wa_tgt a Ha c j ltac:(lia) Hj) as Ht.
  set (f := sel (e_f (sel (a_e a) c)) j) in *.
  assert (shift e f = f - b2z (bool_decide (e ≤ f))) as ->
    by (unfold shift; rewrite (decide_True (P := f ≠ e)) by exact Hiso; reflexivity).
  destruct (decide (f = -1)) as [Hf | Hf].
  - rewrite Hf. rewrite (bool_decide_eq_false_2 (e ≤ -1)) by lia.
    cbn [b2z]. rewrite decide_True by lia. split; [lia | symmetry; exact Hsink].
  - split; [exact Hiso|]. unfold renumber, b2z.
    destruct (bool_decide_reflect (e ≤ f)).
    + rewrite decide_False by lia. rewrite bool_decide_eq_true_2 by lia. reflexivity.
    + rewrite decide_False by lia. rewrite bool_decide_eq_false_2 by lia. reflexivity.
Qed.

Lemma deleted_final c :
  0 ≤ c ≤ a_n a → c ≠ e → final_state r (renumber c) = final_state a c.
Proof.
  intros Hc Hne. destruct Hr as [Hn Hna Hi Hlen Hrow Hval Hfin].
  unfold final_state. apply bool_decide_ext. rewrite Hn.
  destruct (decide (c = a_n a)) as [-> | Hcn].
  { unfold renumber, b2z. rewrite bool_decide_eq_true_2 by lia. lia. }
  destruct (renumber_source c ltac:(lia) Hne) as [Hrc Hsrc].
  rewrite (Hfin _ Hrc). rewrite Hsrc. split; intros [_ H]; (split; [lia | exact H]).
Qed.

Lemma deleted_accepts w :
  ∀ c, 0 ≤ c ≤ a_n a → c ≠ e →
       accepts_sink r (renumber c) w = accepts_sink a c w.
Proof.
  induction w as [|j w IH]; intros c Hc Hne.
  - apply deleted_final; assumption.
  - rewrite !accepts_sink_cons.
    destruct (deleted_delta c j Hc Hne) as [Hd ->].
    apply IH; [apply (delta_range a Ha) | exact Hd].
Qed.
End deleted_language.


(** ** Minimisation: from the first partition to the last *)

Section start_state.
Context (a : Automaton) (Ha : wf_alloc a) (Hn1 : 1 ≤ a_n a).
Local Abbreviation N := (a_n a + 1).
Context (h0 h1 : Hopcroft) (f : Z).
Context (Hff : finals_first a h0 (a_n a) h1 f).
Context (Hlci : len (class_indices h0) = N) (HlL : len (L h0) = N).
Context (Hlpt : len (pt_visited_class h0) = N)
        (Hpt0 : ∀ c, 0 ≤ c < N → sel (pt_visited_class h0) c = 0).
Context (Hlet : len (etats h0) = N) (Htr : trans_ok a (transitioni h0)).
Context (v lw : list Z) (Hlv : len v = N) (Hllw : len lw = N).
Context (Hlw : sel lw 0 = 0 ∨ sel lw 0 = 1).

(** The state when the loop [while (nL)] begins: class 0 holds the [f]
    final states, class 1 the others and the sink. *)
Definition start : Hopcroft :=
  set_L
    (set_nclass
       (set_visited_class
          (set_class_indices
             (set_class h1 (upd (class h1) (a_n a) 1))
             (upd (upd (class_indices h1) 0 (0, f)) 1 (f, a_n a + 1)))
          v)
       2)
    lw 1.

Lemma start_cls s :
  0 ≤ s ≤ a_n a →
  cls start s = if decide (s = a_n a) then 1 else if final_state a s then 0 else 1.
Proof.
  intros Hs. destruct Hff as [Hsame Hperm Hlc Hf Hrest Hdone].
  unfold cls, start. hsimpl. rewrite sel_upd by lia. case_decide; [reflexivity|].
  specialize (Hdone s ltac:(lia)). unfold cls in Hdone.
  destruct (final_state a s); tauto.
Qed.

Lemma start_part : part_ok N start.
Proof.
  destruct Hff as [Hsame Hperm Hlc Hf Hrest Hdone].
  destruct Hsame as (Hci & _).
  assert (lo start 0 = 0 ∧ hi start 0 = f ∧ lo start 1 = f ∧ hi start 1 = N)
    as (Hl0 & Hh0 & Hl1 & Hh1).
  { unfold lo, hi, start. hsimpl.
    rewrite !sel_upd_eq by (rewrite ?length_upd, Hci; lia).
    rewrite sel_upd_ne by lia. rewrite sel_upd_eq by (rewrite Hci; lia). auto. }
  assert (∀ c, 0 ≤ c < 2 → c = 0 ∨ c = 1) as Hc2 by (intros; lia).
  split.
  - exact Hperm.
  - unfold start. hsimpl. rewrite length_upd. exact Hlc.
  - unfold start. hsimpl. rewrite !length_upd, Hci. exact Hlci.
  - unfold start. hsimpl. lia.
  - intros c Hc. change (nclass start) with 2 in Hc.
    destruct (Hc2 c Hc) as [-> | ->]; lia.
  - intros s Hs. change (nclass start) with 2. rewrite start_cls by lia.
    change (pos start s) with (pos h1 s).
    destruct (pm_p _ _ _ Hperm s Hs) as [Hps _]. fold (pos h1 s) in Hps.
    destruct (decide (s = a_n a)) as [-> | Hsn].
    { rewrite Hl1, Hh1. rewrite (Hrest (a_n a)) by lia. lia. }
    specialize (Hdone s ltac:(lia)).
    destruct (final_state a s); [rewrite Hl0, Hh0 | rewrite Hl1, Hh1]; lia.
  - intros c c' Hc Hc' Hne. change (nclass start) with 2 in Hc, Hc'.
    destruct (Hc2 c Hc) as [-> | ->], (Hc2 c' Hc') as [-> | ->]; lia.
Qed.

Lemma start_hop_inv : 0 < f → hop_inv a start.
Proof.
  intros Hf0. pose proof Hff as [Hsame Hperm Hlc Hf Hrest Hdone].
  destruct Hsame as (Hci & Hncl & Htri & HL & HnL & Hpt & Hvis & Het).
  split.
  - exact start_part.
  - intros c Hc. change (nclass start) with 2 in Hc.
    unfold lo, hi, start. hsimpl.
    assert (c = 0 ∨ c = 1) as [-> | ->] by lia.
    + rewrite sel_upd_ne by lia. rewrite sel_upd_eq by (rewrite Hci; lia). hsimpl. lia.
    + rewrite sel_upd_eq by (rewrite ?length_upd, Hci; lia). hsimpl. lia.
  - unfold start. hsimpl. rewrite Htri. exact Htr.
  - exact Hllw.
  - unfold start. hsimpl. rewrite Hpt. exact Hlpt.
  - exact Hlv.
  - unfold start. hsimpl. rewrite Het. exact Hlet.
  - unfold start. hsimpl. rewrite Hpt. exact Hpt0.
  - unfold start. hsimpl. lia.
Qed.

Lemma start_refined : refined a start 0 (a_na a).
Proof.
  assert (∀ s, 0 ≤ s ≤ a_n a →
            cls start s = if final_state a s then 0 else 1) as Hcls.
  { intros s Hs. rewrite start_cls by exact Hs. case_decide as Hd; [|reflexivity].
    rewrite Hd, final_state_sink. reflexivity. }
  split.
  - intros m Hm. unfold start in *. hsimpl. assert (m = 0) as -> by lia. lia.
  - intros s t Hs Ht. rewrite !Hcls by assumption.
    destruct (final_state a s), (final_state a t); intros; try reflexivity; lia.
  - intros s t Hs Ht. rewrite !Hcls by assumption. intros Hne. exists [].
    unfold accepts_sink, run_sink. simpl.
    destruct (final_state a s), (final_state a t); congruence.
  - intros s t b Hs Ht Hb _.
    pose proof (delta_range a Ha s b) as Hds. pose proof (delta_range a Ha t b) as Hdt.
    rewrite !Hcls by assumption. intros Hne.
    destruct (decide (sel lw 0 = if final_state a (delta a s b) then 0 else 1))
      as [Heq | Hneq].
    + left. left. exists 0. split; [unfold start; hsimpl; lia|].
      unfold start. hsimpl. exact Heq.
    + right. left. exists 0. split; [unfold start; hsimpl; lia|].
      unfold start. hsimpl.
      destruct (final_state a (delta a s b)), (final_state a (delta a t b)); lia.
Qed.
End start_state.


(** ** Minimisation: the whole run *)

(** [split] against a class that has no state does nothing. *)
Lemma split_empty h C c0 l :
  0 ≤ C < len (class_indices h) → sel (class_indices h) C = (l, l) →
  split h C c0 = Ok h.
Proof.
  intros HC Hci. unfold split. rewrite bind_rd by lia. rewrite Hci. cbv beta iota.
  rewrite Z.sub_diag. rewrite (seqZ_nil l 0) by lia. cbn [for_].
  rewrite Ok_bind. cbv zeta. rewrite Ok_bind. cbv beta iota.
  rewrite (seqZ_nil 0 0) by lia. cbn [for_]. destruct h; reflexivity.
Qed.

Lemma Minimise_loop_empty fuel na h l :
  0 ≤ na → nL h = 1 → 0 < len (L h) → sel (L h) 0 = 0 →
  0 < len (class_indices h) → sel (class_indices h) 0 = (l, l) →
  Minimise_loop (S (S fuel)) na h = Ok (set_L h (L h) 0).
Proof.
  intros Hna HnL HlL HL Hlci Hci. cbn [Minimise_loop].
  rewrite decide_False by lia. cbv zeta. hsimpl. rewrite HnL.
  change (1 - 1) with 0. rewrite bind_rd by lia. rewrite HL.
  set (h1 := set_L h (L h) 0).
  edestruct (for_seqZ_inv (λ (_ : Z) h', h' = h1)) as (h' & -> & ->);
    [exact Hna | reflexivity | |].
  - intros j h' Hj ->. exists h1. split; [|reflexivity].
    apply (split_empty h1 0 j l); [unfold h1; hsimpl; lia | exact Hci].
  - rewrite Ok_bind. rewrite decide_True by reflexivity. reflexivity.
Qed.

Lemma NewAutomaton_n n na : a_n (NewAutomaton n na) = n.
Proof. unfold NewAutomaton. case_decide; reflexivity. Qed.
Lemma NewAutomaton_na n na : a_na (NewAutomaton n na) = na.
Proof. unfold NewAutomaton. case_decide; reflexivity. Qed.

Section Minimise_run.
Context (a : Automaton) (Ha : wf_alloc a) (Hn1 : 1 ≤ a_n a).
Local Abbreviation N := (a_n a + 1).

(** [Minimise] runs to the end: [h] is the last partition, [r0] the quotient
    by it, from which the class of the sink is deleted when the sink is
    alone in it.  When [a] has a final state, the partition is the one that
    the refinement loop is to reach. *)
Lemma Minimise_exec :
  ∃ h r0,
    part_ok N h ∧ is_quotient a h r0 ∧ 2 ≤ nclass h
    ∧ ((∃ s, 0 ≤ s < a_n a ∧ final_state a s = true) →
       hop_inv a h ∧ refined a h 0 (a_na a) ∧ nL h = 0)
    ∧ Minimise a
      = if decide (hi h (cls h (a_n a)) = lo h (cls h (a_n a)) + 1)
        then DeleteVertexOP r0 (cls h (a_n a)) else Ok r0.
Proof.
  pose proof (wa_n a Ha) as Hn. pose proof (wa_na a Ha) as Hna.
  unfold Minimise. cbv zeta. hsimpl.
  destruct (transitioni_init a Ha) as (t1 & t & Ht1 & Ht & Htr).
  cbv zeta in Ht1. rewrite Ht1, Ok_bind, Ht, Ok_bind.
  match goal with |- context [for_ _ _ (?h, 0)] => set (h0 := h) end.
  (* the final states first *)
  destruct (finals_first_loop a Ha h0) as (h1 & f & Hrun & Hff).
  { unfold h0. hsimpl. split.
    - rewrite length_seqZ. lia.
    - rewrite length_seqZ. lia.
    - intros s Hs. rewrite !sel_seqZ by lia. lia.
    - intros s Hs. rewrite !sel_seqZ by lia. lia. }
  { unfold h0. hsimpl. rewrite length_replicate. lia. }
  { intros s Hs. unfold pos, h0. hsimpl. rewrite sel_seqZ by lia. lia. }
  cbv zeta in Hrun. hsimpl. rewrite Hrun, Ok_bind. cbv beta iota.
  pose proof Hff as [Hsame Hperm Hlc Hf Hrest Hdone].
  destruct Hsame as (Hci & Hncl & Htri & HL & HnL & Hpt & Hvis & Het).
  unfold h0 in Hci, Hncl, Htri, HL, HnL, Hpt, Hvis, Het. hsimpl.
  rewrite bind_wr by lia. hsimpl.
  rewrite Hci. rewrite bind_wr by (rewrite length_replicate; lia).
  rewrite bind_wr by (rewrite length_upd, length_replicate; lia). hsimpl.
  rewrite Hvis. rewrite bind_wr by (rewrite length_replicate; lia).
  rewrite bind_wr by (rewrite length_upd, length_replicate; lia). hsimpl.
  rewrite HL. rewrite bind_wr by (rewrite length_replicate; lia). hsimpl.
  rewrite <- Hci.
  match goal with |- context [Minimise_loop _ _ ?h] => set (hs := h) end.
  set (v := upd (upd (replicate (Z.to_nat (a_n a + 1)) UNINIT) 0 0) 1 0) in *.
  set (lw := upd (replicate (Z.to_nat (a_n a + 1)) UNINIT) 0
               (if decide (f ≤ Z.quot (a_n a + 1) 2) then 0 else 1)) in *.
  assert (hs = start a h1 f v lw) as Hhs by reflexivity.
  assert (len v = N) as Hlv by (unfold v; rewrite !length_upd, length_replicate; lia).
  assert (len lw = N) as Hllw by (unfold lw; rewrite !length_upd, length_replicate; lia).
  assert (sel lw 0 = if decide (f ≤ Z.quot (a_n a + 1) 2) then 0 else 1) as Hlw0
    by (unfold lw; apply sel_upd_eq; rewrite length_replicate; lia).
  assert (len (class_indices h0) = N) as Hlci0
    by (unfold h0; hsimpl; rewrite length_replicate; lia).
  assert (len (L h0) = N) as HlL0 by (unfold h0; hsimpl; rewrite length_replicate; lia).
  assert (len (pt_visited_class h0) = N) as Hlpt0
    by (unfold h0; hsimpl; rewrite length_replicate; lia).
  assert (∀ c, 0 ≤ c < N → sel (pt_visited_class h0) c = 0) as Hpt00
    by (intros c Hc; unfold h0; hsimpl; apply sel_replicate; lia).
  assert (len (etats h0) = N) as Hlet0
    by (unfold h0; hsimpl; rewrite length_replicate; lia).
  assert (trans_ok a (transitioni h0)) as Htr0 by exact Htr.
  assert (sel lw 0 = 0 ∨ sel lw 0 = 1) as Hlw01
    by (rewrite Hlw0; case_decide; auto).
  pose proof (start_part a Hn1 h0 h1 f Hff Hlci0 v lw Hlw01) as Hparts.
  rewrite <- Hhs in Hparts.
  (* the refinement *)
  assert (∃ h, Minimise_loop (Z.to_nat (a_n a) + 3) (a_na a) hs = Ok h
               ∧ part_ok N h ∧ 2 ≤ nclass h
               ∧ ((∃ s, 0 ≤ s < a_n a ∧ final_state a s = true) →
                  hop_inv a h ∧ refined a h 0 (a_na a) ∧ nL h = 0))
    as (h & Hloop & Hpart & Hncl2 & Hsem).
  { destruct (decide (0 < f)) as [Hf0 | Hf0].
    - pose proof (start_hop_inv a Hn1 h0 h1 f Hff Hlci0 Hlpt0 Hpt00 Hlet0 Htr0
                    v lw Hlv Hllw Hlw01 Hf0) as Hinv.
      pose proof (start_refined a Ha Hn1 h0 h1 f Hff v lw Hlw01) as Href.
      rewrite <- Hhs in Hinv, Href.
      destruct (Minimise_loop_spec a Ha (Z.to_nat (a_n a) + 3)%nat hs Hinv Href)
        as (h & Hloop & Hinv' & Href' & HnL' & Hn').
      { unfold hs. hsimpl. lia. }
      exists h. split; [exact Hloop|]. split; [apply (hv_part a h Hinv')|].
      split; [unfold hs in Hn'; hsimpl; lia | auto].
    - assert (f = 0) as Hf00 by lia.
      replace (Z.to_nat (a_n a) + 3)%nat with (S (S (Z.to_nat (a_n a) + 1))) by lia.
      rewrite (Minimise_loop_empty _ _ hs 0); try (unfold hs; hsimpl; lia).
      + eexists. split; [reflexivity|].
        split; [destruct Hparts; split; assumption|].
        split; [unfold hs; hsimpl; lia|].
        intros (s & Hs & Hfin). specialize (Hdone s Hs). rewrite Hfin in Hdone.
        destruct (pm_p _ _ _ Hperm s ltac:(lia)) as [Hps _]. unfold pos in Hdone. lia.
      + unfold hs. hsimpl. rewrite Hlw0. rewrite decide_True; [reflexivity|].
        rewrite Hf00. apply Z.quot_pos; lia.
      + unfold hs. hsimpl. rewrite !length_upd, Hci, length_replicate. lia.
      + unfold hs. hsimpl. rewrite sel_upd_ne by lia.
        rewrite sel_upd_eq by (rewrite Hci, length_replicate; lia).
        rewrite Hf00. reflexivity. }
  rewrite Hloop, Ok_bind.
  (* the quotient *)
  pose proof Hpart as [Hpm' Hlc' Hlci' Hncl' Hci' Hin' Hdisj'].
  destruct (quotient_rows a Ha h Hpart ltac:(lia)) as (es & Hes & Hles & Hrow & Hval & Hfin).
  rewrite Hes, Ok_bind.
  assert (∃ ri, (if decide (a_i a ≠ -1) then rd (class h) (a_i a) else Ok (-1)) = Ok ri
                ∧ ri = if decide (a_i a ≠ -1) then cls h (a_i a) else -1)
    as (ri & -> & Hri).
  { pose proof (wa_i a Ha) as Hia. destruct (decide (a_i a ≠ -1)); [|eauto].
    rewrite rd_sel by lia. eauto. }
  rewrite Ok_bind. rewrite NewAutomaton_n, NewAutomaton_na.
  rewrite bind_rd by lia. fold (cls h (a_n a)).
  destruct (Hin' (a_n a) ltac:(lia)) as [Hcn _].
  exists h, (mkAutomate es (nclass h) (a_na a) ri).
  split; [exact Hpart|]. split; [|split; [exact Hncl2 | split; [exact Hsem|]]].
  - split; cbn [a_e a_n a_na a_i]; auto.
  - rewrite bind_rd by lia. unfold lo, hi.
    destruct (sel (class_indices h) (cls h (a_n a))) as [l hi0]. reflexivity.
Qed.
End Minimise_run.


(** ** Minimisation: the result *)

Section Minimise_result.
Context (a : Automaton) (Ha : wf_alloc a) (Hn1 : 1 ≤ a_n a).
Local Abbreviation N := (a_n a + 1).
Context (h : Hopcroft) (Hpart : part_ok N h) (Hncl : 2 ≤ nclass h).
Context (r0 : Automaton) (Hq : is_quotient a h r0).

(** When the sink is alone in its class, no state of [a] is in that class. *)
Lemma sink_alone f :
  hi h (cls h (a_n a)) = lo h (cls h (a_n a)) + 1 → 0 ≤ f < a_n a →
  cls h f ≠ cls h (a_n a).
Proof.
  intros Hone Hf Heq.
  destruct (po_in N h Hpart f ltac:(lia)) as [_ Hpf].
  destruct (po_in N h Hpart (a_n a) ltac:(lia)) as [_ Hpn].
  rewrite Heq in Hpf.
  assert (f = a_n a); [|lia].
  apply (perm_ok_inj N _ _ f (a_n a) (po_perm N h Hpart)); [lia | lia|].
  unfold pos in *. lia.
Qed.

(** Then no transition of the quotient enters the class of the sink. *)
Lemma quotient_isolated k j :
  hi h (cls h (a_n a)) = lo h (cls h (a_n a)) + 1 →
  0 ≤ k < a_n r0 → 0 ≤ j < a_na r0 →
  sel (e_f (sel (a_e r0) k)) j ≠ cls h (a_n a).
Proof.
  intros Hone Hk Hj. destruct Hq as [Hn Hna Hi Hlen Hrow Hval Hfin].
  rewrite Hval by lia. unfold qval.
  destruct (po_in N h Hpart (a_n a) ltac:(lia)) as [Hcn _].
  pose proof (rep_range a h Hpart k ltac:(lia)) as Hrep.
  destruct (decide (a_n a ≤ rep h k)); [lia|]. cbv zeta.
  pose proof (wa_tgt a Ha (rep h k) j ltac:(lia) ltac:(lia)) as Ht.
  destruct (decide (sel (e_f (sel (a_e a) (rep h k))) j ≠ -1)); [|lia].
  apply sink_alone; [exact Hone | lia].
Qed.

Lemma quotient_initial :
  hi h (cls h (a_n a)) = lo h (cls h (a_n a)) + 1 → a_i r0 ≠ cls h (a_n a).
Proof.
  intros Hone. rewrite (iq_i a h r0 Hq). pose proof (wa_i a Ha) as Hia.
  destruct (po_in N h Hpart (a_n a) ltac:(lia)) as [Hcn _].
  destruct (decide (a_i a ≠ -1)); [|lia]. apply sink_alone; [exact Hone | lia].
Qed.

(** Whatever the automaton, [Minimise] returns an automaton in memory, over
    the same alphabet, with an initial state when [a] has one. *)
Lemma Minimise_returns r :
  (if decide (hi h (cls h (a_n a)) = lo h (cls h (a_n a)) + 1)
   then DeleteVertexOP r0 (cls h (a_n a)) else Ok r0) = Ok r →
  wf_alloc r ∧ a_na r = a_na a ∧ 1 ≤ a_n r ∧ (a_i a ≠ -1 → a_i r ≠ -1).
Proof.
  pose proof (quotient_wf_alloc a Ha h Hpart r0 Hq) as Hwf0.
  pose proof Hq as [Hn Hna Hi Hlen Hrow Hval Hfin].
  destruct (po_in N h Hpart (a_n a) ltac:(lia)) as [Hcn _].
  pose proof (wa_i a Ha) as Hia.
  assert (a_i a ≠ -1 → 0 ≤ a_i r0) as Hi0.
  { intros Hne. rewrite Hi. rewrite decide_True by exact Hne.
    destruct (po_in N h Hpart (a_i a) ltac:(lia)). lia. }
  destruct (decide (hi h (cls h (a_n a)) = lo h (cls h (a_n a)) + 1)) as [Hone | Hmore].
  - intros Hdel.
    destruct (DeleteVertexOP_deleted r0 Hwf0 (cls h (a_n a)) ltac:(lia))
      as (r' & Hrun & Hdl).
    rewrite Hrun in Hdel. injection Hdel as <-.
    split; [apply (deleted_wf_alloc r0 Hwf0 (cls h (a_n a))); [lia | lia | exact Hdl]|].
    destruct Hdl as [Hn' Hna' Hi' _ _ _ _].
    split; [lia|]. split; [lia|].
    intros Hne. rewrite Hi'. pose proof (quotient_initial Hone) as Hinit.
    rewrite decide_False by congruence. specialize (Hi0 Hne).
    unfold b2z. destruct (bool_decide_reflect (cls h (a_n a) ≤ a_i r0)); lia.
  - intros [= <-]. split; [exact Hwf0|]. split; [exact Hna|]. split; [lia|].
    intros Hne. specialize (Hi0 Hne). lia.
Qed.

Context (Hinv : hop_inv a h) (Href : refined a h 0 (a_na a)) (HnL : nL h = 0).

(** When [a] has a final state: the result accepts the words that [a]
    accepts, and no two of its states accept the same words. *)
Lemma Minimise_language r :
  (if decide (hi h (cls h (a_n a)) = lo h (cls h (a_n a)) + 1)
   then DeleteVertexOP r0 (cls h (a_n a)) else Ok r0) = Ok r →
  (∀ w, accepts r w = accepts a w)
  ∧ (∀ s t, 0 ≤ s < a_n r → 0 ≤ t < a_n r → s ≠ t →
       ∃ w, accepts_from r s w ≠ accepts_from r t w).
Proof.
  intros Hr. destruct (Minimise_returns r Hr) as (Hwf & _ & _ & Hir).
  pose proof (quotient_wf_alloc a Ha h Hpart r0 Hq) as Hwf0.
  pose proof Hq as [Hn Hna Hi Hlen Hrow Hval Hfin].
  destruct (po_in N h Hpart (a_n a) ltac:(lia)) as [Hcn _].
  pose proof (wa_i a Ha) as Hia.
  destruct (decide (hi h (cls h (a_n a)) = lo h (cls h (a_n a)) + 1)) as [Hone | Hmore].
  - destruct (DeleteVertexOP_deleted r0 Hwf0 (cls h (a_n a)) ltac:(lia))
      as (r' & Hrun & Hdl).
    rewrite Hrun in Hr. injection Hr as <-.
    set (e := cls h (a_n a)) in *.
    assert (∀ w c, 0 ≤ c ≤ a_n r0 → c ≠ e →
              accepts_sink r' (renumber e c) w = accepts_sink r0 c w) as Hren.
    { intros w c Hc Hne.
      apply (deleted_accepts r0 Hwf0 e ltac:(lia)); [|exact Hdl | exact Hc | exact Hne].
      intros k j Hk Hj. apply quotient_isolated; assumption. }
    pose proof Hdl as [Hn' Hna' Hi' _ _ _ _].
    split.
    + intros w. rewrite !accepts_accepts_from.
      destruct (decide (a_i a = -1)) as [Hnone | Hsome].
      * rewrite decide_True; [reflexivity|]. rewrite Hi', Hi.
        rewrite (decide_False (P := a_i a ≠ -1)) by tauto.
        rewrite decide_False by lia.
        rewrite (bool_decide_eq_false_2 (e ≤ -1)) by lia. reflexivity.
      * rewrite decide_False by (apply Hir, Hsome).
        pose proof (quotient_initial Hone) as Hinit. fold e in Hinit.
        assert (a_i r0 = cls h (a_i a)) as Hi0
          by (rewrite Hi; rewrite decide_True by exact Hsome; reflexivity).
        destruct (po_in N h Hpart (a_i a) ltac:(lia)) as [Hci _].
        assert (a_i r' = renumber e (a_i r0)) as ->.
        { rewrite Hi'. rewrite decide_False by congruence. unfold renumber, b2z.
          destruct (bool_decide_reflect (e ≤ a_i r0)), (bool_decide_reflect (e < a_i r0));
            try reflexivity; lia. }
        rewrite (accepts_from_sink r' Hwf)
          by (unfold renumber, b2z; destruct (bool_decide_reflect (e < a_i r0)); lia).
        rewrite Hren by lia. rewrite Hi0.
        rewrite (quotient_accepts a Ha h Hinv Href HnL r0 Hq) by lia.
        symmetry. apply (accepts_from_sink a Ha). lia.
    + intros s t Hs Ht Hne.
      set (c1 := s + b2z (bool_decide (e ≤ s))).
      set (c2 := t + b2z (bool_decide (e ≤ t))).
      assert (0 ≤ c1 < nclass h ∧ c1 ≠ e ∧ renumber e c1 = s) as (Hc1 & Hc1e & Hs1).
      { unfold c1, renumber, b2z. destruct (bool_decide_reflect (e ≤ s)).
        - rewrite bool_decide_eq_true_2 by lia. lia.
        - rewrite bool_decide_eq_false_2 by lia. lia. }
      assert (0 ≤ c2 < nclass h ∧ c2 ≠ e ∧ renumber e c2 = t) as (Hc2 & Hc2e & Ht2).
      { unfold c2, renumber, b2z. destruct (bool_decide_reflect (e ≤ t)).
        - rewrite bool_decide_eq_true_2 by lia. lia.
        - rewrite bool_decide_eq_false_2 by lia. lia. }
      destruct (quotient_distinct a Ha h Hinv Href HnL r0 Hq c1 c2 Hc1 Hc2) as (w & Hw).
      { intros Heq. apply Hne. rewrite <- Hs1, <- Ht2, Heq. reflexivity. }
      exists w. rewrite !(accepts_from_sink r' Hwf) by lia.
      rewrite <- Hs1, <- Ht2. rewrite !Hren by lia. exact Hw.
  - injection Hr as <-. split.
    + intros w. rewrite !accepts_accepts_from. rewrite Hi.
      destruct (decide (a_i a = -1)) as [Hnone | Hsome].
      * rewrite (decide_False (P := a_i a ≠ -1)) by tauto.
        rewrite decide_True by reflexivity. reflexivity.
      * rewrite (decide_True (P := a_i a ≠ -1)) by exact Hsome.
        destruct (po_in N h Hpart (a_i a) ltac:(lia)) as [Hci _].
        rewrite decide_False by lia.
        rewrite (accepts_from_sink r0 Hwf0) by lia.
        rewrite (quotient_accepts a Ha h Hinv Href HnL r0 Hq) by lia.
        symmetry. apply (accepts_from_sink a Ha). lia.
    + intros s t Hs Ht Hne.
      destruct (quotient_distinct a Ha h Hinv Href HnL r0 Hq s t) as (w & Hw);
        [lia | lia | exact Hne|].
      exists w. rewrite !(accepts_from_sink r0 Hwf0) by lia. exact Hw.
Qed.
End Minimise_result.

(** [Minimise] is total on the automata that have a state. *)
Lemma Minimise_total a :
  wf_alloc a → 1 ≤ a_n a →
  ∃ r, Minimise a = Ok r
       ∧ wf_alloc r ∧ a_na r = a_na a ∧ 1 ≤ a_n r ∧ (a_i a ≠ -1 → a_i r ≠ -1).
Proof.
  intros Ha Hn1.
  destruct (Minimise_exec a Ha Hn1) as (h & r0 & Hpart & Hq & Hncl & _ & Hrun).
  pose proof (quotient_wf_alloc a Ha h Hpart r0 Hq) as Hwf0.
  assert (∃ r, Minimise a = Ok r) as (r & Hr).
  { rewrite Hrun. case_decide; [|eauto].
    destruct (po_in _ h Hpart (a_n a) ltac:(lia)) as [Hcn _].
    destruct (DeleteVertexOP_deleted r0 Hwf0 (cls h (a_n a))) as (r & Hr & _);
      [rewrite (iq_n a h r0 Hq); lia | eauto]. }
  exists r. split; [exact Hr|]. rewrite Hrun in Hr.
  exact (Minimise_returns a Ha Hn1 h Hpart Hncl r0 Hq r Hr).
Qed.

(** The automaton that [Minimise] returns, when [a] has a final state. *)
Lemma Minimise_correct a :
  wf_alloc a → (∃ s, 0 ≤ s < a_n a ∧ final_state a s = true) →
  ∃ r, Minimise a = Ok r
       ∧ wf_alloc r ∧ a_na r = a_na a
       ∧ (∀ w, accepts r w = accepts a w)
       ∧ (∀ s t, 0 ≤ s < a_n r → 0 ≤ t < a_n r → s ≠ t →
            ∃ w, accepts_from r s w ≠ accepts_from r t w).
Proof.
  intros Ha Hfin. assert (1 ≤ a_n a) as Hn1 by (destruct Hfin as (s & Hs & _); lia).
  destruct (Minimise_total a Ha Hn1) as (r & Hr & Hwf & Hna & _).
  destruct (Minimise_exec a Ha Hn1) as (h & r0 & Hpart & Hq & Hncl & Hsem & Hrun).
  destruct (Hsem Hfin) as (Hinv & Href & HnL).
  exists r. split; [exact Hr|]. split; [exact Hwf|]. split; [exact Hna|].
  rewrite Hrun in Hr.
  exact (Minimise_language a Ha Hn1 h Hpart Hncl r0 Hq Hinv Href HnL r Hr).
Qed.

(** ** [Minimise]: the result and the fewest states *)





(** Without a final state the class of the final states is empty, and the
    result has a state for it all the same; without any state the arrays of
    [n + 1] cells are too short for the two classes. *)
Example Minimise_without_final_state :
  Minimise (mkAutomate [mkEtat [-1] 0] 1 1 0)
  = Ok (mkAutomate [mkEtat [-1] 0; mkEtat [-1] 0] 2 1 1).
Proof. vm_compute. reflexivity. Qed.

Example Minimise_without_state : Minimise (mkAutomate [] 0 1 (-1)) = OutOfBounds.
Proof. vm_compute. reflexivity. Qed.



(** ** Equality of languages: an automaton against itself, minimised or not *)

Lemma minimise_in_place_Ok (st : store) p a r :
  st !! p = Some a → Minimise a = Ok r → minimise_in_place st p = Ok (<[p := r]> st).
Proof.
  intros Hp Hr. unfold minimise_in_place, deref. rewrite Hp; ok. rewrite Hr. reflexivity.
Qed.

(** C2.  The automaton that both pointers designate is compared with itself
    under the identity dictionary of its alphabet: the answer is [true], with
    [minimized] set or not, the two pointers being equal or designating two
    copies.  With [minimized] set the store is left as it was. *)
Theorem equalsLangages_reflexive (st : store) (p1 p2 : nat) (A : Automaton)
    (minimized : bool) :
  wf A → a_i A ≠ -1 → st !! p1 = Some A → st !! p2 = Some A →
  ∃ st', equalsLangages st p1 p2 (seqZ 0 (a_na A)) minimized = Ok (st', true)
         ∧ (minimized = true → st' = st).
Proof.
  intros HA Hi H1 H2. pose proof (wf_wf_alloc A HA) as Ha.
  destruct minimized.
  - destruct (equalsLangages_self st p1 p2 A Ha Hi H1 H2) as (st' & H).
    exists st'. split; [exact H|]. intros _.
    eapply (equalsLangages_frame st p1 p2); [| |exact H]; intros a Hp; congruence.
  - assert (1 ≤ a_n A) as Hn1 by (pose proof (wa_i A Ha); lia).
    destruct (Minimise_total A Ha Hn1) as (r & Hr & Hwr & Hnar & Hnr & Hir).
    specialize (Hir Hi).
    pose proof (lookup_lt_Some _ _ _ H1) as Hp1.
    pose proof (lookup_lt_Some _ _ _ H2) as Hp2.
    assert (∃ st2 B, (st1 ← minimise_in_place st p1; minimise_in_place st1 p2) = Ok st2
              ∧ wf_alloc B ∧ a_na B = a_na A ∧ a_i B ≠ -1
              ∧ st2 !! p1 = Some B ∧ st2 !! p2 = Some B)
      as (st2 & B & Hmin & HB & HnaB & HiB & HB1 & HB2).
    { rewrite (minimise_in_place_Ok st p1 A r H1 Hr); ok.
      destruct (decide (p1 = p2)) as [<- | Hne].
      - destruct (Minimise_total r Hwr Hnr) as (r2 & Hr2 & Hwr2 & Hnar2 & _ & Hir2).
        exists (<[p1 := r2]> (<[p1 := r]> st)), r2.
        split.
        { apply (minimise_in_place_Ok _ p1 r r2); [|exact Hr2].
          apply list_lookup_insert_eq, Hp1. }
        split; [exact Hwr2|]. split; [congruence|]. split; [auto|].
        split; apply list_lookup_insert_eq; rewrite length_insert; exact Hp1.
      - exists (<[p2 := r]> (<[p1 := r]> st)), r.
        split.
        { apply (minimise_in_place_Ok _ p2 A r); [|exact Hr].
          rewrite list_lookup_insert_ne by exact Hne. exact H2. }
        split; [exact Hwr|]. split; [exact Hnar|]. split; [exact Hir|].
        split.
        + rewrite list_lookup_insert_ne by auto.
          apply list_lookup_insert_eq, Hp1.
        + apply list_lookup_insert_eq. rewrite length_insert. exact Hp2. }
    destruct (equalsLangages_self st2 p1 p2 B HB HiB HB1 HB2) as (st' & H).
    exists st'. split; [|discriminate].
    unfold equalsLangages in H |- *. rewrite Ok_bind in H. rewrite Hmin, Ok_bind.
    rewrite <- HnaB. exact H.
Qed.

Lemma equalsLangages_reflexive_witness :
  wf contains_1 ∧ a_i contains_1 ≠ -1
  ∧ ∃ st', equalsLangages [contains_1; contains_1] 0 1 [0; 1] false = Ok (st', true)
           ∧ (false = true → st' = [contains_1; contains_1]).
Proof.
  assert (wf contains_1) as HA by (apply wfb_wf; reflexivity).
  assert (a_i contains_1 ≠ -1) as Hi by (simpl; lia).
  split; [exact HA|]. split; [exact Hi|].
  exact (equalsLangages_reflexive [contains_1; contains_1] 0 1 contains_1 false
           HA Hi eq_refl eq_refl).
Defined.


(** ** The other operations of the engine *)

(** [r] has [nalloc] states of [naalloc] letters; the states and the letters
    of [a] are copied, the other cells are as [malloc] left them. *)
Definition CopyAutomaton (a : Automaton) (nalloc naalloc : Z) : Res Automaton :=
  let r := NewAutomaton nalloc naalloc in
  es ← for_ (seqZ 0 (a_n a)) (λ i es,
          fin ← rd_final (a_e a) i;
          es ← wr_final es i fin;
          for_ (seqZ 0 (a_na a)) (λ j es,
            f ← rd_f (a_e a) i j; wr_f es i j f) es)
        (a_e r);
  Ok (mkAutomate es (a_n r) (a_na r) (a_i a)).

Definition IsCompleteAutomaton (a : Automaton) : Res bool :=
  x ← for_flow (seqZ 0 (a_n a)) (λ i (_ : unit),
        for_flow (seqZ 0 (a_na a)) (λ j (_ : unit),
          f ← rd_f (a_e a) i j;
          if decide (f = -1) then Ok (Return () false) else Ok (Next ())) ()) ();
  match x with
  | Return _ r => Ok r
  | Next _ => Ok true
  end.

Definition equalsAutomaton (a1 a2 : Automaton) : Res bool :=
  if decide (a_n a1 ≠ a_n a2 ∨ a_na a1 ≠ a_na a2) then Ok false
  else
    x ← for_flow (seqZ 0 (a_n a1)) (λ i (_ : unit),
          for_flow (seqZ 0 (a_na a1)) (λ j (_ : unit),
            f1 ← rd_f (a_e a1) i j;
            f2 ← rd_f (a_e a2) i j;
            if decide (f1 ≠ f2) then Ok (Return () false) else Ok (Next ())) ()) ();
    match x with
    | Return _ r => Ok r
    | Next _ => Ok true
    end.

(** [struct ListEtats { Etats *e; int n; }].  The triple is the list, the
    result and what [*res] receives. *)
Definition AddEl (l : list Etats) (e : Etats) : Res (list Etats * bool * Z) :=
  x ← for_flow (seqZ 0 (len l)) (λ i (_ : unit),
        li ← rd l i;
        if equals li e then Ok (Return () i) else Ok (Next ())) ();
  match x with
  | Return _ i => Ok (l, false, i)
  | Next _ => Ok (l ++ [e], true, len l)
  end.

Definition AddEl2 (l : list Etats) (e : Etats) : list Etats := l ++ [e].

(** [id] gives, for each letter of [a], the letters of [r] that stand for
    it. *)
Definition Duplicate (a : Automaton) (id : list Dict) (na2 : Z) : Res Automaton :=
  let r := NewAutomaton (a_n a) na2 in
  es ← for_ (seqZ 0 (a_n r)) (λ i es,
          fin ← rd_final (a_e a) i;
          es ← wr_final es i fin;
          es ← for_ (seqZ 0 (a_na r)) (λ j es, wr_f es i j (-1)) es;
          for_ (seqZ 0 (a_na a)) (λ j es,
            dj ← rd id j;
            for_ (seqZ 0 (d_n dj)) (λ k es,
              c ← rd dj k;
              f ← rd_f (a_e a) i j;
              wr_f es i c f) es) es)
        (a_e r);
  Ok (mkAutomate es (a_n r) (a_na r) (a_i a)).

(** The initial state of the result is the last final state of [a] that the
    first loop meets. *)
Definition Transpose (a : Automaton) : Res Automaton :=
  let r := NewAutomaton (a_n a) (a_na a) in
  '(es, ri) ← for_ (seqZ 0 (a_n a)) (λ i '(es, ri),
        fin ← rd_final (a_e a) i;
        let ri := if decide (fin ≠ 0) then i else ri in
        es ← wr_final es i (b2z (bool_decide (i = a_i a)));
        es ← for_ (seqZ 0 (a_na a)) (λ j es, wr_f es i j (-1)) es;
        Ok (es, ri))
      (a_e r, a_i r);
  es ← for_ (seqZ 0 (a_n a)) (λ i es,
          for_ (seqZ 0 (a_na a)) (λ j es,
            f ← rd_f (a_e a) i j;
            if decide (f ≠ -1) then wr_f es f j i else Ok es) es)
        es;
  Ok (mkAutomate es (a_n r) (a_na r) ri).

(** The states listed in [d] are kept, in this order.  The initial state is
    assigned in the copy of [a] that the call received, not in [r]. *)
Definition SubAutomaton (a : Automaton) (d : Dict) : Res Automaton :=
  let r := NewAutomaton (d_n d) (a_na a) in
  l ← for_ (seqZ 0 (a_n a)) (λ i l, wr l i (-1))
        (replicate (Z.to_nat (a_n a)) UNINIT);
  l ← for_ (seqZ 0 (d_n d)) (λ i l, x ← rd d i; wr l x i) l;
  es ← for_ (seqZ 0 (a_n r)) (λ i es,
          for_ (seqZ 0 (a_na r)) (λ j es, wr_f es i j (-1)) es)
        (a_e r);
  es ← for_ (seqZ 0 (a_n a)) (λ i es,
          li ← rd l i;
          if decide (li ≠ -1) then
            fin ← rd_final (a_e a) i;
            es ← wr_final es li fin;
            for_ (seqZ 0 (a_na a)) (λ j es,
              f ← rd_f (a_e a) i j;
              if decide (f ≠ -1) then lf ← rd l f; wr_f es li j lf
              else wr_f es li j (-1)) es
          else Ok es)
        es;
  Ok (mkAutomate es (a_n r) (a_na r) (-1)).

(** [l] gives the old letter of each of the [na] new ones. *)
Definition Permut (a : Automaton) (l : list Z) (na : Z) : Res Automaton :=
  let r := NewAutomaton (a_n a) na in
  es ← for_ (seqZ 0 (a_n a)) (λ i es,
          es ← for_ (seqZ 0 na) (λ j es,
                  lj ← rd l j;
                  if decide (lj ≠ -1) then f ← rd_f (a_e a) i lj; wr_f es i j f
                  else wr_f es i j (-1)) es;
          fin ← rd_final (a_e a) i;
          wr_final es i fin)
        (a_e r);
  Ok (mkAutomate es (a_n r) (a_na r) (a_i a)).

(** In place: the row is saved in [lf], cleared, and written again. *)
Definition PermutOP (a : Automaton) (l : list Z) (na : Z) : Res Automaton :=
  '(es, _) ← for_ (seqZ 0 (a_n a)) (λ i '(es, lf),
        '(es, lf) ← for_ (seqZ 0 (a_na a)) (λ j '(es, lf),
              f ← rd_f es i j;
              lf ← wr lf j f;
              es ← wr_f es i j (-1);
              Ok (es, lf)) (es, lf);
        es ← for_ (seqZ 0 na) (λ j es,
                lj ← rd l j;
                if decide (lj ≠ -1) then x ← rd lf lj; wr_f es i j x
                else Ok es) es;
        Ok (es, lf))
      (a_e a, replicate (Z.to_nat (a_na a)) UNINIT);
  Ok (with_e a es).

(** [d] gives the new letter of each letter of [a]. *)
Definition BiggerAlphabet (a : Automaton) (d : Dict) (nna : Z) : Res Automaton :=
  if decide (d_n d ≠ a_na a) then Ok (NewAutomaton 0 0)
  else
    r ← init (NewAutomaton (a_n a) nna);
    es ← for_ (seqZ 0 (a_n a)) (λ i es,
            for_ (seqZ 0 (a_na a)) (λ j es,
              dj ← rd d j;
              f ← rd_f (a_e a) i j;
              es ← wr_f es i dj f;
              fin ← rd_final (a_e a) i;
              wr_final es i fin) es)
          (a_e r);
    Ok (mkAutomate es (a_n r) (a_na r) (a_i a)).

(** ** Loops that build an array row by row, loops that search *)

Lemma list_eq_sel `{Inhabited T} (l1 l2 : list T) :
  len l1 = len l2 → (∀ k, 0 ≤ k < len l1 → sel l1 k = sel l2 k) → l1 = l2.
Proof.
  intros Hlen Hsel. apply list_eq_same_length with (n := length l1); [lia|lia|].
  intros i x y Hi Hx Hy.
  specialize (Hsel (Z.of_nat i) ltac:(lia)). unfold sel in Hsel.
  rewrite Nat2Z.id in Hsel.
  rewrite (list_lookup_total_correct _ _ _ Hx) in Hsel.
  rewrite (list_lookup_total_correct _ _ _ Hy) in Hsel. exact Hsel.
Qed.

Lemma sel_fmap_seqZ `{Inhabited T} (f : Z → T) n k :
  0 ≤ k < n → sel (f <$> seqZ 0 n) k = f k.
Proof.
  intros Hk. unfold sel. apply list_lookup_total_correct.
  rewrite list_lookup_fmap. rewrite lookup_seqZ_lt by lia. simpl. f_equal. f_equal. lia.
Qed.

Lemma len_fmap_seqZ {T} (f : Z → T) n : 0 ≤ n → len (f <$> seqZ 0 n) = n.
Proof. intros Hn. rewrite length_fmap, length_seqZ. lia. Qed.

Lemma sel_fmap `{Inhabited T} `{Inhabited U} (f : T → U) (l : list T) k :
  0 ≤ k < len l → sel (f <$> l) k = f (sel l k).
Proof.
  intros Hk. unfold sel. apply list_lookup_total_correct.
  rewrite list_lookup_fmap, (list_lookup_lookup_total_lt l) by lia. reflexivity.
Qed.

Lemma sel_app_r `{Inhabited T} (l1 l2 : list T) k :
  len l1 ≤ k → sel (l1 ++ l2) k = sel l2 (k - len l1).
Proof.
  intros Hk. unfold sel. rewrite lookup_total_app_r by lia. f_equal. lia.
Qed.

Lemma sel_drop `{Inhabited T} (l : list T) n k :
  0 ≤ n → 0 ≤ k → sel (drop (Z.to_nat n) l) k = sel l (n + k).
Proof.
  intros Hn Hk. unfold sel. rewrite lookup_total_drop. f_equal. lia.
Qed.

Lemma fmap_seqZ_sel `{Inhabited T} (l : list T) : (sel l) <$> seqZ 0 (len l) = l.
Proof.
  apply list_eq_sel.
  - rewrite len_fmap_seqZ by lia. reflexivity.
  - intros k Hk. rewrite len_fmap_seqZ in Hk by lia. apply sel_fmap_seqZ. exact Hk.
Qed.

(** The loop of [fill_row_cells], with the row that it leaves. *)
Lemma fill_row_cells_eq (es : list Etat) k na
    (body : Z → list Etat → Res (list Etat)) (val : Z → Z) :
  0 ≤ k < len es → len (e_f (sel es k)) = na →
  (∀ j es', 0 ≤ j < na → len es' = len es → len (e_f (sel es' k)) = na →
     (∀ k', 0 ≤ k' → k' ≠ k → sel es' k' = sel es k') →
     (∀ j', j ≤ j' < na → sel (e_f (sel es' k)) j' = sel (e_f (sel es k)) j') →
     e_final (sel es' k) = e_final (sel es k) →
     body j es' = wr_f es' k j (val j)) →
  for_ (seqZ 0 na) body es
  = Ok (upd es k (mkEtat (val <$> seqZ 0 na) (e_final (sel es k)))).
Proof.
  intros Hk Hrow Hbody.
  destruct (fill_row_cells es k na body val Hk Hrow Hbody)
    as (es' & -> & Hl & Hoth & Hr & Hv & Hfin).
  f_equal. apply list_eq_sel.
  - rewrite length_upd. exact Hl.
  - intros k' Hk'. rewrite sel_upd by lia. case_decide as Hd.
    + subst k'. destruct (sel es' k) as [f fin] eqn:Hs. cbn [e_f e_final] in *.
      rewrite Hfin. f_equal. apply list_eq_sel.
      * rewrite len_fmap_seqZ by lia. exact Hr.
      * intros j Hj. rewrite sel_fmap_seqZ by lia. apply Hv. lia.
    + apply Hoth; lia.
Qed.

(** A loop whose turn [i] replaces the row [i] by [row i]. *)
Lemma fill_rows (es : list Etat) n
    (body : Z → list Etat → Res (list Etat)) (row : Z → Etat) :
  0 ≤ n ≤ len es →
  (∀ i es', 0 ≤ i < n → len es' = len es →
     (∀ k, 0 ≤ k < i → sel es' k = row k) →
     (∀ k, i ≤ k → sel es' k = sel es k) →
     body i es' = Ok (upd es' i (row i))) →
  for_ (seqZ 0 n) body es = Ok ((row <$> seqZ 0 n) ++ drop (Z.to_nat n) es).
Proof.
  intros Hn Hbody.
  destruct (for_seqZ_inv
    (λ i es', es' = (row <$> seqZ 0 i) ++ drop (Z.to_nat i) es)
    body 0 n es) as (es' & Hrun & ->); [lia| | |exact Hrun].
  - simpl. rewrite drop_0. reflexivity.
  - intros i es' Hi ->. eexists. split.
    + apply Hbody; [lia| | |].
      * rewrite length_app, length_drop, length_fmap, length_seqZ. lia.
      * intros k Hk. rewrite sel_app_l by (rewrite len_fmap_seqZ; lia).
        apply sel_fmap_seqZ. lia.
      * intros k Hk. rewrite sel_app_r by (rewrite len_fmap_seqZ; lia).
        rewrite len_fmap_seqZ by lia. rewrite sel_drop by lia. f_equal. lia.
    + replace (0 + (i + 1)) with (i + 1) by lia. replace (0 + i) with i by lia.
      apply list_eq_sel.
      * rewrite length_upd, !length_app, !length_drop, !length_fmap, !length_seqZ. lia.
      * intros k Hk. rewrite length_upd in Hk.
        rewrite length_app, length_drop, length_fmap, length_seqZ in Hk.
        rewrite sel_upd
          by (rewrite ?length_app, ?length_drop, ?length_fmap, ?length_seqZ; lia).
        case_decide as Hd.
        -- subst k. rewrite sel_app_l by (rewrite len_fmap_seqZ; lia).
           rewrite sel_fmap_seqZ by lia. reflexivity.
        -- destruct (decide (k < i)) as [Hlt | Hge].
           ++ rewrite !sel_app_l by (rewrite len_fmap_seqZ; lia).
              rewrite !sel_fmap_seqZ by lia. reflexivity.
           ++ rewrite !sel_app_r by (rewrite len_fmap_seqZ; lia).
              rewrite !len_fmap_seqZ by lia. rewrite !sel_drop by lia.
              f_equal. lia.
Qed.

(** A loop that returns [r] at the first turn that passes the test. *)
Lemma for_flow_exists {R} (js : list Z) (body : Z → unit → Res (flow unit R))
    (test : Z → bool) (r : R) :
  (∀ j, j ∈ js → body j () = Ok (if test j then Return () r else Next ())) →
  for_flow js body () = Ok (if existsb test js then Return () r else Next ()).
Proof.
  induction js as [|j js IH]; intros Hbody; [reflexivity|].
  cbn [for_flow existsb]. rewrite Hbody by left. rewrite Ok_bind.
  destruct (test j); [reflexivity|]. simpl. apply IH.
  intros j' Hj'. apply Hbody. right. exact Hj'.
Qed.

Lemma existsb_seqZ_true (test : Z → bool) m n :
  existsb test (seqZ m n) = true ↔ ∃ j, m ≤ j < m + n ∧ test j = true.
Proof.
  rewrite existsb_exists. split.
  - intros (j & Hj%list_elem_of_In%elem_of_seqZ & Ht). eauto.
  - intros (j & Hj & Ht). exists j. split; [|exact Ht].
    apply list_elem_of_In, elem_of_seqZ. exact Hj.
Qed.

Lemma existsb_seqZ_false (test : Z → bool) m n :
  existsb test (seqZ m n) = false ↔ ∀ j, m ≤ j < m + n → test j = false.
Proof.
  split.
  - intros H j Hj. destruct (test j) eqn:Ht; [|reflexivity].
    rewrite <- H. symmetry. apply existsb_seqZ_true. eauto.
  - intros H. destruct (existsb test (seqZ m n)) eqn:Hex; [|reflexivity].
    apply existsb_seqZ_true in Hex as (j & Hj & Ht). rewrite H in Ht by exact Hj.
    discriminate.
Qed.

(** A loop that gives the first [m] cells of the row [k] the values [val j];
    its body may read the other rows and the cells of the row [k] from [j]
    on, which are as they were. *)
Lemma fill_row_prefix (es : list Etat) k m
    (body : Z → list Etat → Res (list Etat)) (val : Z → Z) :
  0 ≤ k < len es → 0 ≤ m ≤ len (e_f (sel es k)) →
  (∀ j es', 0 ≤ j < m → len es' = len es →
     len (e_f (sel es' k)) = len (e_f (sel es k)) →
     (∀ k', 0 ≤ k' → k' ≠ k → sel es' k' = sel es k') →
     (∀ j', j ≤ j' → sel (e_f (sel es' k)) j' = sel (e_f (sel es k)) j') →
     e_final (sel es' k) = e_final (sel es k) →
     body j es' = wr_f es' k j (val j)) →
  for_ (seqZ 0 m) body es
  = Ok (upd es k (mkEtat ((val <$> seqZ 0 m) ++ drop (Z.to_nat m) (e_f (sel es k)))
                         (e_final (sel es k)))).
Proof.
  intros Hk Hm Hbody.
  set (row := λ j, mkEtat ((val <$> seqZ 0 j) ++ drop (Z.to_nat j) (e_f (sel es k)))
                          (e_final (sel es k))).
  destruct (for_seqZ_inv (λ j es', es' = upd es k (row j)) body 0 m es)
    as (es' & Hrun & ->); [lia| | |exact Hrun].
  - unfold row. simpl. rewrite drop_0. unfold upd.
    destruct (sel es k) as [f fin] eqn:Hs. cbn [e_f e_final].
    rewrite list_insert_id; [reflexivity|]. rewrite <- Hs. apply sel_lookup. lia.
  - intros j es' Hj ->. replace (0 + m) with m in Hj by lia.
    assert (len (e_f (row j)) = len (e_f (sel es k))) as Hlen.
    { unfold row. cbn [e_f]. rewrite length_app, length_drop, length_fmap, length_seqZ. lia. }
    eexists. split.
    + rewrite Hbody; [apply wr_f_upd| | | | | |].
      * rewrite length_upd. lia.
      * rewrite sel_upd_eq by lia. lia.
      * lia.
      * apply Nat2Z.inj_iff, length_upd.
      * rewrite sel_upd_eq by lia. exact Hlen.
      * intros k' Hk' Hne. apply sel_upd_ne; lia.
      * intros j' Hj'. rewrite sel_upd_eq by lia. unfold row. cbn [e_f].
        rewrite sel_app_r by (rewrite len_fmap_seqZ; lia).
        rewrite len_fmap_seqZ by lia. rewrite sel_drop by lia. f_equal. lia.
      * rewrite sel_upd_eq by lia. reflexivity.
    + rewrite sel_upd_eq by lia. unfold upd at 1 2 4. rewrite list_insert_insert_eq.
      f_equal. unfold row. cbn [e_f e_final]. f_equal.
      apply list_eq_sel.
      * rewrite length_upd, !length_app, !length_drop, !length_fmap, !length_seqZ. lia.
      * intros c Hc. rewrite length_upd in Hc.
        rewrite length_app, length_drop, length_fmap, length_seqZ in Hc.
        rewrite sel_upd
          by (rewrite ?length_app, ?length_drop, ?length_fmap, ?length_seqZ; lia).
        case_decide as Hd.
        -- subst c. rewrite sel_app_l by (rewrite len_fmap_seqZ; lia).
           rewrite sel_fmap_seqZ by lia. reflexivity.
        -- destruct (decide (c < j)) as [Hlt | Hge].
           ++ rewrite !sel_app_l by (rewrite len_fmap_seqZ; lia).
              rewrite !sel_fmap_seqZ by lia. reflexivity.
           ++ rewrite !sel_app_r by (rewrite len_fmap_seqZ; lia).
              rewrite !len_fmap_seqZ by lia. rewrite !sel_drop by lia.
              f_equal. lia.
Qed.

Lemma upd_upd {T} (l : list T) k x y : upd (upd l k x) k y = upd l k y.
Proof. apply list_insert_insert_eq. Qed.

(** ** Transitions and runs of an automaton in memory *)

Lemma step_sel a s c :
  wf_alloc a → 0 ≤ s < a_n a → 0 ≤ c < a_na a →
  step a s c = if decide (sel (e_f (sel (a_e a) s)) c = -1) then None
               else Some (sel (e_f (sel (a_e a) s)) c).
Proof. intros Ha Hs Hc. unfold step. rewrite (wf_alloc_rd_f a Ha) by assumption. reflexivity. Qed.

Lemma step_no_letter a s c :
  wf_alloc a → 0 ≤ s < a_n a → ¬ 0 ≤ c < a_na a → step a s c = None.
Proof.
  intros Ha Hs Hc. rewrite (step_delta a Ha) by exact Hs. unfold delta.
  rewrite (decide_False (P := _ ∧ _)) by tauto. rewrite decide_True by reflexivity.
  reflexivity.
Qed.

Lemma step_in_range a s c t :
  wf_alloc a → 0 ≤ s < a_n a → step a s c = Some t → 0 ≤ t < a_n a ∧ 0 ≤ c < a_na a.
Proof.
  intros Ha Hs Hst. destruct (decide (0 ≤ c < a_na a)) as [Hc | Hc].
  - rewrite step_sel in Hst by assumption. case_decide as Hd; [discriminate|].
    injection Hst as <-. pose proof (wa_tgt a Ha s c Hs Hc). split; [lia | exact Hc].
  - rewrite step_no_letter in Hst by assumption. discriminate.
Qed.

Lemma run_in_range a w : wf_alloc a →
  ∀ s t, 0 ≤ s < a_n a → run a s w = Some t → 0 ≤ t < a_n a.
Proof.
  intros Ha. induction w as [|c w IH]; intros s t Hs; simpl.
  - intros [= <-]. exact Hs.
  - destruct (step a s c) as [u|] eqn:Hst; [|discriminate].
    apply IH. eapply step_in_range; eassumption.
Qed.

(** Two automata whose states in use have the same flags and the same
    transitions accept the same words from each of these states. *)
Lemma accepts_from_ext a b :
  (∀ s, 0 ≤ s < a_n a → is_final b s = is_final a s) →
  (∀ s c t, 0 ≤ s < a_n a → step a s c = Some t → 0 ≤ t < a_n a) →
  (∀ s c, 0 ≤ s < a_n a → step b s c = step a s c) →
  ∀ w s, 0 ≤ s < a_n a → accepts_from b s w = accepts_from a s w.
Proof.
  intros Hfin Hrange Hstep. unfold accepts_from.
  induction w as [|c w IH]; intros s Hs; simpl.
  - apply Hfin, Hs.
  - rewrite Hstep by exact Hs. destruct (step a s c) as [t|] eqn:Hst; [|reflexivity].
    apply IH. eapply Hrange; eassumption.
Qed.

(** ** [CopyAutomaton] *)

Definition fresh_row (na : Z) : Etat := mkEtat (replicate (Z.to_nat na) UNINIT) UNINIT.

Definition copied_row (naalloc : Z) (s : Etat) : Etat :=
  mkEtat (e_f s ++ replicate (Z.to_nat naalloc - length (e_f s)) UNINIT) (e_final s).

Lemma NewAutomaton_rows n na :
  0 ≤ n → a_e (NewAutomaton n na) = replicate (Z.to_nat n) (fresh_row na).
Proof.
  intros Hn. unfold NewAutomaton. case_decide as H0; [|reflexivity].
  subst n. reflexivity.
Qed.

Lemma CopyAutomaton_eq a nalloc naalloc :
  wf a → a_n a ≤ nalloc → a_na a ≤ naalloc →
  CopyAutomaton a nalloc naalloc
  = Ok (mkAutomate ((copied_row naalloc <$> a_e a)
                    ++ replicate (Z.to_nat nalloc - Z.to_nat (a_n a)) (fresh_row naalloc))
          nalloc naalloc (a_i a)).
Proof.
  intros Hwf Hn Hna. pose proof (wf_wf_alloc a Hwf) as Ha.
  pose proof (wf_n a Hwf) as Hlen. pose proof (wf_na a Hwf) as Hna0.
  unfold CopyAutomaton. cbv zeta.
  assert (a_n (NewAutomaton nalloc naalloc) = nalloc) as -> by apply NewAutomaton_n.
  assert (a_na (NewAutomaton nalloc naalloc) = naalloc) as -> by apply NewAutomaton_na.
  rewrite NewAutomaton_rows by lia.
  rewrite (fill_rows _ _ _ (λ i, copied_row naalloc (sel (a_e a) i))).
  - rewrite Ok_bind. f_equal. f_equal. f_equal.
    + replace (copied_row naalloc <$> a_e a)
        with (copied_row naalloc <$> (sel (a_e a) <$> seqZ 0 (len (a_e a))))
        by (rewrite fmap_seqZ_sel; reflexivity).
      rewrite <- list_fmap_compose, Hlen. reflexivity.
    + rewrite drop_replicate. reflexivity.
  - rewrite length_replicate. lia.
  - intros i es' Hi Hl Hdone Hrest. rewrite length_replicate in Hl.
    rewrite (wf_alloc_rd_final a Ha) by lia. rewrite Ok_bind.
    rewrite wr_final_upd by lia. rewrite Ok_bind.
    assert (sel es' i = fresh_row naalloc) as Hrow.
    { rewrite Hrest by lia. apply sel_replicate. lia. }
    rewrite (fill_row_prefix _ i (a_na a) _ (λ j, sel (e_f (sel (a_e a) i)) j)).
    + rewrite upd_upd, sel_upd_eq by lia. cbn [e_f e_final]. f_equal. f_equal.
      unfold copied_row. f_equal. rewrite Hrow. cbn [e_f].
      pose proof (wa_row a Ha i ltac:(lia)) as Hr.
      rewrite <- Hr at 1. rewrite fmap_seqZ_sel. f_equal.
      unfold fresh_row. cbn [e_f]. rewrite drop_replicate. f_equal. lia.
    + rewrite length_upd. lia.
    + rewrite sel_upd_eq by lia. cbn [e_f]. rewrite Hrow. unfold fresh_row. cbn [e_f].
      rewrite length_replicate. lia.
    + intros j es'' Hj _ _ _ _ _. rewrite (wf_alloc_rd_f a Ha) by lia.
      rewrite Ok_bind. reflexivity.
Qed.

Lemma copied_row_id na (s : Etat) : len (e_f s) = na → copied_row na s = s.
Proof.
  intros H. unfold copied_row. replace (Z.to_nat na - length (e_f s))%nat with 0%nat by lia.
  simpl. rewrite app_nil_r. destruct s; reflexivity.
Qed.

(** ** Calls that write outside a block *)

(** The loops and the accesses to arrays do not exhaust any fuel. *)
Definition no_fuel {A} (m : Res A) : Prop := m ≠ OutOfFuel.

Lemma no_fuel_bind {A B} (m : Res A) (k : A → Res B) :
  no_fuel m → (∀ x, no_fuel (k x)) → no_fuel (m ≫= k).
Proof.
  destruct m; simpl; intros Hm Hk; [apply Hk | discriminate | destruct (Hm eq_refl)].
Qed.

Lemma no_fuel_rd {A} (t : list A) k : no_fuel (rd t k).
Proof. unfold rd. case_decide; [destruct (t !! _)|]; discriminate. Qed.

Lemma no_fuel_wr {A} (t : list A) k x : no_fuel (wr t k x).
Proof. unfold wr. case_decide; discriminate. Qed.

Lemma no_fuel_rd_f t k j : no_fuel (rd_f t k j).
Proof. apply no_fuel_bind; [apply no_fuel_rd|]. intros s. apply no_fuel_rd. Qed.

Lemma no_fuel_rd_final t k : no_fuel (rd_final t k).
Proof. apply no_fuel_bind; [apply no_fuel_rd|]. discriminate. Qed.

Lemma no_fuel_wr_f t k j v : no_fuel (wr_f t k j v).
Proof.
  apply no_fuel_bind; [apply no_fuel_rd|]. intros s.
  apply no_fuel_bind; [|intros; apply no_fuel_wr].
  apply no_fuel_bind; [apply no_fuel_wr | discriminate].
Qed.

Lemma no_fuel_wr_final t k v : no_fuel (wr_final t k v).
Proof. apply no_fuel_bind; [apply no_fuel_rd|]. intros s. apply no_fuel_wr. Qed.

Lemma no_fuel_for {S} js (body : Z → S → Res S) s :
  (∀ j s, no_fuel (body j s)) → no_fuel (for_ js body s).
Proof.
  intros Hbody. revert s. induction js as [|j js IH]; intros s; simpl; [discriminate|].
  apply no_fuel_bind; [apply Hbody | exact IH].
Qed.

Lemma no_fuel_OutOfBounds {A} (m : Res A) :
  no_fuel m → (∀ x, m ≠ Ok x) → m = OutOfBounds.
Proof. destruct m; intros Hf Hok; [destruct (Hok _ eq_refl) | reflexivity | destruct (Hf eq_refl)]. Qed.

Lemma for_app {S} (l1 l2 : list Z) (body : Z → S → Res S) s :
  for_ (l1 ++ l2) body s = for_ l1 body s ≫= for_ l2 body.
Proof.
  revert s. induction l1 as [|j l1 IH]; intros s; simpl; [reflexivity|].
  destruct (body j s); simpl; [apply IH | reflexivity | reflexivity].
Qed.

Lemma wr_final_len t k v t' : wr_final t k v = Ok t' → len t' = len t.
Proof. intros (s & _ & _ & ->)%wr_final_Ok. rewrite length_insert. reflexivity. Qed.

Lemma wr_f_len t k j v t' : wr_f t k j v = Ok t' → len t' = len t.
Proof. intros (s & _ & _ & _ & ->)%wr_f_Ok. rewrite length_insert. reflexivity. Qed.

(** X1.  The states and the letters of a well-formed [a] fit in the block: the
    copy has the sizes asked for and the initial state of [a]; it accepts the
    words of [a] over the letters of [a]; asked for the sizes of [a], it is
    [a]. *)
Theorem CopyAutomaton_spec (a : Automaton) (nalloc naalloc : Z) :
  wf a → a_n a ≤ nalloc → a_na a ≤ naalloc →
  ∃ r, CopyAutomaton a nalloc naalloc = Ok r
       ∧ a_n r = nalloc ∧ a_na r = naalloc ∧ a_i r = a_i a
       ∧ (∀ w, Forall (λ c, 0 ≤ c < a_na a) w → accepts r w = accepts a w)
       ∧ (nalloc = a_n a → naalloc = a_na a → r = a).
Proof.
  intros Hwf Hn Hna. pose proof (wf_wf_alloc a Hwf) as Ha.
  pose proof (wf_n a Hwf) as Hlen. pose proof (wf_na a Hwf) as Hna0.
  eexists. split; [apply CopyAutomaton_eq; assumption|].
  set (r := mkAutomate _ _ _ _).
  split; [reflexivity|]. split; [reflexivity|]. split; [reflexivity|]. split.
  - assert (∀ s, 0 ≤ s < a_n a →
              sel (a_e r) s = copied_row naalloc (sel (a_e a) s)) as Hrow.
    { intros s Hs. unfold r. cbn [a_e].
      rewrite sel_app_l by (rewrite length_fmap; lia). apply sel_fmap. lia. }
    assert (len (a_e r) = nalloc) as Hlenr.
    { unfold r. cbn [a_e]. rewrite length_app, length_fmap, length_replicate. lia. }
    assert (∀ s, 0 ≤ s < a_n a → is_final r s = is_final a s) as Hfin.
    { intros s Hs. unfold is_final. rewrite (wf_alloc_rd_final a Ha) by exact Hs.
      unfold rd_final. rewrite bind_rd by lia. rewrite Hrow by exact Hs. reflexivity. }
    assert (∀ s c, 0 ≤ s < a_n a → 0 ≤ c < a_na a → step r s c = step a s c) as Hstep.
    { intros s c Hs Hc. unfold step. rewrite (wf_alloc_rd_f a Ha) by assumption.
      unfold rd_f. rewrite bind_rd by lia. rewrite Hrow by exact Hs.
      unfold copied_row. cbn [e_f]. pose proof (wa_row a Ha s Hs).
      rewrite rd_sel by (rewrite length_app; lia).
      rewrite sel_app_l by lia. reflexivity. }
    assert (∀ w, Forall (λ c, 0 ≤ c < a_na a) w →
              ∀ s, 0 ≤ s < a_n a → accepts_from r s w = accepts_from a s w) as Hrun.
    { unfold accepts_from. induction w as [|c w IH]; intros Hw s Hs; simpl.
      - apply Hfin, Hs.
      - destruct (Forall_cons_1 _ _ _ Hw) as [Hc Hw']. rewrite Hstep by assumption.
        destruct (step a s c) as [t|] eqn:Hst; [|reflexivity].
        apply IH; [exact Hw'|]. eapply step_in_range; eassumption. }
    intros w Hw. rewrite !accepts_accepts_from. change (a_i r) with (a_i a).
    case_decide as Hi; [reflexivity|]. apply Hrun; [exact Hw|].
    pose proof (wf_i a Hwf). lia.
  - intros -> ->. unfold r.
    replace (Z.to_nat (a_n a) - Z.to_nat (a_n a))%nat with 0%nat by lia.
    simpl. rewrite app_nil_r.
    replace (copied_row (a_na a) <$> a_e a) with (a_e a); [destruct a; reflexivity|].
    symmetry. rewrite <- (list_fmap_id (a_e a)) at 2. apply list_fmap_ext.
    intros k s Hs. apply copied_row_id. eapply wf_row_lookup; eassumption.
Qed.

Lemma CopyAutomaton_spec_witness :
  wf contains_1 ∧ a_n contains_1 ≤ 3 ∧ a_na contains_1 ≤ 2
  ∧ ∃ r, CopyAutomaton contains_1 3 2 = Ok r ∧ a_n r = 3 ∧ a_i r = a_i contains_1.
Proof.
  assert (wf contains_1) as HA by (apply wfb_wf; reflexivity).
  assert (a_n contains_1 ≤ 3) as Hn by (simpl; lia).
  assert (a_na contains_1 ≤ 2) as Hna by (simpl; lia).
  split; [exact HA|]. split; [exact Hn|]. split; [exact Hna|].
  destruct (CopyAutomaton_spec contains_1 3 2 HA Hn Hna) as (r & Hr & Hn' & _ & Hi & _).
  exists r. split; [exact Hr|]. split; [exact Hn' | exact Hi].
Defined.

(** X2.  A block of fewer states than [a] has: the copy of the state [nalloc]
    is written outside it. *)
Theorem CopyAutomaton_too_small (a : Automaton) (nalloc naalloc : Z) :
  wf a → 0 ≤ nalloc < a_n a → CopyAutomaton a nalloc naalloc = OutOfBounds.
Proof.
  intros Hwf Hn. apply no_fuel_OutOfBounds.
  - unfold CopyAutomaton. apply no_fuel_bind; [|discriminate].
    apply no_fuel_for. intros i es.
    apply no_fuel_bind; [apply no_fuel_rd_final|]. intros fin.
    apply no_fuel_bind; [apply no_fuel_wr_final|]. intros es'.
    apply no_fuel_for. intros j es''.
    apply no_fuel_bind; [apply no_fuel_rd_f|]. intros f. apply no_fuel_wr_f.
  - intros r Hr. unfold CopyAutomaton in Hr.
    apply bind_Ok in Hr as (es & Hes & _).
    rewrite NewAutomaton_rows in Hes by lia.
    replace (a_n a) with (nalloc + (a_n a - nalloc)) in Hes by lia.
    rewrite seqZ_app, for_app in Hes by lia.
    apply bind_Ok in Hes as (es1 & Hes1 & Hes).
    assert (len es1 = nalloc) as Hlen.
    { revert Hes1. apply (for_post (λ es, len es = nalloc)).
      - rewrite length_replicate. lia.
      - intros i s s' Hs Hbody.
        apply bind_Ok in Hbody as (fin & _ & Hbody).
        apply bind_Ok in Hbody as (s1 & Hs1%wr_final_len & Hbody).
        rewrite <- Hs, <- Hs1. revert Hbody.
        apply (for_post (λ t, len t = len s1)); [reflexivity|].
        intros j t t' Ht Hj. apply bind_Ok in Hj as (f & _ & Hj%wr_f_len). lia. }
    rewrite seqZ_cons in Hes by lia. simpl in Hes.
    apply bind_Ok in Hes as (es2 & Hes2 & _).
    apply bind_Ok in Hes2 as (fin & _ & Hes2).
    apply bind_Ok in Hes2 as (s1 & (s & Hs & _)%wr_final_Ok & _).
    apply lookup_lt_Some in Hs. lia.
Qed.

Lemma CopyAutomaton_too_small_witness :
  wf contains_1 ∧ 0 ≤ 1 < a_n contains_1 ∧ CopyAutomaton contains_1 1 2 = OutOfBounds.
Proof.
  assert (wf contains_1) as HA by (apply wfb_wf; reflexivity).
  assert (0 ≤ 1 < a_n contains_1) as Hn by (simpl; lia).
  split; [exact HA|]. split; [exact Hn|].
  exact (CopyAutomaton_too_small contains_1 1 2 HA Hn).
Defined.

(** ** [IsCompleteAutomaton] *)

(** The state [s] lacks the transition on some letter. *)
Definition lacks (a : Automaton) (s : Z) : bool :=
  existsb (λ c, bool_decide (sel (e_f (sel (a_e a) s)) c = -1)) (seqZ 0 (a_na a)).

Lemma IsCompleteAutomaton_eq a :
  wf_alloc a →
  IsCompleteAutomaton a = Ok (negb (existsb (lacks a) (seqZ 0 (a_n a)))).
Proof.
  intros Ha. unfold IsCompleteAutomaton.
  rewrite (for_flow_exists _ _ (lacks a) false).
  - rewrite Ok_bind. destruct (existsb _ _); reflexivity.
  - intros s Hs%elem_of_seqZ. apply for_flow_exists.
    intros c Hc%elem_of_seqZ. rewrite (wf_alloc_rd_f a Ha) by lia. rewrite Ok_bind.
    destruct (decide (sel (e_f (sel (a_e a) s)) c = -1)) as [Hd | Hd].
    + rewrite bool_decide_eq_true_2 by exact Hd. reflexivity.
    + rewrite bool_decide_eq_false_2 by exact Hd. reflexivity.
Qed.

Lemma lacks_false a s :
  wf_alloc a → 0 ≤ s < a_n a →
  lacks a s = false ↔ ∀ c, 0 ≤ c < a_na a → step a s c ≠ None.
Proof.
  intros Ha Hs. unfold lacks. rewrite existsb_seqZ_false. split.
  - intros H c Hc. rewrite step_sel by assumption.
    specialize (H c ltac:(lia)). apply bool_decide_eq_false in H.
    rewrite decide_False by exact H. discriminate.
  - intros H c Hc. apply bool_decide_eq_false. intros Heq.
    apply (H c ltac:(lia)). rewrite step_sel by (try assumption; lia).
    rewrite decide_True by exact Heq. reflexivity.
Qed.

Lemma complete_rows a :
  wf_alloc a →
  existsb (lacks a) (seqZ 0 (a_n a)) = false
  ↔ ∀ s c, 0 ≤ s < a_n a → 0 ≤ c < a_na a → step a s c ≠ None.
Proof.
  intros Ha. rewrite existsb_seqZ_false. split.
  - intros H s c Hs Hc. apply (lacks_false a s Ha Hs); [|exact Hc]. apply H. lia.
  - intros H s Hs. apply (lacks_false a s Ha); [lia|]. intros c Hc. apply H; [lia | exact Hc].
Qed.

(** X3.  [IsCompleteAutomaton] answers [true] exactly when every state has a
    transition on every letter; the initial state is not looked at. *)
Theorem IsCompleteAutomaton_spec (a : Automaton) :
  wf a →
  ∃ b, IsCompleteAutomaton a = Ok b
       ∧ (b = true ↔ ∀ s c, 0 ≤ s < a_n a → 0 ≤ c < a_na a → step a s c ≠ None).
Proof.
  intros Hwf. pose proof (wf_wf_alloc a Hwf) as Ha.
  eexists. split; [apply IsCompleteAutomaton_eq, Ha|].
  rewrite <- (complete_rows a Ha). destruct (existsb _ _); simpl; split; congruence.
Qed.

Lemma IsCompleteAutomaton_spec_witness :
  wf lacks_0_0
  ∧ ∃ b, IsCompleteAutomaton lacks_0_0 = Ok b
         ∧ (b = true ↔ ∀ s c, 0 ≤ s < a_n lacks_0_0 → 0 ≤ c < a_na lacks_0_0 →
                              step lacks_0_0 s c ≠ None).
Proof.
  assert (wf lacks_0_0) as HA by (apply wfb_wf; reflexivity).
  split; [exact HA|]. exact (IsCompleteAutomaton_spec lacks_0_0 HA).
Defined.

(** ** [equalsAutomaton] *)

Definition differ (a1 a2 : Automaton) (s : Z) : bool :=
  existsb (λ c, bool_decide (sel (e_f (sel (a_e a1) s)) c ≠ sel (e_f (sel (a_e a2) s)) c))
          (seqZ 0 (a_na a1)).

Lemma equalsAutomaton_eq a1 a2 :
  wf_alloc a1 → wf_alloc a2 →
  equalsAutomaton a1 a2
  = Ok (bool_decide (a_n a1 = a_n a2 ∧ a_na a1 = a_na a2)
        && negb (existsb (differ a1 a2) (seqZ 0 (a_n a1)))).
Proof.
  intros Ha1 Ha2. unfold equalsAutomaton.
  destruct (decide (a_n a1 ≠ a_n a2 ∨ a_na a1 ≠ a_na a2)) as [Hd | Hd].
  { rewrite bool_decide_eq_false_2 by lia. reflexivity. }
  assert (a_n a1 = a_n a2 ∧ a_na a1 = a_na a2) as [Hn Hna] by lia.
  rewrite bool_decide_eq_true_2 by lia.
  rewrite (for_flow_exists _ _ (differ a1 a2) false).
  - rewrite Ok_bind. destruct (existsb _ _); reflexivity.
  - intros s Hs%elem_of_seqZ. apply for_flow_exists.
    intros c Hc%elem_of_seqZ. rewrite (wf_alloc_rd_f a1 Ha1) by lia. rewrite Ok_bind.
    rewrite (wf_alloc_rd_f a2 Ha2) by lia. rewrite Ok_bind.
    destruct (decide (sel (e_f (sel (a_e a1) s)) c ≠ sel (e_f (sel (a_e a2) s)) c))
      as [Hne | Hne].
    + rewrite bool_decide_eq_true_2 by exact Hne. reflexivity.
    + rewrite bool_decide_eq_false_2 by exact Hne. reflexivity.
Qed.

(** X4.  [equalsAutomaton] answers [true] exactly when the two automata have the
    same numbers of states and of letters and the same transitions.  Neither
    the final states nor the initial states are compared. *)
Theorem equalsAutomaton_spec (a1 a2 : Automaton) :
  wf a1 → wf a2 →
  ∃ b, equalsAutomaton a1 a2 = Ok b
       ∧ (b = true ↔
          a_n a1 = a_n a2 ∧ a_na a1 = a_na a2
          ∧ ∀ s c, 0 ≤ s < a_n a1 → 0 ≤ c < a_na a1 → step a1 s c = step a2 s c).
Proof.
  intros Hwf1 Hwf2. pose proof (wf_wf_alloc a1 Hwf1) as Ha1.
  pose proof (wf_wf_alloc a2 Hwf2) as Ha2.
  eexists. split; [apply equalsAutomaton_eq; assumption|].
  rewrite andb_true_iff, bool_decide_eq_true, negb_true_iff, existsb_seqZ_false.
  split.
  - intros [[Hn Hna] H]. split; [exact Hn|]. split; [exact Hna|].
    intros s c Hs Hc. specialize (H s ltac:(lia)). unfold differ in H.
    rewrite existsb_seqZ_false in H. specialize (H c ltac:(lia)).
    apply bool_decide_eq_false in H.
    rewrite !step_sel by (try assumption; lia).
    replace (sel (e_f (sel (a_e a2) s)) c) with (sel (e_f (sel (a_e a1) s)) c);
      [reflexivity|].
    destruct (decide (sel (e_f (sel (a_e a1) s)) c = sel (e_f (sel (a_e a2) s)) c));
      [assumption | contradiction].
  - intros (Hn & Hna & H). split; [auto|]. intros s Hs. unfold differ.
    apply existsb_seqZ_false. intros c Hc. apply bool_decide_eq_false.
    intros Hne. apply Hne. specialize (H s c ltac:(lia) ltac:(lia)).
    rewrite !step_sel in H by (try assumption; lia).
    pose proof (wa_tgt a1 Ha1 s c ltac:(lia) ltac:(lia)).
    pose proof (wa_tgt a2 Ha2 s c ltac:(lia) ltac:(lia)).
    repeat case_decide; try discriminate; congruence.
Qed.

Lemma equalsAutomaton_spec_witness :
  wf contains_1 ∧ wf contains_1_flipped
  ∧ ∃ b, equalsAutomaton contains_1 contains_1_flipped = Ok b
         ∧ (b = true ↔
            a_n contains_1 = a_n contains_1_flipped
            ∧ a_na contains_1 = a_na contains_1_flipped
            ∧ ∀ s c, 0 ≤ s < a_n contains_1 → 0 ≤ c < a_na contains_1 →
                     step contains_1 s c = step contains_1_flipped s c).
Proof.
  assert (wf contains_1) as H1 by (apply wfb_wf; reflexivity).
  assert (wf contains_1_flipped) as H2 by (apply wfb_wf; reflexivity).
  split; [exact H1|]. split; [exact H2|].
  exact (equalsAutomaton_spec contains_1 contains_1_flipped H1 H2).
Defined.

(** ** Completion: the automaton, its language, a second call *)

(** [a] with the sink [n]. *)
Definition completed (a : Automaton) : Automaton :=
  mkAutomate ((fill_row (a_n a) <$> a_e a)
              ++ [mkEtat (replicate (Z.to_nat (a_na a)) (a_n a)) 0])
    (a_n a + 1) (a_na a) (if decide (a_i a = -1) then a_n a else a_i a).

Lemma CompleteAutomaton_eq a :
  wf a →
  CompleteAutomaton a
  = Ok (if decide (a_i a = -1) then (true, completed a)
        else if existsb row_lacks (a_e a) then (true, completed a) else (false, a)).
Proof.
  intros Hwf. unfold CompleteAutomaton. cbv zeta.
  rewrite (CompleteAutomaton_rows a Hwf). rewrite Ok_bind.
  pose proof (wf_n a Hwf) as Hn. pose proof (wf_na a Hwf) as Hna.
  assert (∀ i, AddEtat (mkAutomate (fill_row (a_n a) <$> a_e a) (a_n a) (a_na a) i) false
               ≫= (λ a2, es ← for_ (seqZ 0 (a_na a2)) (λ j es, wr_f es (a_n a) j (a_n a))
                                 (a_e a2);
                         Ok (true, mkAutomate es (a_n a2) (a_na a2)
                                     (if decide (a_i a2 = -1) then a_n a else a_i a2)))
               = Ok (true, mkAutomate ((fill_row (a_n a) <$> a_e a)
                             ++ [mkEtat (replicate (Z.to_nat (a_na a)) (a_n a)) 0])
                            (a_n a + 1) (a_na a) (if decide (i = -1) then a_n a else i)))
    as Hadd.
  { intros i. rewrite AddEtat_eq by (simpl; try rewrite length_fmap; lia).
    rewrite Ok_bind. cbn [a_e a_n a_na a_i].
    rewrite (for_wr_f_const _ _ _ (mkEtat (replicate (Z.to_nat (a_na a)) (-1)) 0)).
    - rewrite Ok_bind. f_equal. f_equal. f_equal.
      rewrite insert_app_r_alt by (rewrite length_fmap; lia).
      rewrite length_fmap.
      replace (Z.to_nat (a_n a) - length (a_e a))%nat with 0%nat by lia. reflexivity.
    - rewrite lookup_app_r by (rewrite length_fmap; lia). rewrite length_fmap.
      replace (Z.to_nat (a_n a) - length (a_e a))%nat with 0%nat by lia. reflexivity.
    - lia.
    - simpl. rewrite length_replicate. lia. }
  destruct (decide (a_i a = -1)) as [Hi | Hi].
  - cbn [negb]. rewrite Hadd. unfold completed.
    rewrite (decide_True (P := a_i a = -1)) by exact Hi.
    destruct (decide (a_n a = -1)); reflexivity.
  - destruct (existsb row_lacks (a_e a)) eqn:Hlack; cbn [negb].
    + rewrite Hadd. unfold completed. rewrite !(decide_False (P := a_i a = -1)) by exact Hi.
      reflexivity.
    + rewrite (fill_row_id _ _ Hlack). destruct a; reflexivity.
Qed.

Section completed_facts.
Context (a : Automaton) (Hwf : wf a).
Let Ha : wf_alloc a := wf_wf_alloc a Hwf.

Lemma completed_row s :
  0 ≤ s < a_n a → sel (a_e (completed a)) s = fill_row (a_n a) (sel (a_e a) s).
Proof.
  intros Hs. pose proof (wf_n a Hwf). unfold completed. cbn [a_e].
  rewrite sel_app_l by (rewrite length_fmap; lia). apply sel_fmap. lia.
Qed.

Lemma completed_sink :
  sel (a_e (completed a)) (a_n a) = mkEtat (replicate (Z.to_nat (a_na a)) (a_n a)) 0.
Proof.
  pose proof (wf_n a Hwf). unfold completed. cbn [a_e].
  rewrite sel_app_r by (rewrite length_fmap; lia). rewrite length_fmap.
  replace (a_n a - len (a_e a)) with 0 by lia. reflexivity.
Qed.

Lemma completed_wf : wf (completed a).
Proof.
  pose proof (wf_n a Hwf) as Hn. pose proof (wf_na a Hwf) as Hna.
  pose proof (wf_i a Hwf) as Hi.
  assert (∀ s, s ∈ a_e (completed a) →
            (∃ s0, s0 ∈ a_e a ∧ s = fill_row (a_n a) s0)
            ∨ s = mkEtat (replicate (Z.to_nat (a_na a)) (a_n a)) 0) as Hin.
  { intros s. unfold completed. cbn [a_e]. rewrite elem_of_app, list_elem_of_fmap.
    intros [(s0 & -> & Hs0) | Hs%list_elem_of_singleton]; [left; eauto | right; exact Hs]. }
  split.
  - unfold completed. cbn [a_e a_n]. rewrite length_app, length_fmap. simpl. lia.
  - exact Hna.
  - intros s [(s0 & Hs0 & ->) | ->]%Hin; cbn [completed a_na e_f fill_row].
    + rewrite length_fmap. apply (wf_row a Hwf), Hs0.
    + rewrite length_replicate. lia.
  - intros s t [(s0 & Hs0 & ->) | ->]%Hin; cbn [completed a_n e_f fill_row].
    + intros (t0 & -> & Ht0)%list_elem_of_fmap.
      pose proof (wf_tgt a Hwf s0 t0 Hs0 Ht0). unfold fill. case_decide; lia.
    + intros [-> _]%elem_of_replicate. lia.
  - intros s [(s0 & Hs0 & ->) | ->]%Hin; cbn [e_final fill_row]; [|auto].
    apply (wf_fin a Hwf), Hs0.
  - unfold completed. cbn [a_i a_n]. case_decide; lia.
Qed.

Lemma completed_step s c :
  0 ≤ s ≤ a_n a →
  step (completed a) s c = if decide (0 ≤ c < a_na a) then Some (delta a s c) else None.
Proof.
  intros Hs. pose proof (wf_wf_alloc _ completed_wf) as Hc.
  pose proof (wf_n a Hwf) as Hn.
  destruct (decide (0 ≤ c < a_na a)) as [Hin | Hout].
  - rewrite step_sel by (try exact Hc; unfold completed; cbn [a_n a_na]; lia).
    unfold delta. destruct (decide (s = a_n a)) as [-> | Hne].
    + rewrite completed_sink. cbn [e_f]. rewrite sel_replicate by lia.
      rewrite decide_False by lia. rewrite (decide_False (P := _ ∧ _)) by lia.
      reflexivity.
    + rewrite completed_row by lia. cbn [fill_row e_f].
      pose proof (wa_row a Ha s ltac:(lia)) as Hr.
      rewrite sel_fmap by lia. rewrite (decide_True (P := _ ∧ _)) by lia. cbv zeta.
      unfold fill. pose proof (wa_tgt a Ha s c ltac:(lia) Hin).
      destruct (decide (sel (e_f (sel (a_e a) s)) c = -1)) as [Hd | Hd].
      * rewrite decide_False by lia. reflexivity.
      * rewrite decide_False by exact Hd. reflexivity.
  - apply step_no_letter; [exact Hc | unfold completed; cbn [a_n]; lia | exact Hout].
Qed.

Lemma completed_final s :
  0 ≤ s ≤ a_n a → is_final (completed a) s = final_state a s.
Proof.
  intros Hs. pose proof (wf_wf_alloc _ completed_wf) as Hc.
  unfold is_final.
  rewrite (wf_alloc_rd_final _ Hc) by (unfold completed; cbn [a_n]; lia).
  unfold final_state. destruct (decide (s = a_n a)) as [-> | Hne].
  - rewrite completed_sink. cbn [e_final].
    rewrite bool_decide_eq_false_2 by lia. symmetry. apply bool_decide_eq_false. lia.
  - rewrite completed_row by lia. cbn [fill_row e_final].
    apply bool_decide_ext. split; [intros H; split; [lia | exact H] | tauto].
Qed.

Lemma completed_accepts_from w :
  ∀ s, 0 ≤ s ≤ a_n a → accepts_from (completed a) s w = accepts_sink a s w.
Proof.
  unfold accepts_from, accepts_sink, run_sink.
  induction w as [|c w IH]; intros s Hs; simpl.
  - apply completed_final, Hs.
  - rewrite completed_step by exact Hs.
    destruct (decide (0 ≤ c < a_na a)) as [Hin | Hout].
    + apply IH. apply (delta_range a Ha).
    + assert (delta a s c = a_n a) as ->.
      { unfold delta. apply decide_False. tauto. }
      symmetry. apply (accepts_sink_sink a).
Qed.

Lemma completed_accepts w : accepts (completed a) w = accepts a w.
Proof.
  pose proof (wf_i a Hwf) as Hi. pose proof (wf_n a Hwf) as Hn.
  rewrite !accepts_accepts_from.
  destruct (decide (a_i a = -1)) as [Hnone | Hsome].
  - assert (a_i (completed a) = a_n a) as ->.
    { unfold completed. cbn [a_i]. apply decide_True, Hnone. }
    rewrite decide_False by lia. rewrite completed_accepts_from by lia.
    apply (accepts_sink_sink a).
  - assert (a_i (completed a) = a_i a) as ->.
    { unfold completed. cbn [a_i]. apply decide_False, Hsome. }
    rewrite decide_False by exact Hsome. rewrite completed_accepts_from by lia.
    symmetry. apply (accepts_from_sink a Ha). lia.
Qed.

Lemma completed_complete :
  a_i (completed a) ≠ -1 ∧ existsb row_lacks (a_e (completed a)) = false.
Proof.
  pose proof (wf_i a Hwf) as Hi. pose proof (wf_n a Hwf) as Hn. split.
  - unfold completed. cbn [a_i]. case_decide; lia.
  - destruct (existsb row_lacks (a_e (completed a))) eqn:Hex; [|reflexivity].
    exfalso. apply existsb_row_lacks in Hex as (s & Hs & Hin).
    unfold completed in Hs. cbn [a_e] in Hs. apply elem_of_app in Hs as [Hs | Hs].
    + apply list_elem_of_fmap in Hs as (s0 & -> & Hs0). cbn [fill_row e_f] in Hin.
      apply list_elem_of_fmap in Hin as (t & Ht & Hin).
      pose proof (wf_tgt a Hwf s0 t Hs0 Hin). unfold fill in Ht. case_decide; lia.
    + apply list_elem_of_singleton in Hs as ->. cbn [e_f] in Hin.
      apply elem_of_replicate in Hin as [Hin _]. lia.
Qed.
End completed_facts.

Lemma row_lacks_lacks a :
  wf a → existsb row_lacks (a_e a) = existsb (lacks a) (seqZ 0 (a_n a)).
Proof.
  intros Hwf. pose proof (wf_wf_alloc a Hwf) as Ha. pose proof (wf_n a Hwf) as Hn.
  apply eq_true_iff_eq. rewrite existsb_row_lacks, existsb_seqZ_true. split.
  - intros (s & (k & Hk & <-)%sel_elem_of & (c & Hc & Hm)%sel_elem_of).
    exists k. split; [lia|]. unfold lacks. apply existsb_seqZ_true.
    exists c. rewrite (wa_row a Ha) in Hc by lia.
    split; [lia|]. apply bool_decide_eq_true, Hm.
  - intros (k & Hk & Hl). unfold lacks in Hl.
    apply existsb_seqZ_true in Hl as (c & Hc & Hm%bool_decide_eq_true).
    exists (sel (a_e a) k). split.
    + apply sel_elem_of. exists k. split; [lia | reflexivity].
    + apply sel_elem_of. exists c. rewrite (wa_row a Ha) by lia. split; [lia | exact Hm].
Qed.

(** X5.  [CompleteAutomaton] leaves a well-formed automaton that
    [IsCompleteAutomaton] finds complete, and that a second call leaves as it
    is, answering [false]. *)
Theorem CompleteAutomaton_twice (a : Automaton) :
  wf a →
  ∃ b a', CompleteAutomaton a = Ok (b, a')
          ∧ wf a'
          ∧ IsCompleteAutomaton a' = Ok true
          ∧ CompleteAutomaton a' = Ok (false, a').
Proof.
  intros Hwf.
  assert (∃ b a', CompleteAutomaton a = Ok (b, a') ∧ wf a'
                  ∧ a_i a' ≠ -1 ∧ existsb row_lacks (a_e a') = false)
    as (b & a' & Hrun & Hwf' & Hi & Hrows).
  { rewrite (CompleteAutomaton_eq a Hwf).
    destruct (completed_complete a Hwf) as [Hi Hrows].
    destruct (decide (a_i a = -1)) as [Hnone | Hsome].
    - exists true, (completed a). auto using completed_wf.
    - destruct (existsb row_lacks (a_e a)) eqn:Hlack.
      + exists true, (completed a). auto using completed_wf.
      + exists false, a. auto. }
  exists b, a'. split; [exact Hrun|]. split; [exact Hwf'|]. split.
  - rewrite (IsCompleteAutomaton_eq a' (wf_wf_alloc a' Hwf')).
    rewrite <- (row_lacks_lacks a' Hwf'), Hrows. reflexivity.
  - rewrite (CompleteAutomaton_eq a' Hwf'). rewrite decide_False by exact Hi.
    rewrite Hrows. reflexivity.
Qed.

Lemma CompleteAutomaton_twice_witness :
  wf lacks_0_0
  ∧ ∃ b a', CompleteAutomaton lacks_0_0 = Ok (b, a')
            ∧ wf a' ∧ IsCompleteAutomaton a' = Ok true
            ∧ CompleteAutomaton a' = Ok (false, a').
Proof.
  assert (wf lacks_0_0) as HA by (apply wfb_wf; reflexivity).
  split; [exact HA|]. exact (CompleteAutomaton_twice lacks_0_0 HA).
Defined.

(** X6.  [CompleteAutomaton] does not change the language: the sink that it adds
    is not final and nothing leaves it. *)
Theorem CompleteAutomaton_language (a : Automaton) :
  wf a →
  ∃ b a', CompleteAutomaton a = Ok (b, a') ∧ ∀ w, accepts a' w = accepts a w.
Proof.
  intros Hwf. rewrite (CompleteAutomaton_eq a Hwf).
  destruct (decide (a_i a = -1)) as [Hnone | Hsome].
  - exists true, (completed a). split; [reflexivity|]. apply completed_accepts, Hwf.
  - destruct (existsb row_lacks (a_e a)) eqn:Hlack.
    + exists true, (completed a). split; [reflexivity|]. apply completed_accepts, Hwf.
    + exists false, a. split; reflexivity.
Qed.

Lemma CompleteAutomaton_language_witness :
  wf lacks_0_0
  ∧ ∃ b a', CompleteAutomaton lacks_0_0 = Ok (b, a')
            ∧ ∀ w, accepts a' w = accepts lacks_0_0 w.
Proof.
  assert (wf lacks_0_0) as HA by (apply wfb_wf; reflexivity).
  split; [exact HA|]. exact (CompleteAutomaton_language lacks_0_0 HA).
Defined.

(** ** Automata given by their table *)

(** The automaton of [n] states and [na] letters whose state [s] has the
    flag [fin s] and leads to [val s c] on the letter [c]. *)
Definition table (n na : Z) (val : Z → Z → Z) (fin : Z → Z) (i : Z) : Automaton :=
  mkAutomate ((λ s, mkEtat (val s <$> seqZ 0 na) (fin s)) <$> seqZ 0 n) n na i.

Lemma table_row n na val fin i s :
  0 ≤ s < n → sel (a_e (table n na val fin i)) s = mkEtat (val s <$> seqZ 0 na) (fin s).
Proof.
  intros Hs. unfold table. cbn [a_e].
  apply (sel_fmap_seqZ (λ s, mkEtat (val s <$> seqZ 0 na) (fin s))). exact Hs.
Qed.

Lemma table_wf n na val fin i :
  0 ≤ n → 0 ≤ na →
  (∀ s c, 0 ≤ s < n → 0 ≤ c < na → -1 ≤ val s c < n) →
  (∀ s, 0 ≤ s < n → fin s = 0 ∨ fin s = 1) →
  -1 ≤ i < n →
  wf (table n na val fin i).
Proof.
  intros Hn Hna Hval Hfin Hi.
  assert (∀ x, x ∈ a_e (table n na val fin i) →
            ∃ s, 0 ≤ s < n ∧ x = mkEtat (val s <$> seqZ 0 na) (fin s)) as Hin.
  { intros x (s & -> & Hs%elem_of_seqZ)%list_elem_of_fmap. exists s. split; [lia | reflexivity]. }
  split; try (unfold table; cbn [a_n a_na a_i]; assumption).
  - unfold table. cbn [a_e a_n]. rewrite length_fmap, length_seqZ. lia.
  - intros x (s & Hs & ->)%Hin. cbn [e_f]. apply len_fmap_seqZ, Hna.
  - intros x t (s & Hs & ->)%Hin. cbn [e_f].
    intros (c & -> & Hc%elem_of_seqZ)%list_elem_of_fmap.
    unfold table. cbn [a_n]. apply Hval; lia.
  - intros x (s & Hs & ->)%Hin. cbn [e_final]. apply Hfin, Hs.
Qed.

Lemma table_ext n na val val' fin fin' i :
  (∀ s c, 0 ≤ s < n → 0 ≤ c < na → val s c = val' s c) →
  (∀ s, 0 ≤ s < n → fin s = fin' s) →
  table n na val fin i = table n na val' fin' i.
Proof.
  intros Hval Hfin. unfold table. f_equal. apply list_fmap_ext.
  intros k s Hs. apply lookup_seqZ in Hs as [-> Hk]. f_equal.
  - apply list_fmap_ext. intros k' c Hc. apply lookup_seqZ in Hc as [-> Hk'].
    apply Hval; lia.
  - apply Hfin. lia.
Qed.

(** A well-formed automaton is the table of its transitions. *)
Lemma table_of a :
  wf a →
  a = table (a_n a) (a_na a) (λ s c, sel (e_f (sel (a_e a) s)) c)
        (λ s, e_final (sel (a_e a) s)) (a_i a).
Proof.
  intros Hwf. pose proof (wf_wf_alloc a Hwf) as Ha. pose proof (wf_n a Hwf) as Hn.
  unfold table. destruct a as [es n na i]. cbn [a_e a_n a_na a_i] in *. f_equal.
  apply list_eq_sel.
  - rewrite len_fmap_seqZ by lia. exact Hn.
  - intros k Hk. rewrite sel_fmap_seqZ by lia.
    destruct (sel es k) as [f fin] eqn:Hs. cbn [e_f e_final]. f_equal.
    pose proof (wa_row _ Ha k) as Hr. cbn [a_e a_n a_na] in Hr.
    rewrite Hs in Hr. cbn [e_f] in Hr.
    rewrite <- Hr by lia. symmetry. apply fmap_seqZ_sel.
Qed.

Section table_facts.
Context (n na : Z) (val : Z → Z → Z) (fin : Z → Z) (i : Z).
Context (Hwf : wf (table n na val fin i)).

Lemma table_step s c :
  0 ≤ s < n →
  step (table n na val fin i) s c
  = if decide (0 ≤ c < na) then
      if decide (val s c = -1) then None else Some (val s c)
    else None.
Proof.
  intros Hs. pose proof (wf_wf_alloc _ Hwf) as Ha.
  destruct (decide (0 ≤ c < na)) as [Hc | Hc].
  - rewrite step_sel by (try exact Ha; cbn [table a_n a_na]; lia).
    rewrite table_row by exact Hs. cbn [e_f]. rewrite sel_fmap_seqZ by exact Hc.
    reflexivity.
  - apply step_no_letter; [exact Ha | exact Hs | exact Hc].
Qed.

Lemma table_final s :
  0 ≤ s < n → is_final (table n na val fin i) s = bool_decide (fin s ≠ 0).
Proof.
  intros Hs. pose proof (wf_wf_alloc _ Hwf) as Ha. unfold is_final.
  rewrite (wf_alloc_rd_final _ Ha) by exact Hs. rewrite table_row by exact Hs.
  reflexivity.
Qed.
End table_facts.

(** ** Loops that write in one row *)

Lemma upd_same `{Inhabited T} (l : list T) k : 0 ≤ k < len l → upd l k (sel l k) = l.
Proof. intros Hk. apply list_insert_id, sel_lookup, Hk. Qed.

(** A loop whose turns write in the row [k] only. *)
Lemma row_loop (es : list Etat) k m
    (body : Z → list Etat → Res (list Etat)) (P : Z → Etat → Prop) :
  0 ≤ k < len es → 0 ≤ m → P 0 (sel es k) →
  (∀ j s, 0 ≤ j < m → P j s → ∃ s', body j (upd es k s) = Ok (upd es k s') ∧ P (j + 1) s') →
  ∃ s', for_ (seqZ 0 m) body es = Ok (upd es k s') ∧ P m s'.
Proof.
  intros Hk Hm H0 Hbody.
  destruct (for_seqZ_inv (λ j es', ∃ s, es' = upd es k s ∧ P j s) body 0 m es)
    as (es' & Hrun & s & -> & HP); [lia| | |].
  - exists (sel es k). split; [symmetry; apply upd_same, Hk | exact H0].
  - intros j es' Hj (s & -> & HP).
    destruct (Hbody j s ltac:(lia) HP) as (s' & Hrun & HP').
    exists (upd es k s'). split; [exact Hrun|]. exists s'. auto.
  - exists s. split; [exact Hrun | exact HP].
Qed.

(** The same for a loop that threads a second value. *)
Lemma row_loop_with {X} (es : list Etat) (x : X) k m
    (body : Z → list Etat * X → Res (list Etat * X)) (P : Z → Etat → X → Prop) :
  0 ≤ k < len es → 0 ≤ m → P 0 (sel es k) x →
  (∀ j s y, 0 ≤ j < m → P j s y →
     ∃ s' y', body j (upd es k s, y) = Ok (upd es k s', y') ∧ P (j + 1) s' y') →
  ∃ s' y', for_ (seqZ 0 m) body (es, x) = Ok (upd es k s', y') ∧ P m s' y'.
Proof.
  intros Hk Hm H0 Hbody.
  destruct (for_seqZ_inv (λ j st, ∃ s y, st = (upd es k s, y) ∧ P j s y) body 0 m (es, x))
    as (st & Hrun & s & y & -> & HP); [lia| | |].
  - exists (sel es k), x. split; [|exact H0]. f_equal. symmetry. apply upd_same, Hk.
  - intros j st Hj (s & y & -> & HP).
    destruct (Hbody j s y ltac:(lia) HP) as (s' & y' & Hrun & HP').
    exists (upd es k s', y'). split; [exact Hrun|]. exists s', y'. auto.
  - exists s, y. split; [exact Hrun | exact HP].
Qed.

(** A row known cell by cell. *)
Lemma row_ext (s : Etat) na (val : Z → Z) fin :
  len (e_f s) = na → (∀ c, 0 ≤ c < na → sel (e_f s) c = val c) → e_final s = fin →
  s = mkEtat (val <$> seqZ 0 na) fin.
Proof.
  intros Hlen Hval Hfin. destruct s as [f fin']. cbn [e_f e_final] in *. subst fin'.
  f_equal. apply list_eq_sel.
  - rewrite len_fmap_seqZ by lia. exact Hlen.
  - intros c Hc. rewrite sel_fmap_seqZ by lia. apply Hval. lia.
Qed.

(** A loop over the states, with a second value threaded through. *)
Lemma fill_rows_with {X} (es : list Etat) (x : X) n
    (body : Z → list Etat * X → Res (list Etat * X)) (row : Z → Etat) (Q : X → Prop) :
  0 ≤ n ≤ len es → Q x →
  (∀ i es' y, 0 ≤ i < n → len es' = len es → Q y →
     (∀ k, i ≤ k → sel es' k = sel es k) →
     ∃ y', body i (es', y) = Ok (upd es' i (row i), y') ∧ Q y') →
  ∃ y, for_ (seqZ 0 n) body (es, x)
       = Ok ((row <$> seqZ 0 n) ++ drop (Z.to_nat n) es, y) ∧ Q y.
Proof.
  intros Hn HQ Hbody.
  destruct (for_seqZ_inv
    (λ i st, st.1 = (row <$> seqZ 0 i) ++ drop (Z.to_nat i) es ∧ Q st.2)
    body 0 n (es, x)) as ([es' y] & Hrun & Hes & Hy); [lia| | |].
  - simpl. rewrite drop_0. auto.
  - intros i [es' y] Hi [Hes Hy]. cbn [fst snd] in *. subst es'.
    edestruct (Hbody i) as (y' & -> & Hy'); [lia| |exact Hy| |].
    + rewrite length_app, length_drop, length_fmap, length_seqZ. lia.
    + intros k Hk. rewrite sel_app_r by (rewrite len_fmap_seqZ; lia).
      rewrite len_fmap_seqZ by lia. rewrite sel_drop by lia. f_equal. lia.
    + eexists. split; [reflexivity|]. cbn [fst snd]. split; [|exact Hy'].
      replace (0 + (i + 1)) with (i + 1) by lia. replace (0 + i) with i by lia.
      apply list_eq_sel.
      * rewrite length_upd, !length_app, !length_drop, !length_fmap, !length_seqZ. lia.
      * intros k Hk. rewrite length_upd in Hk.
        rewrite length_app, length_drop, length_fmap, length_seqZ in Hk.
        rewrite sel_upd
          by (rewrite ?length_app, ?length_drop, ?length_fmap, ?length_seqZ; lia).
        case_decide as Hd.
        -- subst k. rewrite sel_app_l by (rewrite len_fmap_seqZ; lia).
           rewrite sel_fmap_seqZ by lia. reflexivity.
        -- destruct (decide (k < i)) as [Hlt | Hge].
           ++ rewrite !sel_app_l by (rewrite len_fmap_seqZ; lia).
              rewrite !sel_fmap_seqZ by lia. reflexivity.
           ++ rewrite !sel_app_r by (rewrite len_fmap_seqZ; lia).
              rewrite !len_fmap_seqZ by lia. rewrite !sel_drop by lia.
              f_equal. lia.
  - exists y. cbn [fst snd] in *. subst es'. split; [|exact Hy].
    replace (0 + n) with n in Hrun by lia. exact Hrun.
Qed.

(** The rows of a fresh automaton, once they are all written. *)
Lemma rows_done (row : Z → Etat) n (es : list Etat) :
  len es = n → (row <$> seqZ 0 n) ++ drop (Z.to_nat n) es = row <$> seqZ 0 n.
Proof. intros H. rewrite drop_ge by lia. apply app_nil_r. Qed.

Lemma fresh_rows n na k :
  0 ≤ k < n → sel (a_e (NewAutomaton n na)) k = fresh_row na.
Proof. intros Hk. rewrite NewAutomaton_rows by lia. apply sel_replicate. lia. Qed.

Lemma fresh_len n na : 0 ≤ n → len (a_e (NewAutomaton n na)) = n.
Proof. intros Hn. rewrite NewAutomaton_rows by lia. rewrite length_replicate. lia. Qed.

Lemma wr_f_row (es : list Etat) k s j v :
  0 ≤ k < len es → 0 ≤ j < len (e_f s) →
  wr_f (upd es k s) k j v = Ok (upd es k (mkEtat (upd (e_f s) j v) (e_final s))).
Proof.
  intros Hk Hj. rewrite wr_f_upd by (rewrite ?length_upd, ?sel_upd_eq; lia).
  rewrite sel_upd_eq by lia. rewrite upd_upd. reflexivity.
Qed.

Lemma wr_final_row (es : list Etat) k s v :
  0 ≤ k < len es → wr_final (upd es k s) k v = Ok (upd es k (mkEtat (e_f s) v)).
Proof.
  intros Hk. rewrite wr_final_upd by (rewrite length_upd; lia).
  rewrite sel_upd_eq by lia. rewrite upd_upd. reflexivity.
Qed.

Lemma rd_f_row (es : list Etat) k s j :
  0 ≤ k < len es → 0 ≤ j < len (e_f s) →
  rd_f (upd es k s) k j = Ok (sel (e_f s) j).
Proof.
  intros Hk Hj. unfold rd_f. rewrite bind_rd by (rewrite length_upd; lia).
  rewrite sel_upd_eq by lia. apply rd_sel, Hj.
Qed.

(** ** [Permut] and [PermutOP] *)

(** The letter [c] of the result stands for the letter [l[c]] of [a]; with
    [l[c] = -1], and from [na] on, it labels no transition. *)
Definition permuted (a : Automaton) (l : list Z) (na na' : Z) : Automaton :=
  table (a_n a) na'
    (λ s c, if decide (c < na ∧ sel l c ≠ -1)
            then sel (e_f (sel (a_e a) s)) (sel l c) else -1)
    (λ s, e_final (sel (a_e a) s)) (a_i a).

Section Permut_facts.
Context (a : Automaton) (l : list Z) (na : Z).
Context (Hwf : wf a) (Hna : 0 ≤ na ≤ len l).
Context (Hl : ∀ c, 0 ≤ c < na → -1 ≤ sel l c < a_na a).
Let Ha : wf_alloc a := wf_wf_alloc a Hwf.

Lemma Permut_eq : Permut a l na = Ok (permuted a l na na).
Proof.
  pose proof (wf_n a Hwf) as Hn. unfold Permut. cbv zeta.
  rewrite NewAutomaton_n, NewAutomaton_na.
  rewrite (fill_rows _ _ _
    (λ s, mkEtat ((λ c, if decide (c < na ∧ sel l c ≠ -1)
                        then sel (e_f (sel (a_e a) s)) (sel l c) else -1)
                  <$> seqZ 0 na) (e_final (sel (a_e a) s)))).
  - rewrite Ok_bind. rewrite rows_done by (apply fresh_len; lia). reflexivity.
  - rewrite fresh_len by lia. lia.
  - intros i es' Hi Hlen Hdone Hrest. rewrite fresh_len in Hlen by lia.
    assert (sel es' i = fresh_row na) as Hrow.
    { rewrite Hrest by lia. apply fresh_rows. lia. }
    rewrite (fill_row_prefix _ i na _
      (λ c, if decide (c < na ∧ sel l c ≠ -1)
            then sel (e_f (sel (a_e a) i)) (sel l c) else -1)).
    + rewrite Ok_bind. rewrite (wf_alloc_rd_final a Ha) by lia. rewrite Ok_bind.
      rewrite wr_final_row by lia. cbn [e_f]. f_equal. f_equal. f_equal.
      rewrite Hrow. unfold fresh_row. cbn [e_f].
      rewrite drop_ge by (rewrite length_replicate; lia). apply app_nil_r.
    + lia.
    + rewrite Hrow. unfold fresh_row. cbn [e_f]. rewrite length_replicate. lia.
    + intros j es'' Hj _ _ _ _ _. rewrite bind_rd by lia.
      pose proof (Hl j Hj) as Hlj.
      destruct (decide (sel l j ≠ -1)) as [Hd | Hd].
      * rewrite (wf_alloc_rd_f a Ha) by lia. rewrite Ok_bind.
        rewrite decide_True by (split; [lia | exact Hd]). reflexivity.
      * rewrite decide_False by tauto. reflexivity.
Qed.

Lemma permuted_wf na' : 0 ≤ na' → wf (permuted a l na na').
Proof.
  intros Hna'. pose proof (wf_n a Hwf) as Hn. pose proof (wf_i a Hwf) as Hi.
  apply table_wf; try lia.
  - intros s c Hs Hc. destruct (decide (c < na ∧ sel l c ≠ -1)) as [[Hlt Hd] | Hd]; [|lia].
    pose proof (Hl c ltac:(lia)) as Hlc. apply (wa_tgt a Ha); lia.
  - intros s Hs. apply (wa_fin a Ha), Hs.
Qed.

Lemma permuted_accepts_from na' w :
  na ≤ na' →
  ∀ s, 0 ≤ s < a_n a →
    accepts_from (permuted a l na na') s w
    = forallb (λ c, bool_decide (0 ≤ c < na ∧ sel l c ≠ -1)) w
      && accepts_from a s (sel l <$> w).
Proof.
  intros Hna'. assert (0 ≤ na') as Hna0 by lia.
  pose proof (permuted_wf na' Hna0) as Hwfp.
  unfold accepts_from. induction w as [|c w IH]; intros s Hs.
  - simpl. rewrite (table_final _ _ _ _ _ Hwfp) by exact Hs.
    unfold is_final. rewrite (wf_alloc_rd_final a Ha) by exact Hs. reflexivity.
  - rewrite fmap_cons. cbn [run forallb]. unfold permuted at 1.
    rewrite (table_step _ _ _ _ _ Hwfp) by exact Hs.
    destruct (decide (0 ≤ c < na ∧ sel l c ≠ -1)) as [[Hc Hd] | Hd].
    + rewrite bool_decide_eq_true_2 by tauto. rewrite andb_true_l.
      rewrite decide_True by lia. rewrite (decide_True (P := _ ∧ _)) by tauto.
      pose proof (Hl c Hc) as Hlc. rewrite step_sel by (try exact Ha; lia).
      destruct (decide (sel (e_f (sel (a_e a) s)) (sel l c) = -1)) as [He | He];
        [rewrite andb_false_r; reflexivity|].
      assert (0 ≤ sel l c < a_na a) as Hlc' by lia.
      apply IH. pose proof (wa_tgt a Ha s (sel l c) Hs Hlc'). lia.
    + rewrite bool_decide_eq_false_2 by exact Hd. rewrite andb_false_l.
      destruct (decide (0 ≤ c < na')) as [Hc | Hc]; [|reflexivity].
      rewrite (decide_False (P := _ ∧ _))
        by (intros [? ?]; apply Hd; split; [lia | assumption]).
      rewrite decide_True by reflexivity. reflexivity.
Qed.

Lemma permuted_accepts na' w :
  na ≤ na' →
  accepts (permuted a l na na') w
  = forallb (λ c, bool_decide (0 ≤ c < na ∧ sel l c ≠ -1)) w && accepts a (sel l <$> w).
Proof.
  intros Hna'. rewrite !accepts_accepts_from. change (a_i (permuted a l na na')) with (a_i a).
  case_decide as Hi; [rewrite andb_false_r; reflexivity|].
  apply permuted_accepts_from; [exact Hna'|]. pose proof (wf_i a Hwf). lia.
Qed.
End Permut_facts.

(** X7.  The letters of [a] are renamed: [Permut] returns a well-formed automaton
    of [na] letters that accepts a word exactly when each of its letters [c]
    stands for a letter [l[c]] of [a] and [a] accepts the word of these
    letters. *)
Theorem Permut_language (a : Automaton) (l : list Z) (na : Z) :
  wf a → 0 ≤ na ≤ len l → (∀ c, 0 ≤ c < na → -1 ≤ sel l c < a_na a) →
  ∃ r, Permut a l na = Ok r ∧ wf r ∧ a_n r = a_n a ∧ a_na r = na
       ∧ ∀ w, accepts r w
              = forallb (λ c, bool_decide (0 ≤ c < na ∧ sel l c ≠ -1)) w
                && accepts a (sel l <$> w).
Proof.
  intros Hwf Hna Hl. exists (permuted a l na na).
  split; [apply Permut_eq; assumption|].
  split; [apply permuted_wf; try assumption; lia|].
  split; [reflexivity|]. split; [reflexivity|].
  intros w. apply permuted_accepts; try assumption. lia.
Qed.

Lemma Permut_language_witness :
  wf contains_1 ∧ 0 ≤ 3 ≤ len [1; -1; 0]
  ∧ (∀ c, 0 ≤ c < 3 → -1 ≤ sel [1; -1; 0] c < a_na contains_1)
  ∧ ∃ r, Permut contains_1 [1; -1; 0] 3 = Ok r ∧ wf r ∧ a_na r = 3.
Proof.
  assert (wf contains_1) as HA by (apply wfb_wf; reflexivity).
  assert (0 ≤ 3 ≤ len [1; -1; 0]) as Hna by (simpl; lia).
  assert (∀ c, 0 ≤ c < 3 → -1 ≤ sel [1; -1; 0] c < a_na contains_1) as Hl.
  { intros c Hc. assert (c = 0 ∨ c = 1 ∨ c = 2) as [-> | [-> | ->]] by lia;
      vm_compute; split; congruence. }
  split; [exact HA|]. split; [exact Hna|]. split; [exact Hl|].
  destruct (Permut_language contains_1 [1; -1; 0] 3 HA Hna Hl)
    as (r & Hr & Hwfr & _ & Hnar & _).
  exists r. split; [exact Hr|]. split; [exact Hwfr | exact Hnar].
Defined.

Section PermutOP_facts.
Context (a : Automaton) (l : list Z) (na : Z).
Context (Hwf : wf a) (Hna : 0 ≤ na ≤ len l) (Hna' : na ≤ a_na a).
Context (Hl : ∀ c, 0 ≤ c < na → -1 ≤ sel l c < a_na a).
Let Ha : wf_alloc a := wf_wf_alloc a Hwf.

Lemma PermutOP_eq : PermutOP a l na = Ok (permuted a l na (a_na a)).
Proof.
  pose proof (wf_n a Hwf) as Hn. pose proof (wf_na a Hwf) as Hna0.
  unfold PermutOP.
  set (val := λ s c, if decide (c < na ∧ sel l c ≠ -1)
                     then sel (e_f (sel (a_e a) s)) (sel l c) else -1).
  match goal with |- context [for_ (seqZ 0 (a_n a)) ?b _] => set (body := b) end.
  destruct (fill_rows_with (a_e a) (replicate (Z.to_nat (a_na a)) UNINIT) (a_n a) body
               (λ s, mkEtat (val s <$> seqZ 0 (a_na a)) (e_final (sel (a_e a) s)))
               (λ lf, len lf = a_na a)) as (lf & -> & _).
  - lia.
  - rewrite length_replicate. lia.
  - intros i es' lf Hi Hlen Hlf Hrest.
    set (s0 := sel (a_e a) i).
    assert (sel es' i = s0) as Hrow by (apply Hrest; lia).
    pose proof (wa_row a Ha i Hi) as Hr0. fold s0 in Hr0.
    unfold body.
    (* the row is saved and cleared *)
    match goal with |- context [for_ (seqZ 0 (a_na a)) ?b _] => set (body1 := b) end.
    destruct (row_loop_with es' lf i (a_na a) body1
      (λ j s y, len (e_f s) = a_na a ∧ len y = a_na a
                ∧ (∀ c, 0 ≤ c < j → sel (e_f s) c = -1 ∧ sel y c = sel (e_f s0) c)
                ∧ (∀ c, j ≤ c → sel (e_f s) c = sel (e_f s0) c)
                ∧ e_final s = e_final s0))
      as (s1 & lf1 & -> & Hs1 & Hlf1 & Hsaved & _ & Hfin1).
    + lia.
    + lia.
    + rewrite Hrow. repeat split; auto; lia.
    + intros j s y Hj (Hs & Hy & Hlow & Hhigh & Hfin). unfold body1.
      rewrite rd_f_row by lia. rewrite Ok_bind. rewrite bind_wr by lia.
      rewrite wr_f_row by lia. rewrite Ok_bind.
      eexists _, _. split; [reflexivity|]. cbn [e_f e_final].
      rewrite !length_upd. repeat split; try assumption.
      * rewrite sel_upd by lia. case_decide; [reflexivity|]. apply Hlow. lia.
      * rewrite sel_upd by lia. case_decide as Hd; [subst c; apply Hhigh; lia|].
        apply Hlow. lia.
      * intros c Hc. rewrite sel_upd_ne by lia. apply Hhigh. lia.
    + rewrite Ok_bind. cbv beta iota.
      (* the new transitions *)
      match goal with |- context [for_ (seqZ 0 na) ?b _] => set (body2 := b) end.
      destruct (row_loop (upd es' i s1) i na body2
        (λ j s, len (e_f s) = a_na a
                ∧ (∀ c, 0 ≤ c < j → sel (e_f s) c = val i c)
                ∧ (∀ c, j ≤ c < a_na a → sel (e_f s) c = -1)
                ∧ e_final s = e_final s0))
        as (s2 & Hrun & Hs2 & Hnew & Hold & Hfin2).
      * rewrite length_upd. lia.
      * lia.
      * rewrite sel_upd_eq by lia. repeat split; auto; try lia.
        intros c Hc. apply Hsaved. lia.
      * intros j s Hj (Hs & Hlow & Hhigh & Hfin). unfold body2. rewrite upd_upd.
        rewrite bind_rd by lia. pose proof (Hl j Hj) as Hlj.
        destruct (decide (sel l j ≠ -1)) as [Hd | Hd].
        -- rewrite bind_rd by lia. rewrite wr_f_row by lia.
           eexists. split; [rewrite upd_upd; reflexivity|].
           cbn [e_f e_final]. rewrite length_upd.
           repeat split; try assumption.
           ++ intros c Hc. rewrite sel_upd by lia. case_decide as Hcj.
              ** subst c. unfold val. rewrite decide_True by (split; [lia | exact Hd]).
                 fold s0. apply Hsaved. lia.
              ** apply Hlow. lia.
           ++ intros c Hc. rewrite sel_upd_ne by lia. apply Hhigh. lia.
        -- exists s. split; [rewrite upd_upd; reflexivity|].
           repeat split; try assumption.
           ++ intros c Hc. destruct (decide (c = j)) as [-> | Hcj]; [|apply Hlow; lia].
              unfold val. rewrite decide_False by tauto. apply Hhigh. lia.
           ++ intros c Hc. apply Hhigh. lia.
      * rewrite Hrun, Ok_bind. rewrite upd_upd. eexists. split; [|exact Hlf1].
        f_equal. f_equal. f_equal. apply row_ext; [exact Hs2| |exact Hfin2].
        intros c Hc. destruct (decide (c < na)) as [Hlt | Hge]; [apply Hnew; lia|].
        unfold val. rewrite decide_False by tauto. apply Hold. lia.
  - rewrite Ok_bind. rewrite rows_done by exact Hn. reflexivity.
Qed.
End PermutOP_facts.

(** X8.  With as many new letters as [a] has letters, [PermutOP] leaves in place
    the automaton that [Permut] returns. *)
Theorem PermutOP_Permut (a : Automaton) (l : list Z) :
  wf a → a_na a ≤ len l → (∀ c, 0 ≤ c < a_na a → -1 ≤ sel l c < a_na a) →
  ∃ r, PermutOP a l (a_na a) = Ok r ∧ Permut a l (a_na a) = Ok r.
Proof.
  intros Hwf Hlen Hl. pose proof (wf_na a Hwf) as Hna.
  exists (permuted a l (a_na a) (a_na a)). split.
  - apply PermutOP_eq; try assumption; lia.
  - apply Permut_eq; try assumption. lia.
Qed.

Lemma PermutOP_Permut_witness :
  wf contains_1 ∧ a_na contains_1 ≤ len [1; 0]
  ∧ (∀ c, 0 ≤ c < a_na contains_1 → -1 ≤ sel [1; 0] c < a_na contains_1)
  ∧ ∃ r, PermutOP contains_1 [1; 0] (a_na contains_1) = Ok r
         ∧ Permut contains_1 [1; 0] (a_na contains_1) = Ok r.
Proof.
  assert (wf contains_1) as HA by (apply wfb_wf; reflexivity).
  assert (a_na contains_1 ≤ len [1; 0]) as Hlen by (simpl; lia).
  assert (∀ c, 0 ≤ c < a_na contains_1 → -1 ≤ sel [1; 0] c < a_na contains_1) as Hl.
  { intros c Hc. simpl in Hc. assert (c = 0 ∨ c = 1) as [-> | ->] by lia;
      vm_compute; split; congruence. }
  split; [exact HA|]. split; [exact Hlen|]. split; [exact Hl|].
  exact (PermutOP_Permut contains_1 [1; 0] HA Hlen Hl).
Defined.

(** ** [BiggerAlphabet] *)

(** The letter of [a] that [d] sends to [c], [-1] when there is none. *)
Definition letter_of (d : Dict) (c : Z) : Z :=
  match list_find (λ x, x = c) d with
  | Some (k, _) => Z.of_nat k
  | None => -1
  end.

Lemma letter_of_range d c : -1 ≤ letter_of d c < len d.
Proof.
  unfold letter_of. destruct (list_find _ d) as [[k x]|] eqn:Hf; [|lia].
  apply list_find_Some in Hf as (Hk%lookup_lt_Some & _). lia.
Qed.

Lemma letter_of_found d c : letter_of d c ≠ -1 → sel d (letter_of d c) = c.
Proof.
  unfold letter_of. destruct (list_find _ d) as [[k x]|] eqn:Hf; [|congruence].
  intros _. apply list_find_Some in Hf as (Hk & -> & _).
  unfold sel. rewrite Nat2Z.id. apply list_lookup_total_correct, Hk.
Qed.

Lemma letter_of_none d c : letter_of d c = -1 ↔ c ∉ d.
Proof.
  unfold letter_of. destruct (list_find _ d) as [[k x]|] eqn:Hf.
  - apply list_find_Some in Hf as (Hk & -> & _). split; [lia|].
    intros Hn. destruct Hn. eapply list_elem_of_lookup_2, Hk.
  - apply list_find_None in Hf. split; [|reflexivity]. intros _ Hin.
    rewrite Forall_forall in Hf. apply (Hf c (proj1 (list_elem_of_In _ _) Hin)). reflexivity.
Qed.

Lemma letter_of_sel d j : NoDup d → 0 ≤ j < len d → letter_of d (sel d j) = j.
Proof.
  intros Hnd Hj. pose proof (sel_lookup d j Hj) as Hl.
  assert (letter_of d (sel d j) ≠ -1) as Hne.
  { rewrite letter_of_none. intros Hn. apply Hn. eapply list_elem_of_lookup_2, Hl. }
  pose proof (letter_of_found d _ Hne) as Hf.
  pose proof (letter_of_range d (sel d j)) as Hr.
  assert (0 ≤ letter_of d (sel d j) < len d) as Hr' by lia.
  pose proof (sel_lookup d (letter_of d (sel d j)) Hr') as Hl'.
  rewrite Hf in Hl'.
  pose proof (NoDup_lookup _ _ _ _ Hnd Hl Hl'). lia.
Qed.

Definition bigger (a : Automaton) (d : Dict) (nna : Z) : Automaton :=
  table (a_n a) nna
    (λ s c, if decide (letter_of d c = -1) then -1
            else sel (e_f (sel (a_e a) s)) (letter_of d c))
    (λ s, if decide (a_na a = 0) then 0 else e_final (sel (a_e a) s)) (a_i a).

Section BiggerAlphabet_facts.
Context (a : Automaton) (d : Dict) (nna : Z).
Context (Hwf : wf a) (Hd : d_n d = a_na a) (Hnna : 0 ≤ nna).
Context (Hrange : ∀ j, 0 ≤ j < a_na a → 0 ≤ sel d j < nna) (Hnd : NoDup d).
Let Ha : wf_alloc a := wf_wf_alloc a Hwf.

Lemma BiggerAlphabet_eq : BiggerAlphabet a d nna = Ok (bigger a d nna).
Proof.
  pose proof (wf_n a Hwf) as Hn. unfold d_n in Hd.
  unfold BiggerAlphabet. rewrite decide_False by (unfold d_n; lia).
  rewrite init_NewAutomaton by lia. rewrite Ok_bind. cbn [a_e a_n a_na].
  set (val := λ s c, if decide (letter_of d c = -1) then -1
                     else sel (e_f (sel (a_e a) s)) (letter_of d c)).
  set (fin := λ s, if decide (a_na a = 0) then 0 else e_final (sel (a_e a) s)).
  rewrite (fill_rows _ _ _ (λ s, mkEtat (val s <$> seqZ 0 nna) (fin s))).
  - rewrite Ok_bind. rewrite rows_done by (rewrite length_replicate; lia). reflexivity.
  - rewrite length_replicate. lia.
  - intros i es' Hi Hlen Hdone Hrest. rewrite length_replicate in Hlen.
    assert (sel es' i = mkEtat (replicate (Z.to_nat nna) (-1)) 0) as Hrow.
    { rewrite Hrest by lia. apply sel_replicate. lia. }
    match goal with |- for_ _ ?b _ = _ => set (body := b) end.
    destruct (row_loop es' i (a_na a) body
      (λ j s, len (e_f s) = nna
              ∧ (∀ j', 0 ≤ j' < j → sel (e_f s) (sel d j') = sel (e_f (sel (a_e a) i)) j')
              ∧ (∀ c, 0 ≤ c < nna → (∀ j', 0 ≤ j' < j → sel d j' ≠ c) → sel (e_f s) c = -1)
              ∧ e_final s = if decide (j = 0) then 0 else e_final (sel (a_e a) i)))
      as (s' & -> & Hs' & Himg & Hnone & Hfin).
    + lia.
    + apply (wa_na a Ha).
    + rewrite Hrow. cbn [e_f e_final]. rewrite length_replicate.
      split; [lia|]. split; [intros; lia|]. split; [|reflexivity].
      intros c Hc _. apply sel_replicate. lia.
    + intros j s Hj (Hs & Himg & Hnone & Hfin). unfold body.
      rewrite bind_rd by lia. rewrite (wf_alloc_rd_f a Ha) by lia. rewrite Ok_bind.
      pose proof (Hrange j Hj) as Hdj.
      rewrite wr_f_row by lia. rewrite Ok_bind.
      rewrite (wf_alloc_rd_final a Ha) by lia. rewrite Ok_bind.
      rewrite wr_final_row by lia. cbn [e_f e_final].
      eexists. split; [reflexivity|]. cbn [e_f e_final]. rewrite length_upd.
      split; [exact Hs|]. split; [|split].
      * intros j' Hj'. pose proof (Hrange j' ltac:(lia)) as Hdj'.
        rewrite sel_upd by lia.
        destruct (decide (sel d j' = sel d j)) as [Heq | Hneq].
        -- assert (0 ≤ j' < len d) as Hj1 by lia. assert (0 ≤ j < len d) as Hj2 by lia.
           pose proof (sel_lookup d j' Hj1) as H1. pose proof (sel_lookup d j Hj2) as H2.
           rewrite Heq in H1. pose proof (NoDup_lookup _ _ _ _ Hnd H1 H2).
           assert (j' = j) as -> by lia. reflexivity.
        -- assert (j' ≠ j) by (intros ->; apply Hneq; reflexivity). apply Himg. lia.
      * intros c Hc Hno.
        assert (sel d j ≠ c) as Hjc by (apply Hno; lia).
        rewrite sel_upd_ne by lia.
        apply Hnone; [exact Hc|]. intros j' Hj'. apply Hno. lia.
      * rewrite decide_False by lia. reflexivity.
    + f_equal. f_equal. apply row_ext; [exact Hs'| |].
      * intros c Hc. unfold val.
        pose proof (letter_of_range d c) as Hr.
        destruct (decide (letter_of d c = -1)) as [Hl | Hl].
        -- apply Hnone; [exact Hc|]. intros j' Hj' Heq.
           apply letter_of_none in Hl. apply Hl. rewrite <- Heq.
           eapply list_elem_of_lookup_2, sel_lookup. lia.
        -- rewrite <- (letter_of_found d c Hl) at 1. apply Himg. lia.
      * rewrite Hfin. unfold fin. reflexivity.
Qed.

Lemma bigger_wf : wf (bigger a d nna).
Proof.
  pose proof (wf_n a Hwf) as Hn. pose proof (wf_i a Hwf) as Hi. unfold d_n in Hd.
  apply table_wf; try lia.
  - intros s c Hs Hc. pose proof (letter_of_range d c).
    destruct (decide (letter_of d c = -1)); [lia|]. apply (wa_tgt a Ha); lia.
  - intros s Hs. case_decide; [auto|]. apply (wa_fin a Ha), Hs.
Qed.

Lemma bigger_accepts_from w :
  1 ≤ a_na a →
  ∀ s, 0 ≤ s < a_n a →
    accepts_from (bigger a d nna) s w
    = forallb (λ c, bool_decide (0 ≤ c < nna ∧ letter_of d c ≠ -1)) w
      && accepts_from a s (letter_of d <$> w).
Proof.
  intros Hna1. pose proof bigger_wf as Hwfb. unfold d_n in Hd.
  unfold accepts_from. induction w as [|c w IH]; intros s Hs.
  - simpl. rewrite (table_final _ _ _ _ _ Hwfb) by exact Hs.
    rewrite decide_False by lia.
    unfold is_final. rewrite (wf_alloc_rd_final a Ha) by exact Hs. reflexivity.
  - rewrite fmap_cons. cbn [run forallb]. unfold bigger at 1.
    rewrite (table_step _ _ _ _ _ Hwfb) by exact Hs.
    pose proof (letter_of_range d c) as Hr.
    destruct (decide (0 ≤ c < nna ∧ letter_of d c ≠ -1)) as [[Hc Hl] | Hl].
    + rewrite bool_decide_eq_true_2 by tauto. rewrite andb_true_l.
      rewrite decide_True by lia. rewrite (decide_False (P := letter_of d c = -1)) by exact Hl.
      assert (0 ≤ letter_of d c < a_na a) as Hlc by lia.
      rewrite step_sel by (try exact Ha; lia).
      destruct (decide (sel (e_f (sel (a_e a) s)) (letter_of d c) = -1)) as [He | He];
        [rewrite andb_false_r; reflexivity|].
      apply IH. pose proof (wa_tgt a Ha s (letter_of d c) Hs Hlc). lia.
    + rewrite bool_decide_eq_false_2 by exact Hl. rewrite andb_false_l.
      destruct (decide (0 ≤ c < nna)) as [Hc | Hc]; [|reflexivity].
      rewrite (decide_True (P := letter_of d c = -1)) by lia.
      rewrite decide_True by reflexivity. reflexivity.
Qed.

Lemma bigger_empty w : a_na a = 0 → accepts (bigger a d nna) w = false.
Proof.
  intros Hna0. pose proof bigger_wf as Hwfb. pose proof (wf_i a Hwf) as Hi.
  rewrite accepts_accepts_from. change (a_i (bigger a d nna)) with (a_i a).
  case_decide as Hnone; [reflexivity|].
  assert (∀ s, 0 ≤ s < a_n a → accepts_from (bigger a d nna) s w = false) as H;
    [|apply H; lia].
  unfold accepts_from. induction w as [|c w IH]; intros s Hs; simpl.
  - rewrite (table_final _ _ _ _ _ Hwfb) by exact Hs.
    rewrite decide_True by exact Hna0. reflexivity.
  - unfold bigger at 1. rewrite (table_step _ _ _ _ _ Hwfb) by exact Hs.
    pose proof (letter_of_range d c) as Hr. unfold d_n in Hd.
    case_decide; [|reflexivity]. rewrite (decide_True (P := letter_of d c = -1)) by lia.
    rewrite decide_True by reflexivity. reflexivity.
Qed.
End BiggerAlphabet_facts.

(** X9.  The letter [j] of [a] becomes the letter [d[j]] of an alphabet of [nna]
    letters: the result accepts the words of [a] so renamed, and no word with
    a letter that [d] does not reach. *)
Theorem BiggerAlphabet_language (a : Automaton) (d : Dict) (nna : Z) :
  wf a → 1 ≤ a_na a → d_n d = a_na a →
  (∀ j, 0 ≤ j < a_na a → 0 ≤ sel d j < nna) → NoDup d →
  ∃ r, BiggerAlphabet a d nna = Ok r ∧ wf r ∧ a_na r = nna
       ∧ (∀ w, Forall (λ c, 0 ≤ c < a_na a) w → accepts r (sel d <$> w) = accepts a w)
       ∧ (∀ w c, c ∈ w → c ∉ d → accepts r w = false).
Proof.
  intros Hwf Hna1 Hd Hrange Hnd.
  assert (0 ≤ nna) as Hnna by (specialize (Hrange 0 ltac:(lia)); lia).
  pose proof (wf_i a Hwf) as Hi. pose proof (wf_wf_alloc a Hwf) as Ha.
  exists (bigger a d nna). split; [apply BiggerAlphabet_eq; assumption|].
  split; [apply bigger_wf; assumption|]. split; [reflexivity|].
  assert (∀ w, accepts (bigger a d nna) w
               = forallb (λ c, bool_decide (0 ≤ c < nna ∧ letter_of d c ≠ -1)) w
                 && accepts a (letter_of d <$> w)) as Hacc.
  { intros w. rewrite !accepts_accepts_from. change (a_i (bigger a d nna)) with (a_i a).
    case_decide as Hnone; [rewrite andb_false_r; reflexivity|].
    apply bigger_accepts_from; try assumption. lia. }
  unfold d_n in Hd. split.
  - intros w Hw. rewrite Hacc.
    assert (letter_of d <$> (sel d <$> w) = w) as ->.
    { rewrite <- list_fmap_compose. rewrite <- (list_fmap_id w) at 2.
      apply list_fmap_ext. intros k c Hc. simpl.
      rewrite Forall_forall in Hw.
      pose proof (Hw c (proj1 (list_elem_of_In _ _) (list_elem_of_lookup_2 _ _ _ Hc))).
      apply letter_of_sel; [exact Hnd | lia]. }
    replace (forallb _ _) with true; [reflexivity|]. symmetry.
    apply forallb_forall. intros c' (c & -> & Hc)%list_elem_of_In%list_elem_of_fmap.
    rewrite Forall_forall in Hw. specialize (Hw c (proj1 (list_elem_of_In _ _) Hc)).
    apply bool_decide_eq_true. split; [apply Hrange, Hw|].
    rewrite letter_of_sel by (try exact Hnd; lia). lia.
  - intros w c Hc Hout. rewrite Hacc.
    replace (forallb _ _) with false; [reflexivity|]. symmetry.
    apply not_true_is_false. intros Hall. rewrite forallb_forall in Hall.
    specialize (Hall c (proj1 (list_elem_of_In _ _) Hc)).
    apply bool_decide_eq_true in Hall as [_ Hl]. apply Hl, letter_of_none, Hout.
Qed.

Lemma BiggerAlphabet_language_witness :
  wf contains_1 ∧ 1 ≤ a_na contains_1 ∧ d_n [2; 0] = a_na contains_1
  ∧ (∀ j, 0 ≤ j < a_na contains_1 → 0 ≤ sel [2; 0] j < 3) ∧ NoDup [2; 0]
  ∧ ∃ r, BiggerAlphabet contains_1 [2; 0] 3 = Ok r ∧ wf r ∧ a_na r = 3.
Proof.
  assert (wf contains_1) as HA by (apply wfb_wf; reflexivity).
  assert (1 ≤ a_na contains_1) as Hna by (simpl; lia).
  assert (d_n [2; 0] = a_na contains_1) as Hd by reflexivity.
  assert (∀ j, 0 ≤ j < a_na contains_1 → 0 ≤ sel [2; 0] j < 3) as Hr.
  { intros j Hj. simpl in Hj. assert (j = 0 ∨ j = 1) as [-> | ->] by lia;
      vm_compute; split; congruence. }
  assert (NoDup [2; 0]) as Hnd.
  { apply NoDup_cons_2; [rewrite list_elem_of_singleton; lia | apply NoDup_singleton]. }
  split; [exact HA|]. split; [exact Hna|]. split; [exact Hd|]. split; [exact Hr|].
  split; [exact Hnd|].
  destruct (BiggerAlphabet_language contains_1 [2; 0] 3 HA Hna Hd Hr Hnd)
    as (r & Hrun & Hwfr & Hnar & _).
  exists r. split; [exact Hrun|]. split; [exact Hwfr | exact Hnar].
Defined.

(** X10.  The finality flags are copied in the loop over the letters of [a]: when
    [a] has no letter its final states are lost, and the result accepts
    nothing. *)
Theorem BiggerAlphabet_no_letter (a : Automaton) (nna : Z) :
  wf a → a_na a = 0 → 0 ≤ nna →
  ∃ r, BiggerAlphabet a [] nna = Ok r ∧ ∀ w, accepts r w = false.
Proof.
  intros Hwf Hna0 Hnna. exists (bigger a [] nna).
  assert (d_n [] = a_na a) as Hd by (rewrite Hna0; reflexivity).
  assert (∀ j, 0 ≤ j < a_na a → 0 ≤ sel [] j < nna) as Hrange by (intros; lia).
  split; [apply BiggerAlphabet_eq; try assumption; try apply NoDup_nil_2|].
  intros w. apply bigger_empty; try assumption; try apply NoDup_nil_2.
Qed.

(** One final state and no letter: the empty word is accepted. *)
Definition only_empty_word : Automaton := mkAutomate [mkEtat [] 1] 1 0 0.

Lemma BiggerAlphabet_no_letter_witness :
  wf only_empty_word ∧ a_na only_empty_word = 0 ∧ 0 ≤ 3
  ∧ accepts only_empty_word [] = true
  ∧ ∃ r, BiggerAlphabet only_empty_word [] 3 = Ok r ∧ ∀ w, accepts r w = false.
Proof.
  assert (wf only_empty_word) as HA by (apply wfb_wf; reflexivity).
  assert (a_na only_empty_word = 0) as Hna by reflexivity.
  assert (0 ≤ 3) as Hnna by lia.
  split; [exact HA|]. split; [exact Hna|]. split; [exact Hnna|].
  split; [reflexivity|].
  exact (BiggerAlphabet_no_letter only_empty_word 3 HA Hna Hnna).
Defined.

(** ** [invertDict] *)

(** The number of values of a dictionary: one more than the largest. *)
Definition values (d : Dict) : Z :=
  foldl (λ nv x, if decide (nv ≤ x) then x + 1 else nv) 0 d.

Lemma values_from (d : Dict) nv0 :
  let nv := foldl (λ nv x, if decide (nv ≤ x) then x + 1 else nv) nv0 d in
  nv0 ≤ nv ∧ (∀ x, x ∈ d → x < nv)
  ∧ (∀ B, nv0 ≤ B → (∀ x, x ∈ d → x < B) → nv ≤ B).
Proof.
  revert nv0. induction d as [|y d IH]; intros nv0; simpl.
  - split; [lia|]. split; [intros x Hx; inversion Hx | auto].
  - destruct (IH (if decide (nv0 ≤ y) then y + 1 else nv0)) as (H1 & H2 & H3).
    split; [case_decide; lia|]. split.
    + intros x [-> | Hx]%elem_of_cons; [case_decide; lia | apply H2, Hx].
    + intros B HB Hd. apply H3.
      * pose proof (Hd y ltac:(left)). case_decide; lia.
      * intros x Hx. apply Hd. right. exact Hx.
Qed.

Lemma values_nonneg d : 0 ≤ values d.
Proof. apply (values_from d 0). Qed.

Lemma values_above d x : x ∈ d → x < values d.
Proof. apply (values_from d 0). Qed.

Lemma values_least d B : 0 ≤ B → (∀ x, x ∈ d → x < B) → values d ≤ B.
Proof. apply (values_from d 0). Qed.

(** The places of [d] that hold [j], in increasing order. *)
Definition places (d : Dict) (j : Z) : list Z :=
  filter (λ i, sel d i = j) (seqZ 0 (len d)).

Lemma elem_of_places d j i : i ∈ places d j ↔ 0 ≤ i < len d ∧ sel d i = j.
Proof. unfold places. rewrite list_elem_of_filter, elem_of_seqZ. split; intros; split; tauto || lia. Qed.

Lemma seqZ_snoc i : 0 ≤ i → seqZ 0 (i + 1) = seqZ 0 i ++ [i].
Proof. intros Hi. rewrite seqZ_app by lia. reflexivity. Qed.

Lemma invertDict_eq d :
  (∀ i, 0 ≤ i < len d → -1 ≤ sel d i) →
  invertDict d = Ok (places d <$> seqZ 0 (values d)).
Proof.
  intros Hd. unfold invertDict. cbv zeta. fold (values d).
  pose proof (values_nonneg d) as Hnv.
  destruct (for_seqZ_inv
    (λ i r, r = (λ j, filter (λ i', sel d i' = j) (seqZ 0 i)) <$> seqZ 0 (values d))
    (λ i r, x ← rd d i;
            if decide (x ≠ -1) then dx ← rd r x; wr r x (dictAdd dx i) else Ok r)
    0 (d_n d) (replicate (Z.to_nat (values d)) ([] : Dict)))
    as (r & Hrun & ->).
  - unfold d_n. lia.
  - apply list_eq_sel.
    + rewrite length_replicate, len_fmap_seqZ by lia. lia.
    + intros j Hj. rewrite length_replicate in Hj.
      rewrite sel_replicate by lia.
      rewrite (sel_fmap_seqZ (λ j, filter (λ i', sel d i' = j) (seqZ 0 0))) by lia.
      reflexivity.
  - intros i r Hi ->. unfold d_n in Hi. rewrite bind_rd by lia.
    set (F := λ i0 j, filter (λ i', sel d i' = j) (seqZ 0 i0)).
    assert (∀ j, F (i + 1) j = F i j ++ (if decide (sel d i = j) then [i] else [])) as Hstep.
    { intros j. unfold F. rewrite seqZ_snoc by lia. rewrite list.filter_app.
      reflexivity. }
    destruct (decide (sel d i ≠ -1)) as [Hx | Hx].
    + assert (0 ≤ sel d i < values d) as Hr.
      { pose proof (Hd i ltac:(lia)).
        pose proof (values_above d (sel d i)
                      (list_elem_of_lookup_2 _ _ _ (sel_lookup d i ltac:(lia)))). lia. }
      rewrite bind_rd by (rewrite len_fmap_seqZ; lia).
      rewrite wr_upd by (rewrite len_fmap_seqZ; lia).
      eexists. split; [reflexivity|]. replace (0 + (i + 1)) with (i + 1) by lia.
      replace (0 + i) with i by lia. fold (F i) (F (i + 1)).
      apply list_eq_sel.
      * rewrite length_upd, !len_fmap_seqZ by lia. reflexivity.
      * intros j Hj. rewrite length_upd, len_fmap_seqZ in Hj by lia.
        rewrite sel_upd by (rewrite ?len_fmap_seqZ; lia).
        rewrite !(sel_fmap_seqZ (F _)) by lia. rewrite Hstep.
        destruct (decide (j = sel d i)) as [-> | Hne].
        -- rewrite decide_True by reflexivity. reflexivity.
        -- rewrite decide_False by congruence. rewrite app_nil_r. reflexivity.
    + eexists. split; [reflexivity|]. replace (0 + (i + 1)) with (i + 1) by lia.
      replace (0 + i) with i by lia. fold (F i) (F (i + 1)).
      apply list_fmap_ext. intros k j Hj. apply lookup_seqZ in Hj as [-> Hk].
      rewrite Hstep. rewrite decide_False; [rewrite app_nil_r; reflexivity|].
      assert (sel d i = -1) by (destruct (decide (sel d i = -1)); [assumption | contradiction]).
      lia.
  - rewrite Hrun. unfold d_n. reflexivity.
Qed.

(** X11.  [invertDict] lists under each value [j] the places where [d] holds [j],
    and nothing else; the places that hold [-1] are listed nowhere. *)
Theorem invertDict_spec (d : Dict) :
  (∀ i, 0 ≤ i < d_n d → -1 ≤ sel d i) →
  ∃ id, invertDict d = Ok id
        ∧ (∀ i, 0 ≤ i < d_n d → sel d i ≠ -1 →
             0 ≤ sel d i < len id ∧ i ∈ sel id (sel d i))
        ∧ (∀ j i, 0 ≤ j < len id → i ∈ sel id j → 0 ≤ i < d_n d ∧ sel d i = j).
Proof.
  intros Hd. unfold d_n in *. pose proof (values_nonneg d) as Hnv.
  exists (places d <$> seqZ 0 (values d)). split; [apply invertDict_eq, Hd|].
  rewrite len_fmap_seqZ by lia. split.
  - intros i Hi Hne. pose proof (Hd i Hi).
    pose proof (values_above d (sel d i)
                  (list_elem_of_lookup_2 _ _ _ (sel_lookup d i Hi))).
    split; [lia|]. rewrite (sel_fmap_seqZ (places d)) by lia.
    apply elem_of_places. auto.
  - intros j i Hj Hin. rewrite (sel_fmap_seqZ (places d)) in Hin by lia.
    apply elem_of_places in Hin. exact Hin.
Qed.

Lemma invertDict_spec_witness :
  (∀ i, 0 ≤ i < d_n [1; 0; 1; -1] → -1 ≤ sel [1; 0; 1; -1] i)
  ∧ ∃ id, invertDict [1; 0; 1; -1] = Ok id
          ∧ ∀ j i, 0 ≤ j < len id → i ∈ sel id j →
                   0 ≤ i < d_n [1; 0; 1; -1] ∧ sel [1; 0; 1; -1] i = j.
Proof.
  assert (∀ i, 0 ≤ i < d_n [1; 0; 1; -1] → -1 ≤ sel [1; 0; 1; -1] i) as Hd.
  { intros i Hi. unfold d_n in Hi. simpl in Hi.
    assert (i = 0 ∨ i = 1 ∨ i = 2 ∨ i = 3) as [-> | [-> | [-> | ->]]] by lia;
      vm_compute; congruence. }
  split; [exact Hd|].
  destruct (invertDict_spec [1; 0; 1; -1] Hd) as (id & Hid & _ & Hback).
  exists id. split; [exact Hid | exact Hback].
Defined.

(** ** [Duplicate] on the inverse of a dictionary *)

Section Duplicate_facts.
Context (a : Automaton) (d : Dict).
Context (Hwf : wf a) (Hd : ∀ c, 0 ≤ c < len d → -1 ≤ sel d c < a_na a).
Context (Hcov : a_na a ≤ values d).
Let Ha : wf_alloc a := wf_wf_alloc a Hwf.
Let id : list Dict := places d <$> seqZ 0 (values d).
Let na2 : Z := len d.

Lemma Duplicate_eq : Duplicate a id na2 = Ok (permuted a d na2 na2).
Proof.
  pose proof (wf_n a Hwf) as Hn. pose proof (wf_na a Hwf) as Hna.
  pose proof (values_nonneg d) as Hnv.
  assert (0 ≤ na2) as Hna2 by (unfold na2; lia).
  unfold Duplicate. cbv zeta. rewrite NewAutomaton_n, NewAutomaton_na.
  set (val := λ s c, if decide (c < na2 ∧ sel d c ≠ -1)
                     then sel (e_f (sel (a_e a) s)) (sel d c) else -1).
  rewrite (fill_rows _ _ _
             (λ s, mkEtat (val s <$> seqZ 0 na2) (e_final (sel (a_e a) s)))).
  - rewrite Ok_bind. rewrite rows_done by (apply fresh_len; lia). reflexivity.
  - rewrite fresh_len by lia. lia.
  - intros i es' Hi Hlen Hdone Hrest. rewrite fresh_len in Hlen by lia.
    assert (sel es' i = fresh_row na2) as Hrow.
    { rewrite Hrest by lia. apply fresh_rows. lia. }
    rewrite (wf_alloc_rd_final a Ha) by lia. rewrite Ok_bind.
    rewrite wr_final_upd by lia. rewrite Ok_bind. rewrite Hrow.
    unfold fresh_row at 1. cbn [e_f].
    set (fin := e_final (sel (a_e a) i)).
    (* the row is cleared *)
    rewrite (fill_row_prefix _ i na2 _ (λ _, -1)).
    2: { rewrite length_upd. lia. }
    2: { rewrite sel_upd_eq by lia. cbn [e_f]. rewrite length_replicate. lia. }
    2: { intros j es'' Hj _ _ _ _ _. reflexivity. }
    rewrite Ok_bind. rewrite upd_upd, sel_upd_eq by lia. cbn [e_f e_final].
    rewrite drop_ge by (rewrite length_replicate; lia). rewrite app_nil_r.
    set (s0 := mkEtat ((λ _ : Z, -1) <$> seqZ 0 na2) fin).
    (* the transitions, letter by letter *)
    match goal with |- for_ _ ?b _ = _ => set (body := b) end.
    destruct (row_loop (upd es' i s0) i (a_na a) body
      (λ j s, len (e_f s) = na2
              ∧ (∀ c, 0 ≤ c < na2 →
                   sel (e_f s) c = if decide (0 ≤ sel d c < j)
                                   then sel (e_f (sel (a_e a) i)) (sel d c) else -1)
              ∧ e_final s = fin))
      as (s' & Hrun & Hs' & Hcells & Hfin).
    + rewrite length_upd. lia.
    + exact Hna.
    + rewrite sel_upd_eq by lia. unfold s0. cbn [e_f e_final].
      split; [apply len_fmap_seqZ; lia|]. split; [|reflexivity].
      intros c Hc. rewrite (sel_fmap_seqZ (λ _ : Z, -1)) by lia.
      rewrite decide_False by lia. reflexivity.
    + intros j s Hj (Hs & Hcells & Hfin). unfold body. rewrite upd_upd.
      assert (sel id j = places d j) as Hidj.
      { unfold id. apply (sel_fmap_seqZ (places d)). lia. }
      rewrite bind_rd by (unfold id; rewrite len_fmap_seqZ; lia). rewrite Hidj.
      match goal with |- context [for_ _ ?b _] => set (body' := b) end.
      destruct (row_loop (upd es' i s) i (d_n (places d j)) body'
        (λ k t, len (e_f t) = na2
                ∧ (∀ c, 0 ≤ c < na2 →
                     sel (e_f t) c
                     = if decide (c ∈ take (Z.to_nat k) (places d j))
                       then sel (e_f (sel (a_e a) i)) j else sel (e_f s) c)
                ∧ e_final t = fin))
        as (t & Hrun & Ht & Htc & Htf).
      * rewrite length_upd. lia.
      * unfold d_n. lia.
      * rewrite sel_upd_eq by lia. split; [exact Hs|]. split; [|exact Hfin].
        intros c Hc. rewrite decide_False; [reflexivity|].
        simpl. intros Hin. inversion Hin.
      * intros k t Hk (Ht & Htc & Htf). unfold body', d_n in *. rewrite upd_upd.
        rewrite bind_rd by lia.
        pose proof (sel_lookup (places d j) k Hk) as Hlk.
        pose proof (proj1 (elem_of_places d j _) (list_elem_of_lookup_2 _ _ _ Hlk))
          as [Hc Hdc]. fold na2 in Hc.
        rewrite (wf_alloc_rd_f a Ha) by lia. rewrite Ok_bind.
        rewrite wr_f_row by lia.
        eexists. split; [rewrite !upd_upd; reflexivity|]. cbn [e_f e_final].
        rewrite length_upd. split; [exact Ht|]. split; [|exact Htf].
        intros c Hcr. replace (Z.to_nat (k + 1)) with (S (Z.to_nat k)) by lia.
        rewrite (take_S_r _ _ _ Hlk). rewrite sel_upd by lia.
        destruct (decide (c = sel (places d j) k)) as [-> | Hne].
        -- rewrite decide_True by (apply elem_of_app; right; left). reflexivity.
        -- rewrite Htc by exact Hcr.
           destruct (decide (c ∈ take (Z.to_nat k) (places d j))) as [Hin | Hin].
           ++ rewrite decide_True by (apply elem_of_app; left; exact Hin). reflexivity.
           ++ rewrite decide_False; [reflexivity|].
              intros [? | ?%list_elem_of_singleton]%elem_of_app; contradiction.
      * exists t. split; [rewrite Hrun, !upd_upd; reflexivity|].
        split; [exact Ht|]. split; [|exact Htf].
        intros c Hc. rewrite Htc by exact Hc. unfold d_n.
        rewrite take_ge by lia. rewrite Hcells by exact Hc.
        pose proof (Hd c Hc) as Hdc.
        destruct (decide (c ∈ places d j)) as [Hin | Hin].
        -- apply elem_of_places in Hin as [_ Heq].
           rewrite decide_True by lia. rewrite Heq. reflexivity.
        -- assert (sel d c ≠ j) as Hne.
           { intros Heq. apply Hin, elem_of_places. auto. }
           destruct (decide (0 ≤ sel d c < j)) as [Hlt | Hge].
           ++ rewrite decide_True by lia. reflexivity.
           ++ rewrite decide_False by lia. reflexivity.
    + rewrite Hrun. rewrite upd_upd. f_equal. f_equal.
      apply row_ext; [exact Hs'| |exact Hfin].
      intros c Hc. rewrite Hcells by exact Hc. unfold val.
      pose proof (Hd c Hc) as Hdc.
      destruct (decide (sel d c = -1)) as [Hm | Hm].
      * rewrite decide_False by lia. rewrite decide_False by tauto. reflexivity.
      * rewrite decide_True by lia. rewrite decide_True by (split; [lia | exact Hm]).
        reflexivity.
Qed.
End Duplicate_facts.

(** X12.  An alphabet is renamed through the inverse of the dictionary [d] that
    gives the old letter of each new one: when the last letter of [a] is
    among the values of [d], [Duplicate] on [invertDict d] returns the
    automaton that [Permut] returns on [d]. *)
Theorem Duplicate_invertDict (a : Automaton) (d : Dict) :
  wf a → (∀ c, 0 ≤ c < d_n d → -1 ≤ sel d c < a_na a) →
  (a_na a = 0 ∨ a_na a - 1 ∈ d) →
  ∃ id r, invertDict d = Ok id
          ∧ Duplicate a id (d_n d) = Ok r
          ∧ Permut a d (d_n d) = Ok r.
Proof.
  intros Hwf Hd Hlast. unfold d_n in *.
  exists (places d <$> seqZ 0 (values d)), (permuted a d (len d) (len d)).
  split; [apply invertDict_eq; intros i Hi; apply Hd, Hi|]. split.
  - apply Duplicate_eq; [exact Hwf | exact Hd |].
    destruct Hlast as [-> | Hin]; [apply values_nonneg|].
    pose proof (values_above d _ Hin). lia.
  - apply Permut_eq; [exact Hwf | lia | exact Hd].
Qed.

Lemma Duplicate_invertDict_witness :
  wf contains_1
  ∧ (∀ c, 0 ≤ c < d_n [1; 0; 1; -1] → -1 ≤ sel [1; 0; 1; -1] c < a_na contains_1)
  ∧ (a_na contains_1 = 0 ∨ a_na contains_1 - 1 ∈ [1; 0; 1; -1])
  ∧ ∃ id r, invertDict [1; 0; 1; -1] = Ok id
            ∧ Duplicate contains_1 id (d_n [1; 0; 1; -1]) = Ok r
            ∧ Permut contains_1 [1; 0; 1; -1] (d_n [1; 0; 1; -1]) = Ok r.
Proof.
  assert (wf contains_1) as HA by (apply wfb_wf; reflexivity).
  assert (∀ c, 0 ≤ c < d_n [1; 0; 1; -1] →
               -1 ≤ sel [1; 0; 1; -1] c < a_na contains_1) as Hd.
  { intros c Hc. unfold d_n in Hc. simpl in Hc.
    assert (c = 0 ∨ c = 1 ∨ c = 2 ∨ c = 3) as [-> | [-> | [-> | ->]]] by lia;
      vm_compute; split; congruence. }
  assert (a_na contains_1 = 0 ∨ a_na contains_1 - 1 ∈ [1; 0; 1; -1]) as Hlast.
  { right. simpl. left. }
  split; [exact HA|]. split; [exact Hd|]. split; [exact Hlast|].
  exact (Duplicate_invertDict contains_1 [1; 0; 1; -1] HA Hd Hlast).
Defined.

(** ** [SubAutomaton] *)

(** The state [k] of the result is the state [d[k]] of [a]; a transition
    to a state that [d] does not list is dropped. *)
Definition restricted (a : Automaton) (d : Dict) : Automaton :=
  table (d_n d) (a_na a)
    (λ k c, let t := sel (e_f (sel (a_e a) (sel d k))) c in
            if decide (t = -1) then -1 else letter_of d t)
    (λ k, e_final (sel (a_e a) (sel d k))) (-1).

Section SubAutomaton_facts.
Context (a : Automaton) (d : Dict).
Context (Hwf : wf a) (Hd : ∀ k, 0 ≤ k < len d → 0 ≤ sel d k < a_n a) (Hnd : NoDup d).
Let Ha : wf_alloc a := wf_wf_alloc a Hwf.

Lemma SubAutomaton_names :
  (l ← for_ (seqZ 0 (a_n a)) (λ i l, wr l i (-1)) (replicate (Z.to_nat (a_n a)) UNINIT);
   for_ (seqZ 0 (d_n d)) (λ i l, x ← rd d i; wr l x i) l)
  = Ok (letter_of d <$> seqZ 0 (a_n a)).
Proof.
  pose proof (wf_n a Hwf) as Hn.
  destruct (for_seqZ_inv
    (λ i l, len l = a_n a ∧ ∀ s, 0 ≤ s < i → sel l s = -1)
    (λ i l, wr l i (-1)) 0 (a_n a) (replicate (Z.to_nat (a_n a)) UNINIT))
    as (l0 & -> & Hl0 & Hclear).
  - lia.
  - rewrite length_replicate. split; [lia | intros; lia].
  - intros i l Hi [Hl Hc]. rewrite wr_upd by lia. eexists. split; [reflexivity|].
    rewrite length_upd. split; [exact Hl|]. intros s Hs. rewrite sel_upd by lia.
    case_decide; [reflexivity | apply Hc; lia].
  - rewrite Ok_bind.
    destruct (for_seqZ_inv
      (λ i l, len l = a_n a
              ∧ (∀ k, 0 ≤ k < i → sel l (sel d k) = k)
              ∧ (∀ s, 0 ≤ s < a_n a → (∀ k, 0 ≤ k < i → sel d k ≠ s) → sel l s = -1))
      (λ i l, x ← rd d i; wr l x i) 0 (d_n d) l0) as (l & -> & Hl & Himg & Hnone).
    + unfold d_n. lia.
    + split; [exact Hl0|]. split; [intros; lia|]. intros s Hs _. apply Hclear. lia.
    + intros i l Hi (Hl & Himg & Hnone). unfold d_n in Hi.
      rewrite bind_rd by lia. pose proof (Hd i ltac:(lia)) as Hdi.
      rewrite wr_upd by lia. eexists. split; [reflexivity|]. rewrite length_upd.
      split; [exact Hl|]. split.
      * intros k Hk. pose proof (Hd k ltac:(lia)) as Hdk. rewrite sel_upd by lia.
        destruct (decide (sel d k = sel d i)) as [Heq | Hne].
        -- assert (0 ≤ k < len d) as Hk1 by lia. assert (0 ≤ i < len d) as Hi1 by lia.
           pose proof (sel_lookup d k Hk1) as H1. pose proof (sel_lookup d i Hi1) as H2.
           rewrite Heq in H1. pose proof (NoDup_lookup _ _ _ _ Hnd H1 H2). lia.
        -- assert (k ≠ i) by (intros ->; apply Hne; reflexivity). apply Himg. lia.
      * intros s Hs Hno. assert (sel d i ≠ s) by (apply Hno; lia).
        rewrite sel_upd_ne by lia. apply Hnone; [exact Hs|].
        intros k Hk. apply Hno. lia.
    + f_equal. apply list_eq_sel.
      * rewrite len_fmap_seqZ by lia. exact Hl.
      * intros s Hs. rewrite Hl in Hs. rewrite (sel_fmap_seqZ (letter_of d)) by lia.
        pose proof (letter_of_range d s) as Hr.
        destruct (decide (letter_of d s = -1)) as [Hm | Hm].
        -- rewrite Hm. apply Hnone; [lia|]. intros k Hk Heq. unfold d_n in Hk.
           apply letter_of_none in Hm. apply Hm. rewrite <- Heq.
           eapply list_elem_of_lookup_2, sel_lookup. lia.
        -- rewrite <- (letter_of_found d s Hm) at 1. apply Himg. unfold d_n. lia.
Qed.

Lemma SubAutomaton_eq : SubAutomaton a d = Ok (restricted a d).
Proof.
  pose proof (wf_n a Hwf) as Hn. pose proof (wf_na a Hwf) as Hna.
  set (m := d_n d). assert (0 ≤ m) as Hm by (unfold m, d_n; lia).
  set (l := letter_of d <$> seqZ 0 (a_n a)).
  assert (len l = a_n a) as Hl by (unfold l; apply len_fmap_seqZ; lia).
  assert (∀ s, 0 ≤ s < a_n a → sel l s = letter_of d s) as Hls.
  { intros s Hs. unfold l. apply (sel_fmap_seqZ (letter_of d)). exact Hs. }
  set (val := λ k c, let t := sel (e_f (sel (a_e a) (sel d k))) c in
                     if decide (t = -1) then -1 else letter_of d t).
  set (fin := λ k, e_final (sel (a_e a) (sel d k))).
  set (cleared := mkEtat ((λ _ : Z, -1) <$> seqZ 0 (a_na a)) UNINIT).
  pose proof SubAutomaton_names as Hnames. apply bind_Ok in Hnames as (l0 & Hl0 & Hl1).
  unfold SubAutomaton. cbv zeta. rewrite Hl0, Ok_bind. fold l in Hl1. rewrite Hl1, Ok_bind.
  rewrite NewAutomaton_n, NewAutomaton_na. fold m.
  (* the rows are cleared *)
  rewrite (fill_rows _ _ _ (λ _, cleared)).
  2: { rewrite fresh_len by lia. lia. }
  2: { intros k es' Hk Hlen _ Hrest. rewrite fresh_len in Hlen by lia.
       rewrite (fill_row_prefix _ k (a_na a) _ (λ _, -1)).
       - f_equal. f_equal. rewrite Hrest by lia. rewrite fresh_rows by lia.
         unfold fresh_row, cleared. cbn [e_f e_final].
         rewrite drop_ge by (rewrite length_replicate; lia). rewrite app_nil_r. reflexivity.
       - lia.
       - rewrite Hrest by lia. rewrite fresh_rows by lia. unfold fresh_row. cbn [e_f].
         rewrite length_replicate. lia.
       - reflexivity. }
  rewrite Ok_bind. rewrite rows_done by (apply fresh_len; lia).
  (* the states of [a], one by one *)
  match goal with |- context [for_ (seqZ 0 (a_n a)) ?b _] => set (body := b) end.
  destruct (for_seqZ_inv
    (λ i es, es = (λ k, if decide (sel d k < i) then mkEtat (val k <$> seqZ 0 (a_na a)) (fin k)
                        else cleared) <$> seqZ 0 m)
    body 0 (a_n a) ((λ _ : Z, cleared) <$> seqZ 0 m)) as (es & Hrun & ->).
  - lia.
  - apply list_fmap_ext. intros k0 k Hk. apply lookup_seqZ in Hk as [-> Hk].
    unfold m, d_n in Hk. pose proof (Hd (0 + Z.of_nat k0) ltac:(lia)).
    rewrite decide_False by lia. reflexivity.
  - intros i es Hi ->. replace (0 + a_n a) with (a_n a) in Hi by lia.
    replace (0 + i) with i by lia. replace (0 + (i + 1)) with (i + 1) by lia.
    unfold body at 1. rewrite bind_rd by lia. rewrite Hls by lia.
    pose proof (letter_of_range d i) as Hr.
    set (R := λ i0 k, if decide (sel d k < i0)
                      then mkEtat (val k <$> seqZ 0 (a_na a)) (fin k) else cleared).
    fold (R i) (R (i + 1)).
    destruct (decide (letter_of d i ≠ -1)) as [Hin | Hout].
    + pose proof (letter_of_found d i Hin) as Hfound.
      set (k0 := letter_of d i) in *. assert (0 ≤ k0 < m) as Hk0 by (unfold m, d_n; lia).
      rewrite (wf_alloc_rd_final a Ha) by lia. rewrite Ok_bind.
      rewrite wr_final_upd by (rewrite len_fmap_seqZ; lia). rewrite Ok_bind.
      assert (sel (R i <$> seqZ 0 m) k0 = cleared) as Hrow.
      { rewrite (sel_fmap_seqZ (R i)) by lia. unfold R. rewrite decide_False by lia.
        reflexivity. }
      rewrite Hrow. unfold cleared at 1. cbn [e_f].
      rewrite (fill_row_prefix _ k0 (a_na a) _ (val k0)).
      * eexists. split; [reflexivity|].
        rewrite upd_upd, sel_upd_eq by (rewrite len_fmap_seqZ; lia). cbn [e_f e_final].
        rewrite drop_ge by (rewrite length_fmap, length_seqZ; lia). rewrite app_nil_r.
        apply list_eq_sel.
        -- rewrite length_upd, !len_fmap_seqZ by lia. reflexivity.
        -- intros k Hk. rewrite length_upd, len_fmap_seqZ in Hk by lia.
           rewrite sel_upd by (rewrite ?len_fmap_seqZ; lia).
           rewrite !(sel_fmap_seqZ (R _)) by lia. unfold R.
           destruct (decide (k = k0)) as [-> | Hne].
           ++ rewrite decide_True by lia. unfold fin. rewrite Hfound. reflexivity.
           ++ assert (sel d k ≠ i) as Hdk.
              { intros Heq. apply Hne. rewrite <- (letter_of_sel d k Hnd) by (unfold m, d_n in Hk; lia).
                rewrite Heq. reflexivity. }
              destruct (decide (sel d k < i)) as [Hlt | Hge].
              ** rewrite decide_True by lia. reflexivity.
              ** rewrite decide_False by lia. reflexivity.
      * rewrite length_upd, len_fmap_seqZ by lia. lia.
      * rewrite sel_upd_eq by (rewrite len_fmap_seqZ; lia). cbn [e_f].
        rewrite len_fmap_seqZ by lia. lia.
      * intros j es'' Hj _ _ _ _ _. rewrite (wf_alloc_rd_f a Ha) by lia. rewrite Ok_bind.
        unfold val. cbv zeta. rewrite Hfound.
        destruct (decide (sel (e_f (sel (a_e a) i)) j ≠ -1)) as [Ht | Ht].
        -- pose proof (wa_tgt a Ha i j Hi Hj).
           rewrite bind_rd by lia. rewrite Hls by lia.
           rewrite decide_False by exact Ht. reflexivity.
        -- rewrite decide_True; [reflexivity|].
           destruct (decide (sel (e_f (sel (a_e a) i)) j = -1)); [assumption | contradiction].
    + eexists. split; [reflexivity|]. apply list_fmap_ext.
      intros k0 k Hk. apply lookup_seqZ in Hk as [-> Hk]. unfold R.
      assert (letter_of d i = -1) as Hnone
        by (destruct (decide (letter_of d i = -1)); [assumption | contradiction]).
      apply letter_of_none in Hnone.
      assert (sel d (0 + Z.of_nat k0) ≠ i) as Hdk.
      { intros Heq. apply Hnone. rewrite <- Heq. unfold m, d_n in Hk.
        eapply list_elem_of_lookup_2, sel_lookup. lia. }
      destruct (decide (sel d (0 + Z.of_nat k0) < i)) as [Hlt | Hge].
      * rewrite decide_True by lia. reflexivity.
      * rewrite decide_False by lia. reflexivity.
  - rewrite Hrun, Ok_bind. unfold restricted, table. f_equal. f_equal.
    apply list_fmap_ext. intros k0 k Hk. apply lookup_seqZ in Hk as [-> Hk].
    unfold m, d_n in Hk. pose proof (Hd (0 + Z.of_nat k0) ltac:(lia)).
    rewrite decide_True by lia. reflexivity.
Qed.

Lemma restricted_wf : wf (restricted a d).
Proof.
  pose proof (wf_na a Hwf) as Hna.
  apply table_wf; try (unfold d_n; lia).
  - intros k c Hk Hc. cbv zeta. unfold d_n in *. pose proof (Hd k Hk).
    case_decide; [lia|]. apply letter_of_range.
  - intros k Hk. unfold d_n in Hk. apply (wa_fin a Ha), Hd, Hk.
Qed.
End SubAutomaton_facts.

(** X13.  [SubAutomaton] keeps the states that [d] lists, numbered by their place
    in [d], with their flags and the transitions among them.  The initial
    state is assigned in the copy of [a] that the call received: the result
    has none, and accepts nothing. *)
Theorem SubAutomaton_spec (a : Automaton) (d : Dict) :
  wf a → (∀ k, 0 ≤ k < d_n d → 0 ≤ sel d k < a_n a) → NoDup d →
  ∃ r, SubAutomaton a d = Ok r ∧ wf r
       ∧ a_n r = d_n d ∧ a_na r = a_na a ∧ a_i r = -1
       ∧ (∀ w, accepts r w = false)
       ∧ (∀ k, 0 ≤ k < d_n d → is_final r k = is_final a (sel d k))
       ∧ (∀ k c, 0 ≤ k < d_n d →
            step r k c = match step a (sel d k) c with
                         | Some t => if decide (t ∈ d) then Some (letter_of d t) else None
                         | None => None
                         end).
Proof.
  intros Hwf Hd Hnd. unfold d_n in *. pose proof (wf_wf_alloc a Hwf) as Ha.
  pose proof (restricted_wf a d Hwf Hd) as Hwfr.
  exists (restricted a d). split; [apply SubAutomaton_eq; assumption|].
  split; [exact Hwfr|]. split; [reflexivity|]. split; [reflexivity|].
  split; [reflexivity|]. split; [reflexivity|]. split.
  - intros k Hk. unfold restricted. rewrite (table_final _ _ _ _ _ Hwfr) by exact Hk.
    unfold is_final. rewrite (wf_alloc_rd_final a Ha) by (apply Hd, Hk). reflexivity.
  - intros k c Hk. pose proof (Hd k Hk) as Hdk.
    unfold restricted. rewrite (table_step _ _ _ _ _ Hwfr) by exact Hk. cbv zeta.
    destruct (decide (0 ≤ c < a_na a)) as [Hc | Hc].
    + rewrite step_sel by assumption.
      destruct (decide (sel (e_f (sel (a_e a) (sel d k))) c = -1)) as [Ht | Ht].
      * rewrite decide_True by reflexivity. reflexivity.
      * destruct (decide (sel (e_f (sel (a_e a) (sel d k))) c ∈ d)) as [Hin | Hout].
        -- rewrite decide_False; [reflexivity|]. rewrite letter_of_none. tauto.
        -- rewrite decide_True; [reflexivity|]. apply letter_of_none, Hout.
    + rewrite step_no_letter by assumption. reflexivity.
Qed.

Lemma SubAutomaton_spec_witness :
  wf three_states ∧ (∀ k, 0 ≤ k < d_n [2; 0] → 0 ≤ sel [2; 0] k < a_n three_states)
  ∧ NoDup [2; 0]
  ∧ ∃ r, SubAutomaton three_states [2; 0] = Ok r ∧ a_n r = d_n [2; 0] ∧ a_i r = -1
         ∧ ∀ w, accepts r w = false.
Proof.
  assert (∀ k, 0 ≤ k < d_n [2; 0] → 0 ≤ sel [2; 0] k < a_n three_states) as Hd.
  { intros k Hk. unfold d_n in Hk. simpl in Hk.
    assert (k = 0 ∨ k = 1) as [-> | ->] by lia; vm_compute; split; congruence. }
  assert (NoDup [2; 0]) as Hnd.
  { apply NoDup_cons_2; [rewrite list_elem_of_singleton; lia | apply NoDup_singleton]. }
  split; [exact three_states_wf|]. split; [exact Hd|]. split; [exact Hnd|].
  destruct (SubAutomaton_spec three_states [2; 0] three_states_wf Hd Hnd)
    as (r & Hr & _ & Hn & _ & Hi & Hacc & _).
  exists r. split; [exact Hr|]. split; [exact Hn|]. split; [exact Hi | exact Hacc].
Defined.

(** ** [Transpose] *)

Lemma run_snoc (a : Automaton) w c :
  ∀ s, run a s (w ++ [c]) = match run a s w with Some t => step a t c | None => None end.
Proof.
  induction w as [|c' w IH]; intros s; simpl.
  - destruct (step a s c); reflexivity.
  - destruct (step a s c'); [apply IH | reflexivity].
Qed.

(** No two transitions on the same letter lead to the same state. *)
Definition codeterministic (a : Automaton) : Prop :=
  ∀ s s' c t, step a s c = Some t → step a s' c = Some t → s = s'.

Section Transpose_facts.
Context (a : Automaton) (Hwf : wf a).
Let Ha : wf_alloc a := wf_wf_alloc a Hwf.
Let cell (s c : Z) : Z := sel (e_f (sel (a_e a) s)) c.

(** The first loop: the flags, the rows without transition, the initial
    state. *)
Lemma Transpose_rows :
  for_ (seqZ 0 (a_n a)) (λ i '(es, ri),
        fin ← rd_final (a_e a) i;
        let ri := if decide (fin ≠ 0) then i else ri in
        es ← wr_final es i (b2z (bool_decide (i = a_i a)));
        es ← for_ (seqZ 0 (a_na a)) (λ j es, wr_f es i j (-1)) es;
        Ok (es, ri))
      (a_e (NewAutomaton (a_n a) (a_na a)), a_i (NewAutomaton (a_n a) (a_na a)))
  = Ok ((λ i, mkEtat ((λ _, -1) <$> seqZ 0 (a_na a)) (b2z (bool_decide (i = a_i a))))
          <$> seqZ 0 (a_n a),
        foldl (λ ri i, if decide (e_final (sel (a_e a) i) ≠ 0) then i else ri)
              (a_i (NewAutomaton (a_n a) (a_na a))) (seqZ 0 (a_n a))).
Proof.
  pose proof (wf_n a Hwf) as Hn. pose proof (wf_na a Hwf) as Hna.
  set (row := λ i, mkEtat ((λ _ : Z, -1) <$> seqZ 0 (a_na a)) (b2z (bool_decide (i = a_i a)))).
  set (r0 := NewAutomaton (a_n a) (a_na a)).
  assert (len (a_e r0) = a_n a) as Hr0 by (apply fresh_len; lia).
  match goal with |- for_ _ ?b _ = _ => set (body := b) end.
  destruct (for_seqZ_inv
    (λ i st, st.1 = (row <$> seqZ 0 i) ++ drop (Z.to_nat i) (a_e r0)
             ∧ st.2 = foldl (λ ri i, if decide (e_final (sel (a_e a) i) ≠ 0) then i else ri)
                            (a_i r0) (seqZ 0 i))
    body 0 (a_n a) (a_e r0, a_i r0)) as ([es ri] & Hrun & Hes & Hri).
  - lia.
  - simpl. rewrite drop_0. auto.
  - intros i [es ri] Hi [Hes Hri]. cbn [fst snd] in *. subst es ri.
    replace (0 + a_n a) with (a_n a) in Hi by lia.
    unfold body at 1. rewrite (wf_alloc_rd_final a Ha) by lia. rewrite Ok_bind. cbv zeta.
    set (es := (row <$> seqZ 0 i) ++ drop (Z.to_nat i) (a_e r0)).
    assert (len es = a_n a) as Hlen.
    { unfold es, r0. rewrite length_app, length_drop, length_fmap, length_seqZ.
      pose proof (fresh_len (a_n a) (a_na a)). lia. }
    assert (sel es i = fresh_row (a_na a)) as Hrow.
    { unfold es. rewrite sel_app_r by (rewrite len_fmap_seqZ; lia).
      rewrite len_fmap_seqZ by lia. rewrite sel_drop by lia.
      replace (i + (i - i)) with i by lia. apply fresh_rows. lia. }
    rewrite wr_final_upd by lia. rewrite Ok_bind. rewrite Hrow.
    unfold fresh_row at 1. cbn [e_f].
    rewrite (fill_row_prefix _ i (a_na a) _ (λ _, -1)).
    + rewrite Ok_bind. eexists. split; [reflexivity|]. cbn [fst snd].
      rewrite upd_upd, sel_upd_eq by lia. cbn [e_f e_final].
      rewrite drop_ge by (rewrite length_replicate; lia). rewrite app_nil_r.
      split.
      * fold (row i). unfold es. apply list_eq_sel.
        -- rewrite length_upd, !length_app, !length_drop, !length_fmap, !length_seqZ.
           lia.
        -- intros k Hk. rewrite length_upd in Hk. fold es in Hk. rewrite Hlen in Hk.
           fold es. rewrite sel_upd by lia.
           destruct (decide (k = i)) as [-> | Hne].
           ++ rewrite sel_app_l by (rewrite len_fmap_seqZ; lia).
              rewrite (sel_fmap_seqZ row) by lia. reflexivity.
           ++ unfold es. destruct (decide (k < i)) as [Hlt | Hge].
              ** rewrite !sel_app_l by (rewrite len_fmap_seqZ; lia).
                 rewrite !(sel_fmap_seqZ row) by lia. reflexivity.
              ** rewrite !sel_app_r by (rewrite len_fmap_seqZ; lia).
                 rewrite !len_fmap_seqZ by lia. rewrite !sel_drop by lia.
                 f_equal. lia.
      * replace (0 + (i + 1)) with (i + 1) by lia. replace (0 + i) with i by lia.
        rewrite seqZ_snoc by lia. rewrite foldl_app. reflexivity.
    + rewrite length_upd. lia.
    + rewrite sel_upd_eq by lia. cbn [e_f]. rewrite length_replicate. lia.
    + reflexivity.
  - rewrite Hrun. cbn [fst snd] in *. subst es ri. f_equal. f_equal.
    replace (0 + a_n a) with (a_n a) by lia.
    apply rows_done. apply fresh_len. lia.
Qed.

(** The second loop when [a] is co-deterministic: the states known by
    their transitions. *)
Lemma Transpose_transitions (es0 : list Etat) :
  codeterministic a →
  len es0 = a_n a →
  (∀ t, 0 ≤ t < a_n a → len (e_f (sel es0 t)) = a_na a) →
  (∀ t c, 0 ≤ t < a_n a → 0 ≤ c < a_na a → sel (e_f (sel es0 t)) c = -1) →
  ∃ es,
    for_ (seqZ 0 (a_n a)) (λ i es,
      for_ (seqZ 0 (a_na a)) (λ j es,
        f ← rd_f (a_e a) i j;
        if decide (f ≠ -1) then wr_f es f j i else Ok es) es) es0 = Ok es
    ∧ len es = a_n a
    ∧ (∀ t, 0 ≤ t < a_n a →
         len (e_f (sel es t)) = a_na a ∧ e_final (sel es t) = e_final (sel es0 t))
    ∧ (∀ t c s, 0 ≤ t < a_n a → 0 ≤ c < a_na a → 0 ≤ s < a_n a →
         cell s c = t → sel (e_f (sel es t)) c = s)
    ∧ (∀ t c, 0 ≤ t < a_n a → 0 ≤ c < a_na a →
         (∀ s, 0 ≤ s < a_n a → cell s c ≠ t) → sel (e_f (sel es t)) c = -1).
Proof.
  intros Hco Hlen0 Hrows0 Hcells0.
  pose proof (wf_n a Hwf) as Hn. pose proof (wf_na a Hwf) as Hna.
  assert (∀ s s' c, 0 ≤ s < a_n a → 0 ≤ s' < a_n a → 0 ≤ c < a_na a →
            cell s c = cell s' c → cell s c ≠ -1 → s = s') as Hinj.
  { intros s s' c Hs Hs' Hc Heq Hne. apply (Hco s s' c (cell s c)).
    - rewrite step_sel by assumption. fold (cell s c). rewrite decide_False by exact Hne.
      reflexivity.
    - rewrite step_sel by assumption. fold (cell s' c). rewrite <- Heq.
      rewrite decide_False by exact Hne. reflexivity. }
  (* [done i j s c]: the transition of [s] on [c] has been looked at *)
  set (done := λ (i j s c : Z), s < i ∨ (s = i ∧ c < j)).
  set (I := λ (i j : Z) (es : list Etat),
         len es = a_n a
         ∧ (∀ t, 0 ≤ t < a_n a →
              len (e_f (sel es t)) = a_na a ∧ e_final (sel es t) = e_final (sel es0 t))
         ∧ (∀ t c s, 0 ≤ t < a_n a → 0 ≤ c < a_na a → 0 ≤ s < a_n a →
              done i j s c → cell s c = t → sel (e_f (sel es t)) c = s)
         ∧ (∀ t c, 0 ≤ t < a_n a → 0 ≤ c < a_na a →
              (∀ s, 0 ≤ s < a_n a → done i j s c → cell s c ≠ t) →
              sel (e_f (sel es t)) c = -1)).
  match goal with |- ∃ _, for_ _ ?b _ = _ ∧ _ => set (body := b) end.
  destruct (for_seqZ_inv (λ i es, I i 0 es) body 0 (a_n a) es0)
    as (es & Hrun & Hl & Hrows & Himg & Hnone).
  - lia.
  - split; [exact Hlen0|]. split; [intros t Ht; split; [apply Hrows0, Ht | reflexivity]|].
    split.
    + intros t c s Ht Hc Hs [Hd | [_ Hd]]; lia.
    + intros t c Ht Hc _. apply Hcells0; assumption.
  - intros i es Hi HI. replace (0 + a_n a) with (a_n a) in Hi by lia. unfold body at 1.
    match goal with |- ∃ _, for_ _ ?b _ = _ ∧ _ => set (body' := b) end.
    destruct (for_seqZ_inv (λ j es, I i j es) body' 0 (a_na a) es)
      as (es' & Hrun & HI'); [lia | exact HI | |].
    + intros j es1 Hj (Hl & Hrows & Himg & Hnone).
      replace (0 + a_na a) with (a_na a) in Hj by lia. unfold body'.
      rewrite (wf_alloc_rd_f a Ha) by lia. rewrite Ok_bind. fold (cell i j).
      pose proof (wa_tgt a Ha i j Hi Hj) as Htgt. fold (cell i j) in Htgt.
      assert (∀ s c, done i (j + 1) s c ↔ done i j s c ∨ (s = i ∧ c = j)) as Hdone.
      { intros s c. unfold done. lia. }
      destruct (decide (cell i j ≠ -1)) as [Hf | Hf].
      * destruct (Hrows (cell i j) ltac:(lia)) as [Hrow Hfin].
        rewrite wr_f_upd by lia. eexists. split; [reflexivity|].
        split; [rewrite length_upd; exact Hl|].
        assert (∀ t, 0 ≤ t < a_n a →
                  sel (upd es1 (cell i j)
                         (mkEtat (upd (e_f (sel es1 (cell i j))) j i)
                                 (e_final (sel es1 (cell i j))))) t
                  = if decide (t = cell i j)
                    then mkEtat (upd (e_f (sel es1 (cell i j))) j i)
                                (e_final (sel es1 (cell i j)))
                    else sel es1 t) as Hsel.
        { intros t Ht. apply sel_upd; lia. }
        split; [|split].
        -- intros t Ht. rewrite Hsel by exact Ht. case_decide as Heq.
           ++ cbn [e_f e_final]. rewrite length_upd. subst t. split; [exact Hrow | exact Hfin].
           ++ apply Hrows, Ht.
        -- intros t c s Ht Hc Hs Hd%Hdone Hst. rewrite Hsel by exact Ht.
           destruct (decide (t = cell i j)) as [-> | Hne].
           ++ cbn [e_f]. rewrite sel_upd by lia.
              destruct (decide (c = j)) as [-> | Hcj].
              ** symmetry. apply (Hinj s i j); try assumption; lia.
              ** apply Himg; try assumption; try lia.
                 destruct Hd as [Hd | [_ ->]]; [exact Hd | contradiction].
           ++ apply Himg; try assumption.
              destruct Hd as [Hd | [-> ->]]; [exact Hd | congruence].
        -- intros t c Ht Hc Hno. rewrite Hsel by exact Ht.
           destruct (decide (t = cell i j)) as [-> | Hne].
           ++ cbn [e_f]. rewrite sel_upd by lia.
              destruct (decide (c = j)) as [-> | Hcj].
              ** exfalso. apply (Hno i Hi); [apply Hdone; right; auto | reflexivity].
              ** apply Hnone; try assumption; try lia.
                 intros s Hs Hd. apply Hno; [exact Hs|]. apply Hdone. left. exact Hd.
           ++ apply Hnone; try assumption.
              intros s Hs Hd. apply Hno; [exact Hs|]. apply Hdone. left. exact Hd.
      * assert (cell i j = -1) as Hm
          by (destruct (decide (cell i j = -1)); [assumption | contradiction]).
        eexists. split; [reflexivity|]. split; [exact Hl|]. split; [exact Hrows|].
        split.
        -- intros t c s Ht Hc Hs Hd%Hdone Hst. apply Himg; try assumption.
           destruct Hd as [Hd | [-> ->]]; [exact Hd | lia].
        -- intros t c Ht Hc Hno. apply Hnone; try assumption.
           intros s Hs Hd. apply Hno; [exact Hs|]. apply Hdone. left. exact Hd.
    + exists es'. split; [exact Hrun|]. destruct HI' as (Hl & Hrows & Himg & Hnone).
      replace (0 + a_na a) with (a_na a) in * by lia.
      split; [exact Hl|]. split; [exact Hrows|]. split.
      * intros t c s Ht Hc Hs Hd. apply Himg; try assumption.
        unfold done in *. lia.
      * intros t c Ht Hc Hno. apply Hnone; try assumption.
        intros s Hs Hd. apply Hno; [exact Hs|]. unfold done in *. lia.
  - exists es. split; [exact Hrun|]. replace (0 + a_n a) with (a_n a) in * by lia.
    split; [exact Hl|]. split; [exact Hrows|]. split.
    + intros t c s Ht Hc Hs Hst. apply (Himg t c s); try assumption. unfold done. lia.
    + intros t c Ht Hc Hno. apply Hnone; try assumption. intros s Hs _. apply Hno, Hs.
Qed.
End Transpose_facts.

Lemma foldl_last (P : Z → Prop) `{∀ i, Decision (P i)} (r0 qf n : Z) :
  0 ≤ n → (∀ i, 0 ≤ i < n → (P i ↔ i = qf)) →
  foldl (λ ri i, if decide (P i) then i else ri) r0 (seqZ 0 n)
  = if decide (0 ≤ qf < n) then qf else r0.
Proof.
  intros Hn. remember (Z.to_nat n) as k eqn:Hk. revert n Hn Hk.
  induction k as [|k IH]; intros n Hn Hk HP.
  - assert (n = 0) as -> by lia. simpl. rewrite decide_False by lia. reflexivity.
  - replace n with ((n - 1) + 1) by lia. rewrite seqZ_snoc by lia. rewrite foldl_app.
    simpl. rewrite (IH (n - 1)) by (try lia; intros i Hi; apply HP; lia).
    destruct (decide (P (n - 1))) as [Hp | Hp].
    + apply HP in Hp; [|lia]. rewrite decide_True by lia. exact Hp.
    + assert (n - 1 ≠ qf) by (intros Heq; apply Hp, HP; lia).
      destruct (decide (0 ≤ qf < n - 1)).
      * rewrite decide_True by lia. reflexivity.
      * rewrite decide_False by lia. reflexivity.
Qed.

(** X14.  [a] is co-deterministic and [qf] is its only final state: the result
    is well-formed, its initial state is [qf], its only final state is the
    initial state of [a], its transitions are those of [a] reversed, and it
    accepts the words of [a] read backwards. *)
Theorem Transpose_reverses (a : Automaton) (qf : Z) :
  wf a → codeterministic a → a_i a ≠ -1 → 0 ≤ qf < a_n a →
  (∀ s, 0 ≤ s < a_n a → (is_final a s = true ↔ s = qf)) →
  ∃ r, Transpose a = Ok r ∧ wf r ∧ a_i r = qf
       ∧ (∀ s, 0 ≤ s < a_n a → (is_final r s = true ↔ s = a_i a))
       ∧ (∀ s t c, 0 ≤ s < a_n a → 0 ≤ t < a_n a →
            (step r t c = Some s ↔ step a s c = Some t))
       ∧ (∀ w, accepts r w = accepts a (rev w)).
Proof.
  intros Hwf Hco Hi Hqf Hfinal. pose proof (wf_wf_alloc a Hwf) as Ha.
  pose proof (wf_n a Hwf) as Hn. pose proof (wf_na a Hwf) as Hna.
  pose proof (wf_i a Hwf) as Hia.
  set (rows := (λ i, mkEtat ((λ _ : Z, -1) <$> seqZ 0 (a_na a))
                            (b2z (bool_decide (i = a_i a)))) <$> seqZ 0 (a_n a)).
  assert (∀ t, 0 ≤ t < a_n a →
            sel rows t = mkEtat ((λ _ : Z, -1) <$> seqZ 0 (a_na a))
                                (b2z (bool_decide (t = a_i a)))) as Hrows.
  { intros t Ht. unfold rows.
    apply (sel_fmap_seqZ (λ i, mkEtat ((λ _ : Z, -1) <$> seqZ 0 (a_na a))
                                      (b2z (bool_decide (i = a_i a))))). exact Ht. }
  destruct (Transpose_transitions a Hwf rows Hco) as (es & Hrun & Hlen & Hshape & Himg & Hnone).
  { unfold rows. apply len_fmap_seqZ. lia. }
  { intros t Ht. rewrite Hrows by exact Ht. cbn [e_f]. apply len_fmap_seqZ. lia. }
  { intros t c Ht Hc. rewrite Hrows by exact Ht. cbn [e_f].
    apply (sel_fmap_seqZ (λ _ : Z, -1)). exact Hc. }
  set (r := mkAutomate es (a_n a) (a_na a) qf).
  assert (Transpose a = Ok r) as Hr.
  { unfold Transpose. cbv zeta. pose proof (Transpose_rows a Hwf) as Hfirst.
    cbv zeta in Hfirst. rewrite Hfirst. rewrite Ok_bind.
    cbv beta iota. fold rows. rewrite Hrun, Ok_bind.
    rewrite NewAutomaton_n, NewAutomaton_na. unfold r. f_equal. f_equal.
    rewrite (foldl_last (λ i, e_final (sel (a_e a) i) ≠ 0) _ qf) by
      (try lia; intros i Hi'; rewrite <- (Hfinal i Hi'); unfold is_final;
       rewrite (wf_alloc_rd_final a Ha) by exact Hi'; symmetry; apply bool_decide_eq_true).
    apply decide_True. exact Hqf. }
  (* a cell of the result *)
  assert (∀ t c, 0 ≤ t < a_n a → 0 ≤ c < a_na a →
            (sel (e_f (sel es t)) c = -1
             ∧ ∀ s, 0 ≤ s < a_n a → sel (e_f (sel (a_e a) s)) c ≠ t)
            ∨ (0 ≤ sel (e_f (sel es t)) c < a_n a
               ∧ sel (e_f (sel (a_e a) (sel (e_f (sel es t)) c))) c = t)) as Hcell.
  { intros t c Ht Hc.
    destruct (existsb (λ s, bool_decide (sel (e_f (sel (a_e a) s)) c = t)) (seqZ 0 (a_n a)))
      eqn:Hex.
    - right. apply existsb_seqZ_true in Hex as (s & Hs & Heq%bool_decide_eq_true).
      rewrite (Himg t c s) by (try assumption; lia). split; [lia | exact Heq].
    - left. rewrite existsb_seqZ_false in Hex.
      assert (∀ s, 0 ≤ s < a_n a → sel (e_f (sel (a_e a) s)) c ≠ t) as Hno.
      { intros s Hs. apply (bool_decide_eq_false (sel (e_f (sel (a_e a) s)) c = t)).
        apply Hex. lia. }
      split; [apply Hnone; assumption | exact Hno]. }
  assert (wf r) as Hwfr.
  { split; cbn [r a_e a_n a_na a_i]; try assumption; try lia.
    - intros x (t & Ht & <-)%sel_elem_of. apply Hshape. lia.
    - intros x y (t & Ht & <-)%sel_elem_of (c & Hc & <-)%sel_elem_of.
      rewrite Hlen in Ht. destruct (Hshape t Ht) as [Hrow _]. rewrite Hrow in Hc.
      destruct (Hcell t c Ht Hc) as [[-> _] | [Hr' _]]; lia.
    - intros x (t & Ht & <-)%sel_elem_of. rewrite Hlen in Ht.
      destruct (Hshape t Ht) as [_ ->]. rewrite Hrows by exact Ht. cbn [e_final].
      destruct (bool_decide _); auto. }
  pose proof (wf_wf_alloc r Hwfr) as Har.
  assert (∀ s, 0 ≤ s < a_n a → (is_final r s = true ↔ s = a_i a)) as Hfinr.
  { intros s Hs. unfold is_final. rewrite (wf_alloc_rd_final r Har) by exact Hs.
    cbn [r a_e]. destruct (Hshape s Hs) as [_ ->]. rewrite Hrows by exact Hs.
    cbn [e_final]. rewrite bool_decide_eq_true.
    destruct (decide (s = a_i a)) as [Heq | Hne].
    - rewrite bool_decide_eq_true_2 by exact Heq. simpl. split; [auto | lia].
    - rewrite bool_decide_eq_false_2 by exact Hne. simpl. split; [lia | contradiction]. }
  assert (∀ s t c, 0 ≤ s < a_n a → 0 ≤ t < a_n a →
            (step r t c = Some s ↔ step a s c = Some t)) as Hrev.
  { intros s t c Hs Ht. split.
    - intros Hst. destruct (step_in_range r t c s Har Ht Hst) as [_ Hc]. cbn [r a_na] in Hc.
      rewrite step_sel in Hst by assumption. cbn [r a_e] in Hst.
      rewrite step_sel by assumption.
      destruct (Hcell t c Ht Hc) as [[Hm _] | [Hr' Heq]].
      + rewrite Hm in Hst. rewrite decide_True in Hst by reflexivity. discriminate.
      + case_decide as Hd; [discriminate|]. injection Hst as Hst. rewrite Hst in Heq.
        rewrite Heq. rewrite decide_False by lia. reflexivity.
    - intros Hst. destruct (step_in_range a s c t Ha Hs Hst) as [_ Hc].
      rewrite step_sel in Hst by assumption.
      case_decide as Hd; [discriminate|]. injection Hst as Hst.
      rewrite step_sel by assumption. cbn [r a_e].
      rewrite (Himg t c s) by assumption. rewrite decide_False by lia. reflexivity. }
  assert (∀ w s t, 0 ≤ s < a_n a → 0 ≤ t < a_n a →
            (run r t w = Some s ↔ run a s (rev w) = Some t)) as Hruns.
  { induction w as [|c w IH]; intros s t Hs Ht.
    - simpl. split; intros [= ->]; reflexivity.
    - simpl. rewrite run_snoc. split.
      + destruct (step r t c) as [u|] eqn:Hst; [|discriminate]. intros Hrun'.
        destruct (step_in_range r t c u Har Ht Hst) as [Hu _]. cbn [r a_n] in Hu.
        apply IH in Hrun'; [|exact Hs | exact Hu]. rewrite Hrun'.
        apply Hrev; assumption.
      + destruct (run a s (rev w)) as [u|] eqn:Hrun'; [|discriminate]. intros Hst.
        pose proof (run_in_range a (rev w) Ha s u Hs Hrun') as Hu.
        apply Hrev in Hst; [|exact Hu | exact Ht]. rewrite Hst.
        apply IH; assumption. }
  exists r. split; [exact Hr|]. split; [exact Hwfr|]. split; [reflexivity|].
  split; [exact Hfinr|]. split; [exact Hrev|].
  intros w. apply eq_true_iff_eq. unfold accepts. cbn [r a_i].
  rewrite (decide_False (P := qf = -1)) by lia. rewrite decide_False by exact Hi.
  assert (0 ≤ a_i a < a_n a) as Hi0 by lia. fold r. split.
  - destruct (run r qf w) as [s|] eqn:Hrun'; [|discriminate]. intros Hfs.
    pose proof (run_in_range r w Har qf s Hqf Hrun') as Hs. cbn [r a_n] in Hs.
    apply Hfinr in Hfs; [|exact Hs]. subst s.
    apply Hruns in Hrun'; [|exact Hi0 | exact Hqf]. rewrite Hrun'.
    apply Hfinal; [exact Hqf | reflexivity].
  - destruct (run a (a_i a) (rev w)) as [t|] eqn:Hrun'; [|discriminate]. intros Hft.
    pose proof (run_in_range a (rev w) Ha (a_i a) t Hi0 Hrun') as Ht.
    apply Hfinal in Hft; [|exact Ht]. subst t.
    apply Hruns in Hrun'; [|exact Hi0 | exact Hqf]. rewrite Hrun'.
    apply Hfinr; [exact Hi0 | reflexivity].
Qed.

(** The words of the form [1 0 ... 0]: two states, the second one final. *)
Definition one_then_zeros : Automaton :=
  mkAutomate [mkEtat [-1; 1] 0; mkEtat [1; -1] 1] 2 2 0.

Lemma Transpose_reverses_witness :
  wf one_then_zeros ∧ codeterministic one_then_zeros ∧ a_i one_then_zeros ≠ -1
  ∧ 0 ≤ 1 < a_n one_then_zeros
  ∧ (∀ s, 0 ≤ s < a_n one_then_zeros → (is_final one_then_zeros s = true ↔ s = 1))
  ∧ ∃ r, Transpose one_then_zeros = Ok r ∧ a_i r = 1
         ∧ ∀ w, accepts r w = accepts one_then_zeros (rev w).
Proof.
  assert (wf one_then_zeros) as HA by (apply wfb_wf; reflexivity).
  assert (codeterministic one_then_zeros) as Hco.
  { intros s s' c t Hs Hs'. pose proof (wf_wf_alloc _ HA) as Ha.
    assert (∀ x y, step one_then_zeros x c = Some y →
              (x = 0 ∧ c = 1 ∧ y = 1) ∨ (x = 1 ∧ c = 0 ∧ y = 1)) as Hcases.
    { intros x y Hxy.
      destruct (decide (0 ≤ x < 2)) as [Hx | Hx].
      - destruct (step_in_range _ x c y Ha Hx Hxy) as [_ Hc]. simpl in Hc.
        assert (x = 0 ∨ x = 1) as [-> | ->] by lia;
          assert (c = 0 ∨ c = 1) as [-> | ->] by lia;
          vm_compute in Hxy; try discriminate; injection Hxy as <-; auto.
      - exfalso. unfold step, rd_f, rd in Hxy. simpl in Hxy.
        destruct (decide (0 ≤ x)) as [Hx0 | Hx0]; [|discriminate].
        destruct (Z.to_nat x) as [|[|k]] eqn:Hk; try lia. discriminate. }
    destruct (Hcases s t Hs) as [(-> & -> & _) | (-> & -> & _)];
      destruct (Hcases s' t Hs') as [(-> & ? & _) | (-> & ? & _)]; congruence. }
  assert (a_i one_then_zeros ≠ -1) as Hi by (simpl; lia).
  assert (0 ≤ 1 < a_n one_then_zeros) as Hqf by (simpl; lia).
  assert (∀ s, 0 ≤ s < a_n one_then_zeros → (is_final one_then_zeros s = true ↔ s = 1))
    as Hfin.
  { intros s Hs. simpl in Hs. assert (s = 0 ∨ s = 1) as [-> | ->] by lia;
      vm_compute; split; congruence. }
  split; [exact HA|]. split; [exact Hco|]. split; [exact Hi|]. split; [exact Hqf|].
  split; [exact Hfin|].
  destruct (Transpose_reverses one_then_zeros 1 HA Hco Hi Hqf Hfin)
    as (r & Hr & _ & Hri & _ & _ & Hacc).
  exists r. split; [exact Hr|]. split; [exact Hri | exact Hacc].
Defined.

(** ** Lists of sets of states: [AddEl] and the hash table *)

(** A loop that returns at the first turn that passes the test. *)
Lemma for_flow_first {R} (js : list Z) (body : Z → unit → Res (flow unit R))
    (test : Z → bool) (res : Z → R) :
  (∀ j, j ∈ js → body j () = Ok (if test j then Return () (res j) else Next ())) →
  for_flow js body ()
  = Ok (match list_find (λ j, test j = true) js with
        | Some (_, j) => Return () (res j)
        | None => Next ()
        end).
Proof.
  induction js as [|j js IH]; intros Hbody; [reflexivity|].
  cbn [for_flow list_find]. rewrite Hbody by left. rewrite Ok_bind.
  destruct (test j) eqn:Ht.
  - rewrite decide_True by reflexivity. reflexivity.
  - rewrite decide_False by discriminate. rewrite IH by (intros; apply Hbody; right; assumption).
    destruct (list_find _ js) as [[k x]|]; reflexivity.
Qed.

Lemma AddEl_eq (l : list Etats) (e : Etats) :
  AddEl l e
  = Ok (match list_find (λ j, equals (sel l j) e = true) (seqZ 0 (len l)) with
        | Some (_, j) => (l, false, j)
        | None => (l ++ [e], true, len l)
        end).
Proof.
  unfold AddEl. rewrite (for_flow_first _ _ (λ j, equals (sel l j) e) (λ j, j)).
  - rewrite Ok_bind. destruct (list_find _ _) as [[k j]|]; reflexivity.
  - intros j Hj%elem_of_seqZ. rewrite bind_rd by lia. destruct (equals _ _); reflexivity.
Qed.

(** X15.  [AddEl] answers the first place of [e] in the list, where it puts [e]
    when [e] was not in the list; the list changes in this case only, and a
    second call finds [e] at the same place. *)
Theorem AddEl_spec (l : list Etats) (e : Etats) :
  ∃ l' b k, AddEl l e = Ok (l', b, k)
    ∧ 0 ≤ k < len l' ∧ sel l' k = e
    ∧ (∀ k', 0 ≤ k' < k → sel l' k' ≠ e)
    ∧ (b = true ↔ e ∉ l)
    ∧ l' = (if b then l ++ [e] else l)
    ∧ AddEl l' e = Ok (l', false, k).
Proof.
  assert (∀ (l : list Etats) k, 0 ≤ k < len l → sel l k = e →
            (∀ k', 0 ≤ k' < k → sel l k' ≠ e) →
            list_find (λ j, equals (sel l j) e = true) (seqZ 0 (len l))
            = Some (Z.to_nat k, k)) as Hfind.
  { intros l0 k Hk Hek Hfirst. apply list_find_Some. split; [|split].
    - rewrite lookup_seqZ_lt by lia. f_equal. lia.
    - unfold equals. apply bool_decide_eq_true, Hek.
    - intros i j Hj Hlt. apply lookup_seqZ in Hj as [-> Hi]. unfold equals.
      rewrite bool_decide_eq_true. apply Hfirst. lia. }
  rewrite AddEl_eq.
  destruct (list_find _ (seqZ 0 (len l))) as [[i k]|] eqn:Hf.
  - apply list_find_Some in Hf as (Hk & Hek & Hfirst).
    apply lookup_seqZ in Hk as [-> Hi]. unfold equals in Hek.
    apply bool_decide_eq_true in Hek. replace (0 + Z.of_nat i) with (Z.of_nat i) in * by lia.
    assert (∀ k', 0 ≤ k' < Z.of_nat i → sel l k' ≠ e) as Hfirst'.
    { intros k' Hk' Heq. apply (Hfirst (Z.to_nat k') k').
      - rewrite lookup_seqZ_lt by lia. f_equal. lia.
      - lia.
      - unfold equals. apply bool_decide_eq_true, Heq. }
    exists l, false, (Z.of_nat i). split; [reflexivity|]. split; [lia|].
    split; [exact Hek|]. split; [exact Hfirst'|]. split.
    + split; [discriminate|]. intros Hn. destruct Hn. rewrite <- Hek.
      apply sel_elem_of. exists (Z.of_nat i). split; [lia | reflexivity].
    + split; [reflexivity|]. rewrite AddEl_eq.
      rewrite (Hfind l (Z.of_nat i)) by (try assumption; lia). reflexivity.
  - apply list_find_None in Hf. rewrite Forall_forall in Hf.
    assert (∀ k, 0 ≤ k < len l → sel l k ≠ e) as Hno.
    { intros k Hk Heq. apply (Hf k).
      - apply list_elem_of_In, elem_of_seqZ. lia.
      - unfold equals. apply bool_decide_eq_true, Heq. }
    exists (l ++ [e]), true, (len l).
    assert (sel (l ++ [e]) (len l) = e) as Hlast.
    { rewrite sel_app_r by lia. replace (len l - len l) with 0 by lia. reflexivity. }
    assert (∀ k', 0 ≤ k' < len l → sel (l ++ [e]) k' ≠ e) as Hbefore.
    { intros k' Hk'. rewrite sel_app_l by lia. apply Hno, Hk'. }
    split; [reflexivity|]. split; [rewrite length_app; simpl; lia|].
    split; [exact Hlast|]. split; [exact Hbefore|]. split.
    + split; [|reflexivity]. intros _ (k & Hk & Heq)%sel_elem_of. apply (Hno k Hk Heq).
    + split; [reflexivity|]. rewrite AddEl_eq.
      rewrite (Hfind (l ++ [e]) (len l)) by (try assumption; rewrite length_app; simpl; lia).
      reflexivity.
Qed.

(** The hash table. *)
Lemma bucket_set_bucket lhash h d : bucket (set_bucket lhash h d) h = d.
Proof. unfold bucket, set_bucket. simpl. rewrite decide_True by reflexivity. reflexivity. Qed.

(** What the search of [add] does on a bucket, whatever [*nf] held. *)
Definition search (b : Dict) (l : list Etats) (e : Etats) (nf : Z) : Res (flow Z bool) :=
  for_flow (seqZ 0 (d_n b)) (λ i nf,
    v ← rd b i;
    if decide (v < 0) then Ok (Return v false)
    else lv ← rd l v; if equals lv e then Ok (Return v false) else Ok (Next v)) nf.

Lemma search_app (b : Dict) (l : list Etats) (e : Etats) (nf : Z) x :
  search b l e nf = Ok (Next x) →
  ∀ nf', search (b ++ [len l]) (l ++ [e]) e nf' = Ok (Return (len l) false).
Proof.
  unfold search, d_n. rewrite length_app. simpl length.
  replace (len b + 1)%Z with (len b + 1) by lia.
  replace (Z.of_nat (length b + 1)) with (len b + 1) by lia.
  assert (∀ k m nf, 0 ≤ m → m + Z.of_nat k = len b →
            for_flow (seqZ m (Z.of_nat k)) (λ i nf,
              v ← rd b i;
              if decide (v < 0) then Ok (Return v false)
              else lv ← rd l v; if equals lv e then Ok (Return v false) else Ok (Next v))
              nf = Ok (Next x) →
            ∀ nf', for_flow (seqZ m (Z.of_nat k + 1)) (λ i nf,
              v ← rd (b ++ [len l]) i;
              if decide (v < 0) then Ok (Return v false)
              else lv ← rd (l ++ [e]) v;
                   if equals lv e then Ok (Return v false) else Ok (Next v))
              nf' = Ok (Return (len l) false)) as Hgen.
  { induction k as [|k IH]; intros m nf0 Hm Hmk Hrun nf'.
    - replace (Z.of_nat 0 + 1) with 1 by lia. rewrite seqZ_cons by lia.
      rewrite seqZ_nil by lia. cbn [for_flow].
      rewrite rd_sel by (rewrite length_app; simpl; lia).
      rewrite sel_app_r by lia. replace (m - len b) with 0 by lia. rewrite Ok_bind.
      change (sel [len l] 0) with (len l). rewrite decide_False by lia.
      rewrite rd_sel by (rewrite length_app; simpl; lia).
      rewrite sel_app_r by lia. replace (len l - len l) with 0 by lia. rewrite Ok_bind.
      change (sel [e] 0) with e. unfold equals. rewrite bool_decide_eq_true_2 by reflexivity.
      reflexivity.
    - rewrite seqZ_cons in Hrun by lia. rewrite seqZ_cons by lia.
      cbn [for_flow] in Hrun |- *.
      rewrite bind_rd in Hrun by lia.
      rewrite bind_rd by (rewrite length_app; simpl; lia). rewrite sel_app_l by lia.
      destruct (decide (sel b m < 0)) as [Hneg | Hpos]; [discriminate|].
      destruct (rd l (sel b m)) as [lv| |] eqn:Hlv; try discriminate.
      apply rd_Ok_sel in Hlv as [Hv ->]. rewrite Ok_bind in Hrun.
      rewrite bind_rd by (rewrite length_app; simpl; lia). rewrite sel_app_l by lia.
      destruct (equals (sel l (sel b m)) e); [discriminate|].
      replace (Z.pred (Z.of_nat (S k))) with (Z.of_nat k) in Hrun by lia.
      replace (Z.pred (Z.of_nat (S k) + 1)) with (Z.of_nat k + 1) by lia.
      eapply IH; [| |exact Hrun]; lia. }
  intros Hrun nf'. specialize (Hgen (length b) 0 nf ltac:(lia) ltac:(lia) Hrun nf').
  exact Hgen.
Qed.

Lemma for_flow_Return {S R} (js : list Z) (body : Z → S → Res (flow S R)) s x r :
  for_flow js body s = Ok (Return x r) → ∃ j s0, j ∈ js ∧ body j s0 = Ok (Return x r).
Proof.
  revert s. induction js as [|j js IH]; intros s; simpl; [discriminate|].
  destruct (body j s) as [[s1|s1 r1]| |] eqn:Hb; simpl; try discriminate.
  - intros (j' & s0 & Hj' & H)%IH. exists j', s0. split; [right; exact Hj' | exact H].
  - intros [= -> ->]. exists j, s. split; [left | exact Hb].
Qed.

Lemma search_Return b l e nf x r : search b l e nf = Ok (Return x r) → r = false.
Proof.
  intros (j & s0 & _ & Hb)%for_flow_Return.
  destruct (rd b j) as [v| |]; try discriminate. rewrite Ok_bind in Hb.
  case_decide; [congruence|].
  destruct (rd l v) as [lv| |]; try discriminate. rewrite Ok_bind in Hb.
  destruct (equals lv e); congruence.
Qed.

(** X16.  A set that [add] has put in the table under the number [k], the length
    of the list, is found under this number once the caller has put it at
    the end of the list. *)
Theorem add_then_found (lhash : Hash) (l : list Etats) (e : Etats) (nf : Z)
    (lhash' : Hash) (k : Z) :
  add lhash l e nf = Ok (lhash', true, k) →
  k = len l ∧ ∀ nf', add lhash' (AddEl2 l e) e nf' = Ok (lhash', false, k).
Proof.
  unfold add. cbv zeta. case_decide as Hh; [|discriminate].
  fold (search (bucket lhash (hash e)) l e nf).
  destruct (search (bucket lhash (hash e)) l e nf) as [[x|x r]| |] eqn:Hs;
    try discriminate; rewrite Ok_bind.
  2: { rewrite (search_Return _ _ _ _ _ _ Hs). discriminate. }
  intros [= <- <-].
  split; [reflexivity|]. intros nf'. unfold AddEl2.
  fold (search (bucket (set_bucket lhash (hash e)
                          (dictAdd (bucket lhash (hash e)) (len l))) (hash e))
               (l ++ [e]) e nf').
  rewrite bucket_set_bucket. unfold dictAdd.
  rewrite (search_app _ _ _ _ _ Hs). reflexivity.
Qed.

Lemma add_then_found_witness :
  add [] [[0]] [1; 2] UNINIT = Ok (set_bucket [] (hash [1; 2]) [1], true, 1)
  ∧ 1 = len [[0]]
  ∧ ∀ nf', add (set_bucket [] (hash [1; 2]) [1]) (AddEl2 [[0]] [1; 2]) [1; 2] nf'
           = Ok (set_bucket [] (hash [1; 2]) [1], false, 1).
Proof.
  assert (add [] [[0]] [1; 2] UNINIT = Ok (set_bucket [] (hash [1; 2]) [1], true, 1)) as H
    by reflexivity.
  split; [exact H|].
  exact (add_then_found [] [[0]] [1; 2] UNINIT _ 1 H).
Defined.

(** ** A state added, a state deleted *)

(** [a] with one more state, without transition. *)
Definition added (a : Automaton) (final : bool) : Automaton :=
  mkAutomate (a_e a ++ [mkEtat (replicate (Z.to_nat (a_na a)) (-1)) (b2z final)])
    (a_n a + 1) (a_na a) (a_i a).

Section added_facts.
Context (a : Automaton) (Hwf : wf a) (final : bool).
Let Ha : wf_alloc a := wf_wf_alloc a Hwf.

Lemma added_wf : wf (added a final).
Proof.
  pose proof (wf_n a Hwf) as Hn. pose proof (wf_na a Hwf) as Hna.
  pose proof (wf_i a Hwf) as Hi.
  split; unfold added; cbn [a_e a_n a_na a_i]; try lia.
  - rewrite length_app. simpl. lia.
  - intros s [Hs | ->%list_elem_of_singleton]%elem_of_app.
    + apply (wf_row a Hwf), Hs.
    + cbn [e_f]. rewrite length_replicate. lia.
  - intros s t [Hs | ->%list_elem_of_singleton]%elem_of_app Ht.
    + pose proof (wf_tgt a Hwf s t Hs Ht). lia.
    + cbn [e_f] in Ht. apply elem_of_replicate in Ht as [-> _]. lia.
  - intros s [Hs | ->%list_elem_of_singleton]%elem_of_app.
    + apply (wf_fin a Hwf), Hs.
    + cbn [e_final]. destruct final; auto.
Qed.

Lemma added_row s : 0 ≤ s < a_n a → sel (a_e (added a final)) s = sel (a_e a) s.
Proof.
  intros Hs. pose proof (wf_n a Hwf). unfold added. cbn [a_e]. apply sel_app_l. lia.
Qed.

Lemma added_last :
  sel (a_e (added a final)) (a_n a)
  = mkEtat (replicate (Z.to_nat (a_na a)) (-1)) (b2z final).
Proof.
  pose proof (wf_n a Hwf). unfold added. cbn [a_e]. rewrite sel_app_r by lia.
  replace (a_n a - len (a_e a)) with 0 by lia. reflexivity.
Qed.

Lemma added_step s c : 0 ≤ s < a_n a → step (added a final) s c = step a s c.
Proof.
  intros Hs. pose proof (wf_wf_alloc _ added_wf) as Hb.
  destruct (decide (0 ≤ c < a_na a)) as [Hc | Hc].
  - rewrite !step_sel by (try assumption; unfold added; cbn [a_n a_na]; lia).
    rewrite added_row by exact Hs. reflexivity.
  - rewrite !step_no_letter by (try assumption; unfold added; cbn [a_n a_na]; lia).
    reflexivity.
Qed.

Lemma added_final s : 0 ≤ s < a_n a → is_final (added a final) s = is_final a s.
Proof.
  intros Hs. pose proof (wf_wf_alloc _ added_wf) as Hb. unfold is_final.
  rewrite (wf_alloc_rd_final _ Hb) by (unfold added; cbn [a_n]; lia).
  rewrite (wf_alloc_rd_final a Ha) by exact Hs. rewrite added_row by exact Hs.
  reflexivity.
Qed.
End added_facts.

(** X17.  [AddEtat] leaves a well-formed automaton with one more state, the last
    one, which has the flag asked for and no transition, and which nothing
    leads to: the language is as it was. *)
Theorem AddEtat_language (a : Automaton) (final : bool) :
  wf a →
  ∃ r, AddEtat a final = Ok r ∧ wf r ∧ a_n r = a_n a + 1
       ∧ is_final r (a_n a) = final
       ∧ (∀ c, step r (a_n a) c = None)
       ∧ (∀ s, reachable r s → s ≠ a_n a)
       ∧ (∀ w, accepts r w = accepts a w).
Proof.
  intros Hwf. pose proof (wf_wf_alloc a Hwf) as Ha.
  pose proof (wf_n a Hwf) as Hn. pose proof (wf_na a Hwf) as Hna.
  pose proof (wf_i a Hwf) as Hi.
  pose proof (added_wf a Hwf final) as Hwfr. pose proof (wf_wf_alloc _ Hwfr) as Hr.
  exists (added a final). split; [apply AddEtat_eq; assumption|].
  split; [exact Hwfr|]. split; [reflexivity|]. split; [|split; [|split]].
  - unfold is_final. rewrite (wf_alloc_rd_final _ Hr) by (unfold added; cbn [a_n]; lia).
    rewrite added_last by exact Hwf. cbn [e_final]. destruct final; reflexivity.
  - intros c. destruct (decide (0 ≤ c < a_na a)) as [Hc | Hc].
    + rewrite step_sel by (try assumption; unfold added; cbn [a_n a_na]; lia).
      rewrite added_last by exact Hwf. cbn [e_f]. rewrite sel_replicate by lia.
      rewrite decide_True by reflexivity. reflexivity.
    + apply step_no_letter; [exact Hr | unfold added; cbn [a_n]; lia | exact Hc].
  - intros s [Hsome (w & Hrun)] ->. change (a_i (added a final)) with (a_i a) in *.
    assert (∀ w s, 0 ≤ s < a_n a → run (added a final) s w = Some (a_n a) → False) as Hno.
    { clear w Hrun. induction w as [|c w IH]; intros s Hs; simpl.
      - intros [= ->]. lia.
      - rewrite added_step by assumption.
        destruct (step a s c) as [t|] eqn:Hst; [|discriminate].
        apply IH. eapply step_in_range; eassumption. }
    apply (Hno w (a_i a)); [lia | exact Hrun].
  - intros w. rewrite !accepts_accepts_from. change (a_i (added a final)) with (a_i a).
    case_decide as Hnone; [reflexivity|].
    apply accepts_from_ext; try lia.
    + intros s Hs. apply added_final; assumption.
    + intros s c t Hs Hst. eapply step_in_range; eassumption.
    + intros s c Hs. apply added_step; assumption.
Qed.

Lemma AddEtat_language_witness :
  wf contains_1
  ∧ ∃ r, AddEtat contains_1 true = Ok r ∧ a_n r = a_n contains_1 + 1
         ∧ ∀ w, accepts r w = accepts contains_1 w.
Proof.
  assert (wf contains_1) as HA by (apply wfb_wf; reflexivity).
  split; [exact HA|].
  destruct (AddEtat_language contains_1 true HA) as (r & Hr & _ & Hn & _ & _ & _ & Hacc).
  exists r. split; [exact Hr|]. split; [exact Hn | exact Hacc].
Defined.

(** X18.  The state that [AddEtat] has added is deleted in place: the automaton
    is as it was, in a block that has kept the room of the state. *)
Theorem AddEtat_DeleteVertexOP (a : Automaton) (final : bool) :
  wf a →
  ∃ a' r, AddEtat a final = Ok a' ∧ DeleteVertexOP a' (a_n a) = Ok r
          ∧ a_n r = a_n a ∧ a_na r = a_na a ∧ a_i r = a_i a
          ∧ take (Z.to_nat (a_n a)) (a_e r) = a_e a.
Proof.
  intros Hwf. pose proof (wf_wf_alloc a Hwf) as Ha.
  pose proof (wf_n a Hwf) as Hn. pose proof (wf_na a Hwf) as Hna.
  pose proof (wf_i a Hwf) as Hi.
  pose proof (added_wf a Hwf final) as Hwfr. pose proof (wf_wf_alloc _ Hwfr) as Hr.
  exists (added a final). destruct (decide (a_n a = 0)) as [H0 | H0].
  - exists (mkAutomate [] 0 (a_na a) (a_i a)).
    split; [apply AddEtat_eq; assumption|]. split.
    + unfold DeleteVertexOP, added. cbv zeta. cbn [a_e a_n a_na a_i].
      rewrite decide_True by lia. f_equal. f_equal. lia.
    + cbn [a_e a_n a_na a_i]. split; [lia|]. split; [reflexivity|]. split; [reflexivity|].
      rewrite H0. simpl. destruct (a_e a); [reflexivity | simpl in Hn; lia].
  - destruct (DeleteVertexOP_deleted (added a final) Hr (a_n a)) as (r & Hrun & Hdel).
    { unfold added. cbn [a_n]. lia. }
    destruct Hdel as [Hdn Hdna Hdi Hdlen Hdrow Hdval Hdfin].
    unfold added in Hdn, Hdna, Hdi, Hdrow, Hdval, Hdfin. cbn [a_n a_na a_i] in *.
    replace (a_n a + 1 - 1) with (a_n a) in * by lia.
    exists r. split; [apply AddEtat_eq; assumption|]. split; [exact Hrun|].
    split; [exact Hdn|]. split; [exact Hdna|]. split.
    + rewrite Hdi. rewrite decide_False by lia. unfold b2z.
      rewrite bool_decide_eq_false_2 by lia. lia.
    + assert (length (a_e r) = S (length (a_e a))) as Hlen'.
      { unfold added in Hdlen. cbn [a_e] in Hdlen. rewrite length_app in Hdlen.
        simpl in Hdlen. lia. }
      apply list_eq_sel.
      * rewrite length_take. lia.
      * intros k Hk. rewrite length_take in Hk.
        assert (0 ≤ k < a_n a) as Hk' by lia.
        assert (sel (take (Z.to_nat (a_n a)) (a_e r)) k = sel (a_e r) k) as ->.
        { unfold sel. apply lookup_total_take_lt. lia. }
        assert (k + b2z (bool_decide (a_n a ≤ k)) = k) as Hsrc.
        { unfold b2z. rewrite bool_decide_eq_false_2 by lia. lia. }
        transitivity (mkEtat ((λ c, sel (e_f (sel (a_e a) k)) c) <$> seqZ 0 (a_na a))
                             (e_final (sel (a_e a) k))).
        -- apply row_ext.
           ++ apply Hdrow, Hk'.
           ++ intros c Hc. rewrite Hdval by assumption. rewrite Hsrc.
              fold (added a final). rewrite added_row by assumption.
              pose proof (wa_tgt a Ha k c Hk' Hc). unfold shift, b2z.
              rewrite decide_True by lia. rewrite bool_decide_eq_false_2 by lia. lia.
           ++ rewrite Hdfin by assumption. rewrite Hsrc. fold (added a final).
              rewrite added_row by assumption. reflexivity.
        -- symmetry. apply row_ext; [apply (wa_row a Ha), Hk' | reflexivity | reflexivity].
Qed.

Lemma AddEtat_DeleteVertexOP_witness :
  wf contains_1
  ∧ ∃ a' r, AddEtat contains_1 true = Ok a'
            ∧ DeleteVertexOP a' (a_n contains_1) = Ok r
            ∧ a_n r = a_n contains_1
            ∧ take (Z.to_nat (a_n contains_1)) (a_e r) = a_e contains_1.
Proof.
  assert (wf contains_1) as HA by (apply wfb_wf; reflexivity).
  split; [exact HA|].
  destruct (AddEtat_DeleteVertexOP contains_1 true HA)
    as (a' & r & Hadd & Hdel & Hn & _ & _ & Hrows).
  exists a', r. split; [exact Hadd|]. split; [exact Hdel|]. split; [exact Hn | exact Hrows].
Defined.

(** X19.  Out of the initial state, the deletion in place and the deletion by copy
    leave the same automaton: the same states in use, in a block that the
    deletion in place has not shortened. *)
Theorem DeleteVertexOP_DeleteVertex (a : Automaton) (e : Z) :
  wf a → 0 ≤ e < a_n a → e ≠ a_i a →
  ∃ r r', DeleteVertex a e = Ok r ∧ DeleteVertexOP a e = Ok r'
          ∧ a_n r' = a_n r ∧ a_na r' = a_na r ∧ a_i r' = a_i r
          ∧ take (Z.to_nat (a_n r)) (a_e r') = a_e r.
Proof.
  intros Hwf He Hei. pose proof (wf_wf_alloc a Hwf) as Ha.
  pose proof (wf_n a Hwf) as Hn. pose proof (wf_i a Hwf) as Hi.
  eexists. destruct (decide (a_n a = 1)) as [H1 | H1].
  - exists (mkAutomate [] 0 (a_na a) (a_i a)).
    split; [apply DeleteVertex_eq; assumption|]. split.
    + unfold DeleteVertexOP. cbv zeta. rewrite decide_True by lia. rewrite H1. reflexivity.
    + cbn [a_e a_n a_na a_i]. split; [lia|]. split; [reflexivity|]. split.
      * unfold b2z. rewrite bool_decide_eq_false_2 by lia. lia.
      * unfold DeleteVertex_rows. rewrite H1. reflexivity.
  - destruct (DeleteVertexOP_deleted a Ha e) as (r' & Hrun & Hdel); [lia|].
    destruct Hdel as [Hdn Hdna Hdi Hdlen Hdrow Hdval Hdfin].
    exists r'. split; [apply DeleteVertex_eq; assumption|]. split; [exact Hrun|].
    cbn [a_e a_n a_na a_i]. split; [exact Hdn|]. split; [exact Hdna|]. split.
    + rewrite Hdi. rewrite decide_False by exact Hei. reflexivity.
    + unfold DeleteVertex_rows. apply list_eq_sel.
      * rewrite length_take, length_fmap, length_seqZ. lia.
      * intros k Hk. rewrite length_take in Hk.
        assert (0 ≤ k < a_n a - 1) as Hk' by lia.
        assert (sel (take (Z.to_nat (a_n a - 1)) (a_e r')) k = sel (a_e r') k) as ->.
        { unfold sel. apply lookup_total_take_lt. lia. }
        rewrite sel_fmap_seqZ by lia. cbv zeta. unfold survivor.
        fold (sel (a_e a) (k + b2z (bool_decide (e ≤ k)))).
        set (src := sel (a_e a) (k + b2z (bool_decide (e ≤ k)))).
        assert (0 ≤ k + b2z (bool_decide (e ≤ k)) < a_n a) as Hsrc
          by (unfold b2z; destruct (bool_decide (e ≤ k)); lia).
        pose proof (wa_row a Ha _ Hsrc) as Hrow. fold src in Hrow.
        transitivity (mkEtat ((λ c, shift e (sel (e_f src) c)) <$> seqZ 0 (a_na a))
                             (e_final src)).
        -- apply row_ext; [apply Hdrow, Hk' | | apply Hdfin, Hk'].
           intros c Hc. apply Hdval; assumption.
        -- f_equal. apply list_eq_sel.
           ++ rewrite len_fmap_seqZ by lia. rewrite length_fmap. lia.
           ++ intros c Hc. rewrite len_fmap_seqZ in Hc by lia.
              rewrite sel_fmap_seqZ by lia. rewrite sel_fmap by lia. reflexivity.
Qed.

Lemma DeleteVertexOP_DeleteVertex_witness :
  wf three_states ∧ 0 ≤ 1 < a_n three_states ∧ 1 ≠ a_i three_states
  ∧ ∃ r r', DeleteVertex three_states 1 = Ok r ∧ DeleteVertexOP three_states 1 = Ok r'
            ∧ a_i r' = a_i r ∧ take (Z.to_nat (a_n r)) (a_e r') = a_e r.
Proof.
  assert (0 ≤ 1 < a_n three_states) as He by (simpl; lia).
  assert (1 ≠ a_i three_states) as Hi by (simpl; lia).
  split; [exact three_states_wf|]. split; [exact He|]. split; [exact Hi|].
  destruct (DeleteVertexOP_DeleteVertex three_states 1 three_states_wf He Hi)
    as (r & r' & H1 & H2 & _ & _ & H3 & H4).
  exists r, r'. split; [exact H1|]. split; [exact H2|]. split; [exact H3 | exact H4].
Defined.

(** ** Traversals that mark the states with the bit 1 of [final] *)

Lemma filter_length_mono {T} (P Q : T → Prop) `{∀ x, Decision (P x)}
    `{∀ x, Decision (Q x)} (l : list T) :
  (∀ x, x ∈ l → P x → Q x) → (length (filter P l) ≤ length (filter Q l))%nat.
Proof.
  induction l as [|x l IH]; intros HPQ; [reflexivity|].
  rewrite !list.filter_cons.
  assert (length (filter P l) ≤ length (filter Q l))%nat as Hl
    by (apply IH; intros y Hy; apply HPQ; right; exact Hy).
  destruct (decide (P x)) as [Hp | Hp].
  - rewrite decide_True by (apply HPQ; [left | exact Hp]). simpl. lia.
  - destruct (decide (Q x)); simpl; lia.
Qed.

Lemma filter_length_lt {T} (P Q : T → Prop) `{∀ x, Decision (P x)}
    `{∀ x, Decision (Q x)} (l : list T) y :
  (∀ x, x ∈ l → P x → Q x) → y ∈ l → Q y → ¬ P y →
  (length (filter P l) < length (filter Q l))%nat.
Proof.
  induction l as [|x l IH]; intros HPQ Hy HQ HP; [inversion Hy|].
  rewrite !list.filter_cons.
  assert (length (filter P l) ≤ length (filter Q l))%nat as Hl
    by (apply filter_length_mono; intros z Hz; apply HPQ; right; exact Hz).
  apply elem_of_cons in Hy as [-> | Hy].
  - rewrite decide_False by exact HP. rewrite decide_True by exact HQ. simpl. lia.
  - assert (length (filter P l) < length (filter Q l))%nat as Hlt
      by (apply IH; try assumption; intros z Hz; apply HPQ; right; exact Hz).
    destruct (decide (P x)) as [Hp | Hp].
    + rewrite decide_True by (apply HPQ; [left | exact Hp]). simpl. lia.
    + destruct (decide (Q x)); simpl; lia.
Qed.

(** A loop whose body may return: what it establishes either way. *)
Lemma for_flow_seqZ_inv {S R} (P : Z → S → Prop) (Q : S → R → Prop)
    (body : Z → S → Res (flow S R)) m len s :
  0 ≤ len → P m s →
  (∀ j s, m ≤ j < m + len → P j s →
     ∃ x, body j s = Ok x
          ∧ match x with Next s' => P (j + 1) s' | Return s' r => Q s' r end) →
  ∃ x, for_flow (seqZ m len) body s = Ok x
       ∧ match x with Next s' => P (m + len) s' | Return s' r => Q s' r end.
Proof.
  intros Hlen. remember (Z.to_nat len) as k eqn:Hk.
  revert m len s Hlen Hk. induction k as [|k IH]; intros m len s Hlen Hk HP Hstep.
  - assert (len = 0) as -> by lia. rewrite seqZ_nil by lia. simpl.
    exists (Next s). split; [reflexivity|]. replace (m + 0) with m by lia. exact HP.
  - rewrite seqZ_cons by lia. simpl.
    destruct (Hstep m s) as (x & -> & Hx); [lia | exact HP |]. simpl.
    destruct x as [s1 | s1 r1].
    + destruct (IH (Z.succ m) (Z.pred len) s1) as (y & Hy & HPy); try lia.
      * replace (Z.succ m) with (m + 1) by lia. exact Hx.
      * intros j s0 Hj. apply Hstep. lia.
      * exists y. split; [exact Hy|].
        replace (m + len) with (Z.succ m + Z.pred len) by lia. exact HPy.
    + exists (Return s1 r1). split; [reflexivity | exact Hx].
Qed.

Definition seen (a : Automaton) (s : Z) : Prop :=
  Z.land (e_final (sel (a_e a) s)) 2 ≠ 0.

Section marks_facts.
Context (A : Automaton) (HA : wf A).
Let Ha : wf_alloc A := wf_wf_alloc A HA.

(** [a] is [A] where some states carry the mark. *)
Record marking (a : Automaton) : Prop := mkmarking
  { mk_n : a_n a = a_n A;
    mk_na : a_na a = a_na A;
    mk_i : a_i a = a_i A;
    mk_len : len (a_e a) = a_n A;
    mk_f : ∀ s, 0 ≤ s < a_n A → e_f (sel (a_e a) s) = e_f (sel (a_e A) s);
    mk_fin : ∀ s, 0 ≤ s < a_n A →
               e_final (sel (a_e a) s) = e_final (sel (a_e A) s)
               ∨ e_final (sel (a_e a) s) = Z.lor (e_final (sel (a_e A) s)) 2 }.

(** The states in use that carry no mark. *)
Definition unseen_nb (a : Automaton) : nat :=
  length (filter (λ s, ¬ seen a s) (seqZ 0 (a_n A))).

Lemma marking_refl : marking A.
Proof. split; auto. apply (wf_n A HA). Qed.

Lemma not_seen_A s : 0 ≤ s < a_n A → ¬ seen A s.
Proof.
  intros Hs Hseen. apply Hseen.
  destruct (wa_fin A Ha s Hs) as [-> | ->]; reflexivity.
Qed.

Lemma seen_flag a s :
  marking a → 0 ≤ s < a_n A →
  (seen a s → e_final (sel (a_e a) s) = Z.lor (e_final (sel (a_e A) s)) 2)
  ∧ (¬ seen a s → e_final (sel (a_e a) s) = e_final (sel (a_e A) s)).
Proof.
  intros Hm Hs. unfold seen.
  destruct (mk_fin a Hm s Hs) as [-> | ->];
    destruct (wa_fin A Ha s Hs) as [-> | ->]; simpl; split; intros H;
      try reflexivity; try (exfalso; apply H; reflexivity);
        try (exfalso; apply H; discriminate).
Qed.

Lemma marking_rd_final a s :
  marking a → 0 ≤ s < a_n A → rd_final (a_e a) s = Ok (e_final (sel (a_e a) s)).
Proof.
  intros Hm Hs. unfold rd_final. rewrite bind_rd by (rewrite (mk_len a Hm); lia).
  reflexivity.
Qed.

Lemma marking_rd_f a s c :
  marking a → 0 ≤ s < a_n A → rd_f (a_e a) s c = rd_f (a_e A) s c.
Proof.
  intros Hm Hs. pose proof (wf_n A HA). unfold rd_f.
  rewrite !bind_rd by (rewrite ?(mk_len a Hm); lia).
  rewrite (mk_f a Hm s Hs). reflexivity.
Qed.

Lemma unseen_nb_le a : (unseen_nb a ≤ Z.to_nat (a_n A))%nat.
Proof.
  unfold unseen_nb. etransitivity; [apply length_filter|]. rewrite length_seqZ. lia.
Qed.

Lemma unseen_nb_mono a a' :
  (∀ s, 0 ≤ s < a_n A → seen a s → seen a' s) → (unseen_nb a' ≤ unseen_nb a)%nat.
Proof.
  intros Hmono. apply filter_length_mono.
  intros s Hs%elem_of_seqZ Hn Hseen. apply Hn, Hmono; [lia|].
  destruct (decide (seen a s)) as [H | H]; [exact H|]. contradiction.
Qed.

Lemma unseen_nb_lt a a' e :
  (∀ s, 0 ≤ s < a_n A → seen a s → seen a' s) →
  0 ≤ e < a_n A → ¬ seen a e → seen a' e → (unseen_nb a' < unseen_nb a)%nat.
Proof.
  intros Hmono He Hne Hse. apply (filter_length_lt _ _ _ e).
  - intros s Hs%elem_of_seqZ Hn Hseen. apply Hn.
    destruct (decide (seen a' s)) as [H | H]; [exact H|].
    exfalso. apply H. apply Hmono; [lia | exact Hseen].
  - apply elem_of_seqZ. lia.
  - exact Hne.
  - intros H. apply H, Hse.
Qed.

(** The mark is put on the state [e]. *)
Lemma mark_state a e :
  marking a → 0 ≤ e < a_n A →
  ∃ es, wr_final (a_e a) e (Z.lor (e_final (sel (a_e a) e)) 2) = Ok es
        ∧ marking (with_e a es)
        ∧ seen (with_e a es) e
        ∧ (∀ s, 0 ≤ s → s ≠ e → sel es s = sel (a_e a) s)
        ∧ (∀ s, 0 ≤ s < a_n A → seen a s → seen (with_e a es) s).
Proof.
  intros Hm He. pose proof (mk_len a Hm) as Hlen.
  rewrite wr_final_upd by lia. eexists. split; [reflexivity|].
  set (es := upd _ _ _).
  assert (∀ s, 0 ≤ s → s ≠ e → sel es s = sel (a_e a) s) as Hoth.
  { intros s Hs Hne. unfold es. apply sel_upd_ne; lia. }
  assert (sel es e = mkEtat (e_f (sel (a_e a) e)) (Z.lor (e_final (sel (a_e a) e)) 2))
    as Hrow by (unfold es; apply sel_upd_eq; lia).
  assert (seen (with_e a es) e) as Hseen.
  { unfold seen. cbn [with_e a_e]. rewrite Hrow. cbn [e_final]. apply lor_2_seen. }
  split; [|split; [exact Hseen|split]].
  - split; cbn [with_e a_e a_n a_na a_i]; try apply Hm.
    + unfold es. rewrite length_upd. exact Hlen.
    + intros s Hs. destruct (decide (s = e)) as [-> | Hne].
      * rewrite Hrow. cbn [e_f]. apply (mk_f a Hm), He.
      * rewrite Hoth by lia. apply (mk_f a Hm), Hs.
    + intros s Hs. destruct (decide (s = e)) as [-> | Hne].
      * rewrite Hrow. cbn [e_final]. right. apply lor_2_idem.
        destruct (mk_fin a Hm e He) as [-> | ->]; auto.
      * rewrite Hoth by lia. apply (mk_fin a Hm), Hs.
  - exact Hoth.
  - intros s Hs Hss. destruct (decide (s = e)) as [-> | Hne]; [exact Hseen|].
    unfold seen. cbn [with_e a_e]. rewrite Hoth by lia. exact Hss.
Qed.
End marks_facts.

(** ** [emptyLangage] *)

Section emptyLangage_facts.
Context (A : Automaton) (HA : wf A).
Let Ha : wf_alloc A := wf_wf_alloc A HA.

(** What a call on the state [e] leaves: the marks of [a] and more; with
    the answer [false], a final state that [e] reaches; with the answer
    [true], the mark on [e], and the states newly marked are not final and
    lead to marked states only. *)
Definition emptyLangage_post (a : Automaton) (e : Z) (a' : Automaton) (b : bool)
    : Prop :=
  marking A a'
  ∧ (∀ s, 0 ≤ s < a_n A → seen a s → seen a' s)
  ∧ (b = false → ∃ w t, run A e w = Some t ∧ is_final A t = true)
  ∧ (b = true →
     seen a' e
     ∧ ∀ s, 0 ≤ s < a_n A → seen a' s → ¬ seen a s →
            is_final A s = false ∧ ∀ c t, step A s c = Some t → seen a' t).

Lemma emptyLangage_rec_spec fuel :
  ∀ a e, marking A a → 0 ≤ e < a_n A → ¬ seen a e → (unseen_nb A a < fuel)%nat →
    ∃ a' b, emptyLangage_rec fuel a e = Ok (a', b) ∧ emptyLangage_post a e a' b.
Proof.
  induction fuel as [|fuel IH]; intros a e Hm He Hne Hfuel; [lia|].
  cbn [emptyLangage_rec].
  rewrite (marking_rd_final A a e Hm He). rewrite Ok_bind.
  destruct (seen_flag A HA a e Hm He) as [_ Hflag]. specialize (Hflag Hne).
  destruct (decide (e_final (sel (a_e a) e) ≠ 0)) as [Hfin | Hfin].
  { (* [e] is final *)
    exists a, false. split; [reflexivity|]. split; [exact Hm|]. split; [auto|].
    split; [|discriminate]. intros _. exists [], e. split; [reflexivity|].
    unfold is_final. rewrite (wf_alloc_rd_final A Ha) by exact He. rewrite <- Hflag.
    apply bool_decide_eq_true, Hfin. }
  assert (is_final A e = false) as Hnf.
  { unfold is_final. rewrite (wf_alloc_rd_final A Ha) by exact He. rewrite <- Hflag.
    apply bool_decide_eq_false. exact Hfin. }
  destruct (mark_state A a e Hm He) as (es & -> & Hm1 & Hseen1 & Hoth1 & Hmono1).
  rewrite Ok_bind. set (a1 := with_e a es) in *.
  assert (unseen_nb A a1 < fuel)%nat as Hfuel1.
  { pose proof (unseen_nb_lt A a a1 e Hmono1 He Hne Hseen1). lia. }
  assert (∀ s, 0 ≤ s < a_n A → seen a1 s → ¬ seen a s → s = e) as Hnew1.
  { intros s Hs Hs1 Hs0. destruct (decide (s = e)) as [Heq | Hneq]; [exact Heq|].
    exfalso. apply Hs0. unfold seen in *. unfold a1 in Hs1. cbn [with_e a_e] in Hs1.
    rewrite Hoth1 in Hs1 by lia. exact Hs1. }
  (* the loop over the letters *)
  set (P := λ (i : Z) (s : Automaton),
         marking A s
         ∧ (∀ x, 0 ≤ x < a_n A → seen a1 x → seen s x)
         ∧ (∀ c t, 0 ≤ c < i → step A e c = Some t → seen s t)
         ∧ (∀ x, 0 ≤ x < a_n A → seen s x → ¬ seen a1 x →
                 is_final A x = false ∧ ∀ c t, step A x c = Some t → seen s t)).
  set (Q := λ (s : Automaton) (r : bool),
         r = false ∧ marking A s
         ∧ (∀ x, 0 ≤ x < a_n A → seen a1 x → seen s x)
         ∧ ∃ w t, run A e w = Some t ∧ is_final A t = true).
  change (a_na a1) with (a_na a). rewrite (mk_na A a Hm).
  match goal with |- context [for_flow _ ?b _] => set (body := b) end.
  destruct (for_flow_seqZ_inv P Q body 0 (a_na A) a1) as (x & -> & Hx).
  - apply (wa_na A Ha).
  - split; [exact Hm1|]. split; [auto|]. split; [intros; lia|].
    intros x Hx Hs Hns. contradiction.
  - intros i s Hi (Hms & Hmono & Hdone & Hclosed). unfold body.
    rewrite (marking_rd_f A HA s e i Hms He).
    rewrite (wf_alloc_rd_f A Ha) by lia. rewrite Ok_bind.
    pose proof (wa_tgt A Ha e i He ltac:(lia)) as Htgt.
    pose proof (step_sel A e i Ha He ltac:(lia)) as Hstep.
    set (f := sel (e_f (sel (a_e A) e)) i) in *.
    destruct (decide (f ≠ -1)) as [Hf | Hf].
    + assert (0 ≤ f < a_n A) as Hfr by lia.
      rewrite decide_False in Hstep by exact Hf.
      rewrite (marking_rd_final A s f Hms Hfr). rewrite Ok_bind.
      destruct (decide (Z.land (e_final (sel (a_e s) f)) 2 ≠ 0)) as [Hsf | Hsf].
      * (* the child has been seen *)
        exists (Next s). split; [reflexivity|]. split; [exact Hms|]. split; [exact Hmono|].
        split; [|exact Hclosed].
        intros c t Hc Hct. destruct (decide (c = i)) as [-> | Hci].
        -- rewrite Hstep in Hct. injection Hct as <-. exact Hsf.
        -- apply (Hdone c t); [lia | exact Hct].
      * (* the child is visited *)
        destruct (IH s f Hms Hfr Hsf) as (s' & sub & -> & Hms' & Hmono' & Hfalse & Htrue).
        { pose proof (unseen_nb_mono A a1 s Hmono). lia. }
        rewrite Ok_bind. destruct sub.
        -- destruct (Htrue eq_refl) as [Hseenf Hclosed'].
           exists (Next s'). split; [reflexivity|]. split; [exact Hms'|].
           split; [auto|]. split.
           ++ intros c t Hc Hct. destruct (decide (c = i)) as [-> | Hci].
              ** rewrite Hstep in Hct. injection Hct as <-. exact Hseenf.
              ** apply Hmono'; [|apply (Hdone c t); [lia | exact Hct]].
                 assert (c < a_na A ∧ 0 ≤ t < a_n A) as [_ Ht]; [|exact Ht].
                 destruct (step_in_range A e c t Ha He Hct). lia.
           ++ intros x Hx Hsx Hnx. destruct (decide (seen s x)) as [Hold | Hnew].
              ** destruct (Hclosed x Hx Hold Hnx) as [Hfx Hcx]. split; [exact Hfx|].
                 intros c t Hct. apply Hmono'; [|apply (Hcx c t Hct)].
                 destruct (step_in_range A x c t Ha Hx Hct). lia.
              ** apply Hclosed'; assumption.
        -- destruct (Hfalse eq_refl) as (w & t & Hrun & Hft).
           exists (Return s' false). split; [reflexivity|]. split; [reflexivity|].
           split; [exact Hms'|]. split; [auto|].
           exists (i :: w), t. split; [|exact Hft]. simpl. rewrite Hstep. exact Hrun.
    + assert (f = -1) as Hm1' by (destruct (decide (f = -1)); [assumption | contradiction]).
      rewrite decide_True in Hstep by exact Hm1'.
      exists (Next s). split; [reflexivity|]. split; [exact Hms|]. split; [exact Hmono|].
      split; [|exact Hclosed].
      intros c t Hc Hct. destruct (decide (c = i)) as [-> | Hci].
      * rewrite Hstep in Hct. discriminate.
      * apply (Hdone c t); [lia | exact Hct].
  - rewrite Ok_bind. destruct x as [s | s r].
    + destruct Hx as (Hms & Hmono & Hdone & Hclosed).
      exists s, true. split; [reflexivity|]. split; [exact Hms|]. split; [auto|].
      split; [discriminate|]. intros _. split; [apply Hmono; assumption|].
      intros x Hx Hsx Hnx. destruct (decide (seen a1 x)) as [H1 | H1].
      * assert (x = e) as -> by (apply Hnew1; assumption). split; [exact Hnf|].
        intros c t Hct. destruct (step_in_range A e c t Ha He Hct) as [_ Hc].
        apply (Hdone c t); [lia | exact Hct].
      * apply Hclosed; assumption.
    + destruct Hx as (-> & Hms & Hmono & Hw).
      exists s, false. split; [reflexivity|]. split; [exact Hms|]. split; [auto|].
      split; [intros _; exact Hw | discriminate].
Qed.
End emptyLangage_facts.

(** X20.  [emptyLangage] answers [true] exactly when [a] accepts no word, and
    leaves [a] as it found it. *)
Theorem emptyLangage_spec (A : Automaton) :
  wf A →
  ∃ b, emptyLangage A = Ok (A, b) ∧ (b = true ↔ ∀ w, accepts A w = false).
Proof.
  intros HA. pose proof (wf_wf_alloc A HA) as Ha. pose proof (wf_i A HA) as Hi.
  pose proof (wf_n A HA) as Hn.
  assert (∃ a' b, emptyLangage A = Ok (a', b) ∧ (b = true ↔ ∀ w, accepts A w = false))
    as (a' & b & Hrun & Hb).
  { unfold emptyLangage. destruct (decide (a_i A = -1)) as [Hnone | Hsome].
    { exists A, true. split; [reflexivity|]. split; [|reflexivity].
      intros _ w. unfold accepts. rewrite decide_True by exact Hnone. reflexivity. }
    assert (0 ≤ a_i A < a_n A) as Hi0 by lia.
    destruct (emptyLangage_rec_spec A HA (S (Z.to_nat (a_n A))) A (a_i A))
      as (a1 & b & -> & Hm1 & Hmono & Hfalse & Htrue).
    { apply marking_refl, HA. }
    { exact Hi0. }
    { apply not_seen_A; assumption. }
    { pose proof (unseen_nb_le A A). lia. }
    rewrite Ok_bind. change (a_n a1) with (a_n a1).
    rewrite (mk_n A a1 Hm1). rewrite restore_loop by apply (mk_len A a1 Hm1).
    rewrite Ok_bind. eexists _, b. split; [reflexivity|].
    destruct b.
    - split; [|reflexivity]. intros _. destruct (Htrue eq_refl) as [Hseen Hclosed].
      assert (∀ w s, 0 ≤ s < a_n A → seen a1 s →
                match run A s w with Some t => is_final A t | None => false end = false)
        as Hall.
      { induction w as [|c w IH]; intros s Hs Hss; simpl.
        - apply (Hclosed s Hs Hss), not_seen_A; assumption.
        - destruct (step A s c) as [t|] eqn:Hst; [|reflexivity].
          destruct (step_in_range A s c t Ha Hs Hst) as [Ht _].
          apply IH; [exact Ht|].
          apply (proj2 (Hclosed s Hs Hss (not_seen_A A HA s Hs)) c t Hst). }
      intros w. unfold accepts. rewrite decide_False by exact Hsome.
      apply Hall; assumption.
    - split; [discriminate|]. intros Hempty.
      destruct (Hfalse eq_refl) as (w & t & Hrun & Hft).
      specialize (Hempty w). unfold accepts in Hempty.
      rewrite decide_False in Hempty by exact Hsome. rewrite Hrun in Hempty. congruence. }
  exists b. split; [|exact Hb].
  rewrite Hrun. f_equal. f_equal. apply (emptyLangage_frame A HA a' b Hrun).
Qed.

Lemma emptyLangage_spec_witness :
  wf contains_1
  ∧ ∃ b, emptyLangage contains_1 = Ok (contains_1, b)
         ∧ (b = true ↔ ∀ w, accepts contains_1 w = false).
Proof.
  assert (wf contains_1) as HA by (apply wfb_wf; reflexivity).
  split; [exact HA|]. exact (emptyLangage_spec contains_1 HA).
Defined.

(** ** [emondeI] *)

Section emondeI_facts.
Context (A : Automaton) (HA : wf A).
Let Ha : wf_alloc A := wf_wf_alloc A HA.

(** A call on the state [e] marks [e]; the states newly marked are reached
    from [e] and lead to marked states only. *)
Lemma emondeI_rec_spec fuel :
  ∀ a e, marking A a → 0 ≤ e < a_n A → ¬ seen a e → (unseen_nb A a < fuel)%nat →
    ∃ a', emondeI_rec fuel a e = Ok a'
          ∧ marking A a'
          ∧ (∀ s, 0 ≤ s < a_n A → seen a s → seen a' s)
          ∧ seen a' e
          ∧ ∀ s, 0 ≤ s < a_n A → seen a' s → ¬ seen a s →
                 reachable_from A e s ∧ ∀ c t, step A s c = Some t → seen a' t.
Proof.
  induction fuel as [|fuel IH]; intros a e Hm He Hne Hfuel; [lia|].
  cbn [emondeI_rec].
  rewrite (marking_rd_final A a e Hm He). rewrite Ok_bind.
  destruct (mark_state A a e Hm He) as (es & -> & Hm1 & Hseen1 & Hoth1 & Hmono1).
  rewrite Ok_bind. set (a1 := with_e a es) in *.
  assert (unseen_nb A a1 < fuel)%nat as Hfuel1.
  { pose proof (unseen_nb_lt A a a1 e Hmono1 He Hne Hseen1). lia. }
  assert (∀ s, 0 ≤ s < a_n A → seen a1 s → ¬ seen a s → s = e) as Hnew1.
  { intros s Hs Hs1 Hs0. destruct (decide (s = e)) as [Heq | Hneq]; [exact Heq|].
    exfalso. apply Hs0. unfold seen in *. unfold a1 in Hs1. cbn [with_e a_e] in Hs1.
    rewrite Hoth1 in Hs1 by lia. exact Hs1. }
  set (P := λ (i : Z) (s : Automaton),
         marking A s
         ∧ (∀ x, 0 ≤ x < a_n A → seen a1 x → seen s x)
         ∧ (∀ c t, 0 ≤ c < i → step A e c = Some t → seen s t)
         ∧ (∀ x, 0 ≤ x < a_n A → seen s x → ¬ seen a1 x →
                 reachable_from A e x ∧ ∀ c t, step A x c = Some t → seen s t)).
  change (a_na a1) with (a_na a). rewrite (mk_na A a Hm).
  match goal with |- context [for_ _ ?b _] => set (body := b) end.
  destruct (for_seqZ_inv P body 0 (a_na A) a1) as (s & -> & Hms & Hmono & Hdone & Hclosed).
  - apply (wa_na A Ha).
  - split; [exact Hm1|]. split; [auto|]. split; [intros; lia|].
    intros x Hx Hs Hns. contradiction.
  - intros i s Hi (Hms & Hmono & Hdone & Hclosed). unfold body.
    rewrite (marking_rd_f A HA s e i Hms He).
    rewrite (wf_alloc_rd_f A Ha) by lia. rewrite Ok_bind.
    pose proof (wa_tgt A Ha e i He ltac:(lia)) as Htgt.
    pose proof (step_sel A e i Ha He ltac:(lia)) as Hstep.
    set (f := sel (e_f (sel (a_e A) e)) i) in *.
    destruct (decide (f = -1)) as [Hf | Hf].
    + exists s. split; [reflexivity|]. split; [exact Hms|]. split; [exact Hmono|].
      split; [|exact Hclosed].
      intros c t Hc Hct. destruct (decide (c = i)) as [-> | Hci].
      * rewrite Hstep in Hct. discriminate.
      * apply (Hdone c t); [lia | exact Hct].
    + assert (0 ≤ f < a_n A) as Hfr by lia.
      rewrite (marking_rd_final A s f Hms Hfr). rewrite Ok_bind.
      destruct (decide (Z.land (e_final (sel (a_e s) f)) 2 = 0)) as [Hsf | Hsf].
      * (* the child is visited *)
        assert (¬ seen s f) as Hnsf by (intros H; apply H, Hsf).
        destruct (IH s f Hms Hfr Hnsf) as (s' & -> & Hms' & Hmono' & Hseenf & Hclosed').
        { pose proof (unseen_nb_mono A a1 s Hmono). lia. }
        exists s'. split; [reflexivity|]. split; [exact Hms'|].
        split; [auto|]. split.
        -- intros c t Hc Hct. destruct (decide (c = i)) as [-> | Hci].
           ++ rewrite Hstep in Hct. injection Hct as <-. exact Hseenf.
           ++ apply Hmono'; [|apply (Hdone c t); [lia | exact Hct]].
              destruct (step_in_range A e c t Ha He Hct). lia.
        -- intros x Hx Hsx Hnx. destruct (decide (seen s x)) as [Hold | Hnew].
           ++ destruct (Hclosed x Hx Hold Hnx) as [Hfx Hcx]. split; [exact Hfx|].
              intros c t Hct. apply Hmono'; [|apply (Hcx c t Hct)].
              destruct (step_in_range A x c t Ha Hx Hct). lia.
           ++ destruct (Hclosed' x Hx Hsx Hnew) as [[w Hw] Hcx]. split; [|exact Hcx].
              exists (i :: w). simpl. rewrite Hstep. exact Hw.
      * exists s. split; [reflexivity|]. split; [exact Hms|]. split; [exact Hmono|].
        split; [|exact Hclosed].
        intros c t Hc Hct. destruct (decide (c = i)) as [-> | Hci].
        -- rewrite Hstep in Hct. injection Hct as <-. exact Hsf.
        -- apply (Hdone c t); [lia | exact Hct].
  - exists s. split; [reflexivity|]. split; [exact Hms|]. split; [auto|].
    split; [apply Hmono; assumption|].
    intros x Hx Hsx Hnx. destruct (decide (seen a1 x)) as [H1 | H1].
    + assert (x = e) as -> by (apply Hnew1; assumption).
      split; [exists []; reflexivity|].
      intros c t Hct. destruct (step_in_range A e c t Ha He Hct) as [_ Hc].
      apply (Hdone c t); [lia | exact Hct].
    + apply Hclosed; assumption.
Qed.

(** The first step of [emondeI] marks the states that the initial state
    reaches. *)
Lemma emondeI_marks :
  ∃ a1, (if decide (a_i A ≠ -1)
         then emondeI_rec (S (Z.to_nat (a_n A))) A (a_i A) else Ok A) = Ok a1
        ∧ marking A a1
        ∧ ∀ s, 0 ≤ s < a_n A → seen a1 s ↔ reachable A s.
Proof.
  pose proof (wf_i A HA) as Hi. pose proof (wf_n A HA) as Hn.
  destruct (decide (a_i A ≠ -1)) as [Hsome | Hnone].
  - assert (0 ≤ a_i A < a_n A) as Hi0 by lia.
    destruct (emondeI_rec_spec (S (Z.to_nat (a_n A))) A (a_i A))
      as (a1 & -> & Hm1 & Hmono & Hseen & Hclosed).
    { apply marking_refl, HA. }
    { exact Hi0. }
    { apply not_seen_A; assumption. }
    { pose proof (unseen_nb_le A A). lia. }
    exists a1. split; [reflexivity|]. split; [exact Hm1|].
    intros s Hs. split.
    + intros Hss. split; [exact Hsome|].
      apply (Hclosed s Hs Hss), not_seen_A; assumption.
    + intros [_ [w Hw]]. revert Hw.
      assert (∀ w x, 0 ≤ x < a_n A → seen a1 x → run A x w = Some s → seen a1 s)
        as Hall; [|apply Hall; assumption].
      clear w. induction w as [|c w IH]; intros x Hx Hsx Hrun; simpl in Hrun.
      * injection Hrun as <-. exact Hsx.
      * destruct (step A x c) as [t|] eqn:Hst; [|discriminate].
        destruct (step_in_range A x c t Ha Hx Hst) as [Ht _].
        apply (IH t Ht); [|exact Hrun].
        apply (proj2 (Hclosed x Hx Hsx (not_seen_A A HA x Hx)) c t Hst).
  - exists A. split; [reflexivity|]. split; [apply marking_refl, HA|].
    intros s Hs. split.
    + intros Hss. exfalso. exact (not_seen_A A HA s Hs Hss).
    + intros [Hsome _]. contradiction.
Qed.

(** The second step numbers the marked states in their order and gives the
    others [-1]; as long as every state is marked, a state keeps its
    number. *)
Definition numbered (a1 : Automaton) (i : Z) (l : list Z) (cpt : Z) : Prop :=
  len l = a_n A ∧ 0 ≤ cpt ≤ i
  ∧ (∀ j, 0 ≤ j < i → seen a1 j → 0 ≤ sel l j < cpt)
  ∧ (∀ j, 0 ≤ j < i → ¬ seen a1 j → sel l j = -1)
  ∧ (∀ j, 0 ≤ j ≤ i → (∀ k, 0 ≤ k < j → seen a1 k) →
          (j = i → cpt = i) ∧ (j < i → seen a1 j → sel l j = j)).

Lemma emondeI_numbers a1 :
  marking A a1 →
  ∃ l cpt,
    for_ (seqZ 0 (a_n A)) (λ i '(l, cpt),
        fin ← rd_final (a_e a1) i;
        if decide (Z.land fin 2 ≠ 0)
        then l ← wr l i cpt; Ok (l, cpt + 1)
        else l ← wr l i (-1); Ok (l, cpt))
      (replicate (Z.to_nat (a_n A)) UNINIT, 0) = Ok (l, cpt)
    ∧ numbered a1 (a_n A) l cpt.
Proof.
  intros Hm. pose proof (wf_n A HA) as Hn.
  assert (0 ≤ a_n A) as Hn0 by lia.
  match goal with |- context [for_ _ ?b _] => set (body := b) end.
  destruct (for_seqZ_inv (λ i st, numbered a1 i st.1 st.2) body 0 (a_n A)
              (replicate (Z.to_nat (a_n A)) UNINIT, 0))
    as ([l cpt] & Hrun & Hnum); [lia| | |].
  - cbn [fst snd]. split; [rewrite length_replicate; lia|]. split; [lia|].
    split; [intros; lia|]. split; [intros; lia|].
    intros j Hj _. split; [lia | intros; lia].
  - intros i [l cpt] Hi (Hlen & Hcpt & Hs & Hns & Hid). cbn [fst snd] in *.
    unfold body. rewrite (marking_rd_final A a1 i Hm) by lia. rewrite Ok_bind.
    destruct (decide (Z.land (e_final (sel (a_e a1) i)) 2 ≠ 0)) as [Hsi | Hsi].
    + rewrite bind_wr by lia. eexists. split; [reflexivity|]. cbn [fst snd].
      split; [rewrite length_upd; exact Hlen|]. split; [lia|].
      split; [|split].
      * intros j Hj Hsj. rewrite sel_upd by lia.
        destruct (decide (j = i)) as [-> | Hji]; [lia|].
        pose proof (Hs j ltac:(lia) Hsj). lia.
      * intros j Hj Hsj. rewrite sel_upd by lia.
        destruct (decide (j = i)) as [-> | Hji]; [contradiction|].
        apply Hns; [lia | exact Hsj].
      * intros j Hj Hall. split.
        -- intros ->. destruct (Hid i ltac:(lia)) as [Hc _].
           { intros k Hk. apply Hall. lia. }
           rewrite (Hc eq_refl). reflexivity.
        -- intros Hlt Hsj. rewrite sel_upd by lia.
           destruct (decide (j = i)) as [-> | Hji].
           ++ destruct (Hid i ltac:(lia) Hall) as [Hc _]. apply Hc. reflexivity.
           ++ destruct (Hid j ltac:(lia) Hall) as [_ Hc]. apply Hc; [lia | exact Hsj].
    + rewrite bind_wr by lia. eexists. split; [reflexivity|]. cbn [fst snd].
      assert (¬ seen a1 i) as Hnsi by exact Hsi.
      split; [rewrite length_upd; exact Hlen|]. split; [lia|].
      split; [|split].
      * intros j Hj Hsj. rewrite sel_upd by lia.
        destruct (decide (j = i)) as [-> | Hji]; [contradiction|].
        apply Hs; [lia | exact Hsj].
      * intros j Hj Hsj. rewrite sel_upd by lia.
        destruct (decide (j = i)) as [-> | Hji]; [reflexivity|].
        apply Hns; [lia | exact Hsj].
      * intros j Hj Hall. split.
        -- intros ->. exfalso. apply Hnsi, Hall. lia.
        -- intros Hlt Hsj. rewrite sel_upd by lia.
           destruct (decide (j = i)) as [-> | Hji]; [contradiction|].
           destruct (Hid j ltac:(lia) Hall) as [_ Hc]. apply Hc; [lia | exact Hsj].
  - exists l, cpt. split; [exact Hrun | exact Hnum].
Qed.

(** The third step builds the rows of the result: the row [l[i]] for each
    state [i] that has a number.  When every state is marked, it is the row
    of [i]. *)
Lemma emondeI_rows a1 l cpt :
  marking A a1 → numbered a1 (a_n A) l cpt →
  ∃ res,
    for_ (seqZ 0 (a_n A)) (λ i res,
        li ← rd l i;
        if decide (li = -1) then Ok res
        else
          for_ (seqZ 0 (a_na A)) (λ j res,
            f ← rd_f (a_e a1) i j;
            res ← wr_f res li j (-1);
            if decide (f = -1) then Ok res
            else
              lf ← rd l f;
              if decide (lf ≠ -1) then wr_f res li j lf else Ok res) res)
      (a_e (NewAutomaton cpt (a_na A))) = Ok res
    ∧ len res = cpt
    ∧ (∀ k, 0 ≤ k < cpt → len (e_f (sel res k)) = a_na A)
    ∧ ((∀ s, 0 ≤ s < a_n A → seen a1 s) →
       ∀ s, 0 ≤ s < a_n A → e_f (sel res s) = e_f (sel (a_e A) s)).
Proof.
  intros Hm (Hlen & Hcpt & Hs & Hns & Hid). pose proof (wf_n A HA) as Hn.
  pose proof (wa_na A Ha) as Hna.
  assert (∀ s, 0 ≤ s < a_n A → sel l s ≠ -1 → 0 ≤ sel l s < cpt) as Hrange.
  { intros s Hs0 Hne. destruct (decide (seen a1 s)) as [H | H]; [apply Hs; assumption|].
    exfalso. apply Hne, Hns; assumption. }
  assert ((∀ s, 0 ≤ s < a_n A → seen a1 s) → ∀ s, 0 ≤ s < a_n A → sel l s = s) as Hsame.
  { intros Hall s Hs0. destruct (Hid s ltac:(lia)) as [_ H].
    - intros k Hk. apply Hall. lia.
    - apply H; [lia|]. apply Hall, Hs0. }
  match goal with |- context [for_ _ ?b _] => set (body := b) end.
  destruct (for_seqZ_inv
    (λ i res, len res = cpt
              ∧ (∀ k, 0 ≤ k < cpt → len (e_f (sel res k)) = a_na A)
              ∧ ((∀ s, 0 ≤ s < a_n A → seen a1 s) →
                 ∀ s, 0 ≤ s < i → e_f (sel res s) = e_f (sel (a_e A) s)))
    body 0 (a_n A) (a_e (NewAutomaton cpt (a_na A))))
    as (res & Hrun & Hl & Hrows & Hcont); [lia| | |].
  - split; [apply fresh_len; lia|]. split; [|intros; lia].
    intros k Hk. rewrite fresh_rows by exact Hk. unfold fresh_row. cbn [e_f].
    rewrite length_replicate. lia.
  - intros i res Hi (Hl & Hrows & Hcont). unfold body.
    rewrite bind_rd by lia.
    destruct (decide (sel l i = -1)) as [Hli | Hli].
    + exists res. split; [reflexivity|]. split; [exact Hl|]. split; [exact Hrows|].
      intros Hall s Hs0. destruct (decide (s = i)) as [-> | Hsi].
      * exfalso. rewrite (Hsame Hall i) in Hli by lia. lia.
      * apply Hcont; [exact Hall | lia].
    + pose proof (Hrange i ltac:(lia) Hli) as Hlir.
      set (li := sel l i) in *.
      match goal with |- context [for_ (seqZ 0 (a_na A)) ?b res] => set (inner := b) end.
      destruct (row_loop res li (a_na A) inner
        (λ j s, len (e_f s) = a_na A
                ∧ ((∀ s, 0 ≤ s < a_n A → seen a1 s) →
                   ∀ c, 0 ≤ c < j → sel (e_f s) c = sel (e_f (sel (a_e A) i)) c)))
        as (s' & -> & Hs'len & Hs'cont).
      * lia.
      * exact Hna.
      * split; [apply Hrows; lia | intros; lia].
      * intros j s Hj [Hslen Hscont]. unfold inner.
        rewrite (marking_rd_f A HA a1 i j Hm) by lia.
        rewrite (wf_alloc_rd_f A Ha) by lia. rewrite Ok_bind.
        rewrite wr_f_row by lia. rewrite Ok_bind.
        pose proof (wa_tgt A Ha i j ltac:(lia) ltac:(lia)) as Htgt.
        set (f := sel (e_f (sel (a_e A) i)) j) in *.
        destruct (decide (f = -1)) as [Hf | Hf].
        -- eexists. split; [reflexivity|]. cbn [e_f]. split; [rewrite length_upd; exact Hslen|].
           intros Hall c Hc. rewrite sel_upd by lia.
           destruct (decide (c = j)) as [-> | Hcj]; [symmetry; exact Hf|].
           apply Hscont; [exact Hall | lia].
        -- rewrite bind_rd by lia.
           destruct (decide (sel l f ≠ -1)) as [Hlf | Hlf].
           ++ rewrite wr_f_row by (cbn [e_f]; rewrite ?length_upd; lia).
              eexists. split; [reflexivity|]. cbn [e_f].
              split; [rewrite !length_upd; exact Hslen|].
              intros Hall c Hc. rewrite sel_upd by (rewrite ?length_upd; lia).
              destruct (decide (c = j)) as [-> | Hcj]; [apply Hsame; [exact Hall | lia]|].
              rewrite sel_upd_ne by lia. apply Hscont; [exact Hall | lia].
           ++ eexists. split; [reflexivity|]. cbn [e_f].
              split; [rewrite length_upd; exact Hslen|].
              intros Hall c Hc. exfalso. apply Hlf.
              rewrite (Hsame Hall f) by lia. lia.
      * eexists. split; [reflexivity|]. split; [rewrite length_upd; exact Hl|].
        split.
        -- intros k Hk. rewrite sel_upd by lia.
           destruct (decide (k = li)) as [-> | Hkl]; [exact Hs'len | apply Hrows, Hk].
        -- intros Hall s Hs0. assert (li = i) as Hlii by (apply Hsame; [exact Hall | lia]).
           rewrite sel_upd by lia. destruct (decide (s = li)) as [-> | Hsl].
           ++ rewrite Hlii. apply list_eq_sel.
              ** rewrite Hs'len. symmetry. apply (wa_row A Ha). lia.
              ** intros c Hc. apply Hs'cont; [exact Hall | lia].
           ++ apply Hcont; [exact Hall | lia].
  - exists res. split; [exact Hrun|]. split; [exact Hl|]. split; [exact Hrows|].
    intros Hall s Hs0. apply Hcont; [exact Hall | lia].
Qed.

(** The last step, over the states below [m], all marked: the flags of
    these states are those of [A] again and have been copied. *)
Lemma emondeI_flags a1 l cpt res0 m :
  marking A a1 → numbered a1 (a_n A) l cpt → len res0 = cpt →
  0 ≤ m ≤ a_n A → (∀ s, 0 ≤ s < m → seen a1 s) →
  ∃ es res,
    for_ (seqZ 0 m) (λ i '(es, res),
        fin ← rd_final es i;
        es ← wr_final es i (Z.land fin 1);
        li ← rd l i;
        fin ← rd_final es i;
        res ← wr_final res li fin;
        Ok (es, res))
      (a_e a1, res0) = Ok (es, res)
    ∧ len es = a_n A
    ∧ len res = cpt
    ∧ (∀ k, 0 ≤ k < m →
         sel res k = mkEtat (e_f (sel res0 k)) (e_final (sel (a_e A) k))).
Proof.
  intros Hm (Hlen & Hcpt & Hs & Hns & Hid) Hres0 Hm0 Hall.
  assert (∀ s, 0 ≤ s < m → sel l s = s) as Hsame.
  { intros s Hs0. destruct (Hid s ltac:(lia)) as [_ H].
    - intros k Hk. apply Hall. lia.
    - apply H; [lia|]. apply Hall, Hs0. }
  match goal with |- context [for_ _ ?b _] => set (body := b) end.
  destruct (for_seqZ_inv
    (λ i st, len st.1 = a_n A
             ∧ (∀ k, i ≤ k < a_n A → sel st.1 k = sel (a_e a1) k)
             ∧ len st.2 = cpt
             ∧ (∀ k, 0 ≤ k < i →
                  sel st.2 k = mkEtat (e_f (sel res0 k)) (e_final (sel (a_e A) k)))
             ∧ (∀ k, i ≤ k → sel st.2 k = sel res0 k))
    body 0 m (a_e a1, res0))
    as ([es res] & Hrun & Hl & _ & Hrl & Hcont & _); [lia| | |].
  - cbn [fst snd]. split; [apply (mk_len A a1 Hm)|]. split; [auto|].
    split; [exact Hres0|]. split; [intros; lia | auto].
  - intros i [es res] Hi (Hl & Hrest & Hrl & Hcont & Hlater). cbn [fst snd] in *.
    unfold body. cbv beta iota. unfold rd_final. rewrite bind_rd by lia. rewrite Ok_bind.
    rewrite wr_final_upd by lia. rewrite Ok_bind.
    rewrite bind_rd by lia. rewrite (Hsame i) by lia.
    rewrite bind_rd by (rewrite length_upd; lia). rewrite Ok_bind.
    rewrite sel_upd_eq by lia. cbn [e_final].
    pose proof (Hs i ltac:(lia) (Hall i ltac:(lia))) as Hir. rewrite (Hsame i) in Hir by lia.
    rewrite wr_final_upd by lia. rewrite Ok_bind.
    eexists. split; [reflexivity|]. cbn [fst snd].
    split; [rewrite length_upd; exact Hl|].
    split; [intros k Hk; rewrite sel_upd_ne by lia; apply Hrest; lia|].
    split; [rewrite length_upd; exact Hrl|]. split.
    + intros k Hk. rewrite sel_upd by lia.
      destruct (decide (k = i)) as [-> | Hki]; [|apply Hcont; lia].
      rewrite Hlater by lia. f_equal. rewrite Hrest by lia.
      assert (0 ≤ i < a_n A) as Hi' by lia. assert (0 ≤ i < m) as Him by lia.
      rewrite (proj1 (seen_flag A HA a1 i Hm Hi') (Hall i Him)).
      destruct (wa_fin A Ha i ltac:(lia)) as [-> | ->]; reflexivity.
    + intros k Hk. rewrite sel_upd_ne by lia. apply Hlater. lia.
  - exists es, res. split; [exact Hrun|]. cbn [fst snd] in *. auto.
Qed.
End emondeI_facts.

(** The least number below [n] that fails a test. *)
Lemma least_failure (P : Z → Prop) `{∀ x, Decision (P x)} n :
  0 ≤ n → (∀ k, 0 ≤ k < n → P k)
          ∨ ∃ i, 0 ≤ i < n ∧ ¬ P i ∧ ∀ k, 0 ≤ k < i → P k.
Proof.
  revert n. apply (natlike_ind (λ n, _)).
  - left. intros; lia.
  - intros n Hn [Hall | (i & Hi & Hni & Hlow)].
    + destruct (decide (P n)) as [Hp | Hp].
      * left. intros k Hk. destruct (decide (k = n)) as [-> | Hkn]; [exact Hp|].
        apply Hall. lia.
      * right. exists n. split; [lia|]. split; [exact Hp|]. exact Hall.
    + right. exists i. split; [lia|]. auto.
Qed.

(** X21.  An automaton whose states are all reachable from the initial state is
    returned as it is, and the argument is left as it was. *)
Theorem emondeI_all_reachable (A : Automaton) :
  wf A → (∀ s, 0 ≤ s < a_n A → reachable A s) → emondeI A = Ok (A, A).
Proof.
  intros HA Hreach. pose proof (wf_wf_alloc A HA) as Ha.
  pose proof (wf_n A HA) as Hn. pose proof (wf_i A HA) as Hi.
  assert (∃ a', emondeI A = Ok (a', A)) as [a' Hrun].
  { unfold emondeI.
    destruct (emondeI_marks A HA) as (a1 & -> & Hm & Hseen). rewrite Ok_bind.
    assert (∀ s, 0 ≤ s < a_n A → seen a1 s) as Hall
      by (intros s Hs; apply Hseen; auto).
    rewrite (mk_n A a1 Hm), (mk_na A a1 Hm), (mk_i A a1 Hm).
    destruct (emondeI_numbers A HA a1 Hm) as (l & cpt & -> & Hnum). rewrite Ok_bind.
    cbv zeta.
    destruct (emondeI_rows A HA a1 l cpt Hm Hnum) as (res & -> & Hl & Hrows & Hcont).
    rewrite Ok_bind.
    destruct (emondeI_flags A HA a1 l cpt res (a_n A) Hm Hnum Hl ltac:(lia) Hall)
      as (es & res' & -> & Hesl & Hresl & Hres'). rewrite Ok_bind.
    destruct Hnum as (Hlen & Hcpt & Hs & Hns & Hid).
    assert (cpt = a_n A) as ->.
    { destruct (Hid (a_n A) ltac:(lia)) as [H _]; [exact Hall | apply H; reflexivity]. }
    assert (res' = a_e A) as ->.
    { apply list_eq_sel; [lia|]. intros k Hk. rewrite Hres' by lia.
      rewrite (Hcont Hall) by lia. destruct (sel (a_e A) k); reflexivity. }
    rewrite NewAutomaton_n, NewAutomaton_na.
    destruct (decide (a_i A ≠ -1)) as [Hsome | Hnone].
    - rewrite bind_rd by lia.
      destruct (Hid (a_i A) ltac:(lia)) as [_ H]; [intros k Hk; apply Hall; lia|].
      rewrite H by (try apply Hall; lia).
      eexists. f_equal. f_equal. destruct A; reflexivity.
    - rewrite Ok_bind. eexists. f_equal. f_equal.
      assert (a_i A = -1) as Hm1 by (destruct (decide (a_i A = -1)); [assumption | contradiction]).
      rewrite <- Hm1. destruct A; reflexivity. }
  rewrite Hrun. f_equal. f_equal. apply (emondeI_frame A HA a' A Hrun).
Qed.

Lemma emondeI_all_reachable_witness :
  wf all_reachable
  ∧ (∀ s, 0 ≤ s < a_n all_reachable → reachable all_reachable s)
  ∧ emondeI all_reachable = Ok (all_reachable, all_reachable).
Proof.
  assert (wf all_reachable) as HA by (apply wfb_wf; reflexivity).
  assert (∀ s, 0 ≤ s < a_n all_reachable → reachable all_reachable s) as Hr.
  { intros s Hs. split; [discriminate|]. change (a_n all_reachable) with 2 in Hs.
    destruct (decide (s = 0)) as [-> | H0]; [exists []; reflexivity|].
    assert (s = 1) as -> by lia. exists [0]. reflexivity. }
  split; [exact HA|]. split; [exact Hr|].
  exact (emondeI_all_reachable all_reachable HA Hr).
Defined.

(** X22.  With a state that the initial state does not reach, [emondeI] writes
    outside the result: the last loop stores the flag of this state in the
    row [-1]. *)
Theorem emondeI_unreachable (A : Automaton) (s : Z) :
  wf A → 0 ≤ s < a_n A → ¬ reachable A s → emondeI A = OutOfBounds.
Proof.
  intros HA Hs Hnr. pose proof (wf_wf_alloc A HA) as Ha.
  pose proof (wf_n A HA) as Hn.
  unfold emondeI.
  destruct (emondeI_marks A HA) as (a1 & -> & Hm & Hseen). rewrite Ok_bind.
  rewrite (mk_n A a1 Hm), (mk_na A a1 Hm), (mk_i A a1 Hm).
  destruct (emondeI_numbers A HA a1 Hm) as (l & cpt & -> & Hnum). rewrite Ok_bind.
  cbv zeta.
  destruct (emondeI_rows A HA a1 l cpt Hm Hnum) as (res & -> & Hl & Hrows & _).
  rewrite Ok_bind.
  destruct (least_failure (seen a1) (a_n A) ltac:(lia)) as [Hall | (i & Hi & Hni & Hlow)].
  { exfalso. apply Hnr, Hseen; [exact Hs | apply Hall, Hs]. }
  replace (a_n A) with (i + (a_n A - i)) at 1 by lia.
  rewrite seqZ_app by lia. rewrite for_app. rewrite Z.add_0_l.
  destruct (emondeI_flags A HA a1 l cpt res i Hm Hnum Hl ltac:(lia) Hlow)
    as (es & res' & -> & Hesl & Hresl & _). rewrite Ok_bind.
  rewrite seqZ_cons by lia. cbn [for_].
  unfold rd_final. rewrite bind_rd by lia. rewrite Ok_bind.
  rewrite wr_final_upd by lia. rewrite Ok_bind.
  destruct Hnum as (Hlen & Hcpt & Hsn & Hns & Hid).
  rewrite bind_rd by lia. rewrite (Hns i) by (try exact Hni; lia).
  rewrite bind_rd by (rewrite length_upd; lia). rewrite Ok_bind.
  unfold wr_final. rewrite (rd_neg res' (-1)) by lia. reflexivity.
Qed.

Lemma emondeI_unreachable_witness :
  wf unreachable_state ∧ 0 ≤ 1 < a_n unreachable_state
  ∧ ¬ reachable unreachable_state 1
  ∧ emondeI unreachable_state = OutOfBounds.
Proof.
  assert (wf unreachable_state) as HA by (apply wfb_wf; reflexivity).
  assert (0 ≤ 1 < a_n unreachable_state) as Hs by (simpl; lia).
  assert (¬ reachable unreachable_state 1) as Hnr.
  { intros [_ [w Hw]].
    assert (∀ w, run unreachable_state 0 w ≠ Some 1) as H; [|exact (H w Hw)].
    clear. induction w as [|c w IH]; [discriminate|]. cbn [run].
    destruct (step unreachable_state 0 c) as [t|] eqn:Hst; [|discriminate].
    destruct (step_in_range unreachable_state 0 c t) as [_ Hc];
      [apply wf_wf_alloc, wfb_wf; reflexivity | simpl; lia | exact Hst |].
    assert (c = 0) as -> by (simpl in Hc; lia).
    injection Hst as <-. exact IH. }
  split; [exact HA|]. split; [exact Hs|]. split; [exact Hnr|].
  exact (emondeI_unreachable unreachable_state 1 HA Hs Hnr).
Defined.

(** ** [Product] *)

Lemma contract_range i j m k :
  0 ≤ i < m → 0 ≤ j < k → 0 ≤ contract i j m < m * k.
Proof. unfold contract. intros Hi Hj. nia. Qed.

Lemma contract_inj i j i' j' m :
  0 ≤ i < m → 0 ≤ i' < m → contract i j m = contract i' j' m → i = i' ∧ j = j'.
Proof.
  unfold contract. intros Hi Hi' H.
  assert (j = j') as -> by nia. split; [lia | reflexivity].
Qed.

Lemma geti1_contract i j m : 0 ≤ i < m → 0 ≤ j → geti1 (contract i j m) m = i.
Proof.
  intros Hi Hj. unfold geti1, contract. rewrite Z.rem_mod_nonneg by nia.
  rewrite Z.mul_comm, Z_mod_plus_full. apply Z.mod_small, Hi.
Qed.

Lemma geti2_contract i j m : 0 ≤ i < m → 0 ≤ j → geti2 (contract i j m) m = j.
Proof.
  intros Hi Hj. unfold geti2, contract. rewrite Z.quot_div_nonneg by nia.
  rewrite Z.mul_comm, Z_div_plus_full by lia. rewrite Z.div_small by exact Hi. lia.
Qed.

(** The state of the product that a pair of states leads to on a pair of
    letters. *)
Definition pair_target (a1 a2 : Automaton) (s1 s2 i j : Z) : Z :=
  let e1 := sel (e_f (sel (a_e a1) s1)) i in
  let e2 := sel (e_f (sel (a_e a2) s2)) j in
  if decide (e1 < 0 ∨ e2 < 0) then -1 else contract e1 e2 (a_n a1).

(** The letter of the product that stands for a pair of letters. *)
Definition pair_letter (a1 : Automaton) (d : Dict) (i j : Z) : Z :=
  sel d (contract i j (a_na a1)).

(** [Product_rec] marks the states that it visits with the flag 1. *)
Definition visited (r : list Etat) (s : Z) : Prop := e_final (sel r s) ≠ 0.

Section Product_facts.
Context (a1 a2 : Automaton) (d : Dict).
Context (H1 : wf a1) (H2 : wf a2).
Context (Hd : a_na a1 * a_na a2 ≤ len d).
Context (Hdr : ∀ k, 0 ≤ k < a_na a1 * a_na a2 → -1 ≤ sel d k).
Context (Hinj : ∀ k k', 0 ≤ k < a_na a1 * a_na a2 → 0 ≤ k' < a_na a1 * a_na a2 →
                        sel d k = sel d k' → sel d k ≠ -1 → k = k').
Let Ha1 : wf_alloc a1 := wf_wf_alloc a1 H1.
Let Ha2 : wf_alloc a2 := wf_wf_alloc a2 H2.
Let n : Z := a_n a1 * a_n a2.
Let na : Z := values d.

(** The table under construction. *)
Record grid (r : list Etat) : Prop := mkgrid
  { gr_len : len r = n;
    gr_row : ∀ s, 0 ≤ s < n → len (e_f (sel r s)) = na;
    gr_tgt : ∀ s c, 0 ≤ s < n → 0 ≤ c < na → -1 ≤ sel (e_f (sel r s)) c < n;
    gr_fresh : ∀ s c, 0 ≤ s < n → ¬ visited r s → 0 ≤ c < na →
                      sel (e_f (sel r s)) c = -1;
    gr_image : ∀ s c, 0 ≤ s < n → 0 ≤ c < na → sel (e_f (sel r s)) c ≠ -1 →
                      ∃ i j, 0 ≤ i < a_na a1 ∧ 0 ≤ j < a_na a2
                             ∧ c = pair_letter a1 d i j }.

Definition unvisited_nb (r : list Etat) : nat :=
  length (filter (λ s, ¬ visited r s) (seqZ 0 n)).

(** The row of the pair [(s1, s2)] is written and leads to visited states. *)
Definition row_done (r : list Etat) (s1 s2 : Z) : Prop :=
  ∀ i j, 0 ≤ i < a_na a1 → 0 ≤ j < a_na a2 → pair_letter a1 d i j ≠ -1 →
    sel (e_f (sel r (contract s1 s2 (a_n a1)))) (pair_letter a1 d i j)
    = pair_target a1 a2 s1 s2 i j
    ∧ (pair_target a1 a2 s1 s2 i j ≠ -1 → visited r (pair_target a1 a2 s1 s2 i j)).

Lemma pair_letter_range i j :
  0 ≤ i < a_na a1 → 0 ≤ j < a_na a2 → pair_letter a1 d i j ≠ -1 →
  0 ≤ pair_letter a1 d i j < na.
Proof.
  intros Hi Hj Hne. unfold pair_letter in *.
  pose proof (contract_range i j (a_na a1) (a_na a2) Hi Hj) as Hc.
  pose proof (Hdr _ Hc). split; [lia|]. apply values_above.
  apply sel_elem_of. exists (contract i j (a_na a1)). split; [lia | reflexivity].
Qed.

Lemma pair_letter_inj i j i' j' :
  0 ≤ i < a_na a1 → 0 ≤ j < a_na a2 → 0 ≤ i' < a_na a1 → 0 ≤ j' < a_na a2 →
  pair_letter a1 d i j = pair_letter a1 d i' j' → pair_letter a1 d i j ≠ -1 →
  i = i' ∧ j = j'.
Proof.
  intros Hi Hj Hi' Hj' Heq Hne. unfold pair_letter in *.
  apply (contract_inj i j i' j' (a_na a1) Hi Hi').
  apply Hinj; try assumption; apply contract_range; assumption.
Qed.

Lemma pair_target_range s1 s2 i j :
  0 ≤ s1 < a_n a1 → 0 ≤ s2 < a_n a2 → 0 ≤ i < a_na a1 → 0 ≤ j < a_na a2 →
  pair_target a1 a2 s1 s2 i j = -1
  ∨ ∃ e1 e2, 0 ≤ e1 < a_n a1 ∧ 0 ≤ e2 < a_n a2
             ∧ e1 = sel (e_f (sel (a_e a1) s1)) i
             ∧ e2 = sel (e_f (sel (a_e a2) s2)) j
             ∧ pair_target a1 a2 s1 s2 i j = contract e1 e2 (a_n a1).
Proof.
  intros Hs1 Hs2 Hi Hj. unfold pair_target. cbv zeta.
  pose proof (wa_tgt a1 Ha1 s1 i Hs1 Hi). pose proof (wa_tgt a2 Ha2 s2 j Hs2 Hj).
  destruct (decide (_ ∨ _)) as [Hneg | Hpos]; [left; reflexivity|].
  right. eexists _, _. split; [|split; [|split; [reflexivity|split; reflexivity]]]; lia.
Qed.

Lemma unvisited_nb_le r : (unvisited_nb r ≤ Z.to_nat n)%nat.
Proof.
  unfold unvisited_nb. etransitivity; [apply length_filter|]. rewrite length_seqZ. lia.
Qed.

Lemma unvisited_nb_mono r r' :
  (∀ s, 0 ≤ s < n → visited r s → visited r' s) →
  (unvisited_nb r' ≤ unvisited_nb r)%nat.
Proof.
  intros Hmono. apply filter_length_mono.
  intros s Hs%elem_of_seqZ Hn Hseen. apply Hn, Hmono; [lia | exact Hseen].
Qed.

Lemma unvisited_nb_lt r r' e :
  (∀ s, 0 ≤ s < n → visited r s → visited r' s) →
  0 ≤ e < n → ¬ visited r e → visited r' e →
  (unvisited_nb r' < unvisited_nb r)%nat.
Proof.
  intros Hmono He Hne Hse. apply (filter_length_lt _ _ _ e).
  - intros s Hs%elem_of_seqZ Hn Hseen. apply Hn, Hmono; [lia | exact Hseen].
  - apply elem_of_seqZ. lia.
  - exact Hne.
  - intros H. apply H, Hse.
Qed.

Lemma row_done_mono r r' s1 s2 :
  0 ≤ s1 < a_n a1 → 0 ≤ s2 < a_n a2 →
  sel r' (contract s1 s2 (a_n a1)) = sel r (contract s1 s2 (a_n a1)) →
  (∀ s, 0 ≤ s < n → visited r s → visited r' s) →
  row_done r s1 s2 → row_done r' s1 s2.
Proof.
  intros Hs1 Hs2 Hrow Hmono Hdone i j Hi Hj Hne.
  destruct (Hdone i j Hi Hj Hne) as [Hcell Hvis]. rewrite Hrow.
  split; [exact Hcell|]. intros Ht. apply Hmono; [|apply Hvis, Ht].
  destruct (pair_target_range s1 s2 i j Hs1 Hs2 Hi Hj)
    as [Hm1 | (e1 & e2 & He1 & He2 & _ & _ & ->)]; [contradiction|].
  apply contract_range; assumption.
Qed.

(** The pairs of letters that the loops of a call have handled when they
    reach the pair [(i, j)]. *)
Definition before (i j i' j' : Z) : Prop := i' < i ∨ (i' = i ∧ j' < j).

(** The table [r] inside the call on the pair [(s1, s2)], entered with the
    table [r0], which became [r1] when the pair was marked: the cells of the
    pairs of letters before [(i, j)] are written, their targets before
    [(i, jc)] are visited. *)
Record rec_inv (r0 r1 : list Etat) (s1 s2 i j jc : Z) (r : list Etat) : Prop :=
  mkrec_inv
  { ri_grid : grid r;
    ri_frame : ∀ s, 0 ≤ s < n → visited r0 s → sel r s = sel r0 s;
    ri_mono : ∀ s, 0 ≤ s < n → visited r1 s → visited r s;
    ri_cells : ∀ i' j', 0 ≤ i' < a_na a1 → 0 ≤ j' < a_na a2 → before i j i' j' →
        pair_letter a1 d i' j' ≠ -1 →
        sel (e_f (sel r (contract s1 s2 (a_n a1)))) (pair_letter a1 d i' j')
        = pair_target a1 a2 s1 s2 i' j';
    ri_closed : ∀ i' j', 0 ≤ i' < a_na a1 → 0 ≤ j' < a_na a2 → before i jc i' j' →
        pair_letter a1 d i' j' ≠ -1 → pair_target a1 a2 s1 s2 i' j' ≠ -1 →
        visited r (pair_target a1 a2 s1 s2 i' j');
    ri_todo : ∀ i' j', 0 ≤ i' < a_na a1 → 0 ≤ j' < a_na a2 → ¬ before i j i' j' →
        pair_letter a1 d i' j' ≠ -1 →
        sel (e_f (sel r (contract s1 s2 (a_n a1)))) (pair_letter a1 d i' j') = -1;
    ri_others : ∀ t1 t2, 0 ≤ t1 < a_n a1 → 0 ≤ t2 < a_n a2 →
        visited r (contract t1 t2 (a_n a1)) → ¬ visited r0 (contract t1 t2 (a_n a1)) →
        contract t1 t2 (a_n a1) ≠ contract s1 s2 (a_n a1) → row_done r t1 t2 }.

Lemma rec_inv_ext r0 r1 s1 s2 i j jc i2 j2 jc2 r :
  (∀ i' j', 0 ≤ i' < a_na a1 → 0 ≤ j' < a_na a2 →
            (before i j i' j' ↔ before i2 j2 i' j')
            ∧ (before i2 jc2 i' j' → before i jc i' j')) →
  rec_inv r0 r1 s1 s2 i j jc r → rec_inv r0 r1 s1 s2 i2 j2 jc2 r.
Proof.
  intros Hb [Hg Hf Hm Hc Hcl Ht Ho]. split; try assumption.
  - intros i' j' Hi' Hj' Hbf. apply Hc; try assumption. apply (Hb i' j'); assumption.
  - intros i' j' Hi' Hj' Hbf. apply Hcl; try assumption. apply (Hb i' j'); assumption.
  - intros i' j' Hi' Hj' Hbf. apply Ht; try assumption.
    intros H. apply Hbf. apply (Hb i' j'); assumption.
Qed.

(** A pair of letters without a letter of the product. *)
Lemma rec_inv_skip r0 r1 s1 s2 i j r :
  rec_inv r0 r1 s1 s2 i j j r → pair_letter a1 d i j = -1 →
  rec_inv r0 r1 s1 s2 i (j + 1) (j + 1) r.
Proof.
  intros [Hg Hf Hm Hc Hcl Ht Ho] Hl. split; try assumption.
  - intros i' j' Hi' Hj' Hbf Hne. apply Hc; try assumption.
    destruct Hbf as [Hlt | [-> Hlt]]; [left; exact Hlt|].
    destruct (decide (j' = j)) as [-> | Hjj]; [contradiction|]. right. split; [reflexivity | lia].
  - intros i' j' Hi' Hj' Hbf Hne. apply Hcl; try assumption.
    destruct Hbf as [Hlt | [-> Hlt]]; [left; exact Hlt|].
    destruct (decide (j' = j)) as [-> | Hjj]; [contradiction|]. right. split; [reflexivity | lia].
  - intros i' j' Hi' Hj' Hbf. apply Ht; try assumption.
    intros [Hlt | [-> Hlt]]; apply Hbf; [left; exact Hlt | right; split; [reflexivity | lia]].
Qed.

(** The target of the pair [(i, j)] turns out to be visited. *)
Lemma rec_inv_close r0 r1 s1 s2 i j r :
  rec_inv r0 r1 s1 s2 i (j + 1) j r →
  (pair_target a1 a2 s1 s2 i j ≠ -1 → visited r (pair_target a1 a2 s1 s2 i j)) →
  rec_inv r0 r1 s1 s2 i (j + 1) (j + 1) r.
Proof.
  intros [Hg Hf Hm Hc Hcl Ht Ho] Hv. split; try assumption.
  intros i' j' Hi' Hj' Hbf Hne Htg.
  destruct Hbf as [Hlt | [-> Hlt]]; [apply Hcl; try assumption; left; exact Hlt|].
  destruct (decide (j' = j)) as [-> | Hjj]; [apply Hv, Htg|].
  apply Hcl; try assumption. right. split; [reflexivity | lia].
Qed.

(** The cell of the pair [(i, j)] is written. *)
Lemma rec_inv_write r0 r1 s1 s2 i j r :
  0 ≤ s1 < a_n a1 → 0 ≤ s2 < a_n a2 → 0 ≤ i < a_na a1 → 0 ≤ j < a_na a2 →
  visited r1 (contract s1 s2 (a_n a1)) → ¬ visited r0 (contract s1 s2 (a_n a1)) →
  rec_inv r0 r1 s1 s2 i j j r → pair_letter a1 d i j ≠ -1 →
  rec_inv r0 r1 s1 s2 i (j + 1) j
    (upd r (contract s1 s2 (a_n a1))
       (mkEtat (upd (e_f (sel r (contract s1 s2 (a_n a1)))) (pair_letter a1 d i j)
                    (pair_target a1 a2 s1 s2 i j))
               (e_final (sel r (contract s1 s2 (a_n a1)))))).
Proof.
  intros Hs1 Hs2 Hi Hj Hv1 Hv0 [Hg Hf Hm Hc Hcl Ht Ho] Hne.
  pose proof (contract_range s1 s2 (a_n a1) (a_n a2) Hs1 Hs2) as Hcur.
  set (cur := contract s1 s2 (a_n a1)) in *.
  pose proof (pair_letter_range i j Hi Hj Hne) as Hl.
  set (a := pair_letter a1 d i j) in *.
  set (v := pair_target a1 a2 s1 s2 i j).
  pose proof (gr_len r Hg) as Hlen. pose proof (gr_row r Hg cur Hcur) as Hrow.
  set (r' := upd r cur _).
  assert (sel r' cur = mkEtat (upd (e_f (sel r cur)) a v) (e_final (sel r cur))) as Hr'cur
    by (apply sel_upd_eq; lia).
  assert (∀ s, 0 ≤ s → s ≠ cur → sel r' s = sel r s) as Hr'oth
    by (intros s Hs Hsc; apply sel_upd_ne; lia).
  assert (∀ s, 0 ≤ s → visited r' s ↔ visited r s) as Hvis.
  { intros s Hs. unfold visited. destruct (decide (s = cur)) as [-> | Hsc].
    - rewrite Hr'cur. reflexivity.
    - rewrite Hr'oth by assumption. reflexivity. }
  assert (-1 ≤ v < n) as Hvr.
  { unfold v. destruct (pair_target_range s1 s2 i j Hs1 Hs2 Hi Hj)
      as [-> | (e1 & e2 & He1 & He2 & _ & _ & ->)]; [unfold n; lia|].
    pose proof (contract_range e1 e2 (a_n a1) (a_n a2) He1 He2). unfold n. lia. }
  assert (∀ i' j', 0 ≤ i' < a_na a1 → 0 ≤ j' < a_na a2 → pair_letter a1 d i' j' ≠ -1 →
            ¬ (i' = i ∧ j' = j) →
            sel (e_f (sel r' cur)) (pair_letter a1 d i' j')
            = sel (e_f (sel r cur)) (pair_letter a1 d i' j')) as Hkeep.
  { intros i' j' Hi' Hj' Hne' Hdiff. rewrite Hr'cur. cbn [e_f].
    pose proof (pair_letter_range i' j' Hi' Hj' Hne').
    apply sel_upd_ne; [lia | lia |].
    intros Heq. apply Hdiff. symmetry in Heq.
    destruct (pair_letter_inj i' j' i j Hi' Hj' Hi Hj Heq Hne'); auto. }
  split; fold cur.
  - split.
    + unfold r'. rewrite length_upd. exact Hlen.
    + intros s Hs. destruct (decide (s = cur)) as [-> | Hsc].
      * rewrite Hr'cur. cbn [e_f]. rewrite length_upd. exact Hrow.
      * rewrite Hr'oth by lia. apply (gr_row r Hg), Hs.
    + intros s c Hs Hc'. destruct (decide (s = cur)) as [-> | Hsc].
      * rewrite Hr'cur. cbn [e_f]. rewrite sel_upd by lia.
        destruct (decide (c = a)); [exact Hvr | apply (gr_tgt r Hg); assumption].
      * rewrite Hr'oth by lia. apply (gr_tgt r Hg); assumption.
    + intros s c Hs Hnv Hc'. destruct (decide (s = cur)) as [-> | Hsc].
      * exfalso. apply Hnv. apply Hvis; [lia|]. apply Hm; assumption.
      * rewrite Hr'oth by lia. apply (gr_fresh r Hg); try assumption.
        intros H. apply Hnv, Hvis; [lia | exact H].
    + intros s c Hs Hc' Hcell. destruct (decide (s = cur)) as [-> | Hsc].
      * rewrite Hr'cur in Hcell. cbn [e_f] in Hcell. rewrite sel_upd in Hcell by lia.
        destruct (decide (c = a)) as [-> | Hca];
          [exists i, j; auto | apply (gr_image r Hg cur); assumption].
      * rewrite Hr'oth in Hcell by lia. apply (gr_image r Hg s); assumption.
  - intros s Hs Hv. rewrite Hr'oth; [apply Hf; assumption | lia |].
    intros ->. contradiction.
  - intros s Hs Hv. apply Hvis; [lia|]. apply Hm; assumption.
  - intros i' j' Hi' Hj' Hbf Hne'.
    destruct (decide (i' = i ∧ j' = j)) as [[-> ->] | Hdiff].
    + rewrite Hr'cur. cbn [e_f]. apply sel_upd_eq. lia.
    + rewrite Hkeep by assumption. apply Hc; try assumption.
      destruct Hbf as [Hlt | [-> Hlt]]; [left; exact Hlt|].
      right. split; [reflexivity|]. destruct (decide (j' = j)) as [-> | Hjj]; [tauto | lia].
  - intros i' j' Hi' Hj' Hbf Hne' Htg. apply Hvis; [|apply Hcl; assumption].
    destruct (pair_target_range s1 s2 i' j' Hs1 Hs2 Hi' Hj')
      as [Hm1 | (e1 & e2 & He1 & He2 & _ & _ & ->)]; [contradiction|].
    pose proof (contract_range e1 e2 (a_n a1) (a_n a2) He1 He2). lia.
  - intros i' j' Hi' Hj' Hbf Hne'.
    assert (¬ (i' = i ∧ j' = j)) as Hdiff.
    { intros [-> ->]. apply Hbf. right. split; [reflexivity | lia]. }
    rewrite Hkeep by assumption. apply Ht; try assumption.
    intros [Hlt | [-> Hlt]]; apply Hbf; [left; exact Hlt | right; split; [reflexivity | lia]].
  - intros t1 t2 Ht1 Ht2 Hvt Hnv0 Hneq.
    pose proof (contract_range t1 t2 (a_n a1) (a_n a2) Ht1 Ht2) as Htr.
    apply (row_done_mono r r' t1 t2 Ht1 Ht2).
    + apply Hr'oth; [lia | exact Hneq].
    + intros s Hs Hv. apply Hvis; [lia | exact Hv].
    + apply Ho; try assumption. apply Hvis; [lia | exact Hvt].
Qed.

(** A call below has returned. *)
Lemma rec_inv_hold r0 r1 s1 s2 i j jc r r'' :
  0 ≤ s1 < a_n a1 → 0 ≤ s2 < a_n a2 → visited r1 (contract s1 s2 (a_n a1)) →
  rec_inv r0 r1 s1 s2 i j jc r → grid r'' →
  (∀ s, 0 ≤ s < n → visited r s → sel r'' s = sel r s) →
  (∀ t1 t2, 0 ≤ t1 < a_n a1 → 0 ≤ t2 < a_n a2 →
     visited r'' (contract t1 t2 (a_n a1)) → ¬ visited r (contract t1 t2 (a_n a1)) →
     row_done r'' t1 t2) →
  rec_inv r0 r1 s1 s2 i j jc r''.
Proof.
  intros Hs1 Hs2 Hv1 [Hg Hf Hm Hc Hcl Ht Ho] Hg'' Hfr Hnew.
  pose proof (contract_range s1 s2 (a_n a1) (a_n a2) Hs1 Hs2) as Hcur.
  assert (∀ s, 0 ≤ s < n → visited r s → visited r'' s) as Hmono.
  { intros s Hs Hv. unfold visited. rewrite Hfr by assumption. exact Hv. }
  assert (sel r'' (contract s1 s2 (a_n a1)) = sel r (contract s1 s2 (a_n a1))) as Hcurrow.
  { apply Hfr; [exact Hcur|]. apply Hm; assumption. }
  split.
  - exact Hg''.
  - intros s Hs Hv. rewrite <- (Hf s Hs Hv). apply Hfr; [exact Hs|].
    unfold visited. rewrite (Hf s Hs Hv). exact Hv.
  - intros s Hs Hv. apply Hmono; [exact Hs|]. apply Hm; assumption.
  - intros i' j' Hi' Hj' Hbf Hne. rewrite Hcurrow. apply Hc; assumption.
  - intros i' j' Hi' Hj' Hbf Hne Htg. apply Hmono; [|apply Hcl; assumption].
    destruct (pair_target_range s1 s2 i' j' Hs1 Hs2 Hi' Hj')
      as [Hm1 | (e1 & e2 & He1 & He2 & _ & _ & ->)]; [contradiction|].
    apply contract_range; assumption.
  - intros i' j' Hi' Hj' Hbf Hne. rewrite Hcurrow. apply Ht; assumption.
  - intros t1 t2 Ht1 Ht2 Hvt Hnv0 Hneq.
    pose proof (contract_range t1 t2 (a_n a1) (a_n a2) Ht1 Ht2) as Htr.
    destruct (decide (e_final (sel r (contract t1 t2 (a_n a1))) = 0)) as [Hz | Hnz].
    + apply Hnew; try assumption. intros H. apply H, Hz.
    + apply (row_done_mono r r'' t1 t2 Ht1 Ht2).
      * apply Hfr; [exact Htr | exact Hnz].
      * exact Hmono.
      * apply Ho; assumption.
Qed.

(** A call on an unvisited pair marks it; the rows of the pairs visited
    before are as they were, and the pairs newly visited have their rows. *)
Lemma Product_rec_spec fuel :
  ∀ r0 s1 s2, grid r0 → 0 ≤ s1 < a_n a1 → 0 ≤ s2 < a_n a2 →
    ¬ visited r0 (contract s1 s2 (a_n a1)) → (unvisited_nb r0 < fuel)%nat →
    ∃ r', Product_rec fuel r0 s1 s2 a1 a2 d = Ok r'
          ∧ grid r'
          ∧ (∀ s, 0 ≤ s < n → visited r0 s → sel r' s = sel r0 s)
          ∧ visited r' (contract s1 s2 (a_n a1))
          ∧ (∀ t1 t2, 0 ≤ t1 < a_n a1 → 0 ≤ t2 < a_n a2 →
               visited r' (contract t1 t2 (a_n a1)) →
               ¬ visited r0 (contract t1 t2 (a_n a1)) → row_done r' t1 t2).
Proof.
  induction fuel as [|fuel IH]; intros r0 s1 s2 Hg Hs1 Hs2 Hnv Hfuel; [lia|].
  cbn [Product_rec]. cbv zeta.
  pose proof (contract_range s1 s2 (a_n a1) (a_n a2) Hs1 Hs2) as Hcur.
  set (cur := contract s1 s2 (a_n a1)) in *.
  pose proof (gr_len r0 Hg) as Hlen0.
  rewrite wr_final_upd by (fold n in Hcur; lia). rewrite Ok_bind.
  set (r1 := upd r0 cur _).
  assert (sel r1 cur = mkEtat (e_f (sel r0 cur)) 1) as Hr1cur
    by (apply sel_upd_eq; fold n in Hcur; lia).
  assert (∀ s, 0 ≤ s → s ≠ cur → sel r1 s = sel r0 s) as Hr1oth
    by (intros s Hs Hsc; apply sel_upd_ne; lia).
  assert (visited r1 cur) as Hv1 by (unfold visited; rewrite Hr1cur; discriminate).
  assert (∀ s, 0 ≤ s < n → visited r0 s → visited r1 s) as Hmono1.
  { intros s Hs Hv. destruct (decide (s = cur)) as [-> | Hsc]; [exact Hv1|].
    unfold visited. rewrite Hr1oth by lia. exact Hv. }
  assert (unvisited_nb r1 < fuel)%nat as Hfuel1.
  { pose proof (unvisited_nb_lt r0 r1 cur Hmono1 Hcur Hnv Hv1). lia. }
  assert (rec_inv r0 r1 s1 s2 0 0 0 r1) as Hinit.
  { split; fold cur.
    - split.
      + unfold r1. rewrite length_upd. exact Hlen0.
      + intros s Hs. destruct (decide (s = cur)) as [-> | Hsc].
        * rewrite Hr1cur. apply (gr_row r0 Hg), Hs.
        * rewrite Hr1oth by lia. apply (gr_row r0 Hg), Hs.
      + intros s c Hs Hc. destruct (decide (s = cur)) as [-> | Hsc].
        * rewrite Hr1cur. apply (gr_tgt r0 Hg); assumption.
        * rewrite Hr1oth by lia. apply (gr_tgt r0 Hg); assumption.
      + intros s c Hs Hnvs Hc. destruct (decide (s = cur)) as [-> | Hsc]; [contradiction|].
        rewrite Hr1oth by lia. apply (gr_fresh r0 Hg); try assumption.
        intros H. apply Hnvs. apply Hmono1; assumption.
      + intros s c Hs Hc Hcell. destruct (decide (s = cur)) as [-> | Hsc].
        * rewrite Hr1cur in Hcell. apply (gr_image r0 Hg cur); assumption.
        * rewrite Hr1oth in Hcell by lia. apply (gr_image r0 Hg s); assumption.
    - intros s Hs Hv. apply Hr1oth; [lia|]. intros ->. contradiction.
    - auto.
    - intros i' j' Hi' Hj' [Hlt | [_ Hlt]]; lia.
    - intros i' j' Hi' Hj' [Hlt | [_ Hlt]]; lia.
    - intros i' j' Hi' Hj' _ Hne. rewrite Hr1cur. cbn [e_f].
      apply (gr_fresh r0 Hg); [exact Hcur | exact Hnv |].
      apply pair_letter_range; assumption.
    - intros t1 t2 Ht1 Ht2 Hvt Hnv0 Hneq. exfalso. apply Hnv0.
      unfold visited in *. rewrite Hr1oth in Hvt; [exact Hvt | | exact Hneq].
      pose proof (contract_range t1 t2 (a_n a1) (a_n a2) Ht1 Ht2). lia. }
  match goal with |- context [for_ _ ?b r1] => set (body := b) end.
  destruct (for_seqZ_inv (λ i r, rec_inv r0 r1 s1 s2 i 0 0 r) body 0 (a_na a1) r1)
    as (r' & Hrun & Hr').
  - apply (wa_na a1 Ha1).
  - exact Hinit.
  - intros i r Hi Hinv. unfold body.
    rewrite (wf_alloc_rd_f a1 Ha1) by lia. rewrite Ok_bind.
    pose proof (wa_tgt a1 Ha1 s1 i Hs1 ltac:(lia)) as He1.
    set (e1 := sel (e_f (sel (a_e a1) s1)) i) in *.
    destruct (decide (e1 < 0)) as [Hneg | Hpos].
    + (* no transition of [a1] *)
      exists r. split; [reflexivity|].
      assert (∀ j', pair_target a1 a2 s1 s2 i j' = -1) as Htg.
      { intros j'. unfold pair_target. cbv zeta. fold e1.
        rewrite decide_True by (left; exact Hneg). reflexivity. }
      destruct Hinv as [Hg' Hf Hm Hc Hcl Ht Ho]. split; try assumption.
      * intros i' j' Hi' Hj' Hbf Hne. destruct (decide (i' = i)) as [-> | Hii].
        -- rewrite Htg. apply Ht; try assumption. intros [H | [_ H]]; lia.
        -- apply Hc; try assumption. destruct Hbf as [H | [_ H]]; [left; lia | lia].
      * intros i' j' Hi' Hj' Hbf Hne Hne'. destruct (decide (i' = i)) as [-> | Hii].
        -- rewrite Htg in Hne'. contradiction.
        -- apply Hcl; try assumption. destruct Hbf as [H | [_ H]]; [left; lia | lia].
      * intros i' j' Hi' Hj' Hbf Hne. apply Ht; try assumption.
        intros [H | [_ H]]; [apply Hbf; left; lia | lia].
    + match goal with |- context [for_ _ ?b r] => set (inner := b) end.
      destruct (for_seqZ_inv (λ j r, rec_inv r0 r1 s1 s2 i j j r) inner 0 (a_na a2) r)
        as (r'' & Hrun'' & Hr'').
      * apply (wa_na a2 Ha2).
      * exact Hinv.
      * intros j rj Hj Hinvj. unfold inner.
        rewrite (wf_alloc_rd_f a2 Ha2) by lia. rewrite Ok_bind.
        pose proof (wa_tgt a2 Ha2 s2 j Hs2 ltac:(lia)) as He2.
        set (e2 := sel (e_f (sel (a_e a2) s2)) j) in *.
        assert (0 ≤ i < a_na a1) as Hi' by lia. assert (0 ≤ j < a_na a2) as Hj' by lia.
        pose proof (contract_range i j (a_na a1) (a_na a2) Hi' Hj') as Hk.
        rewrite bind_rd by lia. fold (pair_letter a1 d i j).
        destruct (decide (pair_letter a1 d i j ≠ -1)) as [Hl | Hl].
        -- pose proof (pair_letter_range i j Hi' Hj' Hl) as Hlr.
           pose proof (rec_inv_write r0 r1 s1 s2 i j rj Hs1 Hs2 Hi' Hj' Hv1 Hnv Hinvj Hl)
             as Hw. fold cur in Hw.
           pose proof (ri_grid _ _ _ _ _ _ _ _ Hinvj) as Hgj.
           pose proof (gr_len rj Hgj) as Hlenj. pose proof (gr_row rj Hgj cur Hcur) as Hrowj.
           destruct (decide (e2 < 0)) as [Hneg2 | Hpos2].
           ++ rewrite wr_f_upd by (fold n in Hcur; lia).
              assert (pair_target a1 a2 s1 s2 i j = -1) as Htg.
              { unfold pair_target. cbv zeta. fold e1 e2.
                rewrite decide_True by (right; exact Hneg2). reflexivity. }
              rewrite Htg in Hw. eexists. split; [reflexivity|].
              apply rec_inv_close; [exact Hw|]. intros H. contradiction.
           ++ assert (pair_target a1 a2 s1 s2 i j = contract e1 e2 (a_n a1)) as Htg.
              { unfold pair_target. cbv zeta. fold e1 e2.
                rewrite decide_False by lia. reflexivity. }
              rewrite Htg in Hw.
              assert (0 ≤ e1 < a_n a1) as He1r by lia.
              assert (0 ≤ e2 < a_n a2) as He2r by lia.
              pose proof (contract_range e1 e2 (a_n a1) (a_n a2) He1r He2r) as Hnext.
              set (next := contract e1 e2 (a_n a1)) in *.
              rewrite wr_f_upd by (fold n in Hcur; lia). rewrite Ok_bind.
              set (rw := upd rj cur _) in *.
              pose proof (ri_grid _ _ _ _ _ _ _ _ Hw) as Hgw.
              unfold rd_final. rewrite bind_rd by (rewrite (gr_len rw Hgw); exact Hnext).
              rewrite Ok_bind.
              destruct (decide (e_final (sel rw next) = 0)) as [Hz | Hnz].
              ** destruct (IH rw e1 e2 Hgw He1r He2r) as (rc & -> & Hgc & Hfc & Hvc & Hnewc).
                 { intros H. apply H, Hz. }
                 { pose proof (unvisited_nb_mono r1 rw (ri_mono _ _ _ _ _ _ _ _ Hw)). lia. }
                 exists rc. split; [reflexivity|].
                 apply rec_inv_close.
                 --- apply (rec_inv_hold r0 r1 s1 s2 i (j + 1) j rw rc); assumption.
                 --- intros _. rewrite Htg. exact Hvc.
              ** exists rw. split; [reflexivity|].
                 apply rec_inv_close; [exact Hw|]. intros _. rewrite Htg. exact Hnz.
        -- exists rj. split; [reflexivity|]. apply rec_inv_skip; [exact Hinvj|].
           destruct (decide (pair_letter a1 d i j = -1)); [assumption | contradiction].
      * exists r''. split; [exact Hrun''|].
        apply (rec_inv_ext r0 r1 s1 s2 i (0 + a_na a2) (0 + a_na a2) (i + 1) 0 0); [|exact Hr''].
        intros i' j' Hi' Hj'. unfold before. split; [split|]; intros H; lia.
  - exists r'. split; [exact Hrun|].
    destruct Hr' as [Hg' Hf Hm Hc Hcl Ht Ho]. fold cur in Hc, Hcl, Ht, Ho.
    split; [exact Hg'|]. split; [exact Hf|]. split; [apply Hm; assumption|].
    intros t1 t2 Ht1 Ht2 Hvt Hnv0.
    destruct (decide (contract t1 t2 (a_n a1) = cur)) as [Heq | Hneq].
    + destruct (contract_inj t1 t2 s1 s2 (a_n a1) Ht1 Hs1 Heq) as [-> ->].
      intros i j Hi Hj Hne. fold cur. split.
      * apply Hc; try assumption. left. lia.
      * apply Hcl; try assumption. left. lia.
    + apply Ho; assumption.
Qed.

(** The flag that the last loop of [Product] gives the state [s]. *)
Definition product_final (s : Z) : Z :=
  b2z (bool_decide (e_final (sel (a_e a1) (geti1 s (a_n a1))) ≠ 0)
       && bool_decide (e_final (sel (a_e a2) (geti2 s (a_n a1))) ≠ 0)).

Lemma Product_run :
  a_i a1 ≠ -1 → a_i a2 ≠ -1 →
  ∃ r', Product a1 a2 d
        = Ok (table n na (λ s c, sel (e_f (sel r' s)) c) product_final
                (contract (a_i a1) (a_i a2) (a_n a1)))
        ∧ grid r'
        ∧ visited r' (contract (a_i a1) (a_i a2) (a_n a1))
        ∧ (∀ t1 t2, 0 ≤ t1 < a_n a1 → 0 ≤ t2 < a_n a2 →
             visited r' (contract t1 t2 (a_n a1)) → row_done r' t1 t2).
Proof.
  intros Hi1 Hi2. pose proof (wf_i a1 H1) as Hi1r. pose proof (wf_i a2 H2) as Hi2r.
  assert (0 ≤ a_i a1 < a_n a1) as Hs1 by lia. assert (0 ≤ a_i a2 < a_n a2) as Hs2 by lia.
  pose proof (contract_range _ _ _ _ Hs1 Hs2) as Hcur. fold n in Hcur.
  pose proof (values_nonneg d) as Hna. fold na in Hna.
  unfold Product. cbv zeta. fold (values d). fold na. fold n.
  rewrite init_NewAutomaton by lia. rewrite Ok_bind. cbn [a_e a_n a_na].
  rewrite (decide_False (P := _ ∨ _)) by tauto.
  set (r0 := replicate (Z.to_nat n) (mkEtat (replicate (Z.to_nat na) (-1)) 0)).
  assert (∀ s, 0 ≤ s < n → sel r0 s = mkEtat (replicate (Z.to_nat na) (-1)) 0) as Hr0
    by (intros s Hs; apply sel_replicate; lia).
  assert (∀ s, 0 ≤ s < n → ¬ visited r0 s) as Hnv0.
  { intros s Hs Hv. apply Hv. rewrite Hr0 by exact Hs. reflexivity. }
  assert (grid r0) as Hg0.
  { split.
    - unfold r0. rewrite length_replicate. lia.
    - intros s Hs. rewrite Hr0 by exact Hs. cbn [e_f]. rewrite length_replicate. lia.
    - intros s c Hs Hc. rewrite Hr0 by exact Hs. cbn [e_f]. rewrite sel_replicate by lia. lia.
    - intros s c Hs _ Hc. rewrite Hr0 by exact Hs. cbn [e_f]. apply sel_replicate. lia.
    - intros s c Hs Hc Hcell. exfalso. apply Hcell. rewrite Hr0 by exact Hs. cbn [e_f].
      apply sel_replicate. lia. }
  destruct (Product_rec_spec (S (Z.to_nat n)) r0 (a_i a1) (a_i a2) Hg0 Hs1 Hs2)
    as (r' & -> & Hg' & _ & Hv' & Hdone).
  { apply Hnv0, Hcur. }
  { pose proof (unvisited_nb_le r0). lia. }
  rewrite Ok_bind. exists r'.
  split; [|split; [exact Hg'|split; [exact Hv'|]]].
  - pose proof (gr_len r' Hg') as Hlen'.
    rewrite (fill_rows _ _ _ (λ s, mkEtat (e_f (sel r' s)) (product_final s))).
    + rewrite Ok_bind. rewrite rows_done by exact Hlen'. f_equal. unfold table. f_equal.
      apply list_fmap_ext. intros k s Hs. apply lookup_seqZ in Hs as [-> Hk]. f_equal.
      rewrite <- (gr_row r' Hg' (0 + Z.of_nat k)) by lia.
      symmetry. apply fmap_seqZ_sel.
    + lia.
    + intros i es' Hi Hlen _ Hrest.
      assert (0 < a_n a1) as Hn1 by lia.
      assert (0 ≤ geti1 i (a_n a1) < a_n a1) as Hg1.
      { unfold geti1. apply Z.rem_bound_pos; lia. }
      assert (0 ≤ geti2 i (a_n a1) < a_n a2) as Hg2.
      { unfold geti2. rewrite Z.quot_div_nonneg by lia. split.
        - apply Z.div_pos; lia.
        - apply Z.div_lt_upper_bound; [lia|]. unfold n in Hi. lia. }
      rewrite (wf_alloc_rd_final a1 Ha1) by exact Hg1. rewrite Ok_bind.
      rewrite (wf_alloc_rd_final a2 Ha2) by exact Hg2. rewrite Ok_bind.
      rewrite wr_final_upd by lia. rewrite Hrest by lia. reflexivity.
  - intros t1 t2 Ht1 Ht2 Hvt. apply Hdone; try assumption.
    apply Hnv0. apply contract_range; assumption.
Qed.

(** The pairs of letters that have a letter in the product. *)
Definition paired (p : Z * Z) : Prop :=
  0 ≤ p.1 < a_na a1 ∧ 0 ≤ p.2 < a_na a2 ∧ pair_letter a1 d p.1 p.2 ≠ -1.

Section result_facts.
Context (r' : list Etat) (ri : Z).
Context (Hg' : grid r').
Context (Hdone : ∀ t1 t2, 0 ≤ t1 < a_n a1 → 0 ≤ t2 < a_n a2 →
                   visited r' (contract t1 t2 (a_n a1)) → row_done r' t1 t2).
Context (Hri : -1 ≤ ri < n).
Let R : Automaton := table n na (λ s c, sel (e_f (sel r' s)) c) product_final ri.

Lemma Product_result_wf : wf R.
Proof.
  apply table_wf.
  - pose proof (wf_n a1 H1). pose proof (wf_n a2 H2). unfold n. nia.
  - apply values_nonneg.
  - intros s c Hs Hc. apply (gr_tgt r' Hg'); assumption.
  - intros s Hs. unfold product_final. destruct (_ && _); [right | left]; reflexivity.
  - exact Hri.
Qed.

Lemma Product_result_final t1 t2 :
  0 ≤ t1 < a_n a1 → 0 ≤ t2 < a_n a2 →
  is_final R (contract t1 t2 (a_n a1)) = is_final a1 t1 && is_final a2 t2.
Proof.
  intros Ht1 Ht2. unfold R.
  rewrite (table_final _ _ _ _ _ Product_result_wf)
    by (apply contract_range; assumption).
  unfold product_final. rewrite geti1_contract, geti2_contract by lia.
  unfold is_final. rewrite (wf_alloc_rd_final a1 Ha1), (wf_alloc_rd_final a2 Ha2)
    by assumption.
  destruct (bool_decide (e_final (sel (a_e a1) t1) ≠ 0)),
           (bool_decide (e_final (sel (a_e a2) t2) ≠ 0)); reflexivity.
Qed.

Lemma Product_result_step t1 t2 i j :
  0 ≤ t1 < a_n a1 → 0 ≤ t2 < a_n a2 → visited r' (contract t1 t2 (a_n a1)) →
  paired (i, j) →
  step R (contract t1 t2 (a_n a1)) (pair_letter a1 d i j)
  = match step a1 t1 i, step a2 t2 j with
    | Some e1, Some e2 => Some (contract e1 e2 (a_n a1))
    | _, _ => None
    end
  ∧ ∀ e1 e2, step a1 t1 i = Some e1 → step a2 t2 j = Some e2 →
             0 ≤ e1 < a_n a1 ∧ 0 ≤ e2 < a_n a2
             ∧ visited r' (contract e1 e2 (a_n a1)).
Proof.
  intros Ht1 Ht2 Hvt (Hi & Hj & Hne). cbn [fst snd] in *.
  pose proof (pair_letter_range i j Hi Hj Hne) as Hl.
  destruct (Hdone t1 t2 Ht1 Ht2 Hvt i j Hi Hj Hne) as [Hcell Hclosed].
  unfold R. rewrite (table_step _ _ _ _ _ Product_result_wf)
    by (apply contract_range; assumption).
  rewrite decide_True by exact Hl. rewrite Hcell.
  rewrite (step_sel a1 t1 i Ha1 Ht1 Hi), (step_sel a2 t2 j Ha2 Ht2 Hj).
  pose proof (wa_tgt a1 Ha1 t1 i Ht1 Hi) as He1.
  pose proof (wa_tgt a2 Ha2 t2 j Ht2 Hj) as He2.
  revert Hclosed. unfold pair_target. cbv zeta.
  set (e1 := sel (e_f (sel (a_e a1) t1)) i) in *.
  set (e2 := sel (e_f (sel (a_e a2) t2)) j) in *.
  intros Hclosed.
  destruct (decide (e1 < 0 ∨ e2 < 0)) as [Hneg | Hpos].
  - rewrite decide_True by reflexivity.
    destruct (decide (e1 = -1)) as [E1 | E1]; [split; [reflexivity | discriminate]|].
    destruct (decide (e2 = -1)) as [E2 | E2]; [split; [reflexivity | discriminate]|].
    lia.
  - assert (0 ≤ e1 < a_n a1) as He1r by lia. assert (0 ≤ e2 < a_n a2) as He2r by lia.
    pose proof (contract_range e1 e2 _ _ He1r He2r) as Hc.
    rewrite decide_False by lia.
    rewrite (decide_False (P := e1 = -1)) by lia.
    rewrite (decide_False (P := e2 = -1)) by lia.
    split; [reflexivity|].
    intros ? ? [= <-] [= <-]. split; [exact He1r|]. split; [exact He2r|].
    apply Hclosed. lia.
Qed.

Lemma Product_accepts_from ps :
  Forall paired ps →
  ∀ t1 t2, 0 ≤ t1 < a_n a1 → 0 ≤ t2 < a_n a2 → visited r' (contract t1 t2 (a_n a1)) →
    accepts_from R (contract t1 t2 (a_n a1)) ((λ p, pair_letter a1 d p.1 p.2) <$> ps)
    = accepts_from a1 t1 (ps.*1) && accepts_from a2 t2 (ps.*2).
Proof.
  unfold accepts_from. induction ps as [|[i j] ps IH]; intros Hps t1 t2 Ht1 Ht2 Hvt.
  - simpl. apply Product_result_final; assumption.
  - destruct (Forall_cons_1 _ _ _ Hps) as [Hp Hps'].
    rewrite !fmap_cons. cbn [run fst snd].
    destruct (Product_result_step t1 t2 i j Ht1 Ht2 Hvt Hp) as [-> Hnext].
    destruct (step a1 t1 i) as [e1|]; [|reflexivity].
    destruct (step a2 t2 j) as [e2|]; [|rewrite andb_false_r; reflexivity].
    destruct (Hnext e1 e2 eq_refl eq_refl) as (He1 & He2 & Hv).
    apply IH; assumption.
Qed.

Lemma Product_letters w :
  ∀ t1 t2, 0 ≤ t1 < a_n a1 → 0 ≤ t2 < a_n a2 → visited r' (contract t1 t2 (a_n a1)) →
    accepts_from R (contract t1 t2 (a_n a1)) w = true →
    ∃ ps, Forall paired ps ∧ w = (λ p, pair_letter a1 d p.1 p.2) <$> ps.
Proof.
  unfold accepts_from. induction w as [|c w IH]; intros t1 t2 Ht1 Ht2 Hvt Hacc.
  - exists []. split; [constructor | reflexivity].
  - cbn [run] in Hacc.
    pose proof (contract_range t1 t2 _ _ Ht1 Ht2) as Hs.
    destruct (step R (contract t1 t2 (a_n a1)) c) as [t|] eqn:Hst; [|discriminate].
    pose proof Hst as Hst'. unfold R in Hst'.
    rewrite (table_step _ _ _ _ _ Product_result_wf) in Hst' by exact Hs.
    destruct (decide (0 ≤ c < na)) as [Hc | Hc]; [|discriminate].
    destruct (decide (sel (e_f (sel r' (contract t1 t2 (a_n a1)))) c = -1)) as [Hm | Hm];
      [discriminate|].
    destruct (gr_image r' Hg' _ c Hs Hc Hm) as (i & j & Hi & Hj & ->).
    assert (paired (i, j)) as Hp.
    { split; [exact Hi|]. split; [exact Hj|]. cbn [fst snd]. lia. }
    destruct (Product_result_step t1 t2 i j Ht1 Ht2 Hvt Hp) as [Heq Hnext].
    rewrite Heq in Hst.
    destruct (step a1 t1 i) as [e1|]; [|discriminate].
    destruct (step a2 t2 j) as [e2|]; [|discriminate].
    injection Hst as <-.
    destruct (Hnext e1 e2 eq_refl eq_refl) as (He1 & He2 & Hv).
    destruct (IH e1 e2 He1 He2 Hv Hacc) as (ps & Hps & ->).
    exists ((i, j) :: ps). split; [constructor; assumption | reflexivity].
Qed.
End result_facts.
End Product_facts.

(** X23.  The product of two automata over the pairs of letters that [d] gives a
    letter, each pair a letter of its own: a word of such letters is accepted
    exactly when [a1] accepts the word of the first letters and [a2] the word
    of the second letters, and no other word is accepted. *)
Theorem Product_language (a1 a2 : Automaton) (d : Dict) :
  wf a1 → wf a2 → a_na a1 * a_na a2 ≤ len d →
  (∀ k, 0 ≤ k < a_na a1 * a_na a2 → -1 ≤ sel d k) →
  (∀ k k', 0 ≤ k < a_na a1 * a_na a2 → 0 ≤ k' < a_na a1 * a_na a2 →
           sel d k = sel d k' → sel d k ≠ -1 → k = k') →
  ∃ r, Product a1 a2 d = Ok r
       ∧ wf r ∧ a_n r = a_n a1 * a_n a2 ∧ a_na r = values d
       ∧ (∀ ps, Forall (paired a1 a2 d) ps →
            accepts r ((λ p, pair_letter a1 d p.1 p.2) <$> ps)
            = accepts a1 (ps.*1) && accepts a2 (ps.*2))
       ∧ (∀ w, accepts r w = true →
            ∃ ps, Forall (paired a1 a2 d) ps
                  ∧ w = (λ p, pair_letter a1 d p.1 p.2) <$> ps).
Proof.
  intros H1 H2 Hd Hdr Hinj.
  pose proof (wf_n a1 H1) as Hn1. pose proof (wf_n a2 H2) as Hn2.
  pose proof (wf_i a1 H1) as Hi1. pose proof (wf_i a2 H2) as Hi2.
  pose proof (values_nonneg d) as Hna.
  destruct (decide (a_i a1 = -1 ∨ a_i a2 = -1)) as [Hnone | Hboth].
  - (* no initial state *)
    unfold Product. cbv zeta. fold (values d).
    rewrite init_NewAutomaton by nia. rewrite Ok_bind. cbn [a_e a_n a_na].
    rewrite (decide_True (P := _ ∨ _)) by exact Hnone.
    eexists. split; [reflexivity|]. split; [|split; [reflexivity|split; [reflexivity|]]].
    + split; cbn [a_e a_n a_na a_i].
      * rewrite length_replicate. nia.
      * exact Hna.
      * intros s [-> _]%elem_of_replicate. cbn [e_f]. rewrite length_replicate. lia.
      * intros s t [-> Hpos]%elem_of_replicate. cbn [e_f].
        intros [-> _]%elem_of_replicate. lia.
      * intros s [-> _]%elem_of_replicate. left. reflexivity.
      * destruct Hnone; nia.
    + split.
      * intros ps _. rewrite !accepts_accepts_from. cbn [a_i].
        rewrite decide_True by reflexivity.
        destruct Hnone as [Hm | Hm].
        -- rewrite (decide_True (P := a_i a1 = -1)) by exact Hm. reflexivity.
        -- rewrite (decide_True (P := a_i a2 = -1)) by exact Hm.
           rewrite andb_false_r. reflexivity.
      * intros w Hacc. rewrite accepts_accepts_from in Hacc. cbn [a_i] in Hacc.
        rewrite decide_True in Hacc by reflexivity. discriminate.
  - assert (a_i a1 ≠ -1) as Hs1 by tauto. assert (a_i a2 ≠ -1) as Hs2 by tauto.
    assert (0 ≤ a_i a1 < a_n a1) as Hr1 by lia. assert (0 ≤ a_i a2 < a_n a2) as Hr2 by lia.
    pose proof (contract_range _ _ _ _ Hr1 Hr2) as Hcur.
    destruct (Product_run a1 a2 d H1 H2 Hd Hdr Hinj Hs1 Hs2) as (r' & -> & Hg & Hv & Hdone).
    eexists. split; [reflexivity|].
    assert (-1 ≤ contract (a_i a1) (a_i a2) (a_n a1) < a_n a1 * a_n a2) as Hri by lia.
    split; [apply Product_result_wf; assumption|].
    split; [reflexivity|]. split; [reflexivity|]. split.
    + intros ps Hps. rewrite !accepts_accepts_from.
      set (R := table _ _ _ _ _).
      change (a_i R) with (contract (a_i a1) (a_i a2) (a_n a1)).
      rewrite (decide_False (P := contract _ _ _ = -1)) by lia.
      rewrite (decide_False (P := a_i a1 = -1)) by exact Hs1.
      rewrite (decide_False (P := a_i a2 = -1)) by exact Hs2.
      apply Product_accepts_from; assumption.
    + intros w Hacc. rewrite accepts_accepts_from in Hacc.
      set (R := table _ _ _ _ _) in Hacc.
      change (a_i R) with (contract (a_i a1) (a_i a2) (a_n a1)) in Hacc.
      rewrite (decide_False (P := contract _ _ _ = -1)) in Hacc by lia.
      eapply Product_letters; try eassumption.
Qed.

Lemma Product_language_witness :
  wf all_reachable ∧ 1 * 1 ≤ len [0]
  ∧ ∃ r, Product all_reachable all_reachable [0] = Ok r
         ∧ wf r ∧ a_n r = 2 * 2 ∧ a_na r = values [0]
         ∧ (∀ ps, Forall (paired all_reachable all_reachable [0]) ps →
              accepts r ((λ p, pair_letter all_reachable [0] p.1 p.2) <$> ps)
              = accepts all_reachable (ps.*1) && accepts all_reachable (ps.*2))
         ∧ (∀ w, accepts r w = true →
              ∃ ps, Forall (paired all_reachable all_reachable [0]) ps
                    ∧ w = (λ p, pair_letter all_reachable [0] p.1 p.2) <$> ps).
Proof.
  assert (wf all_reachable) as HA by (apply wfb_wf; reflexivity).
  split; [exact HA|]. split; [change (1 * 1 ≤ 1); lia|].
  apply (Product_language all_reachable all_reachable [0] HA HA).
  - change (1 * 1 ≤ 1). lia.
  - intros k Hk. change (a_na all_reachable) with 1 in Hk.
    assert (k = 0) as -> by lia. change (sel [0] 0) with 0. lia.
  - intros k k' Hk Hk' _ _. change (a_na all_reachable) with 1 in Hk, Hk'. lia.
Defined.

(** ** [init] *)

(** The automaton of [n] states without a transition, a final state or an
    initial state. *)
Definition blank (n na : Z) : Automaton := table n na (λ _ _, -1) (λ _, 0) (-1).

Lemma blank_wf n na : 0 ≤ n → 0 ≤ na → wf (blank n na).
Proof. intros Hn Hna. apply table_wf; try lia; intros; lia || auto. Qed.

Lemma blank_rows n na :
  (λ s : Z, mkEtat ((λ _ : Z, -1) <$> seqZ 0 na) 0) <$> seqZ 0 n
  = replicate (Z.to_nat n) (mkEtat (replicate (Z.to_nat na) (-1)) 0).
Proof.
  assert (∀ (T : Type) (x : T) m k, (λ _ : Z, x) <$> seqZ m k = replicate (Z.to_nat k) x)
    as Hconst.
  { intros T x m k. rewrite (const_fmap (λ _ : Z, x) (seqZ m k) x) by reflexivity.
    rewrite length_seqZ. reflexivity. }
  rewrite Hconst. rewrite Hconst. reflexivity.
Qed.

Lemma const_row (x : Z) na : (λ _ : Z, x) <$> seqZ 0 na = replicate (Z.to_nat na) x.
Proof.
  rewrite (const_fmap (λ _ : Z, x) (seqZ 0 na) x) by reflexivity.
  rewrite length_seqZ. reflexivity.
Qed.

(** X24.  Whatever the rows of [a] hold, [init] leaves no transition, no final
    state and no initial state. *)
Theorem init_spec (a : Automaton) :
  len (a_e a) = a_n a → 0 ≤ a_na a →
  (∀ s, 0 ≤ s < a_n a → len (e_f (sel (a_e a) s)) = a_na a) →
  ∃ r, init a = Ok r ∧ wf r ∧ a_n r = a_n a ∧ a_na r = a_na a ∧ a_i r = -1
       ∧ (∀ s c, 0 ≤ s < a_n a → step r s c = None)
       ∧ (∀ s, 0 ≤ s < a_n a → is_final r s = false).
Proof.
  intros Hn Hna Hrows. exists (blank (a_n a) (a_na a)).
  assert (wf (blank (a_n a) (a_na a))) as Hwf by (apply blank_wf; lia).
  split; [|split; [exact Hwf|split; [reflexivity|split; [reflexivity|split; [reflexivity|]]]]].
  - rewrite init_eq; [| exact Hn | exact Hna |].
    + unfold blank, table. rewrite blank_rows. reflexivity.
    + intros s (k & Hk & <-)%sel_elem_of. apply Hrows. lia.
  - split.
    + intros s c Hs. unfold blank. rewrite (table_step _ _ _ _ _ Hwf) by exact Hs.
      destruct (decide (0 ≤ c < a_na a)); [|reflexivity].
      rewrite decide_True by reflexivity. reflexivity.
    + intros s Hs. unfold blank. rewrite (table_final _ _ _ _ _ Hwf) by exact Hs.
      reflexivity.
Qed.

Lemma init_spec_witness :
  len (a_e contains_1) = a_n contains_1 ∧ 0 ≤ a_na contains_1
  ∧ ∃ r, init contains_1 = Ok r ∧ wf r ∧ a_n r = a_n contains_1
         ∧ a_na r = a_na contains_1 ∧ a_i r = -1
         ∧ (∀ s c, 0 ≤ s < a_n contains_1 → step r s c = None)
         ∧ (∀ s, 0 ≤ s < a_n contains_1 → is_final r s = false).
Proof.
  assert (wf contains_1) as HA by (apply wfb_wf; reflexivity).
  split; [apply (wf_n _ HA)|]. split; [apply (wf_na _ HA)|].
  apply init_spec; [apply (wf_n _ HA) | apply (wf_na _ HA) |].
  apply (wa_row _ (wf_wf_alloc _ HA)).
Defined.

(** ** [Determinise] without an initial state *)

(** The automaton of one state, initial and final, that loops on each of
    the [na] letters. *)
Definition every_word (na : Z) : Automaton := table 1 na (λ _ _, 0) (λ _, 1) 0.

Lemma every_word_wf na : 0 ≤ na → wf (every_word na).
Proof. intros Hna. apply table_wf; try lia; intros; lia || auto. Qed.

Lemma every_word_accepts na w :
  0 ≤ na → accepts (every_word na) w = forallb (λ c, bool_decide (0 ≤ c < na)) w.
Proof.
  intros Hna. pose proof (every_word_wf na Hna) as Hwf.
  rewrite accepts_accepts_from. change (a_i (every_word na)) with 0.
  rewrite decide_False by discriminate. unfold accepts_from.
  induction w as [|c w IH]; simpl.
  - unfold every_word. rewrite (table_final _ _ _ _ _ Hwf) by lia. reflexivity.
  - unfold every_word at 1. rewrite (table_step _ _ _ _ _ Hwf) by lia.
    destruct (decide (0 ≤ c < na)) as [Hc | Hc].
    + rewrite bool_decide_eq_true_2 by exact Hc. rewrite decide_False by discriminate.
      exact IH.
    + rewrite bool_decide_eq_false_2 by exact Hc. reflexivity.
Qed.

(** X25.  Without an initial state [Determinise] does not look at the transitions
    of [a]: it returns the automaton without states, or with [nof] the
    automaton that accepts every word over the letters of [d]. *)
Theorem Determinise_no_initial (fuel : nat) (a : Automaton) (d : Dict)
    (noempty onlyfinals nof : bool) :
  a_i a = -1 → (∀ i, 0 ≤ i < len d → -1 ≤ sel d i) →
  ∃ r, Determinise fuel a d noempty onlyfinals nof = Ok r
       ∧ wf r ∧ a_na r = values d ∧ a_n r = (if nof then 1 else 0)
       ∧ ∀ w, accepts r w = nof && forallb (λ c, bool_decide (0 ≤ c < values d)) w.
Proof.
  intros Hi Hd. pose proof (values_nonneg d) as Hnv.
  unfold Determinise. rewrite invertDict_eq by exact Hd. rewrite Ok_bind. cbv zeta.
  rewrite decide_True by exact Hi.
  assert (Z.of_nat (length (places d <$> seqZ 0 (values d))) = values d) as ->
    by (apply len_fmap_seqZ; lia).
  destruct nof.
  - exists (every_word (values d)).
    split; [|split; [apply every_word_wf; lia|split; [reflexivity|split; [reflexivity|]]]].
    + unfold NewAutomaton. rewrite decide_False by discriminate. cbn [a_e a_n a_na].
      rewrite wr_final_upd by (simpl; lia). rewrite Ok_bind.
      rewrite (for_wr_f_const _ 0 0 (mkEtat (replicate (Z.to_nat (values d)) UNINIT) 1)
                 (values d)); [| reflexivity | lia |].
      * rewrite Ok_bind. unfold every_word, table. f_equal. f_equal.
        simpl. rewrite const_row. reflexivity.
      * cbn [e_f]. rewrite length_replicate. lia.
    + intros w. apply every_word_accepts. lia.
  - exists (NewAutomaton 0 (values d)). split; [reflexivity|].
    split; [apply wfb_wf; unfold wfb; simpl; rewrite bool_decide_eq_true_2 by lia; reflexivity|].
    split; [reflexivity|]. split; [reflexivity|]. intros w. reflexivity.
Qed.

Lemma Determinise_no_initial_witness :
  a_i (mkAutomate [mkEtat [0] 1] 1 1 (-1)) = -1
  ∧ ∃ r, Determinise 0 (mkAutomate [mkEtat [0] 1] 1 1 (-1)) [0] false false true = Ok r
         ∧ wf r ∧ a_na r = values [0] ∧ a_n r = 1
         ∧ ∀ w, accepts r w = true && forallb (λ c, bool_decide (0 ≤ c < values [0])) w.
Proof.
  split; [reflexivity|].
  apply (Determinise_no_initial 0 (mkAutomate [mkEtat [0] 1] 1 1 (-1)) [0] false false true).
  - reflexivity.
  - intros i Hi. change (len [0]) with 1 in Hi. assert (i = 0) as -> by lia.
    change (sel [0] 0) with 0. lia.
Defined.

(** ** [Minimise]: the automata without a final state or without a state *)

(** An automaton without a final state accepts no word. *)
Lemma no_final_accepts a w :
  wf_alloc a → (∀ s, 0 ≤ s < a_n a → is_final a s = false) → accepts a w = false.
Proof.
  intros Ha Hnf. rewrite accepts_accepts_from. pose proof (wa_i a Ha) as Hi.
  case_decide as Hnone; [reflexivity|]. unfold accepts_from.
  destruct (run a (a_i a) w) as [t|] eqn:Hrun; [|reflexivity].
  apply Hnf. apply (run_in_range a w Ha (a_i a) t); [lia | exact Hrun].
Qed.

(** X26.  [Minimise] returns an automaton of the same language for every
    automaton that has a state, with or without a final state. *)
Theorem Minimise_language_kept (A : Automaton) :
  wf A → 1 ≤ a_n A →
  ∃ r, Minimise A = Ok r ∧ wf_alloc r ∧ a_na r = a_na A
       ∧ ∀ w, accepts r w = accepts A w.
Proof.
  intros HA Hn1. pose proof (wf_wf_alloc A HA) as Ha.
  destruct (least_failure (λ s, is_final A s = false) (a_n A) ltac:(lia))
    as [Hnone | (s & Hs & Hfin & _)].
  - (* no final state *)
    destruct (Minimise_total A Ha Hn1) as (r & Hr & Hwf & Hna & Hnr & _).
    exists r. split; [exact Hr|]. split; [exact Hwf|]. split; [exact Hna|].
    intros w. rewrite (no_final_accepts A w Ha Hnone).
    apply no_final_accepts; [exact Hwf|].
    destruct (Minimise_exec A Ha Hn1) as (h & r0 & Hpart & Hq & Hncl & _ & Hrun).
    pose proof (quotient_wf_alloc A Ha h Hpart r0 Hq) as Hwf0.
    assert (∀ c, 0 ≤ c < a_n r0 → e_final (sel (a_e r0) c) = 0) as Hfin0.
    { intros c Hc. rewrite (iq_n A h r0 Hq) in Hc. rewrite (iq_fin A h r0 Hq) by exact Hc.
      unfold qfin. pose proof (rep_range A h Hpart c Hc) as Hrep.
      destruct (decide (a_n A ≤ rep h c)) as [Hsink | Hstate]; [reflexivity|].
      assert (0 ≤ rep h c < a_n A) as Hr' by lia.
      pose proof (Hnone (rep h c) Hr') as Hf. unfold is_final in Hf.
      rewrite (wf_alloc_rd_final A Ha) in Hf by exact Hr'.
      apply bool_decide_eq_false in Hf.
      destruct (decide (e_final (sel (a_e A) (rep h c)) = 0)); [assumption | contradiction]. }
    assert (∀ s, 0 ≤ s < a_n r → e_final (sel (a_e r) s) = 0) as Hfinr.
    { rewrite Hrun in Hr.
      destruct (decide (hi h (cls h (a_n A)) = lo h (cls h (a_n A)) + 1)) as [Hone | Hmore].
      - destruct (DeleteVertexOP_deleted r0 Hwf0 (cls h (a_n A))) as (r' & Hr' & Hdl).
        { rewrite (iq_n A h r0 Hq). exact Hncl. }
        rewrite Hr' in Hr. injection Hr as <-.
        intros s Hs. rewrite (dl_n _ _ _ Hdl) in Hs.
        rewrite (dl_fin _ _ _ Hdl) by exact Hs. apply Hfin0.
        destruct (bool_decide _); simpl; lia.
      - injection Hr as <-. exact Hfin0. }
    intros s Hs. unfold is_final. rewrite (wf_alloc_rd_final r Hwf) by exact Hs.
    rewrite (Hfinr s Hs). reflexivity.
  - (* a final state *)
    destruct (Minimise_correct A Ha) as (r & Hr & Hwf & Hna & Hlang & _).
    { exists s. split; [exact Hs|]. rewrite <- (is_final_state A Ha) by exact Hs.
      destruct (is_final A s); [reflexivity | contradiction]. }
    exists r. auto.
Qed.

Lemma Minimise_language_kept_witness :
  wf (mkAutomate [mkEtat [-1] 0] 1 1 0) ∧ 1 ≤ 1
  ∧ ∃ r, Minimise (mkAutomate [mkEtat [-1] 0] 1 1 0) = Ok r ∧ wf_alloc r
         ∧ a_na r = 1
         ∧ ∀ w, accepts r w = accepts (mkAutomate [mkEtat [-1] 0] 1 1 0) w.
Proof.
  assert (wf (mkAutomate [mkEtat [-1] 0] 1 1 0)) as HA by (apply wfb_wf; reflexivity).
  split; [exact HA|]. split; [lia|].
  apply (Minimise_language_kept (mkAutomate [mkEtat [-1] 0] 1 1 0) HA). simpl. lia.
Defined.

(** X27.  Without a state, [Minimise] writes outside [class_indices], which has
    room for the class of the sink only. *)
Theorem Minimise_no_state (A : Automaton) :
  wf A → a_n A = 0 → Minimise A = OutOfBounds.
Proof.
  intros HA Hn0. pose proof (wf_wf_alloc A HA) as Ha.
  unfold Minimise. cbv zeta. hsimpl.
  destruct (transitioni_init A Ha) as (t1 & t & Ht1 & Ht & _).
  cbv zeta in Ht1. rewrite Ht1, Ok_bind, Ht, Ok_bind. rewrite Hn0. reflexivity.
Qed.

Lemma Minimise_no_state_witness :
  wf (mkAutomate [] 0 2 (-1)) ∧ a_n (mkAutomate [] 0 2 (-1)) = 0
  ∧ Minimise (mkAutomate [] 0 2 (-1)) = OutOfBounds.
Proof.
  assert (wf (mkAutomate [] 0 2 (-1))) as HA by (apply wfb_wf; reflexivity).
  split; [exact HA|]. split; [reflexivity|].
  exact (Minimise_no_state (mkAutomate [] 0 2 (-1)) HA eq_refl).
Defined.

(** ** The sets of states of [Determinise] *)

Lemma wrap32_id z : -2147483648 ≤ z ≤ 2147483647 → wrap32 z = z.
Proof.
  intros Hz. unfold wrap32.
  rewrite Z.mod_small by lia. lia.
Qed.

Lemma hash_from (e : Etats) h0 :
  0 ≤ h0 < nhash → (∀ x, x ∈ e → 0 ≤ x ≤ 2147483647 - 2 * nhash) →
  0 ≤ foldl (λ h x, Z.rem (wrap32 (wrap32 (h * 2) + x)) nhash) h0 e < nhash.
Proof.
  revert h0. induction e as [|x e IH]; intros h0 Hh He; simpl; [exact Hh|].
  apply IH.
  - pose proof (He x ltac:(left)) as Hx. unfold nhash in Hh, Hx.
    rewrite (wrap32_id (h0 * 2)) by lia.
    rewrite (wrap32_id (h0 * 2 + x)) by lia.
    apply Z.rem_bound_pos; [lia | unfold nhash; lia].
  - intros y Hy. apply He. right. exact Hy.
Qed.

(** X28.  The hash of a list of states that are at most
    [INT_MAX - 2 * nhash] is the index of a bucket of the table: the
    computation stays within the 32 bits of [h]. *)
Theorem hash_range (e : Etats) :
  (∀ x, x ∈ e → 0 ≤ x ≤ 2147483647 - 2 * nhash) → 0 ≤ hash e < nhash.
Proof. intros He. apply hash_from; [unfold nhash; lia | exact He]. Qed.

Lemma hash_range_witness :
  (∀ x, x ∈ [3; 1; 2] → 0 ≤ x ≤ 2147483647 - 2 * nhash)
  ∧ 0 ≤ hash [3; 1; 2] < nhash.
Proof.
  assert (∀ x, x ∈ [3; 1; 2] → 0 ≤ x ≤ 2147483647 - 2 * nhash) as He.
  { intros x Hx. unfold nhash.
    repeat (apply elem_of_cons in Hx as [-> | Hx]; [lia|]). inversion Hx. }
  split; [exact He|]. exact (hash_range [3; 1; 2] He).
Defined.

(** Beyond this bound [h += e.e[i]] leaves the 32 bits and the hash is not
    the index of a bucket: [add] fails on the set. *)
Example hash_wraps : hash [2147483647] = -7479581.
Proof. reflexivity. Qed.

Example add_wraps l nf : add [] l [2147483647] nf = OutOfBounds.
Proof. reflexivity. Qed.

(** A list without repetition of states below [cap] has room for one more
    state that it does not hold. *)
Lemma room_left (cap : Z) (f : Etats) (ef : Z) :
  NoDup f → (∀ x, x ∈ f → 0 ≤ x < cap) → 0 ≤ ef < cap → ef ∉ f → len f < cap.
Proof.
  intros Hnd Hf Hef Hnew.
  assert (ef :: f ⊆+ seqZ 0 cap) as Hsub.
  { apply NoDup_submseteq; [apply NoDup_cons_2; assumption|].
    intros x [-> | Hx]%elem_of_cons; apply elem_of_seqZ; [lia|].
    pose proof (Hf x Hx). lia. }
  apply submseteq_length in Hsub. rewrite length_seqZ in Hsub. simpl in Hsub. lia.
Qed.

(** X29.  [putEtat] adds a state of [a] to a list without repetition of states of
    [a]: the list stays without repetition and within the [cap] cells of the
    buffer. *)
Theorem putEtat_spec (cap : Z) (f : Etats) (ef : Z) :
  NoDup f → (∀ x, x ∈ f → 0 ≤ x < cap) → 0 ≤ ef < cap →
  ∃ f', putEtat cap f ef = Ok f'
        ∧ f' = (if bool_decide (ef ∈ f) then f else f ++ [ef])
        ∧ NoDup f' ∧ len f' ≤ cap
        ∧ (∀ x, x ∈ f' ↔ x ∈ f ∨ x = ef).
Proof.
  intros Hnd Hf Hef. unfold putEtat.
  destruct (bool_decide (ef ∈ f)) eqn:Hin.
  - apply bool_decide_eq_true in Hin. exists f. split; [reflexivity|].
    split; [reflexivity|]. split; [exact Hnd|]. split.
    + destruct f as [|x f']; [inversion Hin|].
      pose proof (room_left cap f' x) as Hroom.
      pose proof (NoDup_cons_1_1 _ _ Hnd) as Hx.
      pose proof (NoDup_cons_1_2 _ _ Hnd) as Hnd'.
      pose proof (Hf x ltac:(left)) as Hxr.
      assert (len f' < cap) as Hlt.
      { apply Hroom; try assumption. intros y Hy. apply Hf. right. exact Hy. }
      simpl length. lia.
    + intros x. split; [auto|]. intros [Hx | ->]; assumption.
  - apply bool_decide_eq_false in Hin.
    pose proof (room_left cap f ef Hnd Hf Hef Hin) as Hroom.
    rewrite decide_True by exact Hroom.
    exists (f ++ [ef]). split; [reflexivity|]. split; [reflexivity|]. split.
    + apply list.NoDup_app. split; [exact Hnd|]. split; [|apply NoDup_singleton].
      intros x Hx ->%list_elem_of_singleton. contradiction.
    + split; [rewrite length_app; simpl; lia|].
      intros x. rewrite elem_of_app, list_elem_of_singleton. reflexivity.
Qed.

Lemma putEtat_spec_witness :
  NoDup [2; 0] ∧ 0 ≤ 1 < 3
  ∧ ∃ f', putEtat 3 [2; 0] 1 = Ok f'
          ∧ f' = (if bool_decide (1 ∈ [2; 0]) then [2; 0] else [2; 0] ++ [1])
          ∧ NoDup f' ∧ len f' ≤ 3
          ∧ (∀ x, x ∈ f' ↔ x ∈ [2; 0] ∨ x = 1).
Proof.
  assert (NoDup [2; 0]) as Hnd.
  { apply NoDup_cons_2; [|apply NoDup_singleton].
    intros H%list_elem_of_singleton. discriminate. }
  split; [exact Hnd|]. split; [lia|].
  apply (putEtat_spec 3 [2; 0] 1 Hnd); [|lia].
  intros x Hx. repeat (apply elem_of_cons in Hx as [-> | Hx]; [lia|]). inversion Hx.
Defined.

(** ** [StronglyConnectedComponents] *)

(** The marks go when the flags are restored. *)
Lemma marking_restored A a :
  wf A → marking A a → flag_only <$> a_e a = a_e A.
Proof.
  intros HA Hm. pose proof (wf_wf_alloc A HA) as Ha. pose proof (wf_n A HA) as Hn.
  apply list_eq_sel.
  - rewrite length_fmap. rewrite (mk_len A a Hm). lia.
  - intros k Hk. rewrite length_fmap, (mk_len A a Hm) in Hk.
    rewrite sel_fmap by (rewrite (mk_len A a Hm); lia).
    unfold flag_only. rewrite (mk_f A a Hm k Hk).
    destruct (mk_fin A a Hm k Hk) as [-> | ->];
      destruct (sel (a_e A) k) as [f fin] eqn:Hs; cbn [e_f e_final];
      pose proof (wa_fin A Ha k Hk) as Hfin; rewrite Hs in Hfin; cbn [e_final] in Hfin;
      destruct Hfin as [-> | ->]; reflexivity.
Qed.

(** The states on the stack. *)
Definition stacked (t : Tarjan) (s : Z) : Prop :=
  ∃ p, 0 ≤ p < t_compteur t ∧ sel (t_pile t) p = s.

(** The stack holds marked states without a component, each once; the other
    marked states have their component, numbered below [compteur2]. *)
Record tarjan_inv (A : Automaton) (t : Tarjan) : Prop := mktarjan_inv
  { ti_mark : marking A (t_a t);
    ti_pile : len (t_pile t) = a_n A;
    ti_m : len (t_m t) = a_n A;
    ti_res : len (t_res t) = a_n A;
    ti_cpt : 0 ≤ t_compteur t ≤ a_n A;
    ti_cpt2 : 0 ≤ t_compteur2 t;
    ti_stack : ∀ p, 0 ≤ p < t_compteur t →
                 0 ≤ sel (t_pile t) p < a_n A
                 ∧ seen (t_a t) (sel (t_pile t) p)
                 ∧ sel (t_res t) (sel (t_pile t) p) = -1;
    ti_nodup : ∀ p q, 0 ≤ p < t_compteur t → 0 ≤ q < t_compteur t →
                 sel (t_pile t) p = sel (t_pile t) q → p = q;
    ti_seen : ∀ s, 0 ≤ s < a_n A → seen (t_a t) s → sel (t_res t) s = -1 → stacked t s;
    ti_unseen : ∀ s, 0 ≤ s < a_n A → ¬ seen (t_a t) s → sel (t_res t) s = -1;
    ti_num : ∀ s, 0 ≤ s < a_n A → sel (t_res t) s ≠ -1 →
               0 ≤ sel (t_res t) s < t_compteur2 t;
    ti_low : ∀ s, 0 ≤ s < a_n A → seen (t_a t) s → 0 ≤ sel (t_m t) s }.

(** The loop that pops the component of [etat], which is on the stack at
    the place [c] and nowhere above. *)
Lemma unstack_spec (n : Z) (a : Automaton) (pile m : list Z) (cpt2 etat c : Z) :
  len pile = n → 0 ≤ c → sel pile c = etat →
  ∀ (k : nat) (fuel : nat) (res : list Z),
    len res = n → (k < fuel)%nat → c + 1 + Z.of_nat k ≤ n →
    (∀ p, c ≤ p < c + 1 + Z.of_nat k → 0 ≤ sel pile p < n) →
    (∀ p, c < p < c + 1 + Z.of_nat k → sel pile p ≠ etat) →
    ∃ res',
      unstack fuel (mkTarjan a pile m res (c + 1 + Z.of_nat k) cpt2) etat
      = Ok (mkTarjan a pile m res' c cpt2)
      ∧ len res' = n
      ∧ (∀ s, 0 ≤ s → (∃ p, c ≤ p < c + 1 + Z.of_nat k ∧ sel pile p = s) →
              sel res' s = cpt2)
      ∧ (∀ s, 0 ≤ s → (∀ p, c ≤ p < c + 1 + Z.of_nat k → sel pile p ≠ s) →
              sel res' s = sel res s).
Proof.
  intros Hpile Hc Hetat.
  induction k as [|k IH]; intros fuel res Hres Hfuel Htop Hrange Habove;
    (destruct fuel as [|fuel]; [lia|]); cbn [unstack t_compteur t_pile t_res t_compteur2
                                               t_a t_m].
  - replace (c + 1 + Z.of_nat 0 - 1) with c by lia.
    rewrite bind_rd by lia. rewrite Hetat.
    pose proof (Hrange c ltac:(lia)) as Hr. rewrite Hetat in Hr.
    rewrite bind_wr by lia. rewrite decide_False by (intros H; apply H; reflexivity).
    eexists. split; [reflexivity|]. split; [rewrite length_upd; exact Hres|]. split.
    + intros s Hs (p & Hp & <-). assert (p = c) as -> by lia. rewrite Hetat.
      apply sel_upd_eq. lia.
    + intros s Hs Hnot. apply sel_upd_ne; [lia | lia |].
      intros <-. apply (Hnot c); [lia | exact Hetat].
  - replace (c + 1 + Z.of_nat (S k) - 1) with (c + 1 + Z.of_nat k) by lia.
    rewrite bind_rd by lia.
    pose proof (Hrange (c + 1 + Z.of_nat k) ltac:(lia)) as Hr.
    set (top := sel pile (c + 1 + Z.of_nat k)) in *.
    rewrite bind_wr by lia.
    rewrite decide_True by (apply Habove; lia).
    destruct (IH fuel (upd res top cpt2)) as (res' & Hrun & Hlen & Hpop & Hkeep).
    + rewrite length_upd. exact Hres.
    + lia.
    + lia.
    + intros p Hp. apply Hrange. lia.
    + intros p Hp. apply Habove. lia.
    + exists res'. split; [exact Hrun|]. split; [exact Hlen|]. split.
      * intros s Hs (p & Hp & Hps).
        destruct (decide (p = c + 1 + Z.of_nat k)) as [-> | Hne].
        -- destruct (decide (s ∈ (sel pile <$> seqZ c (1 + Z.of_nat k)))) as [Hin | Hnin].
           ++ apply Hpop; [exact Hs|].
              apply list_elem_of_fmap in Hin as (q & -> & Hq%elem_of_seqZ).
              exists q. split; [lia | reflexivity].
           ++ rewrite Hkeep; [| exact Hs |].
              ** fold top in Hps. rewrite <- Hps. apply sel_upd_eq. lia.
              ** intros q Hq Hqs. apply Hnin. apply list_elem_of_fmap.
                 exists q. split; [symmetry; exact Hqs | apply elem_of_seqZ; lia].
        -- apply Hpop; [exact Hs|]. exists p. split; [lia | exact Hps].
      * intros s Hs Hnot. rewrite Hkeep; [| exact Hs |].
        -- apply sel_upd_ne; [lia | lia |]. intros Heq.
           apply (Hnot (c + 1 + Z.of_nat k)); [lia|]. exact Heq.
        -- intros q Hq. apply Hnot. lia.
Qed.

Section scc_facts.
Context (A : Automaton) (HA : wf A).
Let Ha : wf_alloc A := wf_wf_alloc A HA.

(** The stack has room for a state that is not marked. *)
Lemma stack_room t etat :
  tarjan_inv A t → 0 ≤ etat < a_n A → ¬ seen (t_a t) etat → t_compteur t < a_n A.
Proof.
  intros Hi He Hns. pose proof (ti_cpt A t Hi) as Hc.
  pose proof (room_left (a_n A) (sel (t_pile t) <$> seqZ 0 (t_compteur t)) etat) as Hroom.
  rewrite len_fmap_seqZ in Hroom by lia. apply Hroom.
  - apply NoDup_fmap_2_strong; [|apply NoDup_seqZ].
    intros p q Hp%elem_of_seqZ Hq%elem_of_seqZ Heq.
    apply (ti_nodup A t Hi); [lia | lia | exact Heq].
  - intros x (p & -> & Hp%elem_of_seqZ)%list_elem_of_fmap.
    apply (ti_stack A t Hi). lia.
  - exact He.
  - intros (p & -> & Hp%elem_of_seqZ)%list_elem_of_fmap.
    apply Hns. apply (ti_stack A t Hi). lia.
Qed.

(** The state [etat] is pushed and marked. *)
Lemma tarjan_push a pile m res cpt cpt2 etat es :
  tarjan_inv A (mkTarjan a pile m res cpt cpt2) →
  0 ≤ etat < a_n A → ¬ seen a etat →
  marking A (with_e a es) → seen (with_e a es) etat →
  (∀ s, 0 ≤ s → s ≠ etat → sel es s = sel (a_e a) s) →
  tarjan_inv A (mkTarjan (with_e a es) (upd pile cpt etat) (upd m etat cpt) res
                  (cpt + 1) cpt2).
Proof.
  intros Hi He Hns Hm1 Hseen1 Hoth.
  pose proof (stack_room _ etat Hi He Hns) as Hroom.
  destruct Hi as [Hm Hpl Hml Hrl Hc Hc2 Hst Hnd Hsn Hun Hnum Hlow].
  cbn [t_a t_pile t_m t_res t_compteur t_compteur2] in *.
  assert (∀ s, 0 ≤ s → s ≠ etat → seen (with_e a es) s ↔ seen a s) as Hsame.
  { intros s Hs Hne. unfold seen. cbn [with_e a_e]. rewrite Hoth by assumption.
    reflexivity. }
  split; cbn [t_a t_pile t_m t_res t_compteur t_compteur2].
  - exact Hm1.
  - rewrite length_upd. exact Hpl.
  - rewrite length_upd. exact Hml.
  - exact Hrl.
  - lia.
  - exact Hc2.
  - intros p Hp. rewrite sel_upd by lia. destruct (decide (p = cpt)) as [-> | Hne].
    + split; [exact He|]. split; [exact Hseen1|]. apply Hun; assumption.
    + destruct (Hst p ltac:(lia)) as (Hr & Hs & Hres).
      split; [exact Hr|]. split; [|exact Hres].
      apply Hsame; [lia | | exact Hs]. intros Heq. apply Hns. rewrite <- Heq. exact Hs.
  - intros p q Hp Hq. rewrite !sel_upd by lia.
    destruct (decide (p = cpt)) as [-> | Hpc], (decide (q = cpt)) as [-> | Hqc];
      intros Heq; [reflexivity | | |].
    + exfalso. apply Hns. rewrite Heq. apply (Hst q). lia.
    + exfalso. apply Hns. rewrite <- Heq. apply (Hst p). lia.
    + apply Hnd; [lia | lia | exact Heq].
  - intros s Hs Hseen Hres. destruct (decide (s = etat)) as [-> | Hne].
    + exists cpt. cbn [t_compteur t_pile]. split; [lia|]. apply sel_upd_eq. lia.
    + destruct (Hsn s Hs) as (p & Hp & Hps); [apply Hsame; [lia | exact Hne | exact Hseen]
                                              | exact Hres |].
      cbn [t_compteur t_pile] in *. exists p. cbn [t_compteur t_pile].
      split; [lia|]. rewrite sel_upd_ne by lia. exact Hps.
  - intros s Hs Hnseen. apply Hun; [exact Hs|]. intros Hseen. apply Hnseen.
    destruct (decide (s = etat)) as [-> | Hne]; [exact Hseen1|].
    apply Hsame; [lia | exact Hne | exact Hseen].
  - exact Hnum.
  - intros s Hs Hseen. rewrite sel_upd by lia.
    destruct (decide (s = etat)) as [-> | Hne]; [lia|].
    apply Hlow; [exact Hs|]. apply Hsame; [lia | exact Hne | exact Hseen].
Qed.

(** [m[etat] = min(m[etat], m[f])]. *)
Lemma tarjan_lower t etat f :
  tarjan_inv A t → 0 ≤ etat < a_n A → 0 ≤ f < a_n A →
  seen (t_a t) etat → seen (t_a t) f →
  tarjan_inv A (mkTarjan (t_a t) (t_pile t)
                  (upd (t_m t) etat (Z.min (sel (t_m t) etat) (sel (t_m t) f)))
                  (t_res t) (t_compteur t) (t_compteur2 t)).
Proof.
  intros [Hm Hpl Hml Hrl Hc Hc2 Hst Hnd Hsn Hun Hnum Hlow] He Hf Hse Hsf.
  split; cbn [t_a t_pile t_m t_res t_compteur t_compteur2]; try assumption.
  - rewrite length_upd. exact Hml.
  - intros s Hs Hseen. rewrite sel_upd by lia.
    destruct (decide (s = etat)) as [-> | Hne]; [|apply Hlow; assumption].
    pose proof (Hlow etat He Hse). pose proof (Hlow f Hf Hsf). lia.
Qed.

(** The component of [etat] is popped. *)
Lemma tarjan_pop a pile m res cpt cpt2 etat c res' :
  tarjan_inv A (mkTarjan a pile m res cpt cpt2) →
  0 ≤ c < cpt → sel pile c = etat →
  len res' = a_n A →
  (∀ s, 0 ≤ s → (∃ p, c ≤ p < cpt ∧ sel pile p = s) → sel res' s = cpt2) →
  (∀ s, 0 ≤ s → (∀ p, c ≤ p < cpt → sel pile p ≠ s) → sel res' s = sel res s) →
  tarjan_inv A (mkTarjan a pile m res' c (cpt2 + 1)).
Proof.
  intros [Hm Hpl Hml Hrl Hc Hc2 Hst Hnd Hsn Hun Hnum Hlow] Hcr Hetat Hlen Hpop Hkeep.
  cbn [t_a t_pile t_m t_res t_compteur t_compteur2] in *.
  assert (∀ s, 0 ≤ s < a_n A →
            (∃ p, c ≤ p < cpt ∧ sel pile p = s) ∨ (∀ p, c ≤ p < cpt → sel pile p ≠ s))
    as Hcase.
  { intros s Hs.
    destruct (decide (s ∈ (sel pile <$> seqZ c (cpt - c)))) as [Hin | Hnin].
    - left. apply list_elem_of_fmap in Hin as (q & -> & Hq%elem_of_seqZ).
      exists q. split; [lia | reflexivity].
    - right. intros q Hq Hqs. apply Hnin. apply list_elem_of_fmap.
      exists q. split; [symmetry; exact Hqs | apply elem_of_seqZ; lia]. }
  split; cbn [t_a t_pile t_m t_res t_compteur t_compteur2]; try assumption.
  - lia.
  - lia.
  - intros p Hp. destruct (Hst p ltac:(lia)) as (Hr & Hs & Hres).
    split; [exact Hr|]. split; [exact Hs|]. rewrite Hkeep; [exact Hres | lia |].
    intros q Hq Heq. assert (q = p) by (apply Hnd; [lia | lia | exact Heq]). lia.
  - intros p q Hp Hq. apply Hnd; lia.
  - intros s Hs Hseen Hres.
    destruct (Hcase s Hs) as [Hpopped | Hkept].
    + rewrite (Hpop s ltac:(lia) Hpopped) in Hres. lia.
    + rewrite (Hkeep s ltac:(lia) Hkept) in Hres.
      destruct (Hsn s Hs Hseen Hres) as (p & Hp & Hps).
      cbn [t_compteur t_pile] in *. exists p. cbn [t_compteur t_pile].
      split; [|exact Hps]. destruct (decide (p < c)) as [Hlt | Hge]; [lia|].
      exfalso. apply (Hkept p); [lia | exact Hps].
  - intros s Hs Hnseen. rewrite Hkeep; [apply Hun; assumption | lia |].
    intros p Hp Heq. apply Hnseen. rewrite <- Heq. apply (Hst p). lia.
  - intros s Hs Hres. destruct (Hcase s Hs) as [Hpopped | Hkept].
    + rewrite (Hpop s ltac:(lia) Hpopped). lia.
    + rewrite (Hkeep s ltac:(lia) Hkept) in *. pose proof (Hnum s Hs Hres). lia.
Qed.

(** What a call on [etat] leaves, entered with [t]. *)
Record scc_post (t : Tarjan) (etat : Z) (t' : Tarjan) : Prop := mkscc_post
  { sp_inv : tarjan_inv A t';
    sp_mono : ∀ s, 0 ≤ s < a_n A → seen (t_a t) s → seen (t_a t') s;
    sp_seen : seen (t_a t') etat;
    sp_cpt : t_compteur t ≤ t_compteur t';
    sp_pile : ∀ p, 0 ≤ p < t_compteur t → sel (t_pile t') p = sel (t_pile t) p;
    sp_m : ∀ s, 0 ≤ s < a_n A → seen (t_a t) s → sel (t_m t') s = sel (t_m t) s;
    sp_res : ∀ s, 0 ≤ s < a_n A → seen (t_a t) s → sel (t_res t') s = sel (t_res t) s;
    sp_cpt2 : t_compteur2 t ≤ t_compteur2 t';
    sp_low : sel (t_m t') etat ≤ t_compteur t;
    sp_root : sel (t_m t') etat = t_compteur t → t_compteur t' = t_compteur t }.

(** The table inside the call on [etat], whose loop has reached a letter:
    [a1], [pile1] are the marks and the stack once [etat] is pushed. *)
Record scc_loop (a : Automaton) (m res : list Z) (cpt cpt2 : Z) (a1 : Automaton)
    (pile1 : list Z) (etat : Z) (t2 : Tarjan) : Prop := mkscc_loop
  { rl_inv : tarjan_inv A t2;
    rl_mono : ∀ s, 0 ≤ s < a_n A → seen a1 s → seen (t_a t2) s;
    rl_cpt : cpt + 1 ≤ t_compteur t2;
    rl_pile : ∀ p, 0 ≤ p ≤ cpt → sel (t_pile t2) p = sel pile1 p;
    rl_m : ∀ s, 0 ≤ s < a_n A → seen a s → sel (t_m t2) s = sel m s;
    rl_res : ∀ s, 0 ≤ s < a_n A → seen a s → sel (t_res t2) s = sel res s;
    rl_cpt2 : cpt2 ≤ t_compteur2 t2;
    rl_low : sel (t_m t2) etat ≤ cpt }.

Lemma scc_loop_lower a m res cpt cpt2 a1 pile1 etat t f :
  0 ≤ etat < a_n A → 0 ≤ f < a_n A → ¬ seen a etat → seen a1 etat →
  seen (t_a t) f →
  scc_loop a m res cpt cpt2 a1 pile1 etat t →
  scc_loop a m res cpt cpt2 a1 pile1 etat
    (mkTarjan (t_a t) (t_pile t)
       (upd (t_m t) etat (Z.min (sel (t_m t) etat) (sel (t_m t) f)))
       (t_res t) (t_compteur t) (t_compteur2 t)).
Proof.
  intros He Hf Hns Hs1 Hsf [Hi Hmono Hc Hp Hm Hr Hc2 Hlow].
  pose proof (ti_m A t Hi) as Hml.
  split; cbn [t_a t_pile t_m t_res t_compteur t_compteur2]; try assumption.
  - apply tarjan_lower; try assumption. apply Hmono; assumption.
  - intros s Hs Hseen. rewrite sel_upd_ne; [apply Hm; assumption | lia | lia |].
    intros ->. contradiction.
  - rewrite sel_upd_eq by lia. lia.
Qed.

Lemma StronglyConnectedComponents_rec_spec fuel :
  ∀ t etat, tarjan_inv A t → 0 ≤ etat < a_n A → ¬ seen (t_a t) etat →
    (unseen_nb A (t_a t) < fuel)%nat →
    ∃ t', StronglyConnectedComponents_rec fuel t etat = Ok t' ∧ scc_post t etat t'.
Proof.
  induction fuel as [|fuel IH]; intros t etat Hi He Hns Hfuel; [lia|].
  pose proof (stack_room t etat Hi He Hns) as Hroom.
  destruct t as [a pile m res cpt cpt2].
  cbn [t_a t_pile t_m t_res t_compteur t_compteur2] in *.
  pose proof Hi as [Hm Hpl Hml Hrl Hc Hc2 Hst Hnd Hsn Hun Hnum Hlow].
  cbn [t_a t_pile t_m t_res t_compteur t_compteur2] in *.
  cbn [StronglyConnectedComponents_rec t_a t_pile t_m t_res t_compteur t_compteur2].
  rewrite bind_wr by lia. rewrite bind_wr by lia. cbv zeta.
  rewrite (marking_rd_final A a etat Hm He). rewrite Ok_bind.
  destruct (mark_state A a etat Hm He) as (es & -> & Hm1 & Hseen1 & Hoth1 & Hmono1).
  rewrite Ok_bind. cbn [t_a t_pile t_m t_res t_compteur t_compteur2].
  set (a1 := with_e a es) in *. set (pile1 := upd pile cpt etat).
  set (t1 := mkTarjan a1 pile1 (upd m etat cpt) res (cpt + 1) cpt2).
  assert (tarjan_inv A t1) as Hi1 by (apply tarjan_push; assumption).
  assert (unseen_nb A a1 < fuel)%nat as Hfuel1.
  { pose proof (unseen_nb_lt A a a1 etat Hmono1 He Hns Hseen1). lia. }
  assert (∀ s, 0 ≤ s < a_n A → seen a s → s ≠ etat) as Hold.
  { intros s Hs Hseen ->. contradiction. }
  assert (scc_loop a m res cpt cpt2 a1 pile1 etat t1) as Hinit.
  { split; unfold t1; cbn [t_a t_pile t_m t_res t_compteur t_compteur2]; auto; try lia.
    - intros s Hs Hseen. apply sel_upd_ne; [lia | lia |]. intros Heq.
      apply (Hold s Hs Hseen). symmetry. exact Heq.
    - rewrite sel_upd_eq by lia. lia. }
  change (a_na a1) with (a_na a). rewrite (mk_na A a Hm).
  match goal with |- context [for_ _ ?b t1] => set (body := b) end.
  destruct (for_seqZ_inv (λ _ t2, scc_loop a m res cpt cpt2 a1 pile1 etat t2)
              body 0 (a_na A) t1) as (t2 & -> & Hloop).
  - apply (wa_na A Ha).
  - exact Hinit.
  - intros j t2 Hj Hl. unfold body.
    pose proof (rl_inv _ _ _ _ _ _ _ _ _ Hl) as Hi2.
    pose proof (ti_mark A t2 Hi2) as Hm2.
    rewrite (marking_rd_f A HA (t_a t2) etat j Hm2 He).
    rewrite (wf_alloc_rd_f A Ha) by lia. rewrite Ok_bind.
    pose proof (wa_tgt A Ha etat j He ltac:(lia)) as Htgt.
    set (f := sel (e_f (sel (a_e A) etat)) j) in *.
    destruct (decide (f = -1)) as [Hf | Hf]; [exists t2; split; [reflexivity | exact Hl]|].
    assert (0 ≤ f < a_n A) as Hfr by lia.
    rewrite (marking_rd_final A (t_a t2) f Hm2 Hfr). rewrite Ok_bind.
    pose proof (ti_m A t2 Hi2) as Hml2. pose proof (ti_res A t2 Hi2) as Hrl2.
    destruct (decide (Z.land (e_final (sel (a_e (t_a t2)) f)) 2 = 0)) as [Hsf | Hsf].
    + (* the child is visited *)
      assert (¬ seen (t_a t2) f) as Hnsf by (intros H; apply H, Hsf).
      destruct (IH t2 f Hi2 Hfr Hnsf) as (t3 & -> & Hpost).
      { pose proof (unseen_nb_mono A a1 (t_a t2) (rl_mono _ _ _ _ _ _ _ _ _ Hl)). lia. }
      rewrite Ok_bind.
      destruct Hpost as [Hi3 Hmono3 Hseen3 Hc3 Hp3 Hm3 Hr3 Hc23 _ _].
      destruct Hl as [_ Hmono2 Hcpt2 Hp2 Hm2' Hr2 Hc22 Hlow2].
      pose proof (ti_m A t3 Hi3) as Hml3.
      rewrite bind_rd by lia. rewrite bind_rd by lia. rewrite bind_wr by lia.
      eexists. split; [reflexivity|].
      apply scc_loop_lower; try assumption.
      split; try assumption.
      * intros s Hs Hseen. apply Hmono3; [exact Hs|]. apply Hmono2; assumption.
      * lia.
      * intros p Hp. rewrite Hp3 by lia. apply Hp2. exact Hp.
      * intros s Hs Hseen. rewrite Hm3; [apply Hm2'; assumption | exact Hs |].
        apply Hmono2; [exact Hs|]. apply Hmono1; assumption.
      * intros s Hs Hseen. rewrite Hr3; [apply Hr2; assumption | exact Hs |].
        apply Hmono2; [exact Hs|]. apply Hmono1; assumption.
      * lia.
      * rewrite Hm3; [exact Hlow2 | exact He |]. apply Hmono2; assumption.
    + rewrite bind_rd by lia.
      destruct (decide (sel (t_res t2) f = -1)) as [Hrf | Hrf];
        [|exists t2; split; [reflexivity | exact Hl]].
      rewrite bind_rd by lia. rewrite bind_rd by lia. rewrite bind_wr by lia.
      eexists. split; [reflexivity|].
      apply scc_loop_lower; assumption.
  - rewrite Ok_bind. destruct Hloop as [Hi2 Hmono2 Hcpt2 Hp2 Hm2 Hr2 Hc22 Hlow2].
    destruct t2 as [a2 pile2 m2 res2 c2 cp2].
    cbn [t_a t_pile t_m t_res t_compteur t_compteur2] in *.
    pose proof Hi2 as [Hmk2 Hpl2 Hml2 Hrl2 Hcb2 Hc2b Hst2 Hnd2 Hsn2 Hun2 Hnum2 Hlw2].
    cbn [t_a t_pile t_m t_res t_compteur t_compteur2] in *.
    rewrite bind_rd by lia.
    assert (sel pile2 cpt = etat) as Htop.
    { rewrite Hp2 by lia. unfold pile1. apply sel_upd_eq. lia. }
    assert (∀ s, 0 ≤ s < a_n A → seen a s → seen a2 s) as Hmono.
    { intros s Hs Hseen. apply Hmono2; [exact Hs|]. apply Hmono1; assumption. }
    destruct (decide (sel m2 etat = cpt)) as [Hroot | Hnroot].
    + (* the component is popped *)
      destruct (unstack_spec (a_n A) a2 pile2 m2 cp2 etat cpt Hpl2 ltac:(lia) Htop
                  (Z.to_nat (c2 - cpt - 1)) (Z.to_nat c2) res2)
        as (res' & Hrun & Hlen' & Hpop & Hkeep).
      * exact Hrl2.
      * lia.
      * lia.
      * intros p Hp. apply (Hst2 p). lia.
      * intros p Hp Heq. rewrite <- Htop in Heq.
        assert (p = cpt) by (apply Hnd2; [lia | lia | exact Heq]). lia.
      * replace (cpt + 1 + Z.of_nat (Z.to_nat (c2 - cpt - 1))) with c2 in * by lia.
        rewrite Hrun. rewrite Ok_bind.
        cbn [t_a t_pile t_m t_res t_compteur t_compteur2].
        eexists. split; [reflexivity|].
        split; cbn [t_a t_pile t_m t_res t_compteur t_compteur2]; try assumption; try lia.
        -- apply (tarjan_pop a2 pile2 m2 res2 c2 cp2 etat cpt res'); try assumption. lia.
        -- apply Hmono2; assumption.
        -- intros p Hp. rewrite Hp2 by lia. apply sel_upd_ne; lia.
        -- intros s Hs Hseen. rewrite Hkeep; [apply Hr2; assumption | lia |].
           intros p Hp Heq.
           destruct (decide (sel res s = -1)) as [Hr | Hr].
           ++ destruct (Hsn s Hs Hseen Hr) as (q & Hq & Hqs).
              cbn [t_compteur t_pile] in *.
              assert (sel pile2 q = s) as Hq2.
              { rewrite Hp2 by lia. unfold pile1. rewrite sel_upd_ne by lia. exact Hqs. }
              assert (p = q) by (apply Hnd2; [lia | lia | congruence]). lia.
           ++ destruct (Hst2 p ltac:(lia)) as (_ & _ & Hres2). rewrite Heq in Hres2.
              rewrite (Hr2 s Hs Hseen) in Hres2. contradiction.
    + eexists. split; [reflexivity|].
      split; cbn [t_a t_pile t_m t_res t_compteur t_compteur2]; try assumption; try lia.
      * apply Hmono2; assumption.
      * intros p Hp. rewrite Hp2 by lia. apply sel_upd_ne; lia.
Qed.
End scc_facts.

(** The traversal is started at each state that has no number yet, and
    numbers it with all the states of its component. *)
Lemma StronglyConnectedComponents_total (A : Automaton) :
  wf A →
  ∃ res ncc, StronglyConnectedComponents A = Ok (A, res, ncc)
             ∧ len res = a_n A
             ∧ ∀ i, 0 ≤ i < a_n A → 0 ≤ sel res i < ncc.
Proof.
  intros HA. pose proof (wf_wf_alloc A HA) as Ha. pose proof (wf_n A HA) as Hn.
  assert (0 ≤ a_n A) as Hn0 by lia.
  unfold StronglyConnectedComponents. cbv zeta.
  set (raw := replicate (Z.to_nat (a_n A)) UNINIT).
  assert (len raw = a_n A) as Hraw by (unfold raw; rewrite length_replicate; lia).
  destruct (for_seqZ_inv (λ i r, len r = a_n A ∧ ∀ j, 0 ≤ j < i → sel r j = -1)
              (λ i res, wr res i (-1)) 0 (a_n A) raw) as (res0 & -> & Hl0 & Hres0).
  - exact Hn0.
  - split; [exact Hraw | intros; lia].
  - intros i r Hi [Hl Hr]. rewrite wr_upd by lia. eexists. split; [reflexivity|].
    split; [rewrite length_upd; exact Hl|].
    intros j Hj. rewrite sel_upd by lia.
    destruct (decide (j = i)); [reflexivity | apply Hr; lia].
  - rewrite Ok_bind.
    assert (tarjan_inv A (mkTarjan A raw raw res0 0 0)) as Hi0.
    { split; cbn [t_a t_pile t_m t_res t_compteur t_compteur2]; try assumption; try lia.
      - apply marking_refl, HA.
      - intros s Hs Hseen. exfalso. exact (not_seen_A A HA s Hs Hseen).
      - intros s Hs _. apply Hres0. lia.
      - intros s Hs Hne. exfalso. apply Hne, Hres0. lia.
      - intros s Hs Hseen. exfalso. exact (not_seen_A A HA s Hs Hseen). }
    match goal with |- context [for_ _ ?b (mkTarjan _ _ _ _ _ _)] => set (body := b) end.
    destruct (for_seqZ_inv
                (λ i t, tarjan_inv A t ∧ t_compteur t = 0
                        ∧ ∀ j, 0 ≤ j < i → sel (t_res t) j ≠ -1)
                body 0 (a_n A) (mkTarjan A raw raw res0 0 0))
      as (t & -> & Hi & Hc & Hall).
    + exact Hn0.
    + split; [exact Hi0|]. split; [reflexivity | intros; lia].
    + intros i t Hir (Hi & Hc & Hdone). unfold body.
      pose proof (ti_res A t Hi) as Hrl.
      rewrite bind_rd by lia.
      destruct (decide (sel (t_res t) i = -1)) as [Hri | Hri].
      * assert (¬ seen (t_a t) i) as Hns.
        { intros Hseen. destruct (ti_seen A t Hi i ltac:(lia) Hseen Hri) as (p & Hp & _).
          lia. }
        destruct (StronglyConnectedComponents_rec_spec A HA (S (Z.to_nat (a_n A))) t i)
          as (t' & -> & Hpost); [exact Hi | lia | exact Hns | |].
        { pose proof (unseen_nb_le A (t_a t)). lia. }
        destruct Hpost as [Hi' Hmono Hseen Hcpt _ _ Hres _ Hlow Hroot].
        pose proof (ti_low A t' Hi' i ltac:(lia) Hseen) as Hm0.
        assert (t_compteur t' = 0) as Hc' by (rewrite Hroot; lia).
        exists t'. split; [reflexivity|]. split; [exact Hi'|]. split; [exact Hc'|].
        intros j Hj Hrj.
        assert (seen (t_a t') j) as Hsj.
        { destruct (decide (j = i)) as [-> | Hji]; [exact Hseen|].
          apply Hmono; [lia|].
          destruct (decide (Z.land (e_final (sel (a_e (t_a t)) j)) 2 = 0)) as [Hz | Hnz];
            [|exact Hnz].
          exfalso. apply (Hdone j ltac:(lia)). apply (ti_unseen A t Hi); [lia|].
          intros H. apply H, Hz. }
        destruct (ti_seen A t' Hi' j ltac:(lia) Hsj Hrj) as (p & Hp & _). lia.
      * exists t. split; [reflexivity|]. split; [exact Hi|]. split; [exact Hc|].
        intros j Hj. destruct (decide (j = i)) as [-> | Hji]; [exact Hri|].
        apply Hdone. lia.
    + rewrite Ok_bind. pose proof (ti_mark A t Hi) as Hm.
      rewrite restore_loop by apply (mk_len A (t_a t) Hm). rewrite Ok_bind.
      rewrite (marking_restored A (t_a t) HA Hm).
      exists (t_res t), (t_compteur2 t). split; [|split].
      * f_equal. f_equal. f_equal. destruct A; reflexivity.
      * apply (ti_res A t Hi).
      * intros i Hir. apply (ti_num A t Hi); [exact Hir|]. apply Hall. lia.
Qed.

(** X30.  [StronglyConnectedComponents] returns for every automaton: each state
    receives a component number below the number of components that is
    returned, and the argument is as it was. *)
Theorem StronglyConnectedComponents_numbers (A : Automaton) :
  wf A →
  ∃ res ncc, StronglyConnectedComponents A = Ok (A, res, ncc)
             ∧ len res = a_n A
             ∧ ∀ i, 0 ≤ i < a_n A → 0 ≤ sel res i < ncc.
Proof. exact (StronglyConnectedComponents_total A). Qed.

Lemma StronglyConnectedComponents_numbers_witness :
  wf contains_1
  ∧ ∃ res ncc, StronglyConnectedComponents contains_1 = Ok (contains_1, res, ncc)
               ∧ len res = a_n contains_1
               ∧ ∀ i, 0 ≤ i < a_n contains_1 → 0 ≤ sel res i < ncc.
Proof.
  assert (wf contains_1) as HA by (apply wfb_wf; reflexivity).
  split; [exact HA|]. exact (StronglyConnectedComponents_numbers contains_1 HA).
Defined.

(** ** What the operations leave of their arguments *)


Section frame_block.
Context (p1 p2 : nat) (st0 : store) (A1 A2 : Automaton).
Context (H1 : st0 !! p1 = Some A1) (H2 : st0 !! p2 = Some A2).
Context (HA1 : wf_alloc A1) (HA2 : wf_alloc A2).




End frame_block.










